(** * Vehicle core of OpenTTD: spatial tile hash, consist links, per-tick
    scheduler, depot entry, breakdown roll, load percentage and unit numbers.

    A shallow embedding of [src/vehicle.cpp].  Every section embeds the
    functions it names, with the C++ integer types written out over [Z],
    pointers as optional vehicle identifiers, and loops that follow pointers
    driven by an explicit amount of fuel. *)

From stdpp Require Import base numbers list option functions gmap sorting.
Local Open Scope Z_scope.

(** ** Helpers of [core/bitmath_func.hpp] and [core/math_func.hpp] *)

Module Core.

(** Modelled from the spec: [GB(x, s, n)] of core/bitmath_func.hpp fetches
    [n] bits of [x] starting at bit [s] ("indexed by top 6 bits",
    "hash(c) = (c >> R) & (2^B - 1)"). *)
Definition GB (x s n : Z) : Z := Z.land (Z.shiftr x s) (Z.ones n).

(** Modelled from the spec: [SetBit] and [ClrBit] of core/bitmath_func.hpp
    mark or clear one bit of the allocator bitmap. *)
Definition SetBit (x y : Z) : Z := Z.setbit x y.
Definition ClrBit (x y : Z) : Z := Z.clearbit x y.

Fixpoint ctz (p : positive) : Z :=
  match p with
  | xO q => 1 + ctz q
  | _ => 0
  end.

(** Modelled from the spec: [FindFirstBit] of core/bitmath_func.hpp is the
    position of the lowest set bit (0 for an empty word); the allocator hands
    out "small unique IDs with reuse". *)
Definition FindFirstBit (x : Z) : Z :=
  match x with
  | Zpos p => ctz p
  | _ => 0
  end.

(** Modelled from the spec: [Clamp(a, min, max)] of core/math_func.hpp,
    "clamped to half/double the previous smoothed value". *)
Definition Clamp (a lo hi : Z) : Z :=
  if a <=? lo then lo else if hi <=? a then hi else a.

(** Modelled from the spec: [ClampTo<T>] of core/math_func.hpp saturates a
    value at the bounds of the integer type [T]. *)
Definition ClampTo (lo hi a : Z) : Z := Z.max lo (Z.min a hi).
Definition ClampTo_uint8 : Z -> Z := ClampTo 0 255.
Definition ClampTo_uint16 : Z -> Z := ClampTo 0 65535.
Definition INT32_MIN : Z := - 2 ^ 31.
Definition INT32_MAX : Z := 2 ^ 31 - 1.
Definition ClampTo_int32 : Z -> Z := ClampTo INT32_MIN INT32_MAX.

(** Modelled from the spec: [CeilDiv(a, b)] of core/math_func.hpp, the
    quotient rounded up, on unsigned operands. *)
Definition CeilDiv (a b : Z) : Z := (a + b - 1) `div` b.

Lemma ctz_nonneg p : 0 <= ctz p.
Proof. induction p; simpl; lia. Qed.

Lemma ctz_testbit p : Z.testbit (Zpos p) (ctz p) = true.
Proof.
  induction p as [q IH|q IH|]; simpl; try reflexivity.
  pose proof (ctz_nonneg q).
  replace (1 + ctz q) with (Z.succ (ctz q)) by lia.
  change (Zpos q~0) with (2 * Zpos q).
  rewrite Z.testbit_even_succ; auto.
Qed.

Lemma ctz_lowest p j : 0 <= j < ctz p -> Z.testbit (Zpos p) j = false.
Proof.
  revert j. induction p as [q IH|q IH|]; simpl; intros j Hj; try lia.
  destruct (decide (j = 0)) as [->|Hne]; [reflexivity|].
  replace j with (Z.succ (j - 1)) by lia.
  change (Zpos q~0) with (2 * Zpos q).
  rewrite Z.testbit_even_succ by lia. apply IH. lia.
Qed.

Lemma FindFirstBit_spec x :
  0 < x ->
  0 <= FindFirstBit x /\ Z.testbit x (FindFirstBit x) = true /\
  forall j, 0 <= j < FindFirstBit x -> Z.testbit x j = false.
Proof.
  destruct x as [|p|p]; try lia. intros _. simpl.
  split; [apply ctz_nonneg|]. split; [apply ctz_testbit|apply ctz_lowest].
Qed.

Lemma GB_range x s n : 0 <= n -> 0 <= GB x s n < 2 ^ n.
Proof.
  intros Hn. unfold GB.
  assert (H : Z.land (Z.shiftr x s) (Z.ones n) = (Z.shiftr x s) `mod` 2 ^ n)
    by (apply Z.land_ones; lia).
  rewrite H. apply Z.mod_pos_bound. apply Z.pow_pos_nonneg; lia.
Qed.

End Core.

(** ** The tile hash: [UpdateVehicleTileHash] and [VehiclesOnTile] *)

Module TileHash.
Import Core.

Definition VehicleID := nat.

Definition TILE_HASH_BITS : Z := 7.
Definition TILE_HASH_SIZE : Z := Z.shiftl 1 TILE_HASH_BITS.
Definition TILE_HASH_MASK : Z := TILE_HASH_SIZE - 1.
Definition TOTAL_TILE_HASH_SIZE : Z := Z.shiftl 1 (TILE_HASH_BITS * 2).
Definition TILE_HASH_RES : Z := 0.

Definition GetTileHash1D (p : Z) : Z := GB p TILE_HASH_RES TILE_HASH_BITS.
Definition IncTileHash1D (h : Z) : Z := Z.land (h + 1) TILE_HASH_MASK.
Definition ComposeTileHash (hx hy : Z) : Z := Z.lor hx (Z.shiftl hy TILE_HASH_BITS).
Definition GetTileHash (x y : Z) : Z :=
  ComposeTileHash (GetTileHash1D x) (GetTileHash1D y).

(** A [Vehicle **]: the address of an entry of [_vehicle_tile_hash] or of
    the [hash_tile_next] field of a vehicle. *)
Inductive Link :=
| Bucket (h : Z)
| NextOf (v : VehicleID).

#[global] Instance Link_eq_dec : EqDecision Link.
Proof. solve_decision. Defined.

(** The fields of [Vehicle] that the tile hash uses.  [hash_tile_current]
    points at an entry of the table and is held as the index of that entry. *)
Record Vehicle := {
  tile : Z;
  hash_tile_next : option VehicleID;
  hash_tile_prev : option Link;
  hash_tile_current : option Z;
}.

(** The vehicle pool and the table [_vehicle_tile_hash]. *)
Record State := {
  vehicles : VehicleID -> Vehicle;
  _vehicle_tile_hash : Z -> option VehicleID;
}.

Definition set_hash_tile_next (s : State) (v : VehicleID) (x : option VehicleID) : State :=
  let r := vehicles s v in
  {| vehicles := <[v := {| tile := tile r; hash_tile_next := x;
                          hash_tile_prev := hash_tile_prev r;
                          hash_tile_current := hash_tile_current r |}]> (vehicles s);
     _vehicle_tile_hash := _vehicle_tile_hash s |}.

Definition set_hash_tile_prev (s : State) (v : VehicleID) (x : option Link) : State :=
  let r := vehicles s v in
  {| vehicles := <[v := {| tile := tile r; hash_tile_next := hash_tile_next r;
                          hash_tile_prev := x;
                          hash_tile_current := hash_tile_current r |}]> (vehicles s);
     _vehicle_tile_hash := _vehicle_tile_hash s |}.

Definition set_hash_tile_current (s : State) (v : VehicleID) (x : option Z) : State :=
  let r := vehicles s v in
  {| vehicles := <[v := {| tile := tile r; hash_tile_next := hash_tile_next r;
                          hash_tile_prev := hash_tile_prev r;
                          hash_tile_current := x |}]> (vehicles s);
     _vehicle_tile_hash := _vehicle_tile_hash s |}.

(** [*p] and [*p = x] for a [Vehicle **p]. *)
Definition load (s : State) (p : Link) : option VehicleID :=
  match p with
  | Bucket h => _vehicle_tile_hash s h
  | NextOf v => hash_tile_next (vehicles s v)
  end.

Definition store (s : State) (p : Link) (x : option VehicleID) : State :=
  match p with
  | Bucket h => {| vehicles := vehicles s;
                   _vehicle_tile_hash := <[h := x]> (_vehicle_tile_hash s) |}
  | NextOf v => set_hash_tile_next s v x
  end.

Section Map.

(** [TileX] and [TileY] split a tile index into its coordinates; they are
    declared with the map, outside [vehicle.cpp]. *)
Variable TileX TileY : Z -> Z.

Definition tile_bucket (t : Z) : Z := GetTileHash (TileX t) (TileY t).

(** "Remove from the old position in the hash table"; [None] when
    [hash_tile_prev] is null. *)
Definition unlink (s : State) (v : VehicleID) : option State :=
  let s := match hash_tile_next (vehicles s v) with
           | Some n => set_hash_tile_prev s n (hash_tile_prev (vehicles s v))
           | None => s
           end in
  match hash_tile_prev (vehicles s v) with
  | Some p => Some (store s p (hash_tile_next (vehicles s v)))
  | None => None
  end.

(** "Insert vehicle at beginning of the new position in the hash table". *)
Definition link_first (s : State) (v : VehicleID) (h : Z) : State :=
  let s := set_hash_tile_next s v (load s (Bucket h)) in
  let s := match hash_tile_next (vehicles s v) with
           | Some n => set_hash_tile_prev s n (Some (NextOf v))
           | None => s
           end in
  let s := set_hash_tile_prev s v (Some (Bucket h)) in
  store s (Bucket h) (Some v).

Definition UpdateVehicleTileHash (s : State) (v : VehicleID) (remove : bool)
  : option State :=
  let old_hash := hash_tile_current (vehicles s v) in
  let new_hash := if remove then None
                  else Some (tile_bucket (tile (vehicles s v))) in
  if decide (old_hash = new_hash) then Some s
  else
    s ← match old_hash with
        | Some _ => unlink s v
        | None => Some s
        end;
    let s := match new_hash with
             | Some h => link_first s v h
             | None => s
             end in
    Some (set_hash_tile_current s v new_hash).

Definition UpdatePosition (s : State) (v : VehicleID) : option State :=
  UpdateVehicleTileHash s v false.

(** The iterator of [VehiclesOnTile]. *)
Record Iterator := {
  it_tile : Z;
  current : option VehicleID;
}.

Definition Increment (s : State) (it : Iterator) : Iterator :=
  {| it_tile := it_tile it;
     current := match current it with
                | Some v => hash_tile_next (vehicles s v)
                | None => None
                end |}.

(** [SkipFalseMatches]; [None] when the fuel runs out. *)
Fixpoint SkipFalseMatches (fuel : nat) (s : State) (it : Iterator) : option Iterator :=
  match current it with
  | None => Some it
  | Some v =>
      if bool_decide (tile (vehicles s v) = it_tile it) then Some it
      else match fuel with
           | O => None
           | S fuel => SkipFalseMatches fuel s (Increment s it)
           end
  end.

Definition Iterator_new (fuel : nat) (s : State) (t : Z) : option Iterator :=
  SkipFalseMatches fuel s
    {| it_tile := t; current := _vehicle_tile_hash s (tile_bucket t) |}.

(** [operator++]: advance, then skip the vehicles of other tiles. *)
Definition Iterator_next (fuel : nat) (s : State) (it : Iterator) : option Iterator :=
  SkipFalseMatches fuel s (Increment s it).

(** The vehicles that a loop over the range sees, in order. *)
Fixpoint collect (fuel : nat) (s : State) (it : Iterator) : option (list VehicleID) :=
  match current it with
  | None => Some []
  | Some v =>
      match fuel with
      | O => None
      | S fuel' =>
          it' ← Iterator_next fuel s it;
          rest ← collect fuel' s it';
          Some (v :: rest)
      end
  end.

Definition VehiclesOnTile (fuel : nat) (s : State) (t : Z) : option (list VehicleID) :=
  it ← Iterator_new fuel s t; collect fuel s it.

(** The vehicles met when following [hash_tile_next] from the head of a
    bucket. *)
Fixpoint walk (fuel : nat) (s : State) (cur : option VehicleID)
  : option (list VehicleID) :=
  match cur with
  | None => Some []
  | Some v =>
      match fuel with
      | O => None
      | S fuel => (v ::.) <$> walk fuel s (hash_tile_next (vehicles s v))
      end
  end.

(** [v] is linked in bucket [h]. *)
Definition in_bucket (s : State) (h : Z) (v : VehicleID) : Prop :=
  exists fuel l, walk fuel s (_vehicle_tile_hash s h) = Some l /\ v ∈ l.

(** *** The representation invariant *)

(** The list [l] hangs off the link [p] in bucket [h]: each vehicle is
    reached from its predecessor, points back at the link that reaches it,
    and remembers [h]. *)
Fixpoint seg (s : State) (h : Z) (p : Link) (l : list VehicleID) : Prop :=
  match l with
  | [] => True
  | v :: l' =>
      load s p = Some v /\
      hash_tile_prev (vehicles s v) = Some p /\
      hash_tile_current (vehicles s v) = Some h /\
      seg s h (NextOf v) l'
  end.

(** The link that follows the last vehicle of [l]. *)
Fixpoint end_link (p : Link) (l : list VehicleID) : Link :=
  match l with
  | [] => p
  | v :: l' => end_link (NextOf v) l'
  end.

Definition linked (s : State) (h : Z) (p : Link) (l : list VehicleID) : Prop :=
  seg s h p l /\ load s (end_link p l) = None.

(** [L h] is the content of bucket [h]; every vehicle but [skip] that
    remembers a bucket is in it; [skip] is in no bucket. *)
Record RepBut (skip : option VehicleID) (s : State) (L : Z -> list VehicleID)
  : Prop := {
  rep_linked : forall h, linked s h (Bucket h) (L h);
  rep_current : forall v h, Some v <> skip ->
    hash_tile_current (vehicles s v) = Some h -> v ∈ L h;
  rep_nodup : forall h, NoDup (L h);
  rep_skip : forall v h, skip = Some v -> v ∉ L h;
}.

Definition Rep : State -> (Z -> list VehicleID) -> Prop := RepBut None.

(** Every linked vehicle is in the bucket of its own tile. *)
Definition consistent (s : State) : Prop :=
  forall v h, hash_tile_current (vehicles s v) = Some h ->
    h = tile_bucket (tile (vehicles s v)).

(** *** What each primitive write changes *)

Abbreviation prev_of s v := (hash_tile_prev (vehicles s v)).
Abbreviation cur_of s v := (hash_tile_current (vehicles s v)).
Abbreviation tile_of s v := (tile (vehicles s v)).

Lemma load_store s p x q :
  load (store s p x) q = if decide (q = p) then x else load s q.
Proof.
  destruct p as [h|v], q as [h'|v']; simpl.
  - destruct (decide (Bucket h' = Bucket h)) as [[= ->]|Hne].
    + apply fn_lookup_insert.
    + apply fn_lookup_insert_ne. congruence.
  - destruct (decide (NextOf v' = Bucket h)); done.
  - destruct (decide (Bucket h' = NextOf v)); done.
  - destruct (decide (NextOf v' = NextOf v)) as [[= ->]|Hne].
    + rewrite fn_lookup_insert. done.
    + rewrite fn_lookup_insert_ne by congruence. done.
Qed.

Lemma prev_store s p x w : prev_of (store s p x) w = prev_of s w.
Proof.
  destruct p as [h|v]; simpl; [done|].
  destruct (decide (v = w)) as [->|Hne].
  - rewrite fn_lookup_insert. done.
  - rewrite fn_lookup_insert_ne by done. done.
Qed.

Lemma cur_store s p x w : cur_of (store s p x) w = cur_of s w.
Proof.
  destruct p as [h|v]; simpl; [done|].
  destruct (decide (v = w)) as [->|Hne].
  - rewrite fn_lookup_insert. done.
  - rewrite fn_lookup_insert_ne by done. done.
Qed.

Lemma tile_store s p x w : tile_of (store s p x) w = tile_of s w.
Proof.
  destruct p as [h|v]; simpl; [done|].
  destruct (decide (v = w)) as [->|Hne].
  - rewrite fn_lookup_insert. done.
  - rewrite fn_lookup_insert_ne by done. done.
Qed.

Lemma set_next_store s v x : set_hash_tile_next s v x = store s (NextOf v) x.
Proof. done. Qed.

Lemma load_set_prev s v x q : load (set_hash_tile_prev s v x) q = load s q.
Proof.
  destruct q as [h|w]; simpl; [done|].
  destruct (decide (v = w)) as [->|Hne].
  - rewrite fn_lookup_insert. done.
  - rewrite fn_lookup_insert_ne by done. done.
Qed.

Lemma prev_set_prev s v x w :
  prev_of (set_hash_tile_prev s v x) w = if decide (w = v) then x else prev_of s w.
Proof.
  simpl. destruct (decide (w = v)) as [->|Hne].
  - rewrite fn_lookup_insert. done.
  - rewrite fn_lookup_insert_ne by done. done.
Qed.

Lemma cur_set_prev s v x w : cur_of (set_hash_tile_prev s v x) w = cur_of s w.
Proof.
  simpl. destruct (decide (v = w)) as [->|Hne].
  - rewrite fn_lookup_insert. done.
  - rewrite fn_lookup_insert_ne by done. done.
Qed.

Lemma tile_set_prev s v x w : tile_of (set_hash_tile_prev s v x) w = tile_of s w.
Proof.
  simpl. destruct (decide (v = w)) as [->|Hne].
  - rewrite fn_lookup_insert. done.
  - rewrite fn_lookup_insert_ne by done. done.
Qed.

Lemma load_set_current s v x q : load (set_hash_tile_current s v x) q = load s q.
Proof.
  destruct q as [h|w]; simpl; [done|].
  destruct (decide (v = w)) as [->|Hne].
  - rewrite fn_lookup_insert. done.
  - rewrite fn_lookup_insert_ne by done. done.
Qed.

Lemma prev_set_current s v x w : prev_of (set_hash_tile_current s v x) w = prev_of s w.
Proof.
  simpl. destruct (decide (v = w)) as [->|Hne].
  - rewrite fn_lookup_insert. done.
  - rewrite fn_lookup_insert_ne by done. done.
Qed.

Lemma cur_set_current s v x w :
  cur_of (set_hash_tile_current s v x) w = if decide (w = v) then x else cur_of s w.
Proof.
  simpl. destruct (decide (w = v)) as [->|Hne].
  - rewrite fn_lookup_insert. done.
  - rewrite fn_lookup_insert_ne by done. done.
Qed.

Lemma tile_set_current s v x w : tile_of (set_hash_tile_current s v x) w = tile_of s w.
Proof.
  simpl. destruct (decide (v = w)) as [->|Hne].
  - rewrite fn_lookup_insert. done.
  - rewrite fn_lookup_insert_ne by done. done.
Qed.

(** *** Segments *)

(** The links that [seg] reads. *)
Fixpoint reads (p : Link) (l : list VehicleID) : list Link :=
  match l with
  | [] => []
  | v :: l' => p :: reads (NextOf v) l'
  end.

Lemma reads_inv p l q :
  q ∈ reads p l -> q = p \/ exists x, x ∈ l /\ q = NextOf x.
Proof.
  revert p. induction l as [|v l IH]; intros p; simpl.
  - intros H. inversion H.
  - intros [->|Hin]%elem_of_cons; [by left|].
    right. destruct (IH _ Hin) as [->|(x & Hx & ->)].
    + exists v. split; [left|done].
    + exists x. split; [by right|done].
Qed.

Lemma end_link_app p l1 l2 : end_link p (l1 ++ l2) = end_link (end_link p l1) l2.
Proof. revert p. induction l1 as [|v l1 IH]; intros p; simpl; [done|apply IH]. Qed.

Lemma end_link_inv p l : end_link p l = p \/ exists x, x ∈ l /\ end_link p l = NextOf x.
Proof.
  revert p. induction l as [|v l IH]; intros p; simpl; [by left|].
  right. destruct (IH (NextOf v)) as [->|(x & Hx & ->)].
  - exists v. split; [left|done].
  - exists x. split; [by right|done].
Qed.

Lemma end_link_not_read p l :
  NoDup l -> (forall x, x ∈ l -> p <> NextOf x) -> end_link p l ∉ reads p l.
Proof.
  revert p. induction l as [|v l IH]; intros p Hnd Hp; simpl.
  - intros H. inversion H.
  - apply list.NoDup_cons in Hnd as [Hv Hnd].
    intros [Heq|Hin]%elem_of_cons.
    + destruct (end_link_inv (NextOf v) l) as [He|(x & Hx & He)];
        rewrite He in Heq.
      * apply (Hp v); [left|done].
      * apply (Hp x); [by right|done].
    + revert Hin. apply IH; [done|].
      intros x Hx [= ->]. done.
Qed.

Lemma seg_frame s s' h p l :
  (forall q, q ∈ reads p l -> load s' q = load s q) ->
  (forall x, x ∈ l -> prev_of s' x = prev_of s x /\ cur_of s' x = cur_of s x) ->
  seg s h p l -> seg s' h p l.
Proof.
  revert p. induction l as [|v l IH]; intros p Hld Hfld; simpl; [done|].
  intros (H1 & H2 & H3 & H4).
  destruct (Hfld v) as [Hp Hc]; [left|].
  rewrite Hld, Hp, Hc by left. repeat split; try done.
  apply IH; [| |done].
  - intros q Hq. apply Hld. simpl. by right.
  - intros x Hx. apply Hfld. by right.
Qed.

Lemma seg_app s h p l1 l2 :
  seg s h p (l1 ++ l2) <-> seg s h p l1 /\ seg s h (end_link p l1) l2.
Proof.
  revert p. induction l1 as [|v l1 IH]; intros p; simpl; [tauto|].
  rewrite IH. tauto.
Qed.

Lemma seg_current s h p l x : seg s h p l -> x ∈ l -> cur_of s x = Some h.
Proof.
  revert p. induction l as [|v l IH]; intros p; simpl.
  - intros _ H. inversion H.
  - intros (_ & _ & Hc & Hs) [->|Hin]%elem_of_cons; [done|]. by eapply IH.
Qed.

Lemma linked_walk s h p l fuel :
  linked s h p l -> (length l <= fuel)%nat -> walk fuel s (load s p) = Some l.
Proof.
  intros [Hseg Hend]. revert p fuel Hseg Hend.
  induction l as [|v l IH]; intros p fuel Hseg Hend Hf; simpl in *.
  - rewrite Hend. destruct fuel; done.
  - destruct Hseg as (H1 & _ & _ & Hs). rewrite H1.
    destruct fuel as [|fuel]; [lia|]. simpl.
    pose proof (IH (NextOf v) fuel Hs Hend ltac:(lia)) as Hw. simpl in Hw.
    rewrite Hw. done.
Qed.

Lemma walk_fuel s fuel cur l :
  walk fuel s cur = Some l -> forall fuel', (fuel <= fuel')%nat -> walk fuel' s cur = Some l.
Proof.
  revert cur l. induction fuel as [|fuel IH]; intros cur l; simpl.
  - destruct cur; [done|]. intros [= <-] fuel' _. by destruct fuel'.
  - destruct cur as [v|]; [|intros [= <-] fuel' _; by destruct fuel'].
    destruct (walk fuel s (hash_tile_next (vehicles s v))) as [r|] eqn:Hr; [|done].
    simpl. intros [= <-] fuel' Hf. destruct fuel' as [|fuel']; [lia|]. simpl.
    rewrite (IH _ _ Hr fuel') by lia. done.
Qed.

Lemma in_bucket_rep skip s L h v : RepBut skip s L -> in_bucket s h v <-> v ∈ L h.
Proof.
  intros HR. pose proof (rep_linked _ _ _ HR h) as Hl.
  pose proof (linked_walk s h (Bucket h) (L h) (length (L h)) Hl (le_n _)) as Hw.
  simpl in Hw. split.
  - intros (fuel & l & Hwalk & Hin).
    destruct (Nat.le_ge_cases fuel (length (L h))) as [Hle|Hge].
    + rewrite (walk_fuel _ _ _ _ Hwalk _ Hle) in Hw. congruence.
    + rewrite (walk_fuel _ _ _ _ Hw _ Hge) in Hwalk. congruence.
  - intros Hin. exists (length (L h)), (L h). done.
Qed.

Lemma linked_frame s s' h p l :
  (forall q, q = p \/ (exists x, x ∈ l /\ q = NextOf x) -> load s' q = load s q) ->
  (forall x, x ∈ l -> prev_of s' x = prev_of s x /\ cur_of s' x = cur_of s x) ->
  linked s h p l -> linked s' h p l.
Proof.
  intros Hld Hfld [Hseg Hend]. split.
  - apply (seg_frame s); [|done|done].
    intros q Hq. apply Hld. by apply reads_inv.
  - rewrite Hld; [done|]. apply end_link_inv.
Qed.

(** Taking [v] out of the bucket it remembers. *)
Lemma unlink_spec s L v h :
  Rep s L -> cur_of s v = Some h ->
  exists s1 l1 l2,
    L h = l1 ++ v :: l2 /\ unlink s v = Some s1 /\
    RepBut (Some v) s1 (fun b => if decide (b = h) then l1 ++ l2 else L b) /\
    (forall w, tile_of s1 w = tile_of s w) /\
    (forall w, cur_of s1 w = cur_of s w).
Proof.
  intros HR Hcur.
  assert (Hin : v ∈ L h) by (by apply (rep_current _ _ _ HR)).
  destruct (list_elem_of_split _ _ Hin) as (l1 & l2 & HL).
  pose proof (rep_nodup _ _ _ HR h) as Hnd. rewrite HL in Hnd.
  apply list.NoDup_app in Hnd as (Hnd1 & Hdisj & Hnd2).
  apply list.NoDup_cons in Hnd2 as (Hv2 & Hnd2).
  assert (Hv1 : v ∉ l1) by (intros Hx; apply (Hdisj v Hx); left).
  assert (Hd12 : forall x, x ∈ l1 -> x ∉ l2)
    by (intros x Hx Hx2; apply (Hdisj x Hx); by right).
  pose proof (rep_linked _ _ _ HR h) as [Hseg Hend]. rewrite HL in Hseg, Hend.
  apply seg_app in Hseg as [Hseg1 Hsegv].
  rewrite end_link_app in Hend.
  set (p1 := end_link (Bucket h) l1) in *.
  simpl in Hsegv, Hend. destruct Hsegv as (Hp1v & Hpv & _ & Hseg2).
  assert (Hp1 : p1 = Bucket h \/ exists x, x ∈ l1 /\ p1 = NextOf x)
    by apply end_link_inv.
  assert (Hp1r : p1 ∉ reads (Bucket h) l1).
  { apply end_link_not_read; [done|]. intros x _ [=]. }
  (* the members of the other buckets *)
  assert (Hother : forall b x, b <> h -> x ∈ L b -> x ∉ L h).
  { intros b x Hb Hxb Hxh.
    pose proof (seg_current _ _ _ _ _ (proj1 (rep_linked _ _ _ HR b)) Hxb) as H1.
    pose proof (seg_current _ _ _ _ _ (proj1 (rep_linked _ _ _ HR h)) Hxh) as H2.
    congruence. }
  assert (Hp1other : forall b q, b <> h ->
            q = Bucket b \/ (exists x, x ∈ L b /\ q = NextOf x) -> q <> p1).
  { intros b q Hb [->|(x & Hx & ->)] Heq.
    - destruct Hp1 as [Hp1|(x1 & _ & Hp1)]; rewrite Hp1 in Heq; congruence.
    - destruct Hp1 as [Hp1|(x1 & Hx1 & Hp1)]; rewrite Hp1 in Heq; [done|].
      injection Heq as ->. apply (Hother b x1 Hb Hx). rewrite HL.
      apply elem_of_app. by left. }
  assert (Hp1neq : forall z, z ∉ l1 -> NextOf z <> p1).
  { intros z Hz Heq. destruct Hp1 as [Hp1|(x1 & Hx1 & Hp1)];
      rewrite Hp1 in Heq; [done|]. injection Heq as ->. done. }
  destruct l2 as [|y l2'].
  - (* [v] is the last of its bucket *)
    simpl in Hend. exists (store s p1 None), l1, []. split; [done|].
    split. { unfold unlink. rewrite Hend, Hpv, Hend. done. }
    split; [|split; intros w; [apply tile_store|apply cur_store]].
    constructor.
    + intros b. destruct (decide (b = h)) as [->|Hb].
      * rewrite app_nil_r. split.
        -- apply (seg_frame s); [| |done].
           ++ intros q Hq. rewrite load_store. destruct (decide (q = p1)); [|done].
              subst q. done.
           ++ intros x _. rewrite prev_store, cur_store. done.
        -- fold p1. rewrite load_store. by destruct (decide (p1 = p1)).
      * apply (linked_frame s); [| |apply (rep_linked _ _ _ HR)].
        -- intros q Hq. rewrite load_store.
           destruct (decide (q = p1)) as [Heq|]; [|done].
           by destruct (Hp1other b q Hb Hq).
        -- intros x _. rewrite prev_store, cur_store. done.
    + intros w b Hw. rewrite cur_store. intros Hc.
      pose proof (rep_current _ _ _ HR w b ltac:(done) Hc) as Hwb.
      destruct (decide (b = h)) as [->|Hb]; [|done].
      rewrite HL in Hwb. rewrite app_nil_r.
      apply elem_of_app in Hwb as [|Hwv]; [done|].
      apply list_elem_of_singleton in Hwv. congruence.
    + intros b. destruct (decide (b = h)); [|apply (rep_nodup _ _ _ HR)].
      by rewrite app_nil_r.
    + intros w b [= <-]. destruct (decide (b = h)) as [->|Hb].
      * by rewrite app_nil_r.
      * intros Hvb. apply (Hother b v Hb Hvb). done.
  - (* [v] has a successor [y] *)
    simpl in Hseg2, Hend. destruct Hseg2 as (Hvy & Hpy & Hcy & Hseg2).
    apply list.NoDup_cons in Hnd2 as (Hy2 & Hnd2).
    assert (Hvy' : v <> y) by (intros ->; apply Hv2; left).
    assert (Hy1 : y ∉ l1) by (intros Hx; apply (Hd12 y Hx); left).
    set (sa := set_hash_tile_prev s y (Some p1)).
    exists (store sa p1 (Some y)), l1, (y :: l2'). split; [done|].
    split.
    { unfold unlink. simpl in Hvy. rewrite Hvy, Hpv.
      rewrite (prev_set_prev s y). destruct (decide (v = y)); [done|].
      rewrite Hpv. pose proof (load_set_prev s y (Some p1) (NextOf v)) as Hl.
      unfold load in Hl. rewrite Hl, Hvy. done. }
    assert (Hld : forall q, load (store sa p1 (Some y)) q
                            = if decide (q = p1) then Some y else load s q).
    { intros q. rewrite load_store. destruct (decide (q = p1)); [done|].
      apply load_set_prev. }
    assert (Hpr : forall x, prev_of (store sa p1 (Some y)) x
                            = if decide (x = y) then Some p1 else prev_of s x).
    { intros x. rewrite prev_store. unfold sa. rewrite prev_set_prev. done. }
    assert (Hcu : forall x, cur_of (store sa p1 (Some y)) x = cur_of s x).
    { intros x. rewrite cur_store. apply cur_set_prev. }
    split; [|split; intros w; [|apply Hcu]].
    2:{ rewrite tile_store. apply tile_set_prev. }
    constructor.
    + intros b. destruct (decide (b = h)) as [->|Hb].
      * split.
        -- apply seg_app. split.
           ++ apply (seg_frame s); [| |done].
              ** intros q Hq. rewrite Hld. destruct (decide (q = p1)); [|done].
                 by subst q.
              ** intros x Hx. rewrite Hpr, Hcu.
                 destruct (decide (x = y)); [|done]. by subst x.
           ++ fold p1. simpl. rewrite Hld, Hpr, Hcu.
              destruct (decide (p1 = p1)); [|done].
              destruct (decide (y = y)); [|done].
              repeat split; try done.
              apply (seg_frame s); [| |done].
              ** intros q Hq%reads_inv. rewrite Hld.
                 destruct (decide (q = p1)) as [Heq|]; [|done]. exfalso.
                 destruct Hq as [->|(x & Hx & ->)]; revert Heq; apply Hp1neq;
                   [done|].
                 intros Hx1. apply (Hd12 x Hx1). by right.
              ** intros x Hx. rewrite Hpr, Hcu.
                 destruct (decide (x = y)); [|done]. by subst x.
        -- rewrite end_link_app. fold p1. simpl. rewrite Hld.
           destruct (decide (end_link (NextOf y) l2' = p1)) as [Heq|]; [|done].
           exfalso.
           destruct (end_link_inv (NextOf y) l2') as [He|(x & Hx & He)];
             rewrite He in Heq; revert Heq; apply Hp1neq; [done|].
           intros Hx1. apply (Hd12 x Hx1). by right.
      * apply (linked_frame s); [| |apply (rep_linked _ _ _ HR)].
        -- intros q Hq. rewrite Hld.
           destruct (decide (q = p1)) as [Heq|]; [|done].
           by destruct (Hp1other b q Hb Hq).
        -- intros x Hx. rewrite Hpr, Hcu.
           destruct (decide (x = y)) as [->|]; [|done]. exfalso.
           apply (Hother b y Hb Hx). rewrite HL.
           apply elem_of_app. right. right. left.
    + intros w b Hw. rewrite Hcu. intros Hc.
      pose proof (rep_current _ _ _ HR w b ltac:(done) Hc) as Hwb.
      destruct (decide (b = h)) as [->|Hb]; [|done].
      rewrite HL in Hwb.
      apply elem_of_app in Hwb as [|Hwv]; apply elem_of_app; [by left|].
      apply elem_of_cons in Hwv as [->|]; [congruence|by right].
    + intros b. destruct (decide (b = h)); [|apply (rep_nodup _ _ _ HR)].
      apply list.NoDup_app. split; [done|]. split.
      * intros x Hx. by apply Hd12.
      * apply list.NoDup_cons. done.
    + intros w b [= <-]. destruct (decide (b = h)) as [->|Hb].
      * apply not_elem_of_app. done.
      * intros Hvb. apply (Hother b v Hb Hvb). done.
Qed.

(** What [link_first], followed by remembering the bucket, leaves. *)
Lemma link_first_obs s v h :
  load s (Bucket h) <> Some v ->
  let hd := load s (Bucket h) in
  let s2 := set_hash_tile_current (link_first s v h) v (Some h) in
  (forall q, load s2 q = if decide (q = Bucket h) then Some v
                         else if decide (q = NextOf v) then hd else load s q) /\
  (forall x, prev_of s2 x = if decide (x = v) then Some (Bucket h)
                            else if decide (hd = Some x) then Some (NextOf v)
                            else prev_of s x) /\
  (forall x, cur_of s2 x = if decide (x = v) then Some h else cur_of s x) /\
  (forall x, tile_of s2 x = tile_of s x).
Proof.
  intros Hhd hd s2. subst s2. unfold link_first.
  rewrite set_next_store. fold hd.
  set (sa := store s (NextOf v) hd).
  assert (Hnext : hash_tile_next (vehicles sa v) = hd).
  { pose proof (load_store s (NextOf v) hd (NextOf v)) as H.
    destruct (decide (NextOf v = NextOf v)); done. }
  rewrite Hnext.
  set (sb := match hd with
             | Some n => set_hash_tile_prev sa n (Some (NextOf v))
             | None => sa
             end).
  assert (Hsb : (forall q, load sb q = load sa q) /\
                (forall x, prev_of sb x = if decide (hd = Some x) then Some (NextOf v)
                                          else prev_of sa x) /\
                (forall x, cur_of sb x = cur_of sa x) /\
                (forall x, tile_of sb x = tile_of sa x)).
  { subst sb. destruct hd as [n|].
    - split; [intros q; apply load_set_prev|].
      split; [|split; intros x; [apply cur_set_prev|apply tile_set_prev]].
      intros x. rewrite prev_set_prev.
      destruct (decide (x = n)) as [->|Hne].
      + by destruct (decide (Some n = Some n)).
      + destruct (decide (Some n = Some x)); [congruence|done].
    - repeat split; try done. }
  destruct Hsb as (Hsb1 & Hsb2 & Hsb3 & Hsb4).
  split; [|split; [|split]].
  - intros q. rewrite load_set_current, load_store.
    destruct (decide (q = Bucket h)); [done|].
    rewrite load_set_prev, Hsb1. unfold sa. rewrite load_store.
    destruct (decide (q = NextOf v)); done.
  - intros x. rewrite prev_set_current, prev_store, prev_set_prev.
    destruct (decide (x = v)); [done|].
    rewrite Hsb2. unfold sa. rewrite prev_store. done.
  - intros x. rewrite cur_set_current.
    destruct (decide (x = v)); [done|].
    rewrite cur_store, cur_set_prev, Hsb3. unfold sa. apply cur_store.
  - intros x. rewrite tile_set_current, tile_store, tile_set_prev, Hsb4.
    unfold sa. apply tile_store.
Qed.

(** Putting [v], which is in no bucket, at the head of bucket [h]. *)
Lemma link_first_spec s L v h :
  RepBut (Some v) s L ->
  let s2 := set_hash_tile_current (link_first s v h) v (Some h) in
  Rep s2 (fun b => if decide (b = h) then v :: L b else L b) /\
  (forall x, tile_of s2 x = tile_of s x) /\
  (forall x, x <> v -> cur_of s2 x = cur_of s x) /\
  load s2 (Bucket h) = Some v /\
  load s2 (NextOf v) = load s (Bucket h).
Proof.
  intros HR s2.
  assert (Hv : forall b, v ∉ L b) by (intros b; by apply (rep_skip _ _ _ HR)).
  pose proof (rep_linked _ _ _ HR h) as [Hseg Hend].
  assert (Hhd : load s (Bucket h) <> Some v).
  { destruct (L h) as [|y l'] eqn:HL; cbn [seg end_link] in *; [congruence|].
    destruct Hseg as (Hy & _). rewrite Hy. intros [= ->].
    apply (Hv h). rewrite HL. left. }
  destruct (link_first_obs s v h Hhd) as (Hld & Hpr & Hcu & Htl).
  fold s2 in Hld, Hpr, Hcu, Htl.
  assert (Hmem : forall b x, x ∈ L b -> cur_of s x = Some b).
  { intros b x Hx. by apply (seg_current _ _ _ _ _ (proj1 (rep_linked _ _ _ HR b))). }
  split; [|split; [done|split; [|split]]].
  - constructor.
    + intros b. destruct (decide (b = h)) as [->|Hb].
      * destruct (L h) as [|y l'] eqn:HL.
        -- cbn [seg end_link] in Hend. split; cbn [seg end_link].
           ++ rewrite Hld, Hpr, Hcu.
              destruct (decide (Bucket h = Bucket h)); [|done].
              destruct (decide (v = v)); done.
           ++ rewrite Hld. destruct (decide (NextOf v = Bucket h)); [done|].
              destruct (decide (NextOf v = NextOf v)); done.
        -- cbn [seg end_link] in Hseg, Hend. destruct Hseg as (Hy & Hpy & Hcy & Hseg).
           pose proof (rep_nodup _ _ _ HR h) as Hnd. rewrite HL in Hnd.
           apply list.NoDup_cons in Hnd as [Hyl Hnd].
           assert (Hvy : y <> v) by (intros ->; apply (Hv h); rewrite HL; left).
           assert (Hvl : v ∉ l') by (intros Hx; apply (Hv h); rewrite HL; by right).
           split; cbn [seg end_link].
           ++ rewrite !Hld, !Hpr, !Hcu.
              destruct (decide (Bucket h = Bucket h)); [|done].
              destruct (decide (v = v)); [|done].
              destruct (decide (NextOf v = Bucket h)); [done|].
              destruct (decide (NextOf v = NextOf v)); [|done].
              destruct (decide (y = v)); [done|].
              destruct (decide (load s (Bucket h) = Some y)); [|done].
              repeat split; try done.
              apply (seg_frame s); [| |done].
              ** intros q Hq%reads_inv. rewrite Hld.
                 destruct (decide (q = Bucket h)) as [->|].
                 { destruct Hq as [|(? & _ & ?)]; done. }
                 destruct (decide (q = NextOf v)) as [->|]; [|done].
                 destruct Hq as [[= ->]|(x & Hx & [= ->])]; done.
              ** intros x Hx. rewrite Hpr, Hcu.
                 destruct (decide (x = v)) as [->|]; [done|].
                 destruct (decide (load s (Bucket h) = Some x)) as [Heq|]; [|done].
                 rewrite Hy in Heq. injection Heq as ->. done.
           ++ rewrite Hld.
              destruct (decide (end_link (NextOf y) l' = Bucket h)) as [Heq|].
              { destruct (end_link_inv (NextOf y) l') as [He|(x & _ & He)];
                  rewrite He in Heq; done. }
              destruct (decide (end_link (NextOf y) l' = NextOf v)) as [Heq|];
                [|done].
              destruct (end_link_inv (NextOf y) l') as [He|(x & Hx & He)];
                rewrite He in Heq; injection Heq as ->; done.
      * apply (linked_frame s); [| |apply (rep_linked _ _ _ HR)].
        -- intros q Hq. rewrite Hld.
           destruct (decide (q = Bucket h)) as [->|].
           { destruct Hq as [[= ->]|(? & _ & ?)]; done. }
           destruct (decide (q = NextOf v)) as [->|]; [|done].
           destruct Hq as [|(x & Hx & [= ->])]; [done|]. by destruct (Hv b).
        -- intros x Hx. rewrite Hpr, Hcu.
           destruct (decide (x = v)) as [->|]; [by destruct (Hv b)|].
           destruct (decide (load s (Bucket h) = Some x)) as [Heq|]; [|done].
           exfalso. destruct (L h) as [|y l'] eqn:HL; cbn [seg end_link] in *; [congruence|].
           destruct Hseg as (Hy & _ & Hcy & _). rewrite Hy in Heq.
           injection Heq as ->. pose proof (Hmem b x Hx). congruence.
    + intros w b _. rewrite Hcu. destruct (decide (w = v)) as [->|Hw].
      * intros [= <-]. destruct (decide (h = h)); [left|done].
      * intros Hc. assert (w ∈ L b) by (apply (rep_current _ _ _ HR); congruence).
        destruct (decide (b = h)); [by right|done].
    + intros b. destruct (decide (b = h)) as [->|]; [|apply (rep_nodup _ _ _ HR)].
      apply list.NoDup_cons. split; [apply Hv|apply (rep_nodup _ _ _ HR)].
    + intros w b [=].
  - intros x Hx. rewrite Hcu. by destruct (decide (x = v)).
  - rewrite Hld. by destruct (decide (Bucket h = Bucket h)).
  - rewrite Hld. destruct (decide (NextOf v = Bucket h)); [done|].
    by destruct (decide (NextOf v = NextOf v)).
Qed.

Lemma RepBut_ext skip s L L' :
  (forall b, L' b = L b) -> RepBut skip s L -> RepBut skip s L'.
Proof.
  intros Hext HR. constructor.
  - intros h. rewrite Hext. apply (rep_linked _ _ _ HR).
  - intros v h Hv Hc. rewrite Hext. by apply (rep_current _ _ _ HR).
  - intros h. rewrite Hext. apply (rep_nodup _ _ _ HR).
  - intros v h Hs. rewrite Hext. by apply (rep_skip _ _ _ HR).
Qed.

Lemma Rep_member s L b x : Rep s L -> x ∈ L b -> cur_of s x = Some b.
Proof.
  intros HR Hx. by apply (seg_current _ _ _ _ _ (proj1 (rep_linked _ _ _ HR b))).
Qed.

(** A vehicle that remembers no bucket is in none. *)
Lemma Rep_absent s L v : Rep s L -> cur_of s v = None -> RepBut (Some v) s L.
Proof.
  intros HR Hc. constructor.
  - apply (rep_linked _ _ _ HR).
  - intros w h _. by apply (rep_current _ _ _ HR).
  - apply (rep_nodup _ _ _ HR).
  - intros w h [= <-] Hw. pose proof (Rep_member _ _ _ _ HR Hw). congruence.
Qed.

(** Forgetting the bucket of a vehicle that has been taken out. *)
Lemma forget_spec s L v :
  RepBut (Some v) s L -> Rep (set_hash_tile_current s v None) L.
Proof.
  intros HR. constructor.
  - intros h. apply (linked_frame s); [| |apply (rep_linked _ _ _ HR)].
    + intros q _. apply load_set_current.
    + intros x Hx. rewrite prev_set_current, cur_set_current.
      destruct (decide (x = v)) as [->|]; [|done].
      by destruct (rep_skip _ _ _ HR v h).
  - intros w h _. rewrite cur_set_current.
    destruct (decide (w = v)) as [->|Hw]; [done|].
    apply (rep_current _ _ _ HR). congruence.
  - apply (rep_nodup _ _ _ HR).
  - intros w h [=].
Qed.

Lemma filter_absent (v : VehicleID) (l : list VehicleID) :
  v ∉ l -> filter (fun x => x <> v) l = l.
Proof.
  induction l as [|y l IH]; [done|].
  intros [Hy Hl]%not_elem_of_cons. rewrite filter_cons.
  rewrite decide_True by congruence. by rewrite IH.
Qed.

Lemma filter_middle (v : VehicleID) (l1 l2 : list VehicleID) :
  v ∉ l1 -> v ∉ l2 -> filter (fun x => x <> v) (l1 ++ v :: l2) = l1 ++ l2.
Proof.
  intros H1 H2. rewrite list.filter_app, filter_cons.
  rewrite decide_False by (intros H; by apply H). by rewrite !filter_absent.
Qed.

(** The bucket contents after a move: the vehicle leaves the list it was in
    and heads the list of its new bucket. *)
Definition moved (L : Z -> list VehicleID) (v : VehicleID) (new_hash : option Z)
  : Z -> list VehicleID :=
  fun b => (if decide (new_hash = Some b) then [v] else [])
           ++ filter (fun x => x <> v) (L b).

(** Taking [v] out of whatever bucket it is in. *)
Lemma take_out_spec s L v :
  Rep s L ->
  exists s1,
    match cur_of s v with Some _ => unlink s v | None => Some s end = Some s1 /\
    RepBut (Some v) s1 (moved L v None) /\
    (forall w, tile_of s1 w = tile_of s w) /\
    (forall w, cur_of s1 w = cur_of s w).
Proof.
  intros HR. destruct (cur_of s v) as [h|] eqn:Hc.
  - destruct (unlink_spec s L v h HR Hc) as (s1 & l1 & l2 & HL & Hun & HR1 & Ht & Hcu).
    exists s1. split; [done|]. split; [|done].
    pose proof (rep_nodup _ _ _ HR h) as Hnd. rewrite HL in Hnd.
    apply list.NoDup_app in Hnd as (_ & Hdisj & Hnd2).
    apply list.NoDup_cons in Hnd2 as (Hv2 & _).
    assert (Hv1 : v ∉ l1) by (intros Hx; apply (Hdisj v Hx); left).
    eapply RepBut_ext; [|exact HR1]. intros b. unfold moved. simpl.
    destruct (decide (b = h)) as [->|Hb].
    + rewrite HL. by apply filter_middle.
    + apply filter_absent. intros Hvb.
      pose proof (Rep_member _ _ _ _ HR Hvb). congruence.
  - exists s. split; [done|]. split; [|done].
    pose proof (Rep_absent s L v HR Hc) as HR1.
    eapply RepBut_ext; [|exact HR1]. intros b. unfold moved. simpl.
    apply filter_absent. by apply (rep_skip _ _ _ HR1).
Qed.

Lemma UpdateVehicleTileHash_spec s L v (remove : bool) :
  Rep s L ->
  let new_hash : option Z :=
    if remove then None else Some (tile_bucket (tile_of s v)) in
  exists s' L',
    UpdateVehicleTileHash s v remove = Some s' /\
    Rep s' L' /\
    (forall w, tile_of s' w = tile_of s w) /\
    cur_of s' v = new_hash /\
    (forall w, w <> v -> cur_of s' w = cur_of s w) /\
    (cur_of s v = new_hash -> s' = s /\ forall b, L' b = L b) /\
    (cur_of s v <> new_hash ->
       (forall b, L' b = moved L v new_hash b) /\
       forall h, new_hash = Some h ->
         load s' (Bucket h) = Some v /\ load s' (NextOf v) = load s (Bucket h)).
Proof.
  intros HR new_hash. unfold UpdateVehicleTileHash. fold new_hash.
  destruct (decide (cur_of s v = new_hash)) as [Heq|Hne].
  { exists s, L. do 5 (split; [done|]). split; [done|]. intros Hc. done. }
  destruct (take_out_spec s L v HR) as (s1 & Hout & HR1 & Ht1 & Hc1).
  rewrite Hout. simpl.
  destruct new_hash as [h|] eqn:Hnew; cbv beta iota.
  - destruct (link_first_spec s1 _ v h HR1) as (HR2 & Ht2 & Hc2 & Hhd & Hnx).
    eexists _, _. split; [done|]. split; [exact HR2|].
    split. { intros w. by rewrite Ht2, Ht1. }
    split.
    { pose proof (link_first_obs s1 v h) as Hobs.
      assert (Hv : load s1 (Bucket h) <> Some v).
      { pose proof (rep_linked _ _ _ HR1 h) as [Hseg _].
        destruct (moved L v None h) as [|y l'] eqn:HL'.
        - pose proof (rep_linked _ _ _ HR1 h) as [_ Hend]. rewrite HL' in Hend.
          simpl in Hend. simpl. congruence.
        - cbn [seg] in Hseg. destruct Hseg as (Hy & _). rewrite Hy.
          intros [= ->]. apply (rep_skip _ _ _ HR1 v h eq_refl).
          rewrite HL'. left. }
      destruct (Hobs Hv) as (_ & _ & Hcu & _). rewrite Hcu.
      by destruct (decide (v = v)). }
    split. { intros w Hw. by rewrite Hc2, Hc1. }
    split; [done|]. intros _. split.
    + intros b. unfold moved. simpl.
      destruct (decide (b = h)) as [->|Hb].
      * by destruct (decide (Some h = Some h)).
      * destruct (decide (Some h = Some b)); [congruence|done].
    + intros h' [= <-]. split; [done|].
      change (load (set_hash_tile_current (link_first s1 v h) v (Some h)) (NextOf v)
              = load s (Bucket h)).
      rewrite Hnx.
      (* the old head of the new bucket: [v] was not in that bucket *)
      unfold unlink in Hout. destruct (cur_of s v) as [h0|] eqn:Hc0.
      * destruct (unlink_spec s L v h0 HR Hc0)
          as (s1' & l1 & l2 & HL & Hun & _ & _ & _).
        assert (s1' = s1) as -> by (unfold unlink in Hun; congruence).
        clear Hout.
        (* the head of bucket [h] is not touched by the unlink from [h0] *)
        assert (Hh : h <> h0) by congruence.
        pose proof (rep_linked _ _ _ HR h) as [Hs Hend].
        pose proof (rep_linked _ _ _ HR1 h) as [Hs1 Hend1].
        assert (HLh : moved L v None h = L h).
        { unfold moved. simpl. apply filter_absent. intros Hvb.
          pose proof (Rep_member _ _ _ _ HR Hvb). congruence. }
        rewrite HLh in Hs1, Hend1.
        destruct (L h) as [|y l']; cbn [seg end_link] in *; [congruence|].
        destruct Hs as (-> & _). destruct Hs1 as (-> & _). done.
      * by injection Hout as <-.
  - exists (set_hash_tile_current s1 v None), (moved L v None).
    split; [done|]. split; [by apply forget_spec|].
    split. { intros w. by rewrite tile_set_current. }
    split. { rewrite cur_set_current. by destruct (decide (v = v)). }
    split. { intros w Hw. rewrite cur_set_current.
             destruct (decide (w = v)); [done|]. apply Hc1. }
    split; [done|]. intros _. split; [done|]. intros h [=].
Qed.

(** One loop over [VehiclesOnTile(t)] on a chain of [hash_tile_next]. *)
Lemma collect_spec s t (l : list VehicleID) : forall it f1 f2,
  it_tile it = t ->
  walk (length l) s (current it) = Some l ->
  (length l <= f1)%nat -> (length l <= f2)%nat ->
  exists it',
    SkipFalseMatches f1 s it = Some it' /\ it_tile it' = t /\
    collect f2 s it' = Some (filter (fun x => tile_of s x = t) l).
Proof.
  induction l as [|v l IH]; intros it f1 f2 Ht Hw Hf1 Hf2.
  - assert (Hc : current it = None).
    { simpl in Hw. destruct (current it); done. }
    exists it. destruct f1, f2; simpl; rewrite Hc; done.
  - simpl in Hw. destruct (current it) as [v'|] eqn:Hc; [|done].
    destruct (walk (length l) s (hash_tile_next (vehicles s v'))) as [r|] eqn:Hr;
      [|done].
    simpl in Hw. injection Hw as -> ->.
    assert (Hinc : current (Increment s it) = hash_tile_next (vehicles s v))
      by (unfold Increment; simpl; by rewrite Hc).
    assert (Hinct : it_tile (Increment s it) = t) by done.
    rewrite filter_cons.
    destruct (decide (tile_of s v = t)) as [Hm|Hm].
    + exists it. split.
      { destruct f1; simpl; rewrite Hc, Ht, bool_decide_eq_true_2; done. }
      split; [done|].
      destruct f2 as [|f2]; [simpl in Hf2; lia|].
      destruct (IH (Increment s it) (S f2) f2 Hinct) as (it' & Hs & Ht' & Hcol);
        [by rewrite Hinc|simpl in *; lia..|].
      cbn [collect]. rewrite Hc. unfold Iterator_next. rewrite Hs. simpl.
      rewrite Hcol. done.
    + destruct f1 as [|f1]; [simpl in Hf1; lia|].
      destruct (IH (Increment s it) f1 f2 Hinct) as (it' & Hs & Ht' & Hcol);
        [by rewrite Hinc|simpl in *; lia..|].
      exists it'. split; [|done].
      simpl. rewrite Hc, Ht, bool_decide_eq_false_2 by done. done.
Qed.

Lemma VehiclesOnTile_spec s L t fuel :
  Rep s L -> (length (L (tile_bucket t)) <= fuel)%nat ->
  VehiclesOnTile fuel s t
  = Some (filter (fun x => tile_of s x = t) (L (tile_bucket t))).
Proof.
  intros HR Hf. unfold VehiclesOnTile, Iterator_new.
  pose proof (rep_linked _ _ _ HR (tile_bucket t)) as Hl.
  pose proof (linked_walk s _ _ _ _ Hl (le_n _)) as Hw.
  destruct (collect_spec s t (L (tile_bucket t))
              {| it_tile := t; current := _vehicle_tile_hash s (tile_bucket t) |}
              fuel fuel eq_refl Hw Hf Hf) as (it' & Hs & _ & Hcol).
  rewrite Hs. simpl. done.
Qed.

(** The table and the links of the vehicles describe some bucket lists. *)
Definition well_formed (s : State) : Prop := exists L, Rep s L.

(** C1: after [UpdatePosition] the vehicle is linked in the bucket computed
    from its tile and in no other.  When that bucket is the one it remembers,
    nothing changes; otherwise it is out of its old bucket and at the head of
    the new one, in front of the old head, and every other vehicle stays
    where it was. *)
Theorem UpdatePosition_one_bucket (s : State) (v : VehicleID) :
  well_formed s ->
  let target := tile_bucket (tile_of s v) in
  exists s',
    UpdatePosition s v = Some s' /\
    well_formed s' /\
    tile_of s' v = tile_of s v /\
    (forall b, in_bucket s' b v <-> b = target) /\
    (cur_of s v = Some target -> s' = s) /\
    (cur_of s v <> Some target ->
       (forall b, cur_of s v = Some b -> ~ in_bucket s' b v) /\
       _vehicle_tile_hash s' target = Some v /\
       hash_tile_next (vehicles s' v) = _vehicle_tile_hash s target /\
       (forall b w, w <> v -> in_bucket s' b w <-> in_bucket s b w)).
Proof.
  intros [L HR] target.
  destruct (UpdateVehicleTileHash_spec s L v false HR)
    as (s' & L' & Hrun & HR' & Ht & Hc & Hco & Hnop & Hmove).
  fold target in Hc, Hnop, Hmove.
  exists s'. split; [done|]. split; [by exists L'|]. split; [done|].
  assert (Hmem : cur_of s v <> Some target ->
            forall b w, w ∈ L' b <-> (w = v /\ b = target) \/ (w <> v /\ w ∈ L b)).
  { intros Hne b w. destruct (Hmove Hne) as [HL' _]. rewrite HL'. unfold moved.
    rewrite elem_of_app, list_elem_of_filter.
    destruct (decide (Some target = Some b)) as [[= <-]|Hb].
    - rewrite list_elem_of_singleton. tauto.
    - split; [intros [Hin|]; [inversion Hin|tauto]|].
      intros [[-> ->]|]; [done|tauto]. }
  assert (Hv : forall b, in_bucket s' b v <-> b = target).
  { intros b. rewrite (in_bucket_rep _ _ _ _ _ HR').
    destruct (decide (cur_of s v = Some target)) as [Heq|Hne].
    - destruct (Hnop Heq) as [-> HL']. rewrite HL'. split.
      + intros Hin. pose proof (Rep_member _ _ _ _ HR Hin). congruence.
      + intros ->. by apply (rep_current _ _ _ HR).
    - rewrite (Hmem Hne). split; [intros [[_ ?]|[? _]]; done|]. intros ->. by left. }
  split; [done|]. split; [intros Heq; by apply Hnop|].
  intros Hne. destruct (Hmove Hne) as [HL' Hhead].
  destruct (Hhead target eq_refl) as [Hh1 Hh2].
  split.
  { intros b Hb Hin. apply Hv in Hin. congruence. }
  split; [done|]. split; [done|].
  intros b w Hw. rewrite (in_bucket_rep _ _ _ _ _ HR'), (in_bucket_rep _ _ _ _ _ HR).
  rewrite (Hmem Hne). split; [intros [[? _]|[_ ?]]; done|]. intros Hin. by right.
Qed.

(** C2: a loop over [VehiclesOnTile(t)] only looks at the bucket of [t],
    skips its vehicles of other tiles, and, every linked vehicle being in the
    bucket of its own tile, sees each linked vehicle on [t] exactly once. *)
Theorem VehiclesOnTile_exact (s : State) (t : Z) :
  well_formed s -> consistent s ->
  exists k l,
    (forall fuel, (k <= fuel)%nat -> VehiclesOnTile fuel s t = Some l) /\
    NoDup l /\
    (forall v, v ∈ l <-> (exists b, in_bucket s b v) /\ tile_of s v = t) /\
    (forall v, v ∈ l -> in_bucket s (tile_bucket t) v) /\
    (forall v, in_bucket s (tile_bucket t) v -> tile_of s v <> t -> v ∉ l).
Proof.
  intros [L HR] Hcons.
  exists (length (L (tile_bucket t))),
         (filter (fun x => tile_of s x = t) (L (tile_bucket t))).
  split; [intros fuel Hf; by apply VehiclesOnTile_spec|].
  split; [apply list.NoDup_filter, (rep_nodup _ _ _ HR)|].
  split; [|split].
  - intros v. rewrite list_elem_of_filter. split.
    + intros [Ht Hin]. split; [|done]. exists (tile_bucket t).
      by apply (in_bucket_rep _ _ _ _ _ HR).
    + intros [[b Hb] Ht]. split; [done|].
      apply (in_bucket_rep _ _ _ _ _ HR) in Hb.
      pose proof (Rep_member _ _ _ _ HR Hb) as Hc.
      apply Hcons in Hc. rewrite Ht in Hc. by subst b.
  - intros v [_ Hin]%list_elem_of_filter. by apply (in_bucket_rep _ _ _ _ _ HR).
  - intros v _ Hne [Ht _]%list_elem_of_filter. done.
Qed.

(** *** Leaving the hash, moving, and starting afresh *)

Lemma filter_other_tile (P : VehicleID -> Prop) `{forall x, Decision (P x)}
    (v : VehicleID) (l : list VehicleID) :
  filter P (filter (fun w => w <> v) l) = filter (fun w => w <> v) (filter P l).
Proof.
  rewrite !list_filter_filter. apply list_filter_iff. intros x. tauto.
Qed.

(** The contents of the buckets after [UpdateVehicleTileHash], whether the
    vehicle had to move or not. *)
Lemma UpdateVehicleTileHash_contents s L v (remove : bool) :
  Rep s L ->
  let new_hash : option Z :=
    if remove then None else Some (tile_bucket (tile_of s v)) in
  exists s' L',
    UpdateVehicleTileHash s v remove = Some s' /\
    Rep s' L' /\
    (forall w, tile_of s' w = tile_of s w) /\
    cur_of s' v = new_hash /\
    (forall w, w <> v -> cur_of s' w = cur_of s w) /\
    (cur_of s v = new_hash -> forall b, L' b = L b) /\
    (cur_of s v <> new_hash -> forall b, L' b = moved L v new_hash b).
Proof.
  intros HR new_hash.
  destruct (UpdateVehicleTileHash_spec s L v remove HR)
    as (s' & L' & Hrun & HR' & Ht & Hc & Hco & Hnop & Hmove).
  exists s', L'. do 5 (split; [done|]). split.
  - intros Heq. by destruct (Hnop Heq).
  - intros Hne. by destruct (Hmove Hne).
Qed.

(** [v->tile = t]. *)
Definition set_tile (s : State) (v : VehicleID) (t : Z) : State :=
  let r := vehicles s v in
  {| vehicles := <[v := {| tile := t; hash_tile_next := hash_tile_next r;
                          hash_tile_prev := hash_tile_prev r;
                          hash_tile_current := hash_tile_current r |}]> (vehicles s);
     _vehicle_tile_hash := _vehicle_tile_hash s |}.

Lemma set_tile_obs s v t :
  (forall q, load (set_tile s v t) q = load s q) /\
  (forall w, prev_of (set_tile s v t) w = prev_of s w) /\
  (forall w, cur_of (set_tile s v t) w = cur_of s w) /\
  (forall w, tile_of (set_tile s v t) w = if decide (w = v) then t else tile_of s w).
Proof.
  split; [|split; [|split]].
  - intros [h|w]; simpl; [done|].
    destruct (decide (v = w)) as [->|Hne].
    + by rewrite fn_lookup_insert.
    + by rewrite fn_lookup_insert_ne.
  - intros w. simpl. destruct (decide (v = w)) as [->|Hne].
    + by rewrite fn_lookup_insert.
    + by rewrite fn_lookup_insert_ne.
  - intros w. simpl. destruct (decide (v = w)) as [->|Hne].
    + by rewrite fn_lookup_insert.
    + by rewrite fn_lookup_insert_ne.
  - intros w. simpl. destruct (decide (w = v)) as [->|Hne].
    + by rewrite fn_lookup_insert.
    + by rewrite fn_lookup_insert_ne.
Qed.

Lemma set_tile_Rep s L v t : Rep s L -> Rep (set_tile s v t) L.
Proof.
  intros HR. destruct (set_tile_obs s v t) as (Hl & Hp & Hc & _). constructor.
  - intros h. apply (linked_frame s); [| |apply (rep_linked _ _ _ HR)].
    + intros q _. apply Hl.
    + intros x _. by rewrite Hp, Hc.
  - intros w h Hw. rewrite Hc. by apply (rep_current _ _ _ HR).
  - apply (rep_nodup _ _ _ HR).
  - intros w h [=].
Qed.

(** [ResetVehicleHash], for the tile hash: [pool] holds the vehicles of the
    pool.  The table of the viewport hash, which is cleared as well, is no
    part of [State]. *)
Definition ResetVehicleHash (pool : list VehicleID) (s : State) : State :=
  let s := foldl (fun s v => set_hash_tile_current s v None) s pool in
  {| vehicles := vehicles s; _vehicle_tile_hash := fun _ => None |}.

Lemma forget_all_obs pool : forall s,
  let s' := foldl (fun s v => set_hash_tile_current s v None) s pool in
  (forall w, tile_of s' w = tile_of s w) /\
  (forall w, cur_of s' w = if decide (w ∈ pool) then None else cur_of s w).
Proof.
  induction pool as [|v pool IH]; intros s; cbn [foldl].
  - split; [done|]. intros w. rewrite decide_False; [done|]. apply not_elem_of_nil.
  - destruct (IH (set_hash_tile_current s v None)) as [Ht Hc]. split.
    + intros w. by rewrite Ht, tile_set_current.
    + intros w. rewrite Hc, cur_set_current.
      destruct (decide (w ∈ pool)) as [Hin|Hout].
      * rewrite decide_True; [done|]. by right.
      * destruct (decide (w = v)) as [->|Hne].
        -- rewrite decide_True; [done|]. left.
        -- rewrite decide_False; [done|]. rewrite elem_of_cons. tauto.
Qed.

(** X1: when a vehicle is taken out of the hash, as its destructor does,
    it is in no bucket afterwards and remembers none, every other vehicle
    stays in its bucket, a loop over the vehicles of any tile sees what it
    saw before without that vehicle and in the same order, and taking it
    out once more changes nothing. *)
Theorem UpdateVehicleTileHash_remove (s : State) (v : VehicleID) :
  well_formed s ->
  exists s',
    UpdateVehicleTileHash s v true = Some s' /\
    well_formed s' /\
    cur_of s' v = None /\
    (forall b, ~ in_bucket s' b v) /\
    (forall b w, w <> v -> in_bucket s' b w <-> in_bucket s b w) /\
    (consistent s -> consistent s') /\
    (forall t, exists k l, forall fuel, (k <= fuel)%nat ->
       VehiclesOnTile fuel s t = Some l /\
       VehiclesOnTile fuel s' t = Some (filter (fun w => w <> v) l)) /\
    UpdateVehicleTileHash s' v true = Some s'.
Proof.
  intros [L HR].
  destruct (UpdateVehicleTileHash_contents s L v true HR)
    as (s' & L' & Hrun & HR' & Ht & Hc & Hco & Hnop & Hmove).
  cbv zeta in Hc, Hnop, Hmove.
  assert (HL' : forall b, L' b = filter (fun w => w <> v) (L b)).
  { intros b. destruct (decide (cur_of s v = None)) as [Heq|Hne].
    - rewrite (Hnop Heq). symmetry. apply filter_absent. intros Hin.
      pose proof (Rep_member _ _ _ _ HR Hin). congruence.
    - rewrite (Hmove Hne). unfold moved. by rewrite decide_False. }
  exists s'. split; [done|]. split; [by exists L'|]. split; [done|].
  split.
  { intros b. rewrite (in_bucket_rep _ _ _ _ _ HR'), HL', list_elem_of_filter.
    intros [Hv _]. by apply Hv. }
  split.
  { intros b w Hw.
    rewrite (in_bucket_rep _ _ _ _ _ HR'), (in_bucket_rep _ _ _ _ _ HR), HL'.
    rewrite list_elem_of_filter. tauto. }
  split.
  { intros Hcons w h. destruct (decide (w = v)) as [->|Hw].
    - rewrite Hc. done.
    - rewrite Hco, Ht by done. apply Hcons. }
  split.
  { intros t. exists (length (L (tile_bucket t))), (filter (fun x => tile_of s x = t) (L (tile_bucket t))).
    intros fuel Hf. split; [by apply VehiclesOnTile_spec|].
    rewrite (VehiclesOnTile_spec s' L' t fuel HR').
    - rewrite HL'. rewrite <- filter_other_tile. f_equal.
      apply list_filter_iff. intros x. by rewrite Ht.
    - rewrite HL'. etrans; [apply length_filter|done]. }
  unfold UpdateVehicleTileHash. rewrite Hc. by rewrite decide_True.
Qed.

(** X2: [v->tile = t] followed by [UpdatePosition] keeps the hash well formed
    and every linked vehicle in the bucket of its tile.  Afterwards a loop
    over the vehicles on [t] sees [v], first of all when it changed buckets;
    a loop over another tile does not see it; and for every tile the other
    vehicles are seen as before, in the same order. *)
Theorem UpdatePosition_after_move (s : State) (v : VehicleID) (t : Z) :
  well_formed s -> consistent s ->
  exists s',
    UpdatePosition (set_tile s v t) v = Some s' /\
    well_formed s' /\ consistent s' /\
    tile_of s' v = t /\
    (forall w, w <> v -> tile_of s' w = tile_of s w) /\
    forall t', exists k l l', forall fuel, (k <= fuel)%nat ->
      VehiclesOnTile fuel s t' = Some l /\
      VehiclesOnTile fuel s' t' = Some l' /\
      (v ∈ l' <-> t' = t) /\
      filter (fun w => w <> v) l' = filter (fun w => w <> v) l /\
      (cur_of s v <> Some (tile_bucket t) -> t' = t -> exists r, l' = v :: r).
Proof.
  intros [L HR] Hcons.
  pose proof (set_tile_Rep s L v t HR) as HR1.
  destruct (set_tile_obs s v t) as (_ & _ & Hc1 & Ht1).
  destruct (UpdateVehicleTileHash_contents (set_tile s v t) L v false HR1)
    as (s' & L' & Hrun & HR' & Ht & Hc & Hco & Hnop & Hmove).
  cbv zeta in Hc, Hnop, Hmove.
  assert (Htv : tile_of (set_tile s v t) v = t) by (rewrite Ht1; by rewrite decide_True).
  rewrite Htv in Hc, Hnop, Hmove. rewrite Hc1 in Hnop, Hmove.
  assert (Htile : forall w, tile_of s' w = if decide (w = v) then t else tile_of s w).
  { intros w. by rewrite Ht, Ht1. }
  exists s'. split; [done|]. split; [by exists L'|].
  split.
  { intros w h. rewrite Htile. destruct (decide (w = v)) as [->|Hw].
    - rewrite Hc. by intros [= <-].
    - rewrite Hco, Hc1 by done. apply Hcons. }
  split; [rewrite Htile; by rewrite decide_True|].
  split; [intros w Hw; rewrite Htile; by rewrite decide_False|].
  intros t'.
  set (l := filter (fun x => tile_of s x = t') (L (tile_bucket t'))).
  set (l' := filter (fun x => tile_of s' x = t') (L' (tile_bucket t'))).
  exists (length (L (tile_bucket t')) + 1)%nat, l, l'.
  assert (Hvin : cur_of s v = Some (tile_bucket t) -> v ∈ L (tile_bucket t)).
  { intros Hcur. by apply (rep_current _ _ _ HR). }
  assert (Hlen : (length (L' (tile_bucket t')) <= length (L (tile_bucket t')) + 1)%nat).
  { destruct (decide (cur_of s v = Some (tile_bucket t))) as [Heq|Hne].
    - rewrite (Hnop Heq). lia.
    - rewrite (Hmove Hne). unfold moved. rewrite length_app.
      pose proof (length_filter (fun x => x <> v) (L (tile_bucket t'))).
      destruct (decide _); simpl; lia. }
  assert (Hmem : forall w, w ∈ L' (tile_bucket t') <->
            (w = v /\ tile_bucket t' = tile_bucket t) \/
            (w <> v /\ w ∈ L (tile_bucket t'))).
  { intros w. destruct (decide (cur_of s v = Some (tile_bucket t))) as [Heq|Hne].
    - rewrite (Hnop Heq). split.
      + intros Hin. destruct (decide (w = v)) as [->|Hw]; [|by right].
        left. split; [done|]. pose proof (Rep_member _ _ _ _ HR Hin). congruence.
      + intros [[-> ->]|[_ Hin]]; [by apply Hvin|done].
    - rewrite (Hmove Hne). unfold moved.
      rewrite elem_of_app, list_elem_of_filter.
      destruct (decide (Some (tile_bucket t) = Some (tile_bucket t'))) as [[= Hb]|Hb].
      + rewrite list_elem_of_singleton. rewrite Hb. tauto.
      + split; [intros [Hin|]; [inversion Hin|tauto]|].
        intros [[-> Hb']|]; [congruence|tauto]. }
  intros fuel Hf.
  split; [apply VehiclesOnTile_spec; [done|lia]|].
  split; [apply VehiclesOnTile_spec; [done|lia]|].
  split.
  { unfold l'. rewrite list_elem_of_filter, Htile, decide_True by done.
    rewrite Hmem. split.
    - by intros [-> _].
    - intros ->. split; [done|]. by left. }
  split.
  { unfold l, l'. rewrite <- !filter_other_tile.
    assert (HLf : filter (fun w => w <> v) (L' (tile_bucket t'))
                  = filter (fun w => w <> v) (L (tile_bucket t'))).
    { destruct (decide (cur_of s v = Some (tile_bucket t))) as [Heq|Hne].
      - by rewrite (Hnop Heq).
      - rewrite (Hmove Hne). unfold moved. rewrite list.filter_app.
        rewrite list_filter_filter.
        assert (Hhd : filter (fun w => w <> v)
                        (if decide (Some (tile_bucket t) = Some (tile_bucket t'))
                         then [v] else []) = []).
        { destruct (decide _); [|done]. rewrite filter_cons.
          rewrite decide_False by (intros Hx; by apply Hx). done. }
        rewrite Hhd. simpl. apply list_filter_iff. intros x. tauto. }
    rewrite HLf. rewrite !list_filter_filter. apply list_filter_iff.
    intros x. rewrite Htile. destruct (decide (x = v)); tauto. }
  intros Hne ->. unfold l'. rewrite (Hmove Hne). unfold moved.
  rewrite decide_True by done. simpl. rewrite filter_cons.
  rewrite decide_True by (rewrite Htile; by rewrite decide_True). eauto.
Qed.

(** X3: [ResetVehicleHash] needs nothing of the state it starts from: when
    the pool holds every vehicle that remembers a bucket, the hash is well
    formed afterwards, with every bucket empty, no vehicle remembering a
    bucket and every tile free of vehicles; the tiles of the vehicles are
    as they were. *)
Theorem ResetVehicleHash_empty (pool : list VehicleID) (s : State) :
  (forall v, cur_of s v <> None -> v ∈ pool) ->
  let s' := ResetVehicleHash pool s in
  well_formed s' /\ consistent s' /\
  (forall v, cur_of s' v = None /\ tile_of s' v = tile_of s v) /\
  (forall b v, ~ in_bucket s' b v) /\
  (forall t fuel, VehiclesOnTile fuel s' t = Some []).
Proof.
  intros Hpool s'.
  destruct (forget_all_obs pool s) as [Ht Hc].
  assert (Hcur : forall v, cur_of s' v = None).
  { intros v. unfold s', ResetVehicleHash. cbn [vehicles]. rewrite Hc.
    destruct (decide (v ∈ pool)) as [|Hout]; [done|].
    destruct (cur_of s v) eqn:Hv; [|done]. exfalso. apply Hout, Hpool. congruence. }
  assert (HR : Rep s' (fun _ => [])).
  { constructor.
    - intros h. split; done.
    - intros v h _. rewrite Hcur. done.
    - intros h. constructor.
    - intros v h [=]. }
  split; [by exists (fun _ => [])|].
  split; [intros v h; by rewrite Hcur|].
  split; [intros v; split; [done|apply Ht]|].
  split.
  { intros b v. rewrite (in_bucket_rep _ _ _ _ _ HR). apply not_elem_of_nil. }
  intros t fuel. rewrite (VehiclesOnTile_spec s' _ t fuel HR); [done|simpl; lia].
Qed.

End Map.

(** A 256 by 256 map, one vehicle on tile 5, linked in bucket 5. *)
Definition map_TileX (t : Z) : Z := Z.land t 255.
Definition map_TileY (t : Z) : Z := Z.shiftr t 8.

Definition one_vehicle : State :=
  {| vehicles := fun v =>
       if decide (v = 0%nat)
       then {| tile := 5; hash_tile_next := None;
               hash_tile_prev := Some (Bucket 5); hash_tile_current := Some 5 |}
       else {| tile := 0; hash_tile_next := None;
               hash_tile_prev := None; hash_tile_current := None |};
     _vehicle_tile_hash := fun h => if decide (h = 5) then Some 0%nat else None |}.

Lemma one_vehicle_well_formed : well_formed one_vehicle.
Proof.
  exists (fun b => if decide (b = 5) then [0%nat] else []). constructor.
  - intros h. destruct (decide (h = 5)) as [->|Hh].
    + split; simpl; done.
    + split; simpl; [done|]. by destruct (decide (h = 5)).
  - intros v h _. simpl. destruct (decide (v = 0%nat)) as [->|]; [|done].
    intros [= <-]. simpl. left.
  - intros h. destruct (decide (h = 5)); [apply NoDup_singleton|constructor].
  - intros v h [=].
Qed.

Lemma one_vehicle_consistent : consistent map_TileX map_TileY one_vehicle.
Proof.
  intros v h. simpl. destruct (decide (v = 0%nat)); [|done].
  intros [= <-]. reflexivity.
Qed.

(** The vehicle moves to tile 300, which is in bucket 172. *)
Definition one_vehicle_moved : State :=
  {| vehicles := <[0%nat := {| tile := 300; hash_tile_next := None;
                              hash_tile_prev := Some (Bucket 5);
                              hash_tile_current := Some 5 |}]> (vehicles one_vehicle);
     _vehicle_tile_hash := _vehicle_tile_hash one_vehicle |}.

Lemma one_vehicle_moved_well_formed : well_formed one_vehicle_moved.
Proof.
  exists (fun b => if decide (b = 5) then [0%nat] else []). constructor.
  - intros h. destruct (decide (h = 5)) as [->|Hh].
    + split; simpl; done.
    + split; simpl; [done|]. by destruct (decide (h = 5)).
  - intros v h _. simpl. destruct (decide (v = 0%nat)) as [->|Hv].
    + rewrite fn_lookup_insert. intros [= <-]. simpl. left.
    + rewrite fn_lookup_insert_ne by done. simpl.
      destruct (decide (v = 0%nat)); done.
  - intros h. destruct (decide (h = 5)); [apply NoDup_singleton|constructor].
  - intros v h [=].
Qed.

Lemma UpdatePosition_one_bucket_witness :
  well_formed one_vehicle_moved /\
  exists s', UpdatePosition map_TileX map_TileY one_vehicle_moved 0%nat = Some s' /\
    _vehicle_tile_hash s' 172 = Some 0%nat /\ _vehicle_tile_hash s' 5 = None.
Proof.
  split; [exact one_vehicle_moved_well_formed|].
  destruct (UpdatePosition_one_bucket map_TileX map_TileY one_vehicle_moved 0%nat
              one_vehicle_moved_well_formed) as (s' & Hrun & _).
  exists s'. split; [exact Hrun|].
  vm_compute in Hrun. injection Hrun as <-. split; reflexivity.
Defined.

Lemma VehiclesOnTile_exact_witness :
  well_formed one_vehicle /\ consistent map_TileX map_TileY one_vehicle /\
  VehiclesOnTile map_TileX map_TileY 1 one_vehicle 5 = Some [0%nat].
Proof.
  split; [exact one_vehicle_well_formed|]. split; [exact one_vehicle_consistent|].
  destruct (VehiclesOnTile_exact map_TileX map_TileY one_vehicle 5
              one_vehicle_well_formed one_vehicle_consistent) as (k & l & _).
  reflexivity.
Defined.

(** *** The hash function *)

Lemma GetTileHash1D_mod p : GetTileHash1D p = p `mod` 128.
Proof.
  unfold GetTileHash1D, GB, TILE_HASH_RES, TILE_HASH_BITS.
  rewrite Z.shiftr_0_r. apply (Z.land_ones p 7). lia.
Qed.

Lemma ComposeTileHash_value hx hy :
  0 <= hx < 128 -> ComposeTileHash hx hy = hx + 128 * hy.
Proof.
  intros Hx. unfold ComposeTileHash, TILE_HASH_BITS.
  rewrite Z.shiftl_mul_pow2 by lia.
  rewrite <- Z.lxor_lor, <- Z.add_nocarry_lxor; [lia| |].
  all: apply Z.bits_inj'; intros n Hn; rewrite Z.land_spec, Z.bits_0;
    destruct (decide (n < 7)) as [Hlt|Hge].
  all: try (rewrite (Z.mul_pow2_bits_low hy 7 n) by lia; apply andb_false_r).
  all: assert (Hhx : Z.testbit hx n = false)
         by (destruct (decide (hx = 0)) as [->|]; [apply Z.bits_0|];
             apply Z.bits_above_log2; [lia|];
             apply Z.log2_lt_pow2; [lia|];
             apply Z.lt_le_trans with (2 ^ 7); [lia|];
             apply Z.pow_le_mono_r; lia).
  all: by rewrite Hhx.
Qed.

Lemma GetTileHash_value x y : GetTileHash x y = x `mod` 128 + 128 * (y `mod` 128).
Proof.
  unfold GetTileHash. rewrite !GetTileHash1D_mod.
  apply ComposeTileHash_value. apply Z.mod_pos_bound. lia.
Qed.

(** X4: the hash of a tile is an index into [_vehicle_tile_hash], and two
    tiles share a bucket exactly when both of their coordinates agree modulo
    [TILE_HASH_SIZE]. *)
Theorem GetTileHash_aliases (x y x' y' : Z) :
  0 <= GetTileHash x y < TOTAL_TILE_HASH_SIZE /\
  (GetTileHash x y = GetTileHash x' y' <->
   x `mod` TILE_HASH_SIZE = x' `mod` TILE_HASH_SIZE /\
   y `mod` TILE_HASH_SIZE = y' `mod` TILE_HASH_SIZE).
Proof.
  rewrite !GetTileHash_value.
  change TOTAL_TILE_HASH_SIZE with 16384. change TILE_HASH_SIZE with 128.
  pose proof (Z.mod_pos_bound x 128 eq_refl).
  pose proof (Z.mod_pos_bound y 128 eq_refl).
  pose proof (Z.mod_pos_bound x' 128 eq_refl).
  pose proof (Z.mod_pos_bound y' 128 eq_refl).
  split; [lia|]. split; [lia|]. intros [-> ->]. done.
Qed.

Lemma UpdateVehicleTileHash_remove_witness :
  exists s',
    UpdateVehicleTileHash map_TileX map_TileY one_vehicle 0%nat true = Some s' /\
    _vehicle_tile_hash s' 5 = None.
Proof.
  destruct (UpdateVehicleTileHash_remove map_TileX map_TileY one_vehicle 0%nat
              one_vehicle_well_formed) as (s' & Hrun & _).
  exists s'. split; [exact Hrun|].
  vm_compute in Hrun. injection Hrun as <-. reflexivity.
Defined.

Lemma UpdatePosition_after_move_witness :
  exists s',
    UpdatePosition map_TileX map_TileY (set_tile one_vehicle 0%nat 300) 0%nat = Some s' /\
    _vehicle_tile_hash s' 172 = Some 0%nat /\ _vehicle_tile_hash s' 5 = None.
Proof.
  destruct (UpdatePosition_after_move map_TileX map_TileY one_vehicle 0%nat 300
              one_vehicle_well_formed one_vehicle_consistent) as (s' & Hrun & _).
  exists s'. split; [exact Hrun|].
  vm_compute in Hrun. injection Hrun as <-. split; reflexivity.
Defined.

Lemma ResetVehicleHash_empty_witness :
  VehiclesOnTile map_TileX map_TileY 1 (ResetVehicleHash [0%nat] one_vehicle) 5
  = Some [].
Proof.
  apply (ResetVehicleHash_empty map_TileX map_TileY [0%nat] one_vehicle).
  intros v. simpl. destruct (decide (v = 0%nat)) as [->|]; [|done].
  intros _. left.
Defined.

End TileHash.

(** ** The vehicles near a point: [VehiclesNearTileXY] *)

Module NearTile.
Import Core.
Import TileHash.

Definition to_int (x : Z) : Z := (x + 2 ^ 31) `mod` 2 ^ 32 - 2 ^ 31.
Definition to_uint (x : Z) : Z := x `mod` 2 ^ 32.

(** [Rect], with the names of its fields prefixed. *)
Record Rect := {
  rect_left : Z;
  rect_top : Z;
  rect_right : Z;
  rect_bottom : Z;
}.

(** The iterator of [VehiclesNearTileXY]. *)
Record Iterator := {
  pos_rect : Rect;
  hxmin : Z;
  hxmax : Z;
  hymin : Z;
  hymax : Z;
  hx : Z;
  hy : Z;
  current_veh : option VehicleID;
}.

(** The iterator at bucket [(x, y)] with [c] as current vehicle. *)
Definition at_bucket (it : Iterator) (x y : Z) (c : option VehicleID) : Iterator :=
  {| pos_rect := pos_rect it; hxmin := hxmin it; hxmax := hxmax it;
     hymin := hymin it; hymax := hymax it; hx := x; hy := y; current_veh := c |}.

Section Near.

(** [TILE_SIZE] is declared with the tiles, [Rect::Contains] with the
    geometry, both outside [vehicle.cpp]; [x_pos] and [y_pos] are fields of
    the vehicles that the hash does not write. *)
Variable TILE_SIZE : Z.
Variable Contains : Rect -> Z -> Z -> bool.
Variable x_pos y_pos : VehicleID -> Z.

(** [SkipEmptyBuckets]; [None] when the fuel runs out. *)
Fixpoint SkipEmptyBuckets (fuel : nat) (s : State) (it : Iterator) : option Iterator :=
  match current_veh it with
  | Some _ => Some it
  | None =>
      let next_bucket :=
        if negb (hx it =? hxmax it) then Some (IncTileHash1D (hx it), hy it)
        else if negb (hy it =? hymax it) then Some (hxmin it, IncTileHash1D (hy it))
        else None in
      match next_bucket with
      | None => Some it
      | Some (x, y) =>
          match fuel with
          | O => None
          | S fuel =>
              SkipEmptyBuckets fuel s
                (at_bucket it x y (_vehicle_tile_hash s (ComposeTileHash x y)))
          end
      end
  end.

(** [Increment]; [None] is the failed assertion as well. *)
Definition Increment (fuel : nat) (s : State) (it : Iterator) : option Iterator :=
  match current_veh it with
  | None => None
  | Some v =>
      SkipEmptyBuckets fuel s
        (at_bucket it (hx it) (hy it) (hash_tile_next (vehicles s v)))
  end.

(** [SkipFalseMatches]: [n] bounds the turns of its loop. *)
Fixpoint SkipFalseMatches (n fuel : nat) (s : State) (it : Iterator) : option Iterator :=
  match current_veh it with
  | None => Some it
  | Some v =>
      if Contains (pos_rect it) (x_pos v) (y_pos v) then Some it
      else match n with
           | O => None
           | S n => it' ← Increment fuel s it; SkipFalseMatches n fuel s it'
           end
  end.

(** The constructor of the iterator. *)
Definition Iterator_new (fuel : nat) (s : State) (x y max_dist : Z) : option Iterator :=
  (* There are no negative tile coordinates *)
  let rect := {| rect_left := Z.max 0 (to_int (x - max_dist));
                 rect_right := Z.max 0 (to_int (x + max_dist));
                 rect_top := Z.max 0 (to_int (y - max_dist));
                 rect_bottom := Z.max 0 (to_int (y + max_dist)) |} in
  let '(xmin, xmax, ymin, ymax) :=
    if to_uint (2 * max_dist) <? to_uint (TILE_HASH_MASK * TILE_SIZE) then
      (* Hash area to scan *)
      (GetTileHash1D (to_uint (rect_left rect) / TILE_SIZE),
       GetTileHash1D (to_uint (rect_right rect) / TILE_SIZE),
       GetTileHash1D (to_uint (rect_top rect) / TILE_SIZE),
       GetTileHash1D (to_uint (rect_bottom rect) / TILE_SIZE))
    else
      (* Scan all *)
      (0, TILE_HASH_MASK, 0, TILE_HASH_MASK) in
  let it := {| pos_rect := rect; hxmin := xmin; hxmax := xmax;
               hymin := ymin; hymax := ymax; hx := xmin; hy := ymin;
               current_veh := _vehicle_tile_hash s (ComposeTileHash xmin ymin) |} in
  it ← SkipEmptyBuckets fuel s it;
  SkipFalseMatches fuel fuel s it.

(** [operator++]: advance, then skip the vehicles outside the area. *)
Definition Iterator_next (fuel : nat) (s : State) (it : Iterator) : option Iterator :=
  it ← Increment fuel s it; SkipFalseMatches fuel fuel s it.

(** The vehicles that a loop over the range sees, in order. *)
Fixpoint collect (n fuel : nat) (s : State) (it : Iterator) : option (list VehicleID) :=
  match current_veh it with
  | None => Some []
  | Some v =>
      match n with
      | O => None
      | S n =>
          it' ← Iterator_next fuel s it;
          rest ← collect n fuel s it';
          Some (v :: rest)
      end
  end.

Definition VehiclesNearTileXY (fuel : nat) (s : State) (x y max_dist : Z)
  : option (list VehicleID) :=
  it ← Iterator_new fuel s x y max_dist; collect fuel fuel s it.

(** *** The scan of the buckets *)

Lemma IncTileHash1D_mod h : IncTileHash1D h = (h + 1) `mod` 128.
Proof. unfold IncTileHash1D. apply (Z.land_ones (h + 1) 7). lia. Qed.

Lemma elem_of_concat {A} (x : A) (ls : list (list A)) :
  x ∈ concat ls <-> exists l, x ∈ l /\ l ∈ ls.
Proof.
  induction ls as [|l0 ls IH]; cbn [concat].
  - split; [by intros ?%not_elem_of_nil|]. by intros (l & _ & ?%not_elem_of_nil).
  - rewrite elem_of_app, IH. split.
    + intros [Hx|(l & Hx & Hl)].
      * exists l0. split; [done|left].
      * exists l. split; [done|by right].
    + intros (l & Hx & [->|Hl]%elem_of_cons); [by left|].
      right. by exists l.
Qed.

Lemma succ_divmod (W p : nat) :
  (0 < W)%nat ->
  ((p `mod` W < W - 1)%nat ->
     (S p `mod` W = S (p `mod` W))%nat /\ (S p `div` W = p `div` W)%nat) /\
  ((p `mod` W = W - 1)%nat ->
     (S p `mod` W = 0)%nat /\ (S p `div` W = S (p `div` W))%nat).
Proof.
  intros HW.
  pose proof (Nat.div_mod_eq p W) as Hp.
  pose proof (Nat.mod_upper_bound p W ltac:(lia)) as Hr.
  split; intros Hcase.
  - assert (Hs : (S p = W * (p `div` W) + S (p `mod` W))%nat) by lia.
    split.
    + symmetry. apply (Nat.mod_unique _ _ (p `div` W)); [lia|done].
    + symmetry. apply (Nat.div_unique _ _ _ (S (p `mod` W))); [lia|done].
  - assert (Hs : (S p = W * S (p `div` W) + 0)%nat) by lia.
    split.
    + symmetry. apply (Nat.mod_unique _ _ (S (p `div` W))); [lia|done].
    + symmetry. apply (Nat.div_unique _ _ _ 0%nat); [lia|done].
Qed.

Lemma divmod_last (W H p : nat) :
  (0 < W)%nat -> (p < W * H)%nat ->
  (p `div` W < H)%nat /\
  ((S p = W * H)%nat <-> (p `mod` W = W - 1 /\ S (p `div` W) = H)%nat).
Proof.
  intros HW Hp.
  pose proof (Nat.div_mod_eq p W) as Heq.
  pose proof (Nat.mod_upper_bound p W ltac:(lia)) as Hr.
  assert (Hq : (p `div` W < H)%nat).
  { apply Nat.Div0.div_lt_upper_bound. lia. }
  split; [done|]. split.
  - intros Hs. nia.
  - intros [H1 H2]. nia.
Qed.

Section Scan.

Variable s : State.
Variable L : Z -> list VehicleID.
Hypothesis HR : Rep s L.

Variable rect : Rect.
Variable xmin xmax ymin ymax : Z.
Hypothesis xmin_range : 0 <= xmin < 128.
Hypothesis xmax_range : 0 <= xmax < 128.
Hypothesis ymin_range : 0 <= ymin < 128.
Hypothesis ymax_range : 0 <= ymax < 128.

(** The number of steps from the first to the last column, and row. *)
Definition nx : nat := Z.to_nat ((xmax - xmin) `mod` 128).
Definition ny : nat := Z.to_nat ((ymax - ymin) `mod` 128).
Definition W : nat := S nx.
Definition N : nat := (W * S ny)%nat.

Definition X (i : nat) : Z := (xmin + Z.of_nat i) `mod` 128.
Definition Y (j : nat) : Z := (ymin + Z.of_nat j) `mod` 128.

(** The bucket looked at in the [p]-th place. *)
Definition bucket (p : nat) : Z :=
  ComposeTileHash (X (p `mod` W)) (Y (p `div` W)).

Lemma nx_range : (nx < 128)%nat.
Proof using All. unfold nx. pose proof (Z.mod_pos_bound (xmax - xmin) 128 eq_refl). lia. Qed.

Lemma ny_range : (ny < 128)%nat.
Proof using All. unfold ny. pose proof (Z.mod_pos_bound (ymax - ymin) 128 eq_refl). lia. Qed.

Lemma X_range i : 0 <= X i < 128.
Proof using All. apply Z.mod_pos_bound. lia. Qed.

Lemma Y_range j : 0 <= Y j < 128.
Proof using All. apply Z.mod_pos_bound. lia. Qed.

Lemma X_0 : X 0 = xmin.
Proof using All. unfold X. rewrite Z.add_0_r. apply Z.mod_small. lia. Qed.

Lemma Y_0 : Y 0 = ymin.
Proof using All. unfold Y. rewrite Z.add_0_r. apply Z.mod_small. lia. Qed.

Lemma X_succ i : IncTileHash1D (X i) = X (S i).
Proof using All.
  rewrite IncTileHash1D_mod. unfold X.
  rewrite Zplus_mod_idemp_l. f_equal. lia.
Qed.

Lemma Y_succ j : IncTileHash1D (Y j) = Y (S j).
Proof using All.
  rewrite IncTileHash1D_mod. unfold Y.
  rewrite Zplus_mod_idemp_l. f_equal. lia.
Qed.

Lemma mod128_inj (a : Z) (i j : nat) :
  (i < 128)%nat -> (j < 128)%nat ->
  (a + Z.of_nat i) `mod` 128 = (a + Z.of_nat j) `mod` 128 -> i = j.
Proof using All.
  intros Hi Hj Heq.
  pose proof (Z.div_mod (a + Z.of_nat i) 128 ltac:(lia)) as H1.
  pose proof (Z.div_mod (a + Z.of_nat j) 128 ltac:(lia)) as H2.
  rewrite Heq in H1. lia.
Qed.

Lemma X_last : X nx = xmax.
Proof using All.
  unfold X, nx. rewrite Z2Nat.id by (apply Z.mod_pos_bound; lia).
  rewrite Zplus_mod_idemp_r. replace (xmin + (xmax - xmin)) with xmax by lia.
  apply Z.mod_small. lia.
Qed.

Lemma Y_last : Y ny = ymax.
Proof using All.
  unfold Y, ny. rewrite Z2Nat.id by (apply Z.mod_pos_bound; lia).
  rewrite Zplus_mod_idemp_r. replace (ymin + (ymax - ymin)) with ymax by lia.
  apply Z.mod_small. lia.
Qed.

Lemma X_is_last i : (i <= nx)%nat -> X i = xmax <-> i = nx.
Proof using All.
  intros Hi. pose proof nx_range. split.
  - rewrite <- X_last. apply mod128_inj; lia.
  - intros ->. apply X_last.
Qed.

Lemma Y_is_last j : (j <= ny)%nat -> Y j = ymax <-> j = ny.
Proof using All.
  intros Hj. pose proof ny_range. split.
  - rewrite <- Y_last. apply mod128_inj; lia.
  - intros ->. apply Y_last.
Qed.

(** The iterator looks at the [p]-th bucket of the scan. *)
Definition at_place (p : nat) (it : Iterator) : Prop :=
  pos_rect it = rect /\
  hxmin it = xmin /\ hxmax it = xmax /\ hymin it = ymin /\ hymax it = ymax /\
  hx it = X (p `mod` W) /\ hy it = Y (p `div` W) /\ (p < N)%nat.

(** What is left to see: the rest [l] of the bucket and the later buckets. *)
Definition rem (p : nat) (l : list VehicleID) : list VehicleID :=
  l ++ concat (map (fun q => L (bucket q)) (seq (S p) (N - S p))).

Definition Inv (it : Iterator) (p : nat) (l : list VehicleID) : Prop :=
  at_place p it /\
  walk (length l) s (current_veh it) = Some l /\
  (current_veh it = None -> S p = N).

Lemma walk_nil_inv n cur : walk n s cur = Some [] -> cur = None.
Proof using All. destruct cur, n; simpl; [done| |done..]. by destruct (walk n s _). Qed.

Lemma walk_cons_inv n cur v l :
  walk (S n) s cur = Some (v :: l) ->
  cur = Some v /\ walk n s (hash_tile_next (vehicles s v)) = Some l.
Proof using All.
  destruct cur as [w|]; simpl; [|done].
  destruct (walk n s _) as [r|] eqn:Hw; simpl; [|done].
  intros [= Hv Hl]. subst w r. done.
Qed.

Lemma bucket_walk h :
  walk (length (L h)) s (_vehicle_tile_hash s h) = Some (L h).
Proof using All.
  pose proof (rep_linked _ _ _ HR h) as Hl.
  apply (linked_walk s h (Bucket h) (L h) _ Hl). lia.
Qed.

Lemma rem_step p : (S p < N)%nat -> rem p [] = rem (S p) (L (bucket (S p))).
Proof using All.
  intros Hp. unfold rem. rewrite app_nil_l.
  replace (N - S p)%nat with (S (N - S (S p))) by lia. done.
Qed.

Lemma W_pos : (0 < W)%nat.
Proof using All. unfold W. lia. Qed.

(** From an empty place [SkipEmptyBuckets] goes to the next bucket that
    holds a vehicle, or to the last bucket. *)
Lemma skip_empty_spec k : forall p it fuel,
  (N - S p = k)%nat -> at_place p it -> current_veh it = None ->
  (k <= fuel)%nat ->
  exists it' p' l',
    SkipEmptyBuckets fuel s it = Some it' /\ Inv it' p' l' /\ rem p' l' = rem p [].
Proof using All.
  induction k as [|k IH]; intros p it fuel Hk Hat Hcur Hfuel;
    destruct Hat as (Hrect & Hx0 & Hx1 & Hy0 & Hy1 & Hhx & Hhy & Hp);
    pose proof W_pos as HW;
    pose proof (Nat.mod_upper_bound p W ltac:(lia)) as Hr;
    destruct (divmod_last W (S ny) p HW Hp) as [Hq Hlast].
  - (* the last bucket *)
    assert (Hend : S p = N) by lia.
    apply Hlast in Hend as [Hmod Hdiv].
    exists it, p, []. split.
    + destruct fuel; cbn [SkipEmptyBuckets]; rewrite Hcur, Hhx, Hhy, Hx1, Hy1.
      all: rewrite (proj2 (X_is_last (p `mod` W) ltac:(unfold W in *; lia)))
             by (unfold W in *; lia).
      all: rewrite (proj2 (Y_is_last (p `div` W) ltac:(lia))) by lia.
      all: by rewrite !Z.eqb_refl.
    + split; [|done]. split; [done|]. split; [by rewrite Hcur|]. intros _.
      apply Hlast. done.
  - (* one step further *)
    assert (Hnext : (S p < N)%nat) by lia.
    destruct fuel as [|fuel]; [lia|].
    set (it1 := at_bucket it (X (S p `mod` W)) (Y (S p `div` W))
                  (_vehicle_tile_hash s (bucket (S p)))).
    assert (Hstep : SkipEmptyBuckets (S fuel) s it = SkipEmptyBuckets fuel s it1).
    { cbn [SkipEmptyBuckets]. rewrite Hcur, Hhx, Hhy, Hx0, Hx1, Hy1.
      destruct (succ_divmod W p HW) as [Hin Hwrap].
      destruct (decide ((p `mod` W)%nat = nx)) as [Hmod|Hmod].
      - assert (Hle : (p `mod` W <= nx)%nat) by lia.
        rewrite (proj2 (X_is_last _ Hle) Hmod), Z.eqb_refl. cbn [negb].
        assert (Hw1 : (p `mod` W)%nat = (W - 1)%nat) by (rewrite Hmod; unfold W; lia).
        destruct (Hwrap Hw1) as [Hm Hd].
        assert (Hrow : (p `div` W)%nat <> ny).
        { intros Hrow. assert (S p = N); [|lia]. apply Hlast. split; [done|lia]. }
        destruct (Z.eqb_spec (Y (p `div` W)) ymax) as [Habs|_].
        { apply Y_is_last in Habs; [done|lia]. }
        cbn [negb]. unfold it1, bucket. rewrite Hm, Hd, X_0, Y_succ. done.
      - destruct (Z.eqb_spec (X (p `mod` W)) xmax) as [Habs|_].
        { apply X_is_last in Habs; [done|unfold W in *; lia]. }
        cbn [negb].
        assert (Hw1 : (p `mod` W < W - 1)%nat) by (unfold W in *; lia).
        destruct (Hin Hw1) as [Hm Hd].
        unfold it1, bucket. rewrite Hm, Hd, X_succ. done. }
    rewrite Hstep.
    assert (Hat1 : at_place (S p) it1).
    { unfold at_place, it1. simpl. done. }
    pose proof (bucket_walk (bucket (S p))) as Hw.
    rewrite rem_step by done.
    destruct (L (bucket (S p))) as [|v l] eqn:HL.
    + (* an empty bucket *)
      assert (Hc1 : current_veh it1 = None).
      { unfold it1. simpl. by apply (walk_nil_inv 0). }
      apply (IH (S p) it1 fuel); [lia|done|done|lia].
    + exists it1, (S p), (v :: l).
      assert (Hc1 : current_veh it1 = Some v).
      { unfold it1. simpl. by apply (walk_cons_inv _ _ _ _ Hw). }
      split; [destruct fuel; cbn [SkipEmptyBuckets]; by rewrite Hc1|].
      split; [|done]. split; [done|]. split; [done|]. by rewrite Hc1.
Qed.

(** [SkipEmptyBuckets] from any place. *)
Lemma normalise p it l fuel :
  at_place p it -> walk (length l) s (current_veh it) = Some l ->
  (N <= fuel)%nat ->
  exists it' p' l',
    SkipEmptyBuckets fuel s it = Some it' /\ Inv it' p' l' /\ rem p' l' = rem p l.
Proof using All.
  intros Hat Hw Hfuel. destruct l as [|v l].
  - apply (skip_empty_spec (N - S p) p it fuel); [done|done| |lia].
    by apply (walk_nil_inv 0).
  - destruct (walk_cons_inv _ _ _ _ Hw) as [Hc _].
    exists it, p, (v :: l).
    split; [destruct fuel; cbn [SkipEmptyBuckets]; by rewrite Hc|].
    split; [|done]. split; [done|]. split; [done|]. by rewrite Hc.
Qed.

Lemma Increment_spec it p v l fuel :
  Inv it p (v :: l) -> (N <= fuel)%nat ->
  exists it' p' l',
    Increment fuel s it = Some it' /\ Inv it' p' l' /\ rem p' l' = rem p l.
Proof using All.
  intros (Hat & Hw & _) Hfuel.
  destruct (walk_cons_inv _ _ _ _ Hw) as [Hc Hnext].
  unfold Increment. rewrite Hc.
  apply (normalise p); [|done|done].
  destruct Hat as (Hrect & Hx0 & Hx1 & Hy0 & Hy1 & Hhx & Hhy & Hp).
  unfold at_place. simpl. done.
Qed.

Abbreviation inside v := (Contains rect (x_pos v) (y_pos v) = true).

(** A loop over what is left. *)
Lemma scan_collect_spec (R : list VehicleID) : forall it p l n1 n2 fuel,
  Inv it p l -> rem p l = R ->
  (length R <= n1)%nat -> (length R <= n2)%nat ->
  (length R <= fuel)%nat -> (N <= fuel)%nat ->
  exists it',
    SkipFalseMatches n1 fuel s it = Some it' /\
    collect n2 fuel s it' = Some (filter (fun v => inside v) R).
Proof using All.
  induction R as [|v R IH]; intros it p l n1 n2 fuel HI HR' Hn1 Hn2 Hf HN.
  - destruct HI as (Hat & Hw & Hend).
    assert (l = []) as -> by (unfold rem in HR'; by destruct l).
    apply (walk_nil_inv 0) in Hw.
    exists it. split.
    + destruct n1; cbn [SkipFalseMatches]; by rewrite Hw.
    + destruct n2; cbn [collect]; by rewrite Hw.
  - destruct l as [|v' l].
    { destruct HI as (Hat & Hw & Hend). apply (walk_nil_inv 0) in Hw.
      specialize (Hend Hw). unfold rem in HR'.
      replace (N - S p)%nat with 0%nat in HR' by lia. done. }
    assert (Hhead : v' = v /\ rem p l = R).
    { unfold rem in *. rewrite <- app_comm_cons in HR'.
      injection HR' as Hv Hrest. split; [exact Hv|exact Hrest]. }
    destruct Hhead as [-> HR1].
    destruct (Increment_spec it p v l fuel HI HN) as (it1 & p1 & l1 & Hinc & HI1 & Hrem1).
    destruct HI as (Hat & Hw & _).
    destruct (walk_cons_inv _ _ _ _ Hw) as [Hc _].
    assert (Hrect : pos_rect it = rect) by apply Hat.
    simpl in Hn1, Hn2, Hf.
    rewrite filter_cons.
    destruct (Contains rect (x_pos v) (y_pos v)) eqn:Hin.
    + rewrite decide_True by done.
      exists it. split.
      { destruct n1; cbn [SkipFalseMatches]; by rewrite Hc, Hrect, Hin. }
      destruct n2 as [|n2]; [lia|].
      destruct (IH it1 p1 l1 fuel n2 fuel HI1) as (it2 & Hskip & Hcol);
        [congruence|lia..|].
      cbn [collect]. rewrite Hc. unfold Iterator_next. rewrite Hinc. cbn.
      rewrite Hskip. cbn. rewrite Hcol. done.
    + rewrite decide_False by done.
      destruct n1 as [|n1]; [lia|].
      destruct (IH it1 p1 l1 n1 n2 fuel HI1) as (it2 & Hskip & Hcol);
        [congruence|lia..|].
      exists it2. split; [|done].
      cbn [SkipFalseMatches]. rewrite Hc, Hrect, Hin, Hinc. cbn. done.
Qed.

(** The buckets of the scan, in the order of the scan, and what they hold. *)
Definition scanned : list VehicleID :=
  concat (map (fun q => L (bucket q)) (seq 0 N)).

Lemma bucket_of i j :
  (i <= nx)%nat -> (j <= ny)%nat ->
  exists p, (p < N)%nat /\ bucket p = ComposeTileHash (X i) (Y j).
Proof using All.
  intros Hi Hj. exists (W * j + i)%nat. split; [unfold N, W; nia|].
  unfold bucket.
  rewrite <- (Nat.mod_unique (W * j + i) W j i); [|unfold W; lia|done].
  rewrite <- (Nat.div_unique (W * j + i) W j i); [|unfold W; lia|done].
  done.
Qed.

Lemma bucket_inj p q : (p < N)%nat -> (q < N)%nat -> bucket p = bucket q -> p = q.
Proof using All.
  intros Hp Hq. unfold bucket.
  rewrite !ComposeTileHash_value by apply X_range.
  pose proof W_pos as HW. pose proof nx_range. pose proof ny_range.
  pose proof (Nat.mod_upper_bound p W ltac:(lia)).
  pose proof (Nat.mod_upper_bound q W ltac:(lia)).
  destruct (divmod_last W (S ny) p HW Hp) as [Hdp _].
  destruct (divmod_last W (S ny) q HW Hq) as [Hdq _].
  pose proof (X_range (p `mod` W)). pose proof (X_range (q `mod` W)).
  pose proof (Y_range (p `div` W)). pose proof (Y_range (q `div` W)).
  intros Heq.
  assert (HX : X (p `mod` W) = X (q `mod` W)) by lia.
  assert (HY : Y (p `div` W) = Y (q `div` W)) by lia.
  apply mod128_inj in HX; [|unfold W in *; lia..].
  apply mod128_inj in HY; [|lia..].
  rewrite (Nat.div_mod_eq p W), (Nat.div_mod_eq q W). congruence.
Qed.

Lemma scanned_elem v :
  v ∈ scanned <-> exists p, (p < N)%nat /\ v ∈ L (bucket p).
Proof using All.
  unfold scanned. rewrite elem_of_concat. split.
  - intros (l & Hv & Hl). apply list_elem_of_fmap in Hl as (p & -> & Hp).
    apply elem_of_seq in Hp. exists p. split; [lia|done].
  - intros (p & Hp & Hv). exists (L (bucket p)). split; [done|].
    apply list_elem_of_fmap. exists p. split; [done|]. apply elem_of_seq. lia.
Qed.

Lemma scanned_NoDup : NoDup scanned.
Proof using All.
  unfold scanned.
  assert (Hgen : forall ps, NoDup ps -> (forall p, p ∈ ps -> (p < N)%nat) ->
            NoDup (concat (map (fun q => L (bucket q)) ps))).
  { induction ps as [|p ps IH]; intros Hnd Hlt; [constructor|].
    apply list.NoDup_cons in Hnd as [Hp Hnd]. cbn [map concat].
    apply list.NoDup_app. split; [apply (rep_nodup _ _ _ HR)|]. split.
    - intros v Hv Hrest. apply elem_of_concat in Hrest as (l & Hvl & Hl).
      apply list_elem_of_fmap in Hl as (q & -> & Hq).
      pose proof (Rep_member _ _ _ _ HR Hv) as H1.
      pose proof (Rep_member _ _ _ _ HR Hvl) as H2.
      assert (bucket p = bucket q) by congruence.
      assert (p = q); [|by subst].
      apply bucket_inj; [apply Hlt; left|apply Hlt; by right|done].
    - apply IH; [done|]. intros q Hq. apply Hlt. by right. }
  apply Hgen; [apply NoDup_seq|]. intros p Hp%elem_of_seq. lia.
Qed.

End Scan.

(** *** The range *)

Lemma near_to_int_small x : - 2 ^ 31 <= x < 2 ^ 31 -> to_int x = x.
Proof. intros Hx. unfold to_int. rewrite Z.mod_small; lia. Qed.

Lemma near_to_uint_small x : 0 <= x < 2 ^ 32 -> to_uint x = x.
Proof. intros Hx. unfold to_uint. by rewrite Z.mod_small. Qed.

(** The columns, or rows, between two hashes hold the hash of every
    coordinate between the two coordinates hashed, when these are less than
    [TILE_HASH_SIZE] apart. *)
Lemma covered (lo hi c : Z) :
  0 <= lo -> lo <= c <= hi -> hi - lo <= 127 ->
  exists i, (i <= nx (lo `mod` 128) (hi `mod` 128))%nat /\
            X (lo `mod` 128) i = c `mod` 128.
Proof.
  intros Hlo Hc Hspan.
  assert (Hnx : Z.of_nat (nx (lo `mod` 128) (hi `mod` 128)) = hi - lo).
  { unfold nx. rewrite <- Zminus_mod, Z.mod_small by lia. lia. }
  exists (Z.to_nat (c - lo)). split; [lia|].
  unfold X. rewrite Z2Nat.id by lia.
  rewrite Zplus_mod_idemp_l. f_equal. lia.
Qed.

Lemma covered_all (c : Z) :
  exists i, (i <= nx 0 TILE_HASH_MASK)%nat /\ X 0 i = c `mod` 128.
Proof.
  pose proof (Z.mod_pos_bound c 128 eq_refl) as Hc.
  exists (Z.to_nat (c `mod` 128)). split.
  - unfold nx. change ((TILE_HASH_MASK - 0) `mod` 128) with 127. lia.
  - unfold X. rewrite Z2Nat.id by lia. rewrite Z.add_0_l. apply Z.mod_small. lia.
Qed.

Lemma span_bound (a b d : Z) :
  0 < TILE_SIZE -> 0 <= a <= b -> b - a <= 2 * d -> 2 * d < 127 * TILE_SIZE ->
  b `div` TILE_SIZE - a `div` TILE_SIZE <= 127.
Proof.
  intros HT Hab Hd Hnarrow.
  pose proof (Z.div_mod a TILE_SIZE ltac:(lia)) as Ha.
  pose proof (Z.div_mod b TILE_SIZE ltac:(lia)) as Hb.
  pose proof (Z.mod_pos_bound a TILE_SIZE HT) as Hra.
  pose proof (Z.mod_pos_bound b TILE_SIZE HT) as Hrb.
  nia.
Qed.

(** The area searched around [(x, y)]. *)
Definition area (x y max_dist : Z) : Rect :=
  {| rect_left := Z.max 0 (x - max_dist); rect_top := Z.max 0 (y - max_dist);
     rect_right := Z.max 0 (x + max_dist); rect_bottom := Z.max 0 (y + max_dist) |}.

(** X5: a loop over [VehiclesNearTileXY(x, y, max_dist)] returns and sees no
    vehicle twice; every vehicle it sees is linked in the hash and lies in
    the area searched.  When every linked vehicle is in the bucket of the
    tile that holds its position, and [Contains] only accepts points between
    the edges of the area, the loop sees every linked vehicle that lies in
    the area: no bucket that can hold one is left out, whether the area is
    narrow or makes the loop scan the whole table. *)
Theorem VehiclesNearTileXY_exact (s : State) (x y max_dist : Z) :
  well_formed s ->
  0 < TILE_SIZE < 2 ^ 24 -> 0 <= max_dist < 2 ^ 30 ->
  - 2 ^ 30 <= x < 2 ^ 30 -> - 2 ^ 30 <= y < 2 ^ 30 ->
  let rect := area x y max_dist in
  exists k l,
    (forall fuel, (k <= fuel)%nat ->
       VehiclesNearTileXY fuel s x y max_dist = Some l) /\
    NoDup l /\
    (forall v, v ∈ l ->
       (exists b, in_bucket s b v) /\ Contains rect (x_pos v) (y_pos v) = true) /\
    ((forall v b, hash_tile_current (vehicles s v) = Some b ->
        b = GetTileHash (x_pos v `div` TILE_SIZE) (y_pos v `div` TILE_SIZE)) ->
     (forall px py, Contains rect px py = true ->
        rect_left rect <= px <= rect_right rect /\
        rect_top rect <= py <= rect_bottom rect) ->
     forall v, (exists b, in_bucket s b v) ->
       Contains rect (x_pos v) (y_pos v) = true -> v ∈ l).
Proof.
  intros [L HR] HT Hd Hx Hy rect.
  set (narrow := to_uint (2 * max_dist) <? to_uint (TILE_HASH_MASK * TILE_SIZE)).
  set (xmin := if narrow then GetTileHash1D (to_uint (rect_left rect) / TILE_SIZE) else 0).
  set (xmax := if narrow then GetTileHash1D (to_uint (rect_right rect) / TILE_SIZE)
               else TILE_HASH_MASK).
  set (ymin := if narrow then GetTileHash1D (to_uint (rect_top rect) / TILE_SIZE) else 0).
  set (ymax := if narrow then GetTileHash1D (to_uint (rect_bottom rect) / TILE_SIZE)
               else TILE_HASH_MASK).
  assert (Hrange : forall c, 0 <= GetTileHash1D c < 128).
  { intros c. rewrite GetTileHash1D_mod. apply Z.mod_pos_bound. lia. }
  assert (Hxmin : 0 <= xmin < 128) by (unfold xmin; destruct narrow; [apply Hrange|done]).
  assert (Hxmax : 0 <= xmax < 128) by (unfold xmax; destruct narrow; [apply Hrange|done]).
  assert (Hymin : 0 <= ymin < 128) by (unfold ymin; destruct narrow; [apply Hrange|done]).
  assert (Hymax : 0 <= ymax < 128) by (unfold ymax; destruct narrow; [apply Hrange|done]).
  set (it0 := {| pos_rect := rect; hxmin := xmin; hxmax := xmax;
                 hymin := ymin; hymax := ymax; hx := xmin; hy := ymin;
                 current_veh := _vehicle_tile_hash s (ComposeTileHash xmin ymin) |}).
  assert (Hnew : forall fuel, Iterator_new fuel s x y max_dist
                 = it ← SkipEmptyBuckets fuel s it0; SkipFalseMatches fuel fuel s it).
  { intros fuel. unfold Iterator_new.
    rewrite !near_to_int_small by lia. fold narrow.
    unfold it0, xmin, xmax, ymin, ymax, rect, area. by destruct narrow. }
  pose (n := N xmin xmax ymin ymax).
  pose (all := scanned L xmin xmax ymin ymax).
  assert (HN : (0 < n)%nat) by (unfold n, N, W; lia).
  assert (HX0 : X xmin 0 = xmin) by (unfold X; rewrite Z.add_0_r; apply Z.mod_small; lia).
  assert (HY0 : Y ymin 0 = ymin) by (unfold Y; rewrite Z.add_0_r; apply Z.mod_small; lia).
  assert (Hb0 : bucket xmin xmax ymin 0 = ComposeTileHash xmin ymin).
  { unfold bucket. rewrite Nat.Div0.mod_0_l, Nat.Div0.div_0_l.
    by rewrite HX0, HY0. }
  assert (Hat : at_place rect xmin xmax ymin ymax 0 it0).
  { unfold at_place. rewrite Nat.Div0.mod_0_l, Nat.Div0.div_0_l, HX0, HY0.
    unfold it0. cbn [pos_rect hxmin hxmax hymin hymax hx hy]. done. }
  assert (Hw0 : walk (length (L (ComposeTileHash xmin ymin))) s (current_veh it0)
                = Some (L (ComposeTileHash xmin ymin))).
  { unfold it0. simpl.
    apply (bucket_walk s L HR rect xmin xmax ymin ymax Hxmin Hxmax Hymin Hymax). }
  assert (Hall : rem L xmin xmax ymin ymax 0 (L (ComposeTileHash xmin ymin)) = all).
  { unfold rem, all, scanned. fold n.
    replace n with (S (n - 1)) at 2 by lia. cbn [seq map concat].
    by rewrite Hb0. }
  exists (Nat.max n (length all)), (filter (fun v => Contains rect (x_pos v) (y_pos v) = true) all).
  split.
  { intros fuel Hfuel. unfold VehiclesNearTileXY. rewrite Hnew.
    destruct (normalise s L HR rect xmin xmax ymin ymax Hxmin Hxmax Hymin Hymax
                0 it0 _ fuel Hat Hw0) as (it1 & p1 & l1 & Hskip & HI1 & Hrem1);
      [fold n; lia|].
    rewrite Hskip. cbn.
    destruct (scan_collect_spec s L HR rect xmin xmax ymin ymax Hxmin Hxmax Hymin Hymax
                all it1 p1 l1 fuel fuel fuel HI1) as (it2 & Hfalse & Hcol);
      [congruence|fold n; lia..|].
    rewrite Hfalse. cbn. done. }
  split.
  { apply list.NoDup_filter.
    apply (scanned_NoDup s L HR rect xmin xmax ymin ymax Hxmin Hxmax Hymin Hymax). }
  split.
  { intros v [Hin Hv]%list_elem_of_filter. split; [|done].
    apply (scanned_elem s L HR rect xmin xmax ymin ymax Hxmin Hxmax Hymin Hymax)
      in Hv as (p & _ & Hv).
    eexists. apply (in_bucket_rep _ _ _ _ _ HR). exact Hv. }
  intros Hpos Hbounds v [b Hb] Hin.
  apply list_elem_of_filter. split; [done|].
  apply (in_bucket_rep _ _ _ _ _ HR) in Hb.
  pose proof (Rep_member _ _ _ _ HR Hb) as Hcur.
  specialize (Hpos v b Hcur). 
  destruct (Hbounds _ _ Hin) as [Hbx Hby].
  unfold rect, area in Hbx, Hby. cbn in Hbx, Hby.
  assert (Hcol : exists i, (i <= nx xmin xmax)%nat /\
                   X xmin i = (x_pos v `div` TILE_SIZE) `mod` 128).
  { unfold xmin, xmax. destruct narrow eqn:Hnarrow.
    - unfold narrow in Hnarrow. apply Z.ltb_lt in Hnarrow.
      change TILE_HASH_MASK with 127 in Hnarrow.
      rewrite !near_to_uint_small in Hnarrow by lia.
      unfold rect, area. cbn [rect_left rect_right].
      rewrite !near_to_uint_small by lia. rewrite !GetTileHash1D_mod.
      apply covered.
      + apply Z.div_pos; lia.
      + split; apply Z.div_le_mono; lia.
      + apply (span_bound _ _ max_dist); lia.
    - apply covered_all. }
  assert (Hrow : exists j, (j <= ny ymin ymax)%nat /\
                   Y ymin j = (y_pos v `div` TILE_SIZE) `mod` 128).
  { unfold ymin, ymax. destruct narrow eqn:Hnarrow.
    - unfold narrow in Hnarrow. apply Z.ltb_lt in Hnarrow.
      change TILE_HASH_MASK with 127 in Hnarrow.
      rewrite !near_to_uint_small in Hnarrow by lia.
      unfold rect, area. cbn [rect_top rect_bottom].
      rewrite !near_to_uint_small by lia. rewrite !GetTileHash1D_mod.
      apply (covered _ _ (y_pos v `div` TILE_SIZE)).
      + apply Z.div_pos; lia.
      + split; apply Z.div_le_mono; lia.
      + apply (span_bound _ _ max_dist); lia.
    - apply (covered_all (y_pos v `div` TILE_SIZE)). }
  destruct Hcol as (i & Hi & HXi). destruct Hrow as (j & Hj & HYj).
  destruct (bucket_of s L HR rect xmin xmax ymin ymax Hxmin Hxmax Hymin Hymax
              i j Hi Hj) as (p & Hp & Hbp).
  apply (scanned_elem s L HR rect xmin xmax ymin ymax Hxmin Hxmax Hymin Hymax).
  exists p. split; [done|].
  rewrite Hbp, HXi, HYj. rewrite Hpos in Hb.
  unfold GetTileHash in Hb. rewrite !GetTileHash1D_mod in Hb. done.
Qed.

End Near.

(** Tiles of 16 by 16, the vehicle of [one_vehicle] at the corner of tile
    5, and an area that holds its edges. *)
Definition inclusive (r : Rect) (px py : Z) : bool :=
  (rect_left r <=? px) && (px <=? rect_right r) &&
  (rect_top r <=? py) && (py <=? rect_bottom r).

Lemma VehiclesNearTileXY_exact_witness :
  exists k l,
    (forall fuel, (k <= fuel)%nat ->
       VehiclesNearTileXY 16 inclusive (fun _ => 80) (fun _ => 0) fuel one_vehicle 85 3 10
       = Some l) /\
    0%nat ∈ l.
Proof.
  destruct (VehiclesNearTileXY_exact 16 inclusive (fun _ => 80) (fun _ => 0)
              one_vehicle 85 3 10 one_vehicle_well_formed)
    as (k & l & Hrun & _ & _ & Hall); [lia..|].
  exists k, l. split; [exact Hrun|]. apply Hall.
  - intros v b. simpl. destruct (decide (v = 0%nat)); [|done].
    intros [= <-]. reflexivity.
  - intros px py. unfold inclusive. rewrite !andb_true_iff, !Z.leb_le. lia.
  - exists 5, 1%nat, [0%nat]. split; [reflexivity|left].
  - reflexivity.
Defined.

End NearTile.

(** ** Consists: [Vehicle::SetNext] *)

Module Consist.

Definition VehicleID := nat.

(** The chain pointers of a [Vehicle]. *)
Record Vehicle := {
  next : option VehicleID;
  previous : option VehicleID;
  first : option VehicleID;
}.

(** The vehicle pool. *)
Abbreviation Pool := (VehicleID -> Vehicle).

Definition set_next (s : Pool) (v : VehicleID) (x : option VehicleID) : Pool :=
  <[v := {| next := x; previous := previous (s v); first := first (s v) |}]> s.
Definition set_previous (s : Pool) (v : VehicleID) (x : option VehicleID) : Pool :=
  <[v := {| next := next (s v); previous := x; first := first (s v) |}]> s.
Definition set_first (s : Pool) (v : VehicleID) (x : option VehicleID) : Pool :=
  <[v := {| next := next (s v); previous := previous (s v); first := x |}]> s.

(** [for (Vehicle *v = cur; v != nullptr; v = v->Next()) v->first = src;]
    where [src] is read again at every turn; [None] when the fuel runs out. *)
Fixpoint set_first_from (fuel : nat) (s : Pool) (cur : option VehicleID)
    (src : Pool -> option VehicleID) : option Pool :=
  match cur with
  | None => Some s
  | Some v =>
      match fuel with
      | O => None
      | S fuel =>
          let s := set_first s v (src s) in
          set_first_from fuel s (next (s v)) src
      end
  end.

(** [Vehicle::SetNext]; [None] is a failed assertion, a null dereference or
    the end of the fuel. *)
Definition SetNext (fuel : nat) (s : Pool) (this : VehicleID)
    (next_arg : option VehicleID) : option Pool :=
  if decide (Some this = next_arg) then None
  else
    s ← match next (s this) with
        | Some _ =>
            (* We had an old next vehicle. Update the first and previous pointers *)
            s ← set_first_from fuel s (next (s this)) (fun s => next (s this));
            o ← next (s this);
            Some (set_previous s o None)
        | None => Some s
        end;
    let s := set_next s this next_arg in
    match next (s this) with
    | Some _ =>
        (* A new next vehicle. Update the first and previous pointers *)
        n ← next (s this);
        let s := match previous (s n) with
                 | Some p => set_next s p None
                 | None => s
                 end in
        n ← next (s this);
        let s := set_previous s n (Some this) in
        set_first_from fuel s (next (s this)) (fun s => first (s this))
    | None => Some s
    end.

(** A freshly constructed vehicle is a consist of its own. *)
Definition fresh : Pool :=
  fun v => {| next := None; previous := None; first := Some v |}.

(** Following [Next()] from [cur] visits exactly the vehicles of [l], in
    order, and then reaches the null pointer. *)
Fixpoint chain (s : Pool) (cur : option VehicleID) (l : list VehicleID) : Prop :=
  match l with
  | [] => cur = None
  | x :: l' => cur = Some x /\ chain s (next (s x)) l'
  end.

(** The same walk, run with fuel. *)
Fixpoint walk (fuel : nat) (s : Pool) (cur : option VehicleID)
  : option (list VehicleID) :=
  match cur with
  | None => Some []
  | Some v =>
      match fuel with
      | O => None
      | S fuel => (v ::.) <$> walk fuel s (next (s v))
      end
  end.

(** The invariant of the pool: [next] and [previous] mirror each other, a
    vehicle without predecessor is its own [first], [first] is shared along
    [next], and the links are well founded in both directions. *)
Record WF (s : Pool) : Prop := {
  wf_links : forall a b, next (s a) = Some b <-> previous (s b) = Some a;
  wf_heads : forall x, previous (s x) = None -> first (s x) = Some x;
  wf_shared : forall a b, next (s a) = Some b -> first (s b) = first (s a);
  wf_fwd : exists e : VehicleID -> nat,
      forall a b, next (s a) = Some b -> (e b < e a)%nat;
  wf_bwd : exists d : VehicleID -> nat,
      forall a b, next (s a) = Some b -> (d a < d b)%nat;
}.

(** [x] is a member of a consist headed by [h]: the walk from [h] ends,
    passes every member once, [x] among them, and all of them name [h] as
    their [first]. *)
Definition in_consist (s : Pool) (x h : VehicleID) : Prop :=
  previous (s h) = None /\ first (s h) = Some h /\
  exists l, chain s (Some h) l /\ walk (length l) s (Some h) = Some l /\
    NoDup l /\ x ∈ l /\ forall y, y ∈ l -> first (s y) = Some h.

(** *** Chains *)

Lemma chain_walk s l : forall cur, chain s cur l <-> walk (length l) s cur = Some l.
Proof.
  induction l as [|x l IH]; intros cur; simpl.
  - destruct cur; split; done.
  - destruct cur as [v|]; [|split; [intros [? _]|]; done].
    rewrite IH. destruct (walk (length l) s (next (s v))) as [r|] eqn:Hr; simpl.
    + split.
      * intros [[= ->] Hw]. rewrite Hw in Hr. by injection Hr as ->.
      * intros [= -> ->]. by rewrite Hr.
    + split; [|done]. intros [[= ->] Hw]. congruence.
Qed.

Lemma chain_functional s l1 : forall cur l2, chain s cur l1 -> chain s cur l2 -> l1 = l2.
Proof.
  induction l1 as [|x l1 IH]; intros cur [|y l2]; simpl; try done.
  - intros -> [? _]. done.
  - intros [-> _] ?. done.
  - intros [-> H1] [[= <-] H2]. f_equal. by eapply IH.
Qed.

Lemma chain_agree s s' l : forall cur,
  (forall x, x ∈ l -> next (s' x) = next (s x)) -> chain s cur l -> chain s' cur l.
Proof.
  induction l as [|x l IH]; intros cur Hn; simpl; [done|].
  intros [-> Hc]. split; [done|]. rewrite Hn by left.
  apply IH; [|done]. intros y Hy. apply Hn. by right.
Qed.

(** A chain is closed under [next]. *)
Lemma chain_closed s l : forall cur a b,
  chain s cur l -> a ∈ l -> next (s a) = Some b -> b ∈ l.
Proof.
  induction l as [|x l IH]; intros cur a b; simpl.
  - intros _ H. inversion H.
  - intros [-> Hc] [->|Ha]%elem_of_cons Hn.
    + right. destruct l as [|y l]; simpl in Hc; [congruence|].
      destruct Hc as [Hy _]. rewrite Hn in Hy. injection Hy as ->. left.
    + right. by eapply IH.
Qed.

(** Every member but the first has its predecessor in the chain. *)
Lemma chain_pred s l : forall cur b,
  chain s cur l -> b ∈ l -> cur = Some b \/ exists a, a ∈ l /\ next (s a) = Some b.
Proof.
  induction l as [|x l IH]; intros cur b; simpl.
  - intros _ H. inversion H.
  - intros [-> Hc] [->|Hb]%elem_of_cons; [by left|]. right.
    destruct (IH _ _ Hc Hb) as [Hx|(a & Ha & Hn)].
    + exists x. split; [left|done].
    + exists a. split; [by right|done].
Qed.

Section Measure.

Variable s : Pool.
Variable e : VehicleID -> nat.
Hypothesis e_decreases : forall a b, next (s a) = Some b -> (e b < e a)%nat.

Lemma chain_exists x : exists l, chain s (Some x) l.
Proof.
  remember (e x) as k eqn:Hk. revert x Hk.
  induction (lt_wf k) as [k _ IH]. intros x Hk.
  destruct (next (s x)) as [y|] eqn:Hn.
  - destruct (IH (e y) ltac:(subst k; by apply e_decreases) y eq_refl) as [l Hl].
    exists (x :: l). simpl. by rewrite Hn.
  - exists [x]. simpl. done.
Qed.

Lemma chain_bound l : forall x y, chain s (Some x) l -> y ∈ l -> (e y <= e x)%nat.
Proof.
  induction l as [|z l IH]; intros x y; simpl.
  - intros _ H. inversion H.
  - intros [[= <-] Hc] [->|Hy]%elem_of_cons; [done|].
    destruct (next (s x)) as [x'|] eqn:Hn.
    + pose proof (e_decreases _ _ Hn). pose proof (IH _ _ Hc Hy). lia.
    + destruct l; simpl in Hc; [inversion Hy|]. destruct Hc; done.
Qed.

Lemma chain_tail_bound l x y : chain s (next (s x)) l -> y ∈ l -> (e y < e x)%nat.
Proof.
  intros Hc Hy. destruct (next (s x)) as [x'|] eqn:Hn.
  - pose proof (e_decreases _ _ Hn). pose proof (chain_bound _ _ _ Hc Hy). lia.
  - destruct l; simpl in Hc; [inversion Hy|]. destruct Hc; done.
Qed.

Lemma chain_NoDup l : forall cur, chain s cur l -> NoDup l.
Proof.
  induction l as [|x l IH]; intros cur; simpl; [constructor|].
  intros [-> Hc]. apply list.NoDup_cons. split; [|by eapply IH].
  intros Hx. pose proof (chain_tail_bound _ _ _ Hc Hx). lia.
Qed.

End Measure.

(** *** What each write changes *)

Lemma next_set_next s v x w :
  next (set_next s v x w) = if decide (w = v) then x else next (s w).
Proof.
  unfold set_next. destruct (decide (w = v)) as [->|].
  - by rewrite fn_lookup_insert.
  - by rewrite fn_lookup_insert_ne.
Qed.

Lemma previous_set_next s v x w : previous (set_next s v x w) = previous (s w).
Proof.
  unfold set_next. destruct (decide (w = v)) as [->|].
  - by rewrite fn_lookup_insert.
  - by rewrite fn_lookup_insert_ne.
Qed.

Lemma first_set_next s v x w : first (set_next s v x w) = first (s w).
Proof.
  unfold set_next. destruct (decide (w = v)) as [->|].
  - by rewrite fn_lookup_insert.
  - by rewrite fn_lookup_insert_ne.
Qed.

Lemma next_set_previous s v x w : next (set_previous s v x w) = next (s w).
Proof.
  unfold set_previous. destruct (decide (w = v)) as [->|].
  - by rewrite fn_lookup_insert.
  - by rewrite fn_lookup_insert_ne.
Qed.

Lemma previous_set_previous s v x w :
  previous (set_previous s v x w) = if decide (w = v) then x else previous (s w).
Proof.
  unfold set_previous. destruct (decide (w = v)) as [->|].
  - by rewrite fn_lookup_insert.
  - by rewrite fn_lookup_insert_ne.
Qed.

Lemma first_set_previous s v x w : first (set_previous s v x w) = first (s w).
Proof.
  unfold set_previous. destruct (decide (w = v)) as [->|].
  - by rewrite fn_lookup_insert.
  - by rewrite fn_lookup_insert_ne.
Qed.

Lemma next_set_first s v x w : next (set_first s v x w) = next (s w).
Proof.
  unfold set_first. destruct (decide (w = v)) as [->|].
  - by rewrite fn_lookup_insert.
  - by rewrite fn_lookup_insert_ne.
Qed.

Lemma previous_set_first s v x w : previous (set_first s v x w) = previous (s w).
Proof.
  unfold set_first. destruct (decide (w = v)) as [->|].
  - by rewrite fn_lookup_insert.
  - by rewrite fn_lookup_insert_ne.
Qed.

Lemma first_set_first s v x w :
  first (set_first s v x w) = if decide (w = v) then x else first (s w).
Proof.
  unfold set_first. destruct (decide (w = v)) as [->|].
  - by rewrite fn_lookup_insert.
  - by rewrite fn_lookup_insert_ne.
Qed.

(** The loop that rewrites [first] along a chain. *)
Lemma set_first_from_spec (l : list VehicleID) : forall s cur src f fuel,
  chain s cur l -> (length l <= fuel)%nat ->
  (forall s', (forall x, x ∉ l -> s' x = s x) ->
              (forall x, next (s' x) = next (s x)) -> src s' = f) ->
  exists s', set_first_from fuel s cur src = Some s' /\
    forall x, next (s' x) = next (s x) /\ previous (s' x) = previous (s x) /\
              first (s' x) = if decide (x ∈ l) then f else first (s x).
Proof.
  induction l as [|v l IH]; intros s cur src f fuel Hc Hf Hsrc; simpl in Hc.
  - subst cur. exists s. split; [by destruct fuel|]. intros x.
    rewrite decide_False by (intros H; inversion H). done.
  - destruct Hc as [-> Hc]. destruct fuel as [|fuel]; [simpl in Hf; lia|].
    cbn [set_first_from].
    assert (Hs : src s = f) by (by apply Hsrc).
    rewrite Hs. set (s1 := set_first s v f).
    assert (Hn1 : forall x, next (s1 x) = next (s x))
      by (intros x; apply next_set_first).
    rewrite Hn1.
    destruct (IH s1 (next (s v)) src f fuel) as (s' & Hrun & Hobs).
    + apply (chain_agree s); [|done]. intros x _. apply Hn1.
    + simpl in Hf. lia.
    + intros s' Hout Hnx. apply Hsrc.
      * intros x [Hxv Hxl]%not_elem_of_cons. rewrite Hout by done.
        unfold s1, set_first. by rewrite fn_lookup_insert_ne.
      * intros x. by rewrite Hnx, Hn1.
    + exists s'. split; [done|]. intros x.
      destruct (Hobs x) as (H1 & H2 & H3). rewrite H1, H2, H3, Hn1.
      unfold s1. rewrite previous_set_first, first_set_first.
      split; [done|]. split; [done|].
      destruct (decide (x ∈ l)) as [Hin|Hnin].
      * rewrite decide_True by (by right). done.
      * destruct (decide (x = v)) as [->|Hne].
        -- rewrite decide_True by left. done.
        -- rewrite decide_False; [done|].
           intros [?|?]%elem_of_cons; done.
Qed.

(** *** The state after [SetNext] *)

(** The predecessor that the new successor loses. *)
Definition old_pred (s : Pool) (this : VehicleID) (next_arg : option VehicleID)
  : option VehicleID :=
  match next_arg with
  | Some n => if decide (next (s this) = Some n) then None else previous (s n)
  | None => None
  end.

Section Call.

Variable s : Pool.
Variable this : VehicleID.
Variable next_arg : option VehicleID.
Hypothesis s_WF : WF s.
Hypothesis not_self : next_arg <> Some this.
Hypothesis not_above :
  forall n l, next_arg = Some n -> chain s (Some n) l -> this ∉ l.

Lemma this_not_below lo : chain s (next (s this)) lo -> this ∉ lo.
Proof.
  destruct (wf_fwd s s_WF) as [e He]. intros Hc Hin.
  pose proof (chain_tail_bound s e He _ _ _ Hc Hin). lia.
Qed.

Lemma old_pred_not_this : old_pred s this next_arg <> Some this.
Proof.
  unfold old_pred. destruct next_arg as [n|]; [|done].
  destruct (decide (next (s this) = Some n)) as [|Hne]; [done|].
  intros Hp. apply Hne. by apply (wf_links s s_WF).
Qed.

Lemma old_pred_not_below n ln x :
  next_arg = Some n -> chain s (Some n) ln -> x ∈ ln -> old_pred s this next_arg <> Some x.
Proof.
  intros Hn Hc Hx. unfold old_pred. rewrite Hn.
  destruct (decide (next (s this) = Some n)); [done|].
  intros Hp. apply (wf_links s s_WF) in Hp.
  destruct (wf_fwd s s_WF) as [e He].
  pose proof (He _ _ Hp). pose proof (chain_bound s e He _ _ _ Hc Hx). lia.
Qed.

(** The run of [SetNext], and every pointer afterwards. *)
Lemma SetNext_run :
  exists lo ln s' k,
    chain s (next (s this)) lo /\ chain s next_arg ln /\
    (forall fuel, (k <= fuel)%nat -> SetNext fuel s this next_arg = Some s') /\
    forall x,
      next (s' x) = (if decide (x = this) then next_arg
                     else if decide (old_pred s this next_arg = Some x) then None
                     else next (s x)) /\
      previous (s' x) = (if decide (next_arg = Some x) then Some this
                         else if decide (next (s this) = Some x) then None
                         else previous (s x)) /\
      first (s' x) = (if decide (x ∈ ln) then first (s this)
                      else if decide (x ∈ lo) then next (s this)
                      else first (s x)).
Proof.
  destruct (wf_fwd s s_WF) as [e He].
  pose proof old_pred_not_this as Hopt.
  pose proof old_pred_not_below as Hopb.
  (* the old tail *)
  assert (Hlo : exists lo, chain s (next (s this)) lo).
  { destruct (next (s this)) as [o|]; [apply (chain_exists s e He)|by exists []]. }
  destruct Hlo as [lo Hlo].
  assert (Hln : exists ln, chain s next_arg ln).
  { destruct next_arg as [n|]; [apply (chain_exists s e He)|by exists []]. }
  destruct Hln as [ln Hln].
  pose proof (this_not_below lo Hlo) as Hthis_lo.
  assert (Hthis_ln : this ∉ ln).
  { destruct next_arg as [n|]; [by apply (not_above n)|].
    simpl in Hln. destruct ln; [|by destruct Hln]. intros H. inversion H. }
  exists lo, ln.
  (* first block *)
  assert (HA : exists sB, forall fuel, (length lo <= fuel)%nat ->
            match next (s this) with
            | Some _ =>
                s0 ← set_first_from fuel s (next (s this)) (fun s => next (s this));
                o ← next (s0 this); Some (set_previous s0 o None)
            | None => Some s
            end = Some sB /\
            forall x, next (sB x) = next (s x) /\
              previous (sB x) = (if decide (next (s this) = Some x) then None
                                 else previous (s x)) /\
              first (sB x) = (if decide (x ∈ lo) then next (s this)
                              else first (s x))).
  { destruct (next (s this)) as [o|] eqn:Ho.
    - destruct (set_first_from_spec lo s (Some o) (fun s => next (s this)) (Some o)
                  (length lo) Hlo (le_n _)) as (sA & HrunA & HobsA).
      { intros s' _ Hnx. by rewrite Hnx. }
      exists (set_previous sA o None). intros fuel Hf.
      destruct (set_first_from_spec lo s (Some o) (fun s => next (s this)) (Some o)
                  fuel Hlo Hf) as (sA' & HrunA' & HobsA').
      { intros s' _ Hnx. by rewrite Hnx. }
      assert (sA' = sA) as ->.
      { clear -HrunA HrunA' Hf. revert HrunA HrunA'.
        generalize (fun s0 : Pool => next (s0 this)). intros src.
        generalize (Some o). generalize s. generalize dependent fuel.
        induction (length lo) as [|k IH]; intros fuel Hf s0 cur.
        - destruct cur; simpl; [done|]. destruct fuel; simpl; congruence.
        - destruct fuel as [|fuel]; [lia|]. destruct cur as [v|]; simpl; [|congruence].
          apply IH. lia. }
      rewrite HrunA'. simpl. destruct (HobsA this) as (Hnt & _). rewrite Hnt, Ho. simpl.
      split; [done|]. intros x. destruct (HobsA x) as (H1 & H2 & H3).
      rewrite next_set_previous, previous_set_previous, first_set_previous.
      rewrite H1, H2, H3. split; [done|]. split; [|done].
      destruct (decide (x = o)) as [->|Hne].
      + by rewrite decide_True.
      + rewrite decide_False by congruence. done.
    - exists s. intros fuel _. split; [done|]. intros x. split; [done|].
      split; [done|]. simpl in Hlo. destruct lo; [|by destruct Hlo].
      rewrite decide_False by (intros H; inversion H). done. }
  destruct HA as (sB & HA).
  destruct (HA (length lo) (le_n _)) as (_ & HobsB).
  set (sC := set_next sB this next_arg).
  assert (HobsC : forall x,
            next (sC x) = (if decide (x = this) then next_arg else next (s x)) /\
            previous (sC x) = previous (sB x) /\ first (sC x) = first (sB x)).
  { intros x. unfold sC. rewrite next_set_next, previous_set_next, first_set_next.
    destruct (HobsB x) as (-> & _). done. }
  destruct next_arg as [n|] eqn:Hnarg.
  - (* a new successor *)
    set (p := old_pred s this (Some n)).
    assert (Hpn : previous (sC n) = p).
    { destruct (HobsC n) as (_ & -> & _). destruct (HobsB n) as (_ & -> & _).
      unfold p, old_pred. done. }
    set (sD := match p with Some q => set_next sC q None | None => sC end).
    assert (HobsD : forall x,
              next (sD x) = (if decide (x = this) then Some n
                             else if decide (p = Some x) then None else next (s x)) /\
              previous (sD x) = previous (sB x) /\ first (sD x) = first (sB x)).
    { intros x. destruct (HobsC x) as (H1 & H2 & H3). unfold sD.
      destruct p as [q|] eqn:Hp.
      - rewrite next_set_next, previous_set_next, first_set_next, H1, H2, H3.
        split; [|done].
        destruct (decide (x = q)) as [->|Hne].
        + rewrite decide_False.
          * by rewrite decide_True.
          * intros ->. by apply Hopt.
        + destruct (decide (x = this)); [done|].
          rewrite decide_False by congruence. done.
      - rewrite H1, H2, H3. split; [|done].
        destruct (decide (x = this)); [done|]. by rewrite decide_False. }
    set (sE := set_previous sD n (Some this)).
    assert (HobsE : forall x,
              next (sE x) = (if decide (x = this) then Some n
                             else if decide (p = Some x) then None else next (s x)) /\
              previous (sE x) = (if decide (x = n) then Some this
                                 else previous (sB x)) /\
              first (sE x) = first (sB x)).
    { intros x. destruct (HobsD x) as (H1 & H2 & H3). unfold sE.
      rewrite next_set_previous, previous_set_previous, first_set_previous.
      rewrite H1, H2, H3. done. }
    assert (HlnE : chain sE (Some n) ln).
    { apply (chain_agree s); [|done]. intros x Hx.
      destruct (HobsE x) as (-> & _).
      rewrite decide_False by (intros ->; done).
      rewrite decide_False; [done|].
      by apply (Hopb n ln). }
    assert (HfE : first (sE this) = first (s this)).
    { destruct (HobsE this) as (_ & _ & ->). destruct (HobsB this) as (_ & _ & ->).
      by rewrite decide_False. }
    destruct (set_first_from_spec ln sE (Some n) (fun s => first (s this))
                (first (s this)) (length ln) HlnE (le_n _)) as (s' & Hrun & Hobs).
    { intros s0 Hout _. rewrite Hout by done. done. }
    exists s', (Nat.max (length lo) (length ln)). split; [done|]. split; [done|].
    split.
    + intros fuel Hf. unfold SetNext.
      rewrite decide_False by congruence.
      destruct (HA fuel ltac:(lia)) as (-> & _). simpl. fold sC.
      destruct (HobsC this) as (HnC & _). rewrite decide_True in HnC by done.
      rewrite HnC. simpl. rewrite Hpn. fold sD.
      destruct (HobsD this) as (HnD & _). rewrite decide_True in HnD by done.
      rewrite HnD. simpl. fold sE.
      destruct (HobsE this) as (HnE & _). rewrite decide_True in HnE by done.
      rewrite HnE.
      destruct (set_first_from_spec ln sE (Some n) (fun s => first (s this))
                  (first (s this)) fuel HlnE ltac:(lia)) as (s'' & Hrun' & _).
      { intros s0 Hout _. rewrite Hout by done. done. }
      rewrite Hrun'. f_equal.
      clear -Hrun Hrun' Hf. revert Hrun Hrun'.
      generalize (fun s0 : Pool => first (s0 this)). intros src.
      generalize (Some n). generalize sE.
      assert (Hle : (length ln <= fuel)%nat) by lia. clear Hf.
      generalize dependent fuel.
      induction (length ln) as [|k IH]; intros fuel Hf s0 cur.
      * destruct cur; simpl; [done|]. destruct fuel; simpl; congruence.
      * destruct fuel as [|fuel]; [lia|]. destruct cur as [v|]; simpl; [|congruence].
        apply IH. lia.
    + intros x. destruct (Hobs x) as (H1 & H2 & H3).
      destruct (HobsE x) as (E1 & E2 & E3). destruct (HobsB x) as (_ & B2 & B3).
      rewrite H1, H2, H3, E1, E2, E3, B2, B3. fold p.
      split; [done|]. split; [|done].
      destruct (decide (x = n)) as [->|Hne].
      * by rewrite decide_True.
      * rewrite (decide_False (P := Some n = Some x)) by congruence. done.
  - (* no successor *)
    exists sC, (length lo). split; [done|]. split; [done|]. split.
    + intros fuel Hf. unfold SetNext. rewrite decide_False by done.
      destruct (HA fuel Hf) as (-> & _). simpl. fold sC.
      destruct (HobsC this) as (HnC & _). rewrite decide_True in HnC by done.
      rewrite HnC. done.
    + intros x. destruct (HobsC x) as (C1 & C2 & C3).
      destruct (HobsB x) as (_ & B2 & B3). rewrite C1, C2, C3, B2, B3.
      simpl in Hln. destruct ln; [|by destruct Hln].
      split; [|split].
      * destruct (decide (x = this)); done.
      * done.
      * rewrite (decide_False (P := x ∈ [])) by (intros H; inversion H). done.
Qed.

End Call.

(** *** The invariant is kept *)

Section Kept.

Variable s s' : Pool.
Variable this : VehicleID.
Variable next_arg : option VehicleID.
Variable lo ln : list VehicleID.
Hypothesis s_WF : WF s.
Hypothesis not_self : next_arg <> Some this.
Hypothesis not_above :
  forall n l, next_arg = Some n -> chain s (Some n) l -> this ∉ l.
Hypothesis lo_chain : chain s (next (s this)) lo.
Hypothesis ln_chain : chain s next_arg ln.
Hypothesis after : forall x,
  next (s' x) = (if decide (x = this) then next_arg
                 else if decide (old_pred s this next_arg = Some x) then None
                 else next (s x)) /\
  previous (s' x) = (if decide (next_arg = Some x) then Some this
                     else if decide (next (s this) = Some x) then None
                     else previous (s x)) /\
  first (s' x) = (if decide (x ∈ ln) then first (s this)
                  else if decide (x ∈ lo) then next (s this)
                  else first (s x)).

Lemma this_not_ln : this ∉ ln.
Proof.
  destruct next_arg as [n|] eqn:Hn; [by apply (not_above n)|].
  simpl in ln_chain. destruct ln; [|by destruct ln_chain]. intros H. inversion H.
Qed.

Lemma this_not_lo : this ∉ lo.
Proof. by apply (this_not_below s this). Qed.

Lemma pred_unique a a' b : next (s a) = Some b -> next (s a') = Some b -> a = a'.
Proof.
  intros H1%(wf_links s s_WF) H2%(wf_links s s_WF). congruence.
Qed.

(** An old link that survives does not end at the new or the old successor. *)
Lemma kept_link_target a b :
  a <> this -> old_pred s this next_arg <> Some a -> next (s a) = Some b ->
  next_arg <> Some b /\ next (s this) <> Some b.
Proof.
  intros Ha Hp Hn. split.
  - intros Hb. apply Hp. unfold old_pred. rewrite Hb.
    destruct (decide (next (s this) = Some b)) as [Ho|].
    + destruct Ha. symmetry. by apply (pred_unique _ _ b).
    + by apply (wf_links s s_WF).
  - intros Ho. destruct Ha. symmetry. by apply (pred_unique _ _ b).
Qed.

Lemma ln_closed a b : a ∈ ln -> next (s a) = Some b -> b ∈ ln.
Proof. intros Ha Hn. by apply (chain_closed s ln next_arg a b). Qed.

Lemma lo_closed a b : a ∈ lo -> next (s a) = Some b -> b ∈ lo.
Proof. intros Ha Hn. by apply (chain_closed s lo (next (s this)) a b). Qed.

Lemma ln_entered a b :
  a ∉ ln -> a <> this -> old_pred s this next_arg <> Some a ->
  next (s a) = Some b -> b ∉ ln.
Proof.
  intros Ha Hat Hp Hn Hb.
  destruct (kept_link_target a b Hat Hp Hn) as [Hnb _].
  destruct (chain_pred _ _ _ _ ln_chain Hb) as [|(a' & Ha' & Hn')]; [done|].
  apply Ha. by rewrite (pred_unique a a' b).
Qed.

Lemma lo_entered a b : a ∉ lo -> a <> this -> next (s a) = Some b -> b ∉ lo.
Proof.
  intros Ha Hat Hn Hb.
  destruct (chain_pred _ _ _ _ lo_chain Hb) as [Ho|(a' & Ha' & Hn')].
  - apply Hat. by apply (pred_unique _ _ b).
  - apply Ha. by rewrite (pred_unique a a' b).
Qed.

(** The links of the new state are the old ones that survive, and the one
    from [this] to its new successor. *)
Lemma next_after a b :
  next (s' a) = Some b <->
  (a = this /\ next_arg = Some b) \/
  (a <> this /\ old_pred s this next_arg <> Some a /\ next (s a) = Some b).
Proof.
  destruct (after a) as (-> & _).
  destruct (decide (a = this)) as [->|Ha].
  { split; [intros H; by left|]. intros [[_ ?]|[? _]]; done. }
  destruct (decide (old_pred s this next_arg = Some a)) as [Hp|Hp].
  - split; [done|]. intros [[? _]|(_ & ? & _)]; done.
  - split; [intros H; by right|]. intros [[? _]|(_ & _ & ?)]; done.
Qed.

Lemma SetNext_WF : WF s'.
Proof.
  pose proof this_not_ln as Htn. pose proof this_not_lo as Hto.
  constructor.
  - (* links *)
    intros a b. rewrite next_after. destruct (after b) as (_ & -> & _). split.
    + intros [[-> Hb]|(Ha & Hp & Hn)].
      * by rewrite decide_True.
      * destruct (kept_link_target a b Ha Hp Hn) as [H1 H2].
        rewrite !decide_False by done. by apply (wf_links s s_WF).
    + destruct (decide (next_arg = Some b)) as [Hb|Hb].
      * intros [= <-]. by left.
      * destruct (decide (next (s this) = Some b)) as [Ho|Ho]; [done|].
        intros Hpb%(wf_links s s_WF). right.
        split; [intros ->; done|]. split; [|done].
        unfold old_pred. destruct next_arg as [n|]; [|done].
        destruct (decide (next (s this) = Some n)); [done|].
        intros Hpn%(wf_links s s_WF). congruence.
  - (* heads *)
    intros x. destruct (after x) as (_ & -> & ->).
    destruct (decide (next_arg = Some x)) as [|Hnx]; [done|].
    assert (Hxln : (next (s this) = Some x \/ previous (s x) = None) -> x ∉ ln).
    { intros Hcase Hin.
      destruct (chain_pred _ _ _ _ ln_chain Hin) as [|(a & Ha & Hn)]; [done|].
      destruct Hcase as [Ho|Hpx].
      - apply Htn. by rewrite (pred_unique this a x).
      - apply (wf_links s s_WF) in Hn. congruence. }
    destruct (decide (next (s this) = Some x)) as [Ho|Ho].
    + intros _. rewrite decide_False by (apply Hxln; by left).
      rewrite decide_True; [done|].
      destruct lo as [|y l']; simpl in lo_chain; [congruence|].
      destruct lo_chain as [Hy _]. rewrite Ho in Hy. injection Hy as ->. left.
    + intros Hpx. rewrite decide_False by (apply Hxln; by right).
      rewrite decide_False; [by apply (wf_heads s s_WF)|].
      intros Hin.
      destruct (chain_pred _ _ _ _ lo_chain Hin) as [|(a & Ha & Hn)]; [done|].
      apply (wf_links s s_WF) in Hn. congruence.
  - (* shared *)
    intros a b. rewrite next_after.
    destruct (after a) as (_ & _ & ->). destruct (after b) as (_ & _ & ->).
    intros [[-> Hb]|(Ha & Hp & Hn)].
    + rewrite (decide_False (P := this ∈ ln)), (decide_False (P := this ∈ lo)) by done.
      rewrite decide_True; [done|].
      rewrite Hb in ln_chain. destruct ln as [|y l']; simpl in ln_chain; [done|].
      destruct ln_chain as [[= <-] _]. left.
    + destruct (decide (a ∈ ln)) as [Hal|Hal].
      * rewrite decide_True by (by apply (ln_closed a)). done.
      * rewrite decide_False by (by apply (ln_entered a)).
        destruct (decide (a ∈ lo)) as [Hao|Hao].
        -- rewrite decide_True by (by apply (lo_closed a)). done.
        -- rewrite decide_False by (by apply (lo_entered a)).
           by apply (wf_shared s s_WF).
  - (* forward *)
    destruct (wf_fwd s s_WF) as [e He].
    exists (fun x => if decide (x ∈ ln) then e x
                     else (e x + match next_arg with Some n => e n | None => 0 end + 1)%nat).
    intros a b. rewrite next_after. intros [[-> Hb]|(Ha & Hp & Hn)].
    + rewrite (decide_False (P := this ∈ ln)) by done.
      rewrite decide_True.
      * rewrite Hb. lia.
      * rewrite Hb in ln_chain. destruct ln as [|y l']; simpl in ln_chain; [done|].
        destruct ln_chain as [[= <-] _]. left.
    + pose proof (He _ _ Hn). destruct (decide (a ∈ ln)) as [Hal|Hal].
      * rewrite decide_True by (by apply (ln_closed a)). done.
      * rewrite decide_False by (by apply (ln_entered a)). lia.
  - (* backward *)
    destruct (wf_bwd s s_WF) as [d Hd].
    exists (fun x => if decide (x ∈ ln) then (d x + d this + 1)%nat else d x).
    intros a b. rewrite next_after. intros [[-> Hb]|(Ha & Hp & Hn)].
    + rewrite (decide_False (P := this ∈ ln)) by done.
      rewrite decide_True.
      * lia.
      * rewrite Hb in ln_chain. destruct ln as [|y l']; simpl in ln_chain; [done|].
        destruct ln_chain as [[= <-] _]. left.
    + pose proof (Hd _ _ Hn). destruct (decide (a ∈ ln)) as [Hal|Hal].
      * rewrite decide_True by (by apply (ln_closed a)). lia.
      * rewrite decide_False by (by apply (ln_entered a)). done.
Qed.

(** The new tail is the chain that hung from the new successor. *)
Lemma ln_chain_after : chain s' next_arg ln.
Proof.
  apply (chain_agree s); [|done]. intros x Hx.
  destruct (after x) as (-> & _).
  rewrite decide_False by (intros ->; by apply this_not_ln).
  rewrite decide_False; [done|].
  destruct next_arg as [n|] eqn:Hn.
  - by apply (old_pred_not_below s this (Some n) s_WF n ln).
  - done.
Qed.

End Kept.

(** *** What the invariant says about consists *)

Lemma chain_first s (s_WF : WF s) l : forall h y,
  chain s (Some h) l -> y ∈ l -> first (s y) = first (s h).
Proof.
  induction l as [|x l IH]; intros h y; simpl.
  - intros _ H. inversion H.
  - intros [[= <-] Hc] [->|Hy]%elem_of_cons; [done|].
    destruct (next (s h)) as [h'|] eqn:Hn.
    + rewrite (IH h' y Hc Hy). by apply (wf_shared s s_WF).
    + destruct l; simpl in Hc; [inversion Hy|]. by destruct Hc.
Qed.

Lemma WF_head s (s_WF : WF s) x :
  exists h l, previous (s h) = None /\ chain s (Some h) l /\ x ∈ l.
Proof.
  destruct (wf_fwd s s_WF) as [e He]. destruct (wf_bwd s s_WF) as [d Hd].
  remember (d x) as k eqn:Hk. revert x Hk.
  induction (lt_wf k) as [k _ IH]. intros x Hk.
  destruct (previous (s x)) as [p|] eqn:Hp.
  - apply (wf_links s s_WF) in Hp.
    destruct (IH (d p) ltac:(subst k; by apply Hd) p eq_refl) as (h & l & Hh & Hc & Hin).
    exists h, l. split; [done|]. split; [done|]. by apply (chain_closed s l (Some h) p).
  - destruct (chain_exists s e He x) as [l Hl]. exists x, l.
    split; [done|]. split; [done|].
    destruct l as [|y l]; simpl in Hl; [done|]. destruct Hl as [[= <-] _]. left.
Qed.

(** Every vehicle is in the consist of its [first], which heads it. *)
Lemma WF_consist s (s_WF : WF s) x :
  exists h, first (s x) = Some h /\ in_consist s x h.
Proof.
  destruct (WF_head s s_WF x) as (h & l & Hh & Hc & Hin).
  destruct (wf_fwd s s_WF) as [e He].
  pose proof (wf_heads s s_WF h Hh) as Hfh.
  exists h. split.
  - by rewrite (chain_first s s_WF l h x).
  - split; [done|]. split; [done|]. exists l. split; [done|].
    split; [by apply chain_walk|]. split; [by apply (chain_NoDup s e He l (Some h))|].
    split; [done|]. intros y Hy. by rewrite (chain_first s s_WF l h y).
Qed.

Lemma fresh_WF : WF fresh.
Proof.
  constructor; try done.
  - by exists (fun _ => 0%nat).
  - by exists (fun _ => 0%nat).
Qed.

(** C3 (amended): on a pool that satisfies the invariant, [SetNext(next)]
    with [next] different from [this] and [this] not reachable from [next]
    returns; the whole chain of [next] then hangs from [this] and carries
    the [first] of [this]; the part of the old tail that did not move names
    the old successor as [first], whose [previous] is null unless it is the
    new successor; and the invariant holds again, so that every vehicle is in
    the consist of its [first]: the walk from that head ends, passes each
    member once, and every member names the head. *)
Theorem SetNext_consist (s : Pool) (this : VehicleID) (next_arg : option VehicleID) :
  WF s -> next_arg <> Some this ->
  (forall n l, next_arg = Some n -> chain s (Some n) l -> this ∉ l) ->
  exists lo ln s' k,
    chain s (next (s this)) lo /\ chain s next_arg ln /\
    (forall fuel, (k <= fuel)%nat -> SetNext fuel s this next_arg = Some s') /\
    next (s' this) = next_arg /\ chain s' next_arg ln /\
    first (s' this) = first (s this) /\
    (forall x, x ∈ ln -> first (s' x) = first (s' this)) /\
    (forall o, next (s this) = Some o ->
       (forall x, x ∈ lo -> x ∉ ln -> first (s' x) = Some o) /\
       (next_arg <> Some o -> previous (s' o) = None)) /\
    WF s' /\
    (forall x, exists h, first (s' x) = Some h /\ in_consist s' x h).
Proof.
  intros HWF Hself Habove.
  destruct (SetNext_run s this next_arg HWF Hself Habove)
    as (lo & ln & s' & k & Hlo & Hln & Hrun & Hafter).
  assert (HWF' : WF s') by (eapply SetNext_WF; eassumption).
  assert (Htn : this ∉ ln) by (eapply this_not_ln; eassumption).
  assert (Hto : this ∉ lo) by (by apply (this_not_below s this HWF lo)).
  assert (Hft : first (s' this) = first (s this)).
  { destruct (Hafter this) as (_ & _ & ->). by rewrite !decide_False. }
  exists lo, ln, s', k. split; [done|]. split; [done|]. split; [done|].
  split. { destruct (Hafter this) as (-> & _). by rewrite decide_True. }
  split. { eapply (ln_chain_after s s' this next_arg lo ln); eassumption. }
  split; [done|].
  split. { intros x Hx. destruct (Hafter x) as (_ & _ & ->).
           rewrite decide_True by done. done. }
  split.
  { intros o Ho. split.
    - intros x Hxo Hxn. destruct (Hafter x) as (_ & _ & ->).
      rewrite decide_False, decide_True by done. done.
    - intros Hne. destruct (Hafter o) as (_ & -> & _).
      rewrite decide_False, decide_True by done. done. }
  split; [done|]. intros x. by apply WF_consist.
Qed.

(** Two vehicles, 0 in front of 1. *)
Definition pair : Pool :=
  fun v => if decide (v = 0%nat)
           then {| next := Some 1%nat; previous := None; first := Some 0%nat |}
           else if decide (v = 1%nat)
           then {| next := None; previous := Some 0%nat; first := Some 0%nat |}
           else fresh v.

Lemma pair_WF : WF pair.
Proof.
  assert (Hn : forall a b, next (pair a) = Some b <-> a = 0%nat /\ b = 1%nat).
  { intros a b. unfold pair.
    destruct (decide (a = 0%nat)) as [->|]; simpl.
    { split; [intros [= <-]|intros [_ ->]]; done. }
    destruct (decide (a = 1%nat)); simpl; (split; [done|intros [? _]; done]). }
  assert (Hp : forall a b, previous (pair b) = Some a <-> a = 0%nat /\ b = 1%nat).
  { intros a b. unfold pair.
    destruct (decide (b = 0%nat)) as [->|]; simpl.
    { split; [done|intros [_ ?]; done]. }
    destruct (decide (b = 1%nat)) as [->|]; simpl.
    { split; [intros [= <-]|intros [-> _]]; done. }
    split; [done|intros [_ ?]; done]. }
  constructor.
  - intros a b. by rewrite Hn, Hp.
  - intros x. unfold pair.
    destruct (decide (x = 0%nat)) as [->|]; simpl; [done|].
    destruct (decide (x = 1%nat)); simpl; done.
  - intros a b [-> ->]%Hn. done.
  - exists (fun x => if decide (x = 0%nat) then 1%nat else 0%nat).
    intros a b [-> ->]%Hn. simpl. lia.
  - exists (fun x => if decide (x = 1%nat) then 1%nat else 0%nat).
    intros a b [-> ->]%Hn. simpl. lia.
Qed.

(** The loop over a chain that closes on itself never ends. *)
Lemma set_first_from_cycle src : forall fuel s cur,
  next (s 0%nat) = Some 1%nat -> next (s 1%nat) = Some 0%nat ->
  cur = Some 0%nat \/ cur = Some 1%nat ->
  set_first_from fuel s cur src = None.
Proof.
  induction fuel as [|fuel IH]; intros s cur H0 H1 Hcur.
  - destruct Hcur as [->| ->]; done.
  - destruct Hcur as [->| ->]; cbn [set_first_from]; apply IH;
      rewrite ?next_set_first; auto.
Qed.

(** C3, as stated, fails: the second vehicle of a pair is not its head, yet
    making the head its successor never returns. *)
Lemma SetNext_consist_counterexample :
  WF pair /\ Some 0%nat <> Some 1%nat /\
  forall fuel, SetNext fuel pair 1%nat (Some 0%nat) = None.
Proof.
  split; [exact pair_WF|]. split; [done|].
  intros fuel. unfold SetNext. rewrite decide_False by done.
  change (next (pair 1%nat)) with (@None VehicleID). cbn [mbind option_bind].
  rewrite next_set_next. rewrite decide_True by done. cbn [mbind option_bind].
  rewrite previous_set_next. change (previous (pair 0%nat)) with (@None VehicleID).
  cbn iota. cbn [mbind option_bind].
  rewrite next_set_next, decide_True by done. cbn [mbind option_bind].
  rewrite next_set_previous, next_set_next, decide_True by done.
  apply set_first_from_cycle; [| |by left].
  - rewrite next_set_previous, next_set_next. done.
  - rewrite next_set_previous, next_set_next. rewrite decide_True by done. done.
Qed.

(** The theorem on two fresh vehicles. *)
Lemma SetNext_consist_witness :
  WF fresh /\ Some 1%nat <> Some 0%nat /\
  (forall n l, Some 1%nat = Some n -> chain fresh (Some n) l -> 0%nat ∉ l) /\
  exists s' k,
    (forall fuel, (k <= fuel)%nat -> SetNext fuel fresh 0%nat (Some 1%nat) = Some s') /\
    first (s' 1%nat) = Some 0%nat /\ WF s'.
Proof.
  assert (Hone : forall l, chain fresh (Some 1%nat) l -> l = [1%nat]).
  { intros l Hc. destruct l as [|x l]; [done|].
    destruct Hc as [[= <-] Hc]. destruct l; [done|by destruct Hc]. }
  assert (Habove : forall n l, Some 1%nat = Some n -> chain fresh (Some n) l -> 0%nat ∉ l).
  { intros n l [= <-] Hc. rewrite (Hone l Hc). by intros ?%list_elem_of_singleton. }
  split; [exact fresh_WF|]. split; [done|]. split; [exact Habove|].
  destruct (SetNext_consist fresh 0%nat (Some 1%nat) fresh_WF ltac:(done) Habove)
    as (lo & ln & s' & k & _ & Hln & Hrun & _ & _ & Hft & Hfn & _ & HWF' & _).
  exists s', k. split; [exact Hrun|]. split; [|exact HWF'].
  rewrite (Hone ln Hln) in Hfn. rewrite (Hfn 1%nat) by left. exact Hft.
Defined.

(** *** Counting a chain, joining and cutting consists *)

Definition to_uint (x : Z) : Z := x `mod` 2 ^ 32.

(** The loop of [CountVehiclesInChain]:
    [do count++; while ((v = v->Next()) != nullptr);] *)
Fixpoint count_from (fuel : nat) (s : Pool) (v : VehicleID) (count : Z) : option Z :=
  let count := to_uint (count + 1) in
  match next (s v) with
  | None => Some count
  | Some n =>
      match fuel with
      | O => None
      | S fuel => count_from fuel s n count
      end
  end.

Definition CountVehiclesInChain (fuel : nat) (s : Pool) (v : VehicleID) : option Z :=
  count_from fuel s v 0.

Lemma count_from_spec s l : forall v count fuel,
  chain s (Some v) l -> (length l <= S fuel)%nat ->
  count_from fuel s v count = Some (to_uint (count + Z.of_nat (length l))).
Proof.
  induction l as [|x l IH]; intros v count fuel; [done|].
  intros [[= <-] Hc] Hf. destruct l as [|y l].
  - simpl in Hc. destruct fuel; simpl; rewrite Hc; done.
  - destruct Hc as [Hn Hc]. destruct fuel as [|fuel]; [simpl in Hf; lia|].
    cbn [count_from]. rewrite Hn.
    rewrite (IH y _ fuel); [|by split|simpl in *; lia].
    unfold to_uint. rewrite Zplus_mod_idemp_l. do 2 f_equal.
    cbn [length]. lia.
Qed.

Lemma record_eq (a b : Vehicle) :
  next a = next b -> previous a = previous b -> first a = first b -> a = b.
Proof. destruct a, b; simpl. by intros -> -> ->. Qed.

(** The last vehicle of a chain gets a tail. *)
Lemma chain_extend s s' this n ln : forall l cur,
  chain s cur l -> this ∈ l -> next (s this) = None ->
  (forall x, x <> this -> next (s' x) = next (s x)) ->
  next (s' this) = Some n -> chain s' (Some n) ln ->
  chain s' cur (l ++ ln).
Proof.
  induction l as [|x l IH]; intros cur Hc Hin Hlast Hother Hthis Hln.
  - inversion Hin.
  - destruct Hc as [-> Hc]. destruct (decide (x = this)) as [->|Hx].
    + rewrite Hlast in Hc. destruct l; [|by destruct Hc].
      simpl. by rewrite Hthis.
    + apply elem_of_cons in Hin as [->|Hin]; [done|].
      simpl. split; [done|]. rewrite Hother by done. by apply IH.
Qed.

(** X6: on a well linked pool [CountVehiclesInChain] returns the number of
    vehicles on the walk from [v] along [Next()], which passes no vehicle
    twice and begins with [v]; the count is never 0 for fewer than 2^32
    vehicles. *)
Theorem CountVehiclesInChain_length (s : Pool) (v : VehicleID) :
  WF s ->
  exists l r,
    chain s (Some v) (v :: l) /\ NoDup (v :: l) /\
    (forall fuel, (length l <= fuel)%nat -> CountVehiclesInChain fuel s v = Some r) /\
    r = to_uint (Z.of_nat (S (length l))) /\
    (Z.of_nat (S (length l)) < 2 ^ 32 -> r = Z.of_nat (S (length l)) /\ 1 <= r).
Proof.
  intros HWF. destruct (wf_fwd s HWF) as [e He].
  destruct (chain_exists s e He v) as [l Hl].
  destruct l as [|x l]; [done|]. assert (x = v) as -> by (destruct Hl; congruence).
  exists l, (to_uint (Z.of_nat (S (length l)))).
  split; [done|]. split; [by apply (chain_NoDup s e He _ (Some v))|].
  split.
  { intros fuel Hf. unfold CountVehiclesInChain.
    rewrite (count_from_spec s (v :: l)); [done|done|simpl; lia]. }
  split; [done|]. intros Hsmall. unfold to_uint. rewrite Z.mod_small by lia. lia.
Qed.

(** X7: [SetNext] with the successor that the vehicle has changes no
    pointer of the pool. *)
Theorem SetNext_same_successor (s : Pool) (this : VehicleID) :
  WF s ->
  exists s' k,
    (forall fuel, (k <= fuel)%nat -> SetNext fuel s this (next (s this)) = Some s') /\
    forall x, s' x = s x.
Proof.
  intros HWF. destruct (wf_fwd s HWF) as [e He].
  assert (Hself : next (s this) <> Some this).
  { intros Hn. pose proof (He _ _ Hn). lia. }
  assert (Habove : forall n l, next (s this) = Some n -> chain s (Some n) l -> this ∉ l).
  { intros n l Hn Hc. apply (this_not_below s this HWF l). by rewrite Hn. }
  destruct (SetNext_run s this (next (s this)) HWF Hself Habove)
    as (lo & ln & s' & k & Hlo & Hln & Hrun & Hafter).
  assert (ln = lo) as -> by (by eapply chain_functional).
  exists s', k. split; [done|]. intros x.
  destruct (Hafter x) as (Hn & Hp & Hf). apply record_eq.
  - rewrite Hn. destruct (decide (x = this)) as [->|_]; [done|].
    assert (Hold : old_pred s this (next (s this)) = None).
    { unfold old_pred. destruct (next (s this)); [|done]. by rewrite decide_True. }
    rewrite Hold. done.
  - rewrite Hp. destruct (decide (next (s this) = Some x)) as [Hx|_]; [|done].
    symmetry. by apply (wf_links s HWF).
  - rewrite Hf. destruct (decide (x ∈ lo)) as [Hx|_]; [|done].
    destruct (next (s this)) as [o|] eqn:Ho.
    + rewrite (chain_first s HWF lo o x Hlo Hx). symmetry. by apply (wf_shared s HWF).
    + destruct lo; [inversion Hx|by destruct Hlo].
Qed.

(** X8: cutting a consist behind a vehicle and joining the tail again
    restores every pointer of the pool.  In between the vehicle is the last
    of its consist and the tail is a consist of its own, headed by the old
    successor. *)
Theorem SetNext_cut_and_join (s : Pool) (this o : VehicleID) :
  WF s -> next (s this) = Some o ->
  exists s1 s2 k,
    (forall fuel, (k <= fuel)%nat ->
       SetNext fuel s this None = Some s1 /\
       SetNext fuel s1 this (Some o) = Some s2) /\
    WF s1 /\ next (s1 this) = None /\
    previous (s1 o) = None /\ first (s1 o) = Some o /\
    (forall x, s2 x = s x).
Proof.
  intros HWF Ho. destruct (wf_fwd s HWF) as [e He].
  assert (Hnone : forall n l, @None VehicleID = Some n -> chain s (Some n) l -> this ∉ l)
    by done.
  assert (Hself0 : @None VehicleID <> Some this) by done.
  destruct (SetNext_run s this None HWF Hself0 Hnone)
    as (lo & ln & s1 & k1 & Hlo & Hln & Hrun1 & Hafter1).
  assert (ln = []) as -> by (destruct ln; [done|by destruct Hln]).
  assert (HWF1 : WF s1).
  { apply (SetNext_WF s s1 this None lo [] HWF Hself0 Hnone); [|done|done].
    exact Hlo. }
  pose proof (this_not_below s this HWF lo Hlo) as Hthis_lo.
  rewrite Ho in Hlo.
  assert (Ho_lo : o ∈ lo).
  { destruct lo as [|y lo]; [simpl in Hlo; done|].
    destruct Hlo as [[= <-] _]. left. }
  assert (Hn1 : forall x, next (s1 x) = if decide (x = this) then None else next (s x)).
  { intros x. destruct (Hafter1 x) as (-> & _). by destruct (decide (x = this)). }
  assert (Hp1 : forall x, previous (s1 x) = if decide (x = o) then None else previous (s x)).
  { intros x. destruct (Hafter1 x) as (_ & -> & _). rewrite Ho.
    rewrite (decide_False (P := None = Some x)) by done.
    destruct (decide (Some o = Some x)) as [[= ->]|Hx].
    - by rewrite decide_True.
    - rewrite (decide_False (P := x = o)) by congruence. done. }
  assert (Hf1 : forall x, first (s1 x) = if decide (x ∈ lo) then Some o else first (s x)).
  { intros x. destruct (Hafter1 x) as (_ & _ & ->). rewrite Ho.
    rewrite decide_False by apply not_elem_of_nil. done. }
  assert (Hlo1 : chain s1 (Some o) lo).
  { apply (chain_agree s); [|done]. intros x Hx. rewrite Hn1.
    rewrite decide_False; [done|]. by intros ->. }
  assert (Hself : Some o <> Some this).
  { intros [= ->]. pose proof (He _ _ Ho). lia. }
  assert (Habove : forall n l, Some o = Some n -> chain s1 (Some n) l -> this ∉ l).
  { intros n l [= <-] Hc. by rewrite (chain_functional s1 l (Some o) lo Hc Hlo1). }
  destruct (SetNext_run s1 this (Some o) HWF1 Hself Habove)
    as (lo2 & ln2 & s2 & k2 & Hlo2 & Hln2 & Hrun2 & Hafter2).
  assert (ln2 = lo) as -> by (by eapply chain_functional).
  assert (lo2 = []) as ->.
  { rewrite Hn1, decide_True in Hlo2 by done.
    destruct lo2; [done|by destruct Hlo2]. }
  exists s1, s2, (Nat.max k1 k2). split.
  { intros fuel Hf. split; [apply Hrun1|apply Hrun2]; lia. }
  split; [done|]. split; [rewrite Hn1; by rewrite decide_True|].
  split; [rewrite Hp1; by rewrite decide_True|].
  split; [rewrite Hf1; by rewrite decide_True|].
  intros x. destruct (Hafter2 x) as (Hn & Hp & Hf). apply record_eq.
  - rewrite Hn. destruct (decide (x = this)) as [->|Hx]; [done|].
    assert (Hold : old_pred s1 this (Some o) = None).
    { unfold old_pred. rewrite Hn1.
      rewrite (decide_True (P := this = this)) by done.
      rewrite (decide_False (P := None = Some o)) by done.
      rewrite Hp1. by rewrite decide_True. }
    rewrite Hold, Hn1. rewrite (decide_False (P := None = Some x)) by done.
    by rewrite (decide_False (P := x = this)).
  - rewrite Hp. destruct (decide (Some o = Some x)) as [[= <-]|Hx].
    + symmetry. by apply (wf_links s HWF).
    + rewrite Hn1. rewrite (decide_True (P := this = this)) by done.
      rewrite (decide_False (P := None = Some x)) by done.
      rewrite Hp1. rewrite decide_False by congruence. done.
  - rewrite Hf. destruct (decide (x ∈ lo)) as [Hx|Hx].
    + rewrite Hf1. rewrite decide_False by done.
      rewrite (chain_first s HWF lo o x Hlo Hx). symmetry. by apply (wf_shared s HWF).
    + rewrite decide_False by apply not_elem_of_nil.
      rewrite Hf1. by rewrite decide_False.
Qed.

(** X9: when the last vehicle of a consist gets the head of another consist
    as successor, the walk from the head of the first passes its old
    members and then those of the second, all of them name that head as
    [first], and [CountVehiclesInChain] of the head returns the sum of the
    two lengths. *)
Theorem SetNext_joins (s : Pool) (this n : VehicleID) :
  WF s -> next (s this) = None -> previous (s n) = None ->
  first (s this) <> Some n ->
  exists h lh ln s' k,
    first (s this) = Some h /\ chain s (Some h) lh /\ chain s (Some n) ln /\
    (forall fuel, (k <= fuel)%nat ->
       SetNext fuel s this (Some n) = Some s' /\
       CountVehiclesInChain fuel s' h
       = Some (to_uint (Z.of_nat (length lh) + Z.of_nat (length ln)))) /\
    WF s' /\ chain s' (Some h) (lh ++ ln) /\ NoDup (lh ++ ln) /\
    (forall x, x ∈ lh ++ ln -> first (s' x) = Some h).
Proof.
  intros HWF Hlast Hhead Hother.
  destruct (wf_fwd s HWF) as [e He].
  destruct (WF_head s HWF this) as (h & lh & Hh & Hlh & Hthis).
  pose proof (wf_heads s HWF h Hh) as Hfh.
  assert (Hft : first (s this) = Some h).
  { by rewrite (chain_first s HWF lh h this Hlh Hthis). }
  assert (Hself : Some n <> Some this).
  { intros [= ->]. apply Hother. by apply (wf_heads s HWF). }
  assert (Habove : forall m l, Some n = Some m -> chain s (Some m) l -> this ∉ l).
  { intros m l [= <-] Hc Hin. apply Hother.
    rewrite (chain_first s HWF l n this Hc Hin). by apply (wf_heads s HWF). }
  destruct (SetNext_run s this (Some n) HWF Hself Habove)
    as (lo & ln & s' & k & Hlo & Hln & Hrun & Hafter).
  assert (lo = []) as ->.
  { rewrite Hlast in Hlo. destruct lo; [done|by destruct Hlo]. }
  assert (HWF' : WF s') by (eapply SetNext_WF; eassumption).
  assert (Hln' : chain s' (Some n) ln).
  { eapply (ln_chain_after s s' this (Some n) [] ln); eassumption. }
  assert (Hold : old_pred s this (Some n) = None).
  { unfold old_pred. rewrite Hlast. rewrite decide_False by done. done. }
  assert (Hjoin : chain s' (Some h) (lh ++ ln)).
  { apply (chain_extend s s' this n ln lh (Some h) Hlh Hthis Hlast); [| |done].
    - intros x Hx. destruct (Hafter x) as (-> & _).
      rewrite decide_False by done. by rewrite Hold.
    - destruct (Hafter this) as (-> & _). by rewrite decide_True. }
  destruct (wf_fwd s' HWF') as [e' He'].
  exists h, lh, ln, s', (Nat.max k (length (lh ++ ln))).
  split; [done|]. split; [done|]. split; [done|].
  split.
  { intros fuel Hf. split; [apply Hrun; lia|].
    unfold CountVehiclesInChain.
    rewrite (count_from_spec s' (lh ++ ln) h 0 fuel Hjoin) by lia.
    rewrite length_app. do 2 f_equal. lia. }
  split; [done|]. split; [done|].
  split; [by apply (chain_NoDup s' e' He' _ (Some h))|].
  intros x Hx. destruct (Hafter x) as (_ & _ & ->).
  destruct (decide (x ∈ ln)) as [|Hxn]; [done|].
  rewrite decide_False by apply not_elem_of_nil.
  apply elem_of_app in Hx as [Hx|Hx]; [|done].
  by rewrite (chain_first s HWF lh h x Hlh Hx).
Qed.

Lemma CountVehiclesInChain_length_witness :
  exists l r, chain pair (Some 0%nat) (0%nat :: l) /\
    CountVehiclesInChain (length l) pair 0%nat = Some r /\ r = 2.
Proof.
  destruct (CountVehiclesInChain_length pair 0%nat pair_WF)
    as (l & r & Hc & _ & Hrun & Hr & _).
  exists l, r. split; [exact Hc|]. split; [by apply Hrun|].
  rewrite Hr. destruct l as [|x l]; [by destruct Hc as [_ Hc]|].
  destruct Hc as (_ & Hx & Hc).
  change (next (pair 0%nat)) with (Some 1%nat) in Hx. injection Hx as <-.
  change (next (pair 1%nat)) with (@None VehicleID) in Hc.
  destruct l; [reflexivity|by destruct Hc].
Defined.

Lemma SetNext_same_successor_witness :
  exists s' k, SetNext k pair 0%nat (next (pair 0%nat)) = Some s' /\
    forall x, s' x = pair x.
Proof.
  destruct (SetNext_same_successor pair 0%nat pair_WF) as (s' & k & Hrun & Hsame).
  exists s', k. split; [by apply Hrun|exact Hsame].
Defined.

Lemma SetNext_cut_and_join_witness :
  exists s1 s2 k,
    SetNext k pair 0%nat None = Some s1 /\
    SetNext k s1 0%nat (Some 1%nat) = Some s2 /\
    forall x, s2 x = pair x.
Proof.
  destruct (SetNext_cut_and_join pair 0%nat 1%nat pair_WF eq_refl)
    as (s1 & s2 & k & Hrun & _ & _ & _ & _ & Hsame).
  exists s1, s2, k. destruct (Hrun k (le_n k)) as [H1 H2].
  split; [exact H1|]. split; [exact H2|exact Hsame].
Defined.

Lemma SetNext_joins_witness :
  exists s' k,
    SetNext k fresh 0%nat (Some 1%nat) = Some s' /\
    CountVehiclesInChain k s' 0%nat = Some 2.
Proof.
  destruct (SetNext_joins fresh 0%nat 1%nat fresh_WF eq_refl eq_refl)
    as (h & lh & ln & s' & k & Hh & Hlh & Hln & Hrun & _); [done|].
  injection Hh as <-.
  exists s', k. destruct (Hrun k (le_n k)) as [H1 H2].
  split; [exact H1|]. rewrite H2.
  destruct lh as [|x [|y lh]]; [done| |by destruct Hlh as (_ & Hc & _)].
  destruct ln as [|x' [|y' ln]]; [done| |by destruct Hln as (_ & Hc & _)].
  reflexivity.
Defined.

End Consist.

(** ** The breakdown roll: [CheckVehicleBreakdown] *)

Module Breakdown.
Import Core.

Inductive VehicleType :=
| VEH_TRAIN | VEH_ROAD | VEH_SHIP | VEH_AIRCRAFT | VEH_EFFECT | VEH_DISASTER.

Inductive GameMode := GM_MENU | GM_NORMAL | GM_EDITOR | GM_BOOTSTRAP.

#[global] Instance VehicleType_eq_dec : EqDecision VehicleType.
Proof. solve_decision. Defined.
#[global] Instance GameMode_eq_dec : EqDecision GameMode.
Proof. solve_decision. Defined.

(** The fields of [Vehicle] that the roll reads or writes, with their C++
    widths in the comments. *)
Record Vehicle := {
  type : VehicleType;
  reliability : Z;          (* uint16_t *)
  reliability_spd_dec : Z;  (* uint16_t *)
  breakdown_ctr : Z;        (* uint8_t *)
  breakdown_delay : Z;      (* uint8_t *)
  breakdown_chance : Z;     (* uint8_t *)
  cur_speed : Z;            (* uint16_t *)
  Stopped : bool;           (* vehstatus.Test(VehState::Stopped) *)
}.

(** [_settings_game.order.no_servicing_if_no_breakdowns] and
    [_settings_game.difficulty.vehicle_breakdowns]. *)
Record Settings := {
  no_servicing_if_no_breakdowns : bool;
  vehicle_breakdowns : Z;
}.

Definition to_uint8 (x : Z) : Z := x `mod` 2 ^ 8.
Definition to_uint16 (x : Z) : Z := x `mod` 2 ^ 16.

Definition _breakdown_chance : list Z := [
    3;   3;   3;   3;   3;   3;   3;   3;
    4;   4;   5;   5;   6;   6;   7;   7;
    8;   8;   9;   9;  10;  10;  11;  11;
   12;  13;  13;  13;  13;  14;  15;  16;
   17;  19;  21;  25;  28;  31;  34;  37;
   40;  44;  48;  52;  56;  60;  64;  68;
   72;  80;  90; 100; 110; 120; 130; 140;
  150; 170; 190; 210; 230; 250; 250; 250
].

(** [_breakdown_chance[i]]. *)
Definition table_entry (i : Z) : Z := default 0 (_breakdown_chance !! Z.to_nat i).

Section Roll.

(** The global pseudo-random stream: [Random()] yields a 32-bit number and
    advances the stream.  [Chance16I(a, b, r)] is the "[a] out of [b]" test
    on a number already drawn.  Neither is defined in [vehicle.cpp]. *)
Variable Randomizer : Type.
Variable Random : Randomizer -> Z * Randomizer.
Variable Chance16I : Z -> Z -> Z -> bool.

(** What a call leaves behind: the vehicle, the random stream, and whether
    the details window was marked dirty. *)
Record Outcome := {
  veh : Vehicle;
  rng : Randomizer;
  details_dirty : bool;
}.

Definition set_reliability (v : Vehicle) (x : Z) : Vehicle :=
  {| type := type v; reliability := x; reliability_spd_dec := reliability_spd_dec v;
     breakdown_ctr := breakdown_ctr v; breakdown_delay := breakdown_delay v;
     breakdown_chance := breakdown_chance v; cur_speed := cur_speed v;
     Stopped := Stopped v |}.

Definition set_breakdown (v : Vehicle) (ctr delay chance : Z) : Vehicle :=
  {| type := type v; reliability := reliability v;
     reliability_spd_dec := reliability_spd_dec v;
     breakdown_ctr := ctr; breakdown_delay := delay;
     breakdown_chance := chance; cur_speed := cur_speed v;
     Stopped := Stopped v |}.

(** The first statement of the function: "decrease reliability". *)
Definition decrease_reliability (s : Settings) (v : Vehicle) : Vehicle * bool :=
  if negb (no_servicing_if_no_breakdowns s) || negb (vehicle_breakdowns s =? 0) then
    let rel_old := reliability v in
    let rel := Z.max (rel_old - reliability_spd_dec v) 0 in
    (set_reliability v (to_uint16 rel),
     negb (Z.shiftr rel_old 8 =? Z.shiftr rel 8))
  else (v, false).

(** The condition of the early [return]. *)
Definition no_roll (s : Settings) (mode : GameMode) (v : Vehicle) : bool :=
  negb (breakdown_ctr v =? 0) || Stopped v || (vehicle_breakdowns s <? 1) ||
  (cur_speed v <? 5) || bool_decide (mode = GM_MENU).

(** The reliability used in the comparison. *)
Definition adjusted_reliability (s : Settings) (v : Vehicle) : Z :=
  let rel := reliability v in
  let rel := if bool_decide (type v = VEH_SHIP) then rel + 0x6666 else rel in
  if vehicle_breakdowns s =? 1 then rel + 0x6666 else rel.

Definition CheckVehicleBreakdown (s : Settings) (mode : GameMode)
    (g : Randomizer) (v : Vehicle) : Outcome :=
  let '(v, dirty) := decrease_reliability s v in
  if no_roll s mode v then {| veh := v; rng := g; details_dirty := dirty |}
  else
    let '(r, g) := Random g in
    (* increase chance of failure *)
    let chance := breakdown_chance v + 1 in
    let chance := if Chance16I 1 25 r then chance + 25 else chance in
    let v := set_breakdown v (breakdown_ctr v) (breakdown_delay v)
                           (ClampTo_uint8 chance) in
    (* check if to break down *)
    let rel := adjusted_reliability s v in
    if table_entry (Z.shiftr (ClampTo_uint16 rel) 10) <=? breakdown_chance v then
      {| veh := set_breakdown v (to_uint8 (GB r 16 6 + 0x3F))
                                (to_uint8 (GB r 24 7 + 0x80)) 0;
         rng := g; details_dirty := dirty |}
    else {| veh := v; rng := g; details_dirty := dirty |}.

(** The fields hold values of their C++ types. *)
Definition well_typed (v : Vehicle) : Prop :=
  0 <= reliability v < 2 ^ 16 /\ 0 <= reliability_spd_dec v < 2 ^ 16 /\
  0 <= breakdown_chance v < 2 ^ 8.

(** The gate of the roll, as the conditions under which it is attempted. *)
Definition roll_attempted (s : Settings) (mode : GameMode) (v : Vehicle) : Prop :=
  breakdown_ctr v = 0 /\ Stopped v = false /\ 1 <= vehicle_breakdowns s /\
  5 <= cur_speed v /\ mode <> GM_MENU.

Lemma no_roll_false s mode v : no_roll s mode v = false <-> roll_attempted s mode v.
Proof.
  unfold no_roll, roll_attempted.
  rewrite !orb_false_iff, negb_false_iff, Z.eqb_eq, !Z.ltb_ge,
    bool_decide_eq_false. tauto.
Qed.

Lemma decrease_reliability_frame s v :
  let v' := (decrease_reliability s v).1 in
  type v' = type v /\ breakdown_ctr v' = breakdown_ctr v /\
  breakdown_delay v' = breakdown_delay v /\
  breakdown_chance v' = breakdown_chance v /\ cur_speed v' = cur_speed v /\
  Stopped v' = Stopped v.
Proof.
  unfold decrease_reliability.
  destruct (negb (no_servicing_if_no_breakdowns s) || negb (vehicle_breakdowns s =? 0));
    simpl; repeat split.
Qed.

Lemma decrease_reliability_value s v :
  well_typed v ->
  reliability (decrease_reliability s v).1 =
  if no_servicing_if_no_breakdowns s && (vehicle_breakdowns s =? 0)
  then reliability v
  else Z.max (reliability v - reliability_spd_dec v) 0.
Proof.
  intros (Hr & Hd & _). unfold decrease_reliability.
  destruct (no_servicing_if_no_breakdowns s), (vehicle_breakdowns s =? 0); simpl;
    try done; unfold to_uint16; apply Z.mod_small; lia.
Qed.

Lemma no_roll_frame s mode v :
  no_roll s mode (decrease_reliability s v).1 = no_roll s mode v.
Proof.
  destruct (decrease_reliability_frame s v) as (_ & Hc & _ & _ & Hs & Hst).
  unfold no_roll. rewrite Hc, Hs, Hst. done.
Qed.

(** The table has 64 entries and never decreases. *)
Lemma _breakdown_chance_monotone :
  length _breakdown_chance = 64%nat /\
  forall i j, 0 <= i <= j -> j < 64 -> table_entry i <= table_entry j.
Proof.
  split; [reflexivity|].
  assert (Hall : forallb (fun i => forallb (fun j =>
            implb (i <=? j) (table_entry i <=? table_entry j))
              (Z.of_nat <$> seq 0 64)) (Z.of_nat <$> seq 0 64) = true)
    by (vm_compute; reflexivity).
  intros i j Hij Hj.
  rewrite forallb_forall in Hall.
  assert (Hin : forall k, 0 <= k < 64 -> In k (Z.of_nat <$> seq 0 64)).
  { intros k Hk. apply list_elem_of_In, list_elem_of_fmap.
    exists (Z.to_nat k). split; [lia|]. apply elem_of_seq. lia. }
  specialize (Hall i (Hin i ltac:(lia))). rewrite forallb_forall in Hall.
  specialize (Hall j (Hin j ltac:(lia))).
  destruct (Z.leb_spec i j); [|lia]. simpl in Hall. lia.
Qed.

(** The table is indexed by the upper six bits of a 16-bit value. *)
Lemma index_range rel :
  let i := Z.shiftr (ClampTo_uint16 rel) 10 in
  i = GB (ClampTo_uint16 rel) 10 6 /\ 0 <= i < 64.
Proof.
  intros i. subst i. unfold GB.
  assert (Hc : 0 <= ClampTo_uint16 rel < 2 ^ 16)
    by (unfold ClampTo_uint16, ClampTo; lia).
  assert (Hs : 0 <= Z.shiftr (ClampTo_uint16 rel) 10 < 64).
  { rewrite Z.shiftr_div_pow2 by lia. split.
    - apply Z.div_pos; lia.
    - apply Z.div_lt_upper_bound; lia. }
  split; [|done].
  rewrite Z.land_ones by lia. symmetry. apply Z.mod_small. lia.
Qed.

(** C4: the roll.  Reliability first drops by [reliability_spd_dec], not
    below 0, unless breakdowns are off and servicing is disabled with them.
    When the gate fails nothing else changes and no number is drawn.  When it
    passes, one number [r] is drawn, the chance counter grows by 1, and by 25
    more when [Chance16I(1, 25, r)] holds, saturating at 255; the table entry
    for the upper six bits of the clamped adjusted reliability is compared
    with it, and on a breakdown the countdown lies in [0x3F, 0x7E], the delay
    in [0x80, 0xFF], and the counter is back at 0. *)
Theorem CheckVehicleBreakdown_roll (s : Settings) (mode : GameMode)
    (g : Randomizer) (v : Vehicle) :
  well_typed v ->
  let out := CheckVehicleBreakdown s mode g v in
  let v' := veh out in
  let r := (Random g).1 in
  let chance := Z.min 255 (breakdown_chance v + 1 + if Chance16I 1 25 r then 25 else 0) in
  let index := GB (ClampTo_uint16 (adjusted_reliability s v')) 10 6 in
  reliability v' =
    (if no_servicing_if_no_breakdowns s && (vehicle_breakdowns s =? 0)
     then reliability v
     else Z.max (reliability v - reliability_spd_dec v) 0) /\
  (~ roll_attempted s mode v ->
     breakdown_ctr v' = breakdown_ctr v /\ breakdown_delay v' = breakdown_delay v /\
     breakdown_chance v' = breakdown_chance v /\ rng out = g) /\
  (roll_attempted s mode v ->
     rng out = (Random g).2 /\ 0 <= index < 64 /\
     (table_entry index <= chance ->
        breakdown_ctr v' = GB r 16 6 + 0x3F /\ 0x3F <= breakdown_ctr v' <= 0x7E /\
        breakdown_delay v' = GB r 24 7 + 0x80 /\ 0x80 <= breakdown_delay v' <= 0xFF /\
        breakdown_chance v' = 0) /\
     (chance < table_entry index ->
        breakdown_ctr v' = breakdown_ctr v /\ breakdown_delay v' = breakdown_delay v /\
        breakdown_chance v' = chance)) /\
  length _breakdown_chance = 64%nat /\
  (forall i j, 0 <= i <= j -> j < 64 -> table_entry i <= table_entry j).
Proof.
  intros Hwt out v' r chance index.
  pose proof (decrease_reliability_frame s v) as (Hty & Hctr & Hdel & Hch & Hsp & Hst).
  pose proof (decrease_reliability_value s v Hwt) as Hrel.
  pose proof (no_roll_frame s mode v) as Hgate.
  pose proof (no_roll_false s mode v) as Hgate_iff.
  subst out v' index. unfold CheckVehicleBreakdown.
  destruct (decrease_reliability s v) as [v1 dirty] eqn:Hdec. simpl in *.
  split; [|split; [|split; [|apply _breakdown_chance_monotone]]].
  - destruct (no_roll s mode v1); [done|].
    destruct (Random g) as [r0 g0].
    match goal with |- context [if ?c then _ else _] =>
      destruct c end; simpl; done.
  - intros Hno. destruct (no_roll s mode v1) eqn:Hnr; [done|].
    exfalso. apply Hno, Hgate_iff. congruence.
  - intros Hyes. apply Hgate_iff in Hyes. rewrite <- Hgate in Hyes. rewrite Hyes.
    destruct (Random g) as [r0 g0] eqn:Hrand. simpl in r. subst r.
    set (c1 := ClampTo_uint8 (if Chance16I 1 25 r0
                              then breakdown_chance v1 + 1 + 25
                              else breakdown_chance v1 + 1)).
    assert (Hc1 : c1 = chance).
    { subst c1 chance. rewrite Hch. destruct Hwt as (_ & _ & Hb).
      unfold ClampTo_uint8, ClampTo. destruct (Chance16I 1 25 r0); lia. }
    set (v2 := set_breakdown v1 (breakdown_ctr v1) (breakdown_delay v1) c1).
    assert (Hadj : forall a b c, adjusted_reliability s (set_breakdown v2 a b c)
                                 = adjusted_reliability s v2) by done.
    pose proof (index_range (adjusted_reliability s v2)) as [Hidx Hrange].
    pose proof (GB_range r0 16 6 ltac:(lia)) as Hg6.
    pose proof (GB_range r0 24 7 ltac:(lia)) as Hg7.
    change (breakdown_chance v2) with c1.
    destruct (Z.leb_spec (table_entry (Z.shiftr (ClampTo_uint16
                (adjusted_reliability s v2)) 10)) c1) as [Hle|Hgt]; simpl.
    + rewrite Hadj, <- Hidx. split; [done|]. split; [done|].
      unfold to_uint8. rewrite !Z.mod_small by lia.
      split; [intros _; lia|]. intros Hlt. lia.
    + rewrite <- Hidx. split; [done|]. split; [done|].
      split; [intros Hle; lia|]. intros _. rewrite Hctr, Hdel. done.
Qed.

End Roll.

(** The theorem on a train at full speed, with a stream that always yields
    the same number. *)
Lemma CheckVehicleBreakdown_roll_witness :
  let v := {| type := VEH_TRAIN; reliability := 0x8000; reliability_spd_dec := 20;
              breakdown_ctr := 0; breakdown_delay := 0; breakdown_chance := 10;
              cur_speed := 100; Stopped := false |} in
  let s := {| no_servicing_if_no_breakdowns := false; vehicle_breakdowns := 2 |} in
  well_typed v /\
  reliability (veh unit (CheckVehicleBreakdown unit (fun g => (0x12345678, g))
                 (fun _ _ _ => false) s GM_NORMAL tt v)) = 0x8000 - 20.
Proof.
  intros v s.
  assert (Hwt : well_typed v) by (unfold well_typed; simpl; lia).
  split; [exact Hwt|].
  exact (proj1 (CheckVehicleBreakdown_roll unit (fun g => (0x12345678, g))
                  (fun _ _ _ => false) s GM_NORMAL tt v Hwt)).
Defined.

End Breakdown.

(** ** The course of a breakdown: [Vehicle::HandleBreakdown] *)

Module BreakdownCycle.
Import Core.

Abbreviation VehicleType := Breakdown.VehicleType.
Abbreviation VEH_TRAIN := Breakdown.VEH_TRAIN.
Abbreviation VEH_SHIP := Breakdown.VEH_SHIP.
Abbreviation VEH_AIRCRAFT := Breakdown.VEH_AIRCRAFT.

Inductive SoundFx :=
| SND_10_BREAKDOWN_TRAIN_SHIP
| SND_0F_BREAKDOWN_ROADVEHICLE
| SND_3A_BREAKDOWN_TRAIN_SHIP_TOYLAND
| SND_35_BREAKDOWN_ROADVEHICLE_TOYLAND.

(** The fields of [Vehicle] that the function reads or writes. *)
Record Vehicle := {
  type : VehicleType;
  breakdown_ctr : Z;                  (* uint8_t *)
  breakdown_delay : Z;                (* uint8_t *)
  breakdowns_since_last_service : Z;  (* uint8_t *)
  cur_speed : Z;                      (* uint16_t *)
  tick_counter : Z;                   (* uint8_t *)
  Hidden : bool;                      (* vehstatus.Test(VehState::Hidden) *)
  AircraftBroken : bool;              (* vehstatus.Test(VehState::AircraftBroken) *)
  loading : bool;                     (* current_order.IsType(OT_LOADING) *)
}.

Definition to_uint8 (x : Z) : Z := x `mod` 2 ^ 8.

Definition set_breakdown_ctr (x : Z) (v : Vehicle) : Vehicle :=
  {| type := type v; breakdown_ctr := x; breakdown_delay := breakdown_delay v;
     breakdowns_since_last_service := breakdowns_since_last_service v;
     cur_speed := cur_speed v; tick_counter := tick_counter v; Hidden := Hidden v;
     AircraftBroken := AircraftBroken v; loading := loading v |}.
Definition set_breakdown_delay (x : Z) (v : Vehicle) : Vehicle :=
  {| type := type v; breakdown_ctr := breakdown_ctr v; breakdown_delay := x;
     breakdowns_since_last_service := breakdowns_since_last_service v;
     cur_speed := cur_speed v; tick_counter := tick_counter v; Hidden := Hidden v;
     AircraftBroken := AircraftBroken v; loading := loading v |}.
Definition set_breakdowns_since_last_service (x : Z) (v : Vehicle) : Vehicle :=
  {| type := type v; breakdown_ctr := breakdown_ctr v;
     breakdown_delay := breakdown_delay v;
     breakdowns_since_last_service := x;
     cur_speed := cur_speed v; tick_counter := tick_counter v; Hidden := Hidden v;
     AircraftBroken := AircraftBroken v; loading := loading v |}.
Definition set_cur_speed (x : Z) (v : Vehicle) : Vehicle :=
  {| type := type v; breakdown_ctr := breakdown_ctr v;
     breakdown_delay := breakdown_delay v;
     breakdowns_since_last_service := breakdowns_since_last_service v;
     cur_speed := x; tick_counter := tick_counter v; Hidden := Hidden v;
     AircraftBroken := AircraftBroken v; loading := loading v |}.
Definition set_AircraftBroken (v : Vehicle) : Vehicle :=
  {| type := type v; breakdown_ctr := breakdown_ctr v;
     breakdown_delay := breakdown_delay v;
     breakdowns_since_last_service := breakdowns_since_last_service v;
     cur_speed := cur_speed v; tick_counter := tick_counter v; Hidden := Hidden v;
     AircraftBroken := true; loading := loading v |}.

(** What the function does to the outside; marking the vehicle and its
    windows dirty is left out. *)
Inductive Event :=
| EvSndPlayVehicleFx (snd : SoundFx)
  (* CreateEffectVehicleRel(this, 4, 4, 5, EV_BREAKDOWN_SMOKE), and the
     animation state given to the effect vehicle when there is one *)
| EvBreakdownSmoke (animation_state : Z).

(** What the function reads from outside the vehicle: whether the NewGRF
    sound was played, the landscape, the flag of the engine. *)
Record Env := {
  PlayVehicleSound_VSE_BREAKDOWN : bool;
  Toyland : bool;         (* landscape == LandscapeType::Toyland *)
  NoBreakdownSmoke : bool; (* EngInfo(engine_type)->misc_flags *)
}.

(** [case 2], up to the fall through. *)
Definition begin_breakdown (env : Env) (v : Vehicle) : list Event * Vehicle :=
  let v := set_breakdown_ctr 1 v in
  let v := if negb (breakdowns_since_last_service v =? 255)
           then set_breakdowns_since_last_service
                  (to_uint8 (breakdowns_since_last_service v + 1)) v
           else v in
  if bool_decide (type v = VEH_AIRCRAFT) then
    (* Aircraft just need this flag, the rest is handled elsewhere *)
    ([], set_AircraftBroken v)
  else
    let v := set_cur_speed 0 v in
    let sound :=
      if negb (PlayVehicleSound_VSE_BREAKDOWN env) then
        let train_or_ship :=
          bool_decide (type v = VEH_TRAIN) || bool_decide (type v = VEH_SHIP) in
        [EvSndPlayVehicleFx
           (if negb (Toyland env)
            then (if train_or_ship then SND_10_BREAKDOWN_TRAIN_SHIP
                  else SND_0F_BREAKDOWN_ROADVEHICLE)
            else (if train_or_ship then SND_3A_BREAKDOWN_TRAIN_SHIP_TOYLAND
                  else SND_35_BREAKDOWN_ROADVEHICLE_TOYLAND))]
      else [] in
    let smoke :=
      if negb (Hidden v) && negb (NoBreakdownSmoke env)
      then [EvBreakdownSmoke (breakdown_delay v * 2)]
      else [] in
    (sound ++ smoke, v).

(** [case 1]. *)
Definition during_breakdown (v : Vehicle) : Vehicle * bool :=
  (* Aircraft breakdowns end only when arriving at the airport *)
  if bool_decide (type v = VEH_AIRCRAFT) then (v, false)
  else
    (* For trains this function is called twice per tick, so decrease
       v->breakdown_delay at half the rate *)
    if Z.land (tick_counter v) (if bool_decide (type v = VEH_TRAIN) then 3 else 1) =? 0
    then
      let v := set_breakdown_delay (to_uint8 (breakdown_delay v - 1)) v in
      if breakdown_delay v =? 0 then (set_breakdown_ctr 0 v, true) else (v, true)
    else (v, true).

Definition HandleBreakdown (env : Env) (v : Vehicle) : list Event * Vehicle * bool :=
  if breakdown_ctr v =? 0 then ([], v, false)
  else if breakdown_ctr v =? 2 then
    let '(ev, v) := begin_breakdown env v in
    let '(v, r) := during_breakdown v in (ev, v, r)
  else if breakdown_ctr v =? 1 then
    let '(v, r) := during_breakdown v in ([], v, r)
  else
    ([], (if negb (loading v) then set_breakdown_ctr (to_uint8 (breakdown_ctr v - 1)) v
          else v), false).

(** [n] calls in a row, with the vehicles they leave and what they return. *)
Fixpoint calls (env : Env) (n : nat) (v : Vehicle) : list (list Event * bool) * Vehicle :=
  match n with
  | O => ([], v)
  | S n =>
      let '(ev, v, r) := HandleBreakdown env v in
      let '(rest, v) := calls env n v in
      ((ev, r) :: rest, v)
  end.

Lemma set_breakdown_ctr_same v : set_breakdown_ctr (breakdown_ctr v) v = v.
Proof. by destruct v. Qed.

(** X10: a vehicle that counts down to a breakdown and is not loading loses
    one from [breakdown_ctr] at every call, is never reported as stopped and
    changes in nothing else, until the counter is 2: that takes
    [breakdown_ctr - 2] calls.  While it is loading the counter stands
    still. *)
Theorem HandleBreakdown_countdown (env : Env) (v : Vehicle) :
  2 <= breakdown_ctr v <= 255 ->
  (loading v = false ->
     let n := Z.to_nat (breakdown_ctr v - 2) in
     calls env n v = (replicate n ([], false), set_breakdown_ctr 2 v)) /\
  (loading v = true -> 2 < breakdown_ctr v ->
     HandleBreakdown env v = ([], v, false)).
Proof.
  intros Hc. split.
  - intros Hl n. unfold n. clear n.
    remember (Z.to_nat (breakdown_ctr v - 2)) as n eqn:Hn.
    revert v Hc Hl Hn. induction n as [|n IH]; intros v Hc Hl Hn.
    + simpl. assert (breakdown_ctr v = 2) as <- by lia.
      by rewrite set_breakdown_ctr_same.
    + cbn [calls]. unfold HandleBreakdown.
      destruct (Z.eqb_spec (breakdown_ctr v) 0); [lia|].
      destruct (Z.eqb_spec (breakdown_ctr v) 2); [lia|].
      destruct (Z.eqb_spec (breakdown_ctr v) 1); [lia|].
      rewrite Hl. cbn [negb].
      assert (Hdec : to_uint8 (breakdown_ctr v - 1) = breakdown_ctr v - 1).
      { unfold to_uint8. apply Z.mod_small. lia. }
      rewrite Hdec.
      rewrite (IH (set_breakdown_ctr (breakdown_ctr v - 1) v));
        [|simpl; lia|done|simpl; lia].
      cbn [replicate]. by f_equal.
  - intros Hl Hgt. unfold HandleBreakdown.
    destruct (Z.eqb_spec (breakdown_ctr v) 0); [lia|].
    destruct (Z.eqb_spec (breakdown_ctr v) 2); [lia|].
    destruct (Z.eqb_spec (breakdown_ctr v) 1); [lia|].
    by rewrite Hl.
Qed.

(** The mask on [tick_counter] that paces the end of a breakdown. *)
Definition pace (v : Vehicle) : Z :=
  if bool_decide (type v = VEH_TRAIN) then 3 else 1.

(** X11: [HandleBreakdown] reports the vehicle as stopped exactly when it is
    called with [breakdown_ctr] 1 or 2 on a vehicle that is no aircraft.
    The counter never grows.  The call that finds it at 2 counts one more
    breakdown since the last service, at most 255, and stops the vehicle,
    while an aircraft only gets its flag and keeps its speed and makes no
    sound or smoke.  A breakdown of a vehicle that is no aircraft ends, with
    the counter back at 0, exactly at the call that takes
    [breakdown_delay] from 1 to 0, which only happens when [tick_counter]
    has its low bits clear; other calls leave the delay or take one from
    it, wrapping from 0 to 255. *)
Theorem HandleBreakdown_stopped (env : Env) (v : Vehicle) :
  0 <= breakdown_ctr v <= 255 -> 0 <= breakdown_delay v <= 255 ->
  0 <= breakdowns_since_last_service v <= 255 ->
  let '(ev, v', r) := HandleBreakdown env v in
  let broken := breakdown_ctr v = 1 \/ breakdown_ctr v = 2 in
  (r = true <-> broken /\ type v <> VEH_AIRCRAFT) /\
  0 <= breakdown_ctr v' <= breakdown_ctr v /\
  type v' = type v /\
  (breakdown_ctr v <> 2 ->
     ev = [] /\ cur_speed v' = cur_speed v /\
     breakdowns_since_last_service v' = breakdowns_since_last_service v) /\
  (breakdown_ctr v = 2 ->
     breakdowns_since_last_service v'
       = Z.min 255 (breakdowns_since_last_service v + 1) /\
     (type v <> VEH_AIRCRAFT -> cur_speed v' = 0) /\
     (type v = VEH_AIRCRAFT ->
        AircraftBroken v' = true /\ cur_speed v' = cur_speed v /\ ev = [] /\
        breakdown_ctr v' = 1)) /\
  (broken -> type v <> VEH_AIRCRAFT ->
     breakdown_delay v'
       = (if Z.land (tick_counter v) (pace v) =? 0
          then (breakdown_delay v - 1) `mod` 256 else breakdown_delay v) /\
     (breakdown_ctr v' = 0 <->
        Z.land (tick_counter v) (pace v) = 0 /\ breakdown_delay v = 1) /\
     (breakdown_ctr v' <> 0 -> breakdown_ctr v' = 1)).
Proof.
  intros Hc Hd Hs. unfold HandleBreakdown.
  destruct (Z.eqb_spec (breakdown_ctr v) 0) as [H0|H0].
  { repeat split; try done; try lia; intros [[?|?] _]; lia. }
  assert (Hwrap : forall d, 0 <= d <= 255 ->
            (to_uint8 (d - 1) = 0 <-> d = 1) /\ 0 <= to_uint8 (d - 1) <= 255).
  { intros d Hrange. unfold to_uint8.
    pose proof (Z.mod_pos_bound (d - 1) (2 ^ 8) ltac:(lia)).
    split; [|lia]. destruct (decide (d = 0)) as [->|]; [done|].
    rewrite Z.mod_small by lia. lia. }
  assert (Hduring : forall w, 0 <= breakdown_delay w <= 255 ->
            breakdown_ctr w = 1 -> type w <> VEH_AIRCRAFT ->
            let '(w', r) := during_breakdown w in
            r = true /\ type w' = type w /\ cur_speed w' = cur_speed w /\
            breakdowns_since_last_service w' = breakdowns_since_last_service w /\
            AircraftBroken w' = AircraftBroken w /\
            breakdown_delay w'
              = (if Z.land (tick_counter w) (pace w) =? 0
                 then (breakdown_delay w - 1) `mod` 256 else breakdown_delay w) /\
            (breakdown_ctr w' = 0 <->
               Z.land (tick_counter w) (pace w) = 0 /\ breakdown_delay w = 1) /\
            (breakdown_ctr w' <> 0 -> breakdown_ctr w' = 1)).
  { intros w Hdw Hcw Hty. unfold during_breakdown, pace.
    rewrite (bool_decide_eq_false_2 (type w = VEH_AIRCRAFT)) by done.
    destruct (Z.eqb_spec (Z.land (tick_counter w)
                (if bool_decide (type w = VEH_TRAIN) then 3 else 1)) 0) as [Ht|Ht].
    - destruct (Hwrap _ Hdw) as [Hz Hr]. cbn [breakdown_delay set_breakdown_delay].
      destruct (Z.eqb_spec (to_uint8 (breakdown_delay w - 1)) 0) as [Hend|Hend];
        cbn; (do 5 (split; [done|])).
      + split; [done|]. split; [|done]. split; [|done].
        intros _. split; [done|]. by apply Hz.
      + rewrite Hcw. split; [done|]. split; [|done]. split; [done|].
        intros [_ H1]. by apply Hz in H1.
    - rewrite Hcw. do 5 (split; [done|]). split; [done|]. split; [|done].
      split; [done|]. by intros [? _]. }
  destruct (Z.eqb_spec (breakdown_ctr v) 2) as [H2|H2].
  - (* the breakdown begins *)
    unfold begin_breakdown. cbn [breakdowns_since_last_service set_breakdown_ctr type].
    set (w0 := if negb (breakdowns_since_last_service v =? 255)
               then set_breakdowns_since_last_service
                      (to_uint8 (breakdowns_since_last_service v + 1))
                      (set_breakdown_ctr 1 v)
               else set_breakdown_ctr 1 v).
    assert (Hw0 : type w0 = type v /\ breakdown_ctr w0 = 1 /\
                  breakdown_delay w0 = breakdown_delay v /\
                  cur_speed w0 = cur_speed v /\ tick_counter w0 = tick_counter v /\
                  breakdowns_since_last_service w0
                    = Z.min 255 (breakdowns_since_last_service v + 1)).
    { unfold w0. destruct (Z.eqb_spec (breakdowns_since_last_service v) 255) as [He|He];
        cbn; (do 5 (split; [done|])); [lia|].
      unfold to_uint8. rewrite Z.mod_small by lia. lia. }
    destruct Hw0 as (Hty0 & Hc0 & Hd0 & Hsp0 & Htk0 & Hs0).
    rewrite Hty0.
    destruct (decide (type v = VEH_AIRCRAFT)) as [Ha|Ha].
    + rewrite (bool_decide_eq_true_2 _ Ha). unfold during_breakdown.
      cbn [type set_AircraftBroken]. rewrite Hty0, (bool_decide_eq_true_2 _ Ha).
      cbn. rewrite Hc0, Hty0, Hsp0, Hs0.
      split; [split; [done|intros [_ ?]; done]|]. split; [lia|]. split; [done|].
      split; [done|]. split; [|done]. intros _. done.
    + rewrite (bool_decide_eq_false_2 _ Ha).
      set (w1 := set_cur_speed 0 w0).
      match goal with |- context [during_breakdown ?w] => change w with w1 end.
      assert (Hpace : pace w1 = pace v) by (unfold pace; cbn; by rewrite Hty0).
      pose proof (Hduring w1) as Hw1. cbn in Hw1.
      rewrite Hd0, Hc0, Hty0, Htk0, Hs0, Hpace in Hw1.
      specialize (Hw1 Hd eq_refl Ha).
      destruct (during_breakdown w1) as [w' r].
      destruct Hw1 as (-> & Hty' & Hsp' & Hs' & _ & Hd' & Hend & Hone).
      split; [split; [intros _; split; [by right|done]|done]|].
      split.
      { destruct (decide (breakdown_ctr w' = 0)) as [->|Hnz]; [lia|].
        rewrite (Hone Hnz). lia. }
      split; [done|]. split; [done|]. split; [|done].
      intros _. split; [done|]. split; [done|]. done.
  - destruct (Z.eqb_spec (breakdown_ctr v) 1) as [H1|H1].
    + destruct (decide (type v = VEH_AIRCRAFT)) as [Ha|Ha].
      * unfold during_breakdown. rewrite (bool_decide_eq_true_2 _ Ha).
        split; [split; [done|intros [_ ?]; done]|]. split; [lia|]. split; [done|].
        split; [done|]. split; [done|]. intros _ ?. done.
      * pose proof (Hduring v Hd H1 Ha) as Hv.
        destruct (during_breakdown v) as [w' r].
        destruct Hv as (-> & Hty' & Hsp' & Hs' & _ & Hd' & Hend & Hone).
        split; [split; [intros _; split; [by left|done]|done]|].
        split.
        { destruct (decide (breakdown_ctr w' = 0)) as [->|Hnz]; [lia|].
          rewrite (Hone Hnz). lia. }
        split; [done|]. split; [done|]. split; [done|]. intros _ _. done.
    + (* counting down *)
      split; [split; [done|intros [[?|?] _]; done]|].
      assert (Hdec : to_uint8 (breakdown_ctr v - 1) = breakdown_ctr v - 1).
      { unfold to_uint8. apply Z.mod_small. lia. }
      destruct (loading v); cbn; rewrite ?Hdec.
      all: split; [lia|]. all: split; [done|]. all: split; [done|].
      all: split; [done|]. all: intros [?|?]; done.
Qed.

Lemma HandleBreakdown_countdown_witness :
  calls {| PlayVehicleSound_VSE_BREAKDOWN := false; Toyland := false;
           NoBreakdownSmoke := false |} 3
    {| type := VEH_TRAIN; breakdown_ctr := 5; breakdown_delay := 128;
       breakdowns_since_last_service := 0; cur_speed := 30; tick_counter := 0;
       Hidden := false; AircraftBroken := false; loading := false |}
  = ([([], false); ([], false); ([], false)],
     {| type := VEH_TRAIN; breakdown_ctr := 2; breakdown_delay := 128;
        breakdowns_since_last_service := 0; cur_speed := 30; tick_counter := 0;
        Hidden := false; AircraftBroken := false; loading := false |}).
Proof.
  apply (HandleBreakdown_countdown
           {| PlayVehicleSound_VSE_BREAKDOWN := false; Toyland := false;
              NoBreakdownSmoke := false |}
           {| type := VEH_TRAIN; breakdown_ctr := 5; breakdown_delay := 128;
              breakdowns_since_last_service := 0; cur_speed := 30; tick_counter := 0;
              Hidden := false; AircraftBroken := false; loading := false |});
    [simpl; lia|reflexivity].
Defined.

Lemma HandleBreakdown_stopped_witness :
  let env := {| PlayVehicleSound_VSE_BREAKDOWN := false; Toyland := false;
                NoBreakdownSmoke := false |} in
  let v := {| type := VEH_TRAIN; breakdown_ctr := 2; breakdown_delay := 128;
              breakdowns_since_last_service := 255; cur_speed := 30;
              tick_counter := 0; Hidden := false; AircraftBroken := false;
              loading := false |} in
  (HandleBreakdown env v).2 = true /\
  breakdowns_since_last_service (HandleBreakdown env v).1.2 = 255.
Proof.
  intros env v.
  pose proof (HandleBreakdown_stopped env v) as Hthm.
  destruct (HandleBreakdown env v) as [[ev v'] r].
  destruct Hthm as (Hr & _ & _ & _ & Hb & _); [simpl; lia..|].
  cbn [fst snd]. split.
  - apply Hr. split; [by right|done].
  - destruct (Hb eq_refl) as [-> _]. reflexivity.
Defined.

End BreakdownCycle.

(** ** The scheduler and the depot: [CallVehicleTicks], [VehicleEnterDepot] *)

Module Scheduler.
Import Core.

Definition VehicleID := nat.
Definition CompanyID := Z.

Inductive VehicleType :=
| VEH_TRAIN | VEH_ROAD | VEH_SHIP | VEH_AIRCRAFT | VEH_EFFECT | VEH_DISASTER.

Inductive VehState :=
| Hidden | Stopped | Unclickable | DefaultPalette | TrainSlowing | Shadow
| AircraftBroken | Crashed.

Inductive OrderType :=
| OT_NOTHING | OT_GOTO_STATION | OT_GOTO_DEPOT | OT_LOADING | OT_LEAVESTATION
| OT_DUMMY | OT_GOTO_WAYPOINT | OT_CONDITIONAL | OT_IMPLICIT.

Inductive StringID :=
| INVALID_STRING_ID
| STR_ERROR_AUTOREPLACE_NOTHING_TO_DO
| STR_ERROR_NOT_ENOUGH_CASH_REQUIRES_CURRENCY
| STR_ERROR_AUTOREPLACE_MONEY_LIMIT
| STR_ERROR_TRAIN_TOO_LONG_AFTER_REPLACEMENT
| STR_NEWS_VEHICLE_AUTORENEW_FAILED
| STR_NEWS_ORDER_REFIT_FAILED
| STR_NEWS_TRAIN_IS_WAITING_plus (t : VehicleType)
| STR_other (n : Z).

Inductive AdviceType := AutorenewFailed | RefitFailed | VehicleWaiting.

Inductive SoundEvent := VSE_RUNNING | VSE_RUNNING_16 | VSE_STOPPED_16.

#[global] Instance VehicleType_eq_dec : EqDecision VehicleType.
Proof. solve_decision. Defined.
#[global] Instance VehState_eq_dec : EqDecision VehState.
Proof. solve_decision. Defined.
#[global] Instance OrderType_eq_dec : EqDecision OrderType.
Proof. solve_decision. Defined.
#[global] Instance StringID_eq_dec : EqDecision StringID.
Proof. solve_decision. Defined.

(** The reads of an [Order] made on entering a depot; each flag is the
    result of the bit test named in its comment. *)
Record Order := {
  order_type : OrderType;
  part_of_orders : bool;   (* GetDepotOrderType() & ODTFB_PART_OF_ORDERS *)
  halt : bool;             (* GetDepotActionType() & ODATFB_HALT *)
  nearest_depot : bool;    (* GetDepotActionType() & ODATFB_NEAREST_DEPOT *)
  unbunch : bool;          (* GetDepotActionType() & ODATFB_UNBUNCH *)
  IsRefit : bool;
  GetRefitCargo : Z;
  GetDestination : Z;
}.

(** Modelled from the spec: [Order::MakeDummy] (order_cmd.cpp) overwrites the
    pending order ("overwriting the pending order", section 5) with one of
    type [OT_DUMMY] that carries no flags. *)
Definition MakeDummy (o : Order) : Order :=
  {| order_type := OT_DUMMY; part_of_orders := false; halt := false;
     nearest_depot := false; unbunch := false; IsRefit := false;
     GetRefitCargo := GetRefitCargo o; GetDestination := GetDestination o |}.

Record CommandCost := {
  Succeeded : bool;
  GetCost : Z;
  GetErrorMessage : StringID;
}.
Definition Failed (c : CommandCost) : bool := negb (Succeeded c).

(** [GetEncodedString(string, vehicle, ...)]: the string, the vehicle and,
    for the generic autorenew headline, the reason. *)
Record EncodedString := {
  es_string : StringID;
  es_vehicle : VehicleID;
  es_reason : option StringID;
}.

Definition StationID_Invalid : Z := 0xFFFF.

(** The fields of [Vehicle] used by the scheduler and by depot entry. *)
Record Vehicle := {
  type : VehicleType;
  owner : CompanyID;
  vehstatus : VehState -> bool; (* VehStates, as the set of its members *)
  cur_speed : Z;
  tile : Z;
  dest_tile : Z;
  x_pos : Z;
  y_pos : Z;
  z_pos : Z;
  first : VehicleID; (* First() *)
  current_order : Order;
  last_loading_station : Z;
  depot_unbunching_last_departure : Z; (* TimerGameTick::TickCounter, 64 bits unsigned *)
  depot_unbunching_next_departure : Z;
  round_trip_time : Z; (* TimerGameTick::Ticks, 32 bits signed *)
  profit_this_year : Z;
  cargo_age_counter : Z; (* uint16_t *)
  cached_cargo_age_period : Z; (* vcache.cached_cargo_age_period *)
  motion_counter : Z; (* uint32_t *)
  tick_counter : Z; (* uint8_t *)
  leads : bool; (* IsEngine(), IsFrontEngine() or IsNormalAircraft(), by type *)
}.

Definition set_vehstatus (x : VehState -> bool) (v : Vehicle) : Vehicle :=
  {| type := type v; owner := owner v; vehstatus := x; cur_speed := cur_speed v;
     tile := tile v; dest_tile := dest_tile v; x_pos := x_pos v; y_pos := y_pos v;
     z_pos := z_pos v; first := first v; current_order := current_order v;
     last_loading_station := last_loading_station v;
     depot_unbunching_last_departure := depot_unbunching_last_departure v;
     depot_unbunching_next_departure := depot_unbunching_next_departure v;
     round_trip_time := round_trip_time v; profit_this_year := profit_this_year v;
     cargo_age_counter := cargo_age_counter v;
     cached_cargo_age_period := cached_cargo_age_period v;
     motion_counter := motion_counter v; tick_counter := tick_counter v;
     leads := leads v |}.
Definition set_cur_speed (x : Z) (v : Vehicle) : Vehicle :=
  {| type := type v; owner := owner v; vehstatus := vehstatus v; cur_speed := x;
     tile := tile v; dest_tile := dest_tile v; x_pos := x_pos v; y_pos := y_pos v;
     z_pos := z_pos v; first := first v; current_order := current_order v;
     last_loading_station := last_loading_station v;
     depot_unbunching_last_departure := depot_unbunching_last_departure v;
     depot_unbunching_next_departure := depot_unbunching_next_departure v;
     round_trip_time := round_trip_time v; profit_this_year := profit_this_year v;
     cargo_age_counter := cargo_age_counter v;
     cached_cargo_age_period := cached_cargo_age_period v;
     motion_counter := motion_counter v; tick_counter := tick_counter v;
     leads := leads v |}.
Definition set_current_order (x : Order) (v : Vehicle) : Vehicle :=
  {| type := type v; owner := owner v; vehstatus := vehstatus v; cur_speed := cur_speed v;
     tile := tile v; dest_tile := dest_tile v; x_pos := x_pos v; y_pos := y_pos v;
     z_pos := z_pos v; first := first v; current_order := x;
     last_loading_station := last_loading_station v;
     depot_unbunching_last_departure := depot_unbunching_last_departure v;
     depot_unbunching_next_departure := depot_unbunching_next_departure v;
     round_trip_time := round_trip_time v; profit_this_year := profit_this_year v;
     cargo_age_counter := cargo_age_counter v;
     cached_cargo_age_period := cached_cargo_age_period v;
     motion_counter := motion_counter v; tick_counter := tick_counter v;
     leads := leads v |}.
Definition set_last_loading_station (x : Z) (v : Vehicle) : Vehicle :=
  {| type := type v; owner := owner v; vehstatus := vehstatus v; cur_speed := cur_speed v;
     tile := tile v; dest_tile := dest_tile v; x_pos := x_pos v; y_pos := y_pos v;
     z_pos := z_pos v; first := first v; current_order := current_order v;
     last_loading_station := x;
     depot_unbunching_last_departure := depot_unbunching_last_departure v;
     depot_unbunching_next_departure := depot_unbunching_next_departure v;
     round_trip_time := round_trip_time v; profit_this_year := profit_this_year v;
     cargo_age_counter := cargo_age_counter v;
     cached_cargo_age_period := cached_cargo_age_period v;
     motion_counter := motion_counter v; tick_counter := tick_counter v;
     leads := leads v |}.
Definition set_depot_unbunching_last_departure (x : Z) (v : Vehicle) : Vehicle :=
  {| type := type v; owner := owner v; vehstatus := vehstatus v; cur_speed := cur_speed v;
     tile := tile v; dest_tile := dest_tile v; x_pos := x_pos v; y_pos := y_pos v;
     z_pos := z_pos v; first := first v; current_order := current_order v;
     last_loading_station := last_loading_station v; depot_unbunching_last_departure := x;
     depot_unbunching_next_departure := depot_unbunching_next_departure v;
     round_trip_time := round_trip_time v; profit_this_year := profit_this_year v;
     cargo_age_counter := cargo_age_counter v;
     cached_cargo_age_period := cached_cargo_age_period v;
     motion_counter := motion_counter v; tick_counter := tick_counter v;
     leads := leads v |}.
Definition set_depot_unbunching_next_departure (x : Z) (v : Vehicle) : Vehicle :=
  {| type := type v; owner := owner v; vehstatus := vehstatus v; cur_speed := cur_speed v;
     tile := tile v; dest_tile := dest_tile v; x_pos := x_pos v; y_pos := y_pos v;
     z_pos := z_pos v; first := first v; current_order := current_order v;
     last_loading_station := last_loading_station v;
     depot_unbunching_last_departure := depot_unbunching_last_departure v;
     depot_unbunching_next_departure := x; round_trip_time := round_trip_time v;
     profit_this_year := profit_this_year v; cargo_age_counter := cargo_age_counter v;
     cached_cargo_age_period := cached_cargo_age_period v;
     motion_counter := motion_counter v; tick_counter := tick_counter v;
     leads := leads v |}.
Definition set_round_trip_time (x : Z) (v : Vehicle) : Vehicle :=
  {| type := type v; owner := owner v; vehstatus := vehstatus v; cur_speed := cur_speed v;
     tile := tile v; dest_tile := dest_tile v; x_pos := x_pos v; y_pos := y_pos v;
     z_pos := z_pos v; first := first v; current_order := current_order v;
     last_loading_station := last_loading_station v;
     depot_unbunching_last_departure := depot_unbunching_last_departure v;
     depot_unbunching_next_departure := depot_unbunching_next_departure v;
     round_trip_time := x; profit_this_year := profit_this_year v;
     cargo_age_counter := cargo_age_counter v;
     cached_cargo_age_period := cached_cargo_age_period v;
     motion_counter := motion_counter v; tick_counter := tick_counter v;
     leads := leads v |}.
Definition set_profit_this_year (x : Z) (v : Vehicle) : Vehicle :=
  {| type := type v; owner := owner v; vehstatus := vehstatus v; cur_speed := cur_speed v;
     tile := tile v; dest_tile := dest_tile v; x_pos := x_pos v; y_pos := y_pos v;
     z_pos := z_pos v; first := first v; current_order := current_order v;
     last_loading_station := last_loading_station v;
     depot_unbunching_last_departure := depot_unbunching_last_departure v;
     depot_unbunching_next_departure := depot_unbunching_next_departure v;
     round_trip_time := round_trip_time v; profit_this_year := x;
     cargo_age_counter := cargo_age_counter v;
     cached_cargo_age_period := cached_cargo_age_period v;
     motion_counter := motion_counter v; tick_counter := tick_counter v;
     leads := leads v |}.
Definition set_cargo_age_counter (x : Z) (v : Vehicle) : Vehicle :=
  {| type := type v; owner := owner v; vehstatus := vehstatus v; cur_speed := cur_speed v;
     tile := tile v; dest_tile := dest_tile v; x_pos := x_pos v; y_pos := y_pos v;
     z_pos := z_pos v; first := first v; current_order := current_order v;
     last_loading_station := last_loading_station v;
     depot_unbunching_last_departure := depot_unbunching_last_departure v;
     depot_unbunching_next_departure := depot_unbunching_next_departure v;
     round_trip_time := round_trip_time v; profit_this_year := profit_this_year v;
     cargo_age_counter := x; cached_cargo_age_period := cached_cargo_age_period v;
     motion_counter := motion_counter v; tick_counter := tick_counter v;
     leads := leads v |}.
Definition set_motion_counter (x : Z) (v : Vehicle) : Vehicle :=
  {| type := type v; owner := owner v; vehstatus := vehstatus v; cur_speed := cur_speed v;
     tile := tile v; dest_tile := dest_tile v; x_pos := x_pos v; y_pos := y_pos v;
     z_pos := z_pos v; first := first v; current_order := current_order v;
     last_loading_station := last_loading_station v;
     depot_unbunching_last_departure := depot_unbunching_last_departure v;
     depot_unbunching_next_departure := depot_unbunching_next_departure v;
     round_trip_time := round_trip_time v; profit_this_year := profit_this_year v;
     cargo_age_counter := cargo_age_counter v;
     cached_cargo_age_period := cached_cargo_age_period v; motion_counter := x;
     tick_counter := tick_counter v; leads := leads v |}.

(** [vehstatus.Set(s)] and [vehstatus.Reset(s)]. *)
Definition vs_Set (s : VehState) (v : Vehicle) : Vehicle :=
  set_vehstatus (<[s := true]> (vehstatus v)) v.
Definition vs_Reset (s : VehState) (v : Vehicle) : Vehicle :=
  set_vehstatus (<[s := false]> (vehstatus v)) v.

(** Modelled from the spec: [Vehicle::ResetDepotUnbunching] (vehicle_base.h)
    clears the unbunching data: the recorded departure, the departure
    allowed next and the smoothed round trip. *)
Definition ResetDepotUnbunching (v : Vehicle) : Vehicle :=
  set_round_trip_time 0
    (set_depot_unbunching_next_departure 0
       (set_depot_unbunching_last_departure 0 v)).

Definition to_int32 (x : Z) : Z := (x + 2 ^ 31) `mod` 2 ^ 32 - 2 ^ 31.
Definition to_uint64 (x : Z) : Z := x `mod` 2 ^ 64.
Definition to_uint16 (x : Z) : Z := x `mod` 2 ^ 16.
Definition to_uint32 (x : Z) : Z := x `mod` 2 ^ 32.

(** The order of the keys of [_vehicles_to_autoreplace]. *)
Definition key_le (a b : VehicleID * bool) : Prop := (a.1 <= b.1)%nat.
#[global] Instance key_le_dec : RelDecision key_le.
Proof. intros a b. unfold key_le. apply _. Defined.

Section World.

(** Everything the functions below do not look at: order lists, cargo,
    money, caches, windows. *)
Variable Ext : Type.

Record World := {
  vehicles : VehicleID -> Vehicle;      (* the slots of the pool *)
  valid : VehicleID -> bool;            (* Vehicle::IsValidID *)
  pool_size : nat;                      (* Vehicle::GetPoolSize() *)
  _vehicles_to_autoreplace : gmap VehicleID bool;
  _current_company : CompanyID;
  _local_company : CompanyID;
  counter : Z;                          (* TimerGameTick::counter *)
  ext : Ext;
}.

Definition set_vehicle (id : VehicleID) (v : Vehicle) (w : World) : World :=
  {| vehicles := <[id := v]> (vehicles w); valid := valid w; pool_size := pool_size w;
     _vehicles_to_autoreplace := _vehicles_to_autoreplace w;
     _current_company := _current_company w; _local_company := _local_company w;
     counter := counter w; ext := ext w |}.

Definition set_autoreplace (m : gmap VehicleID bool) (w : World) : World :=
  {| vehicles := vehicles w; valid := valid w; pool_size := pool_size w;
     _vehicles_to_autoreplace := m;
     _current_company := _current_company w; _local_company := _local_company w;
     counter := counter w; ext := ext w |}.

Definition set_current_company (c : CompanyID) (w : World) : World :=
  {| vehicles := vehicles w; valid := valid w; pool_size := pool_size w;
     _vehicles_to_autoreplace := _vehicles_to_autoreplace w;
     _current_company := c; _local_company := _local_company w;
     counter := counter w; ext := ext w |}.

Definition set_ext (e : Ext) (w : World) : World :=
  {| vehicles := vehicles w; valid := valid w; pool_size := pool_size w;
     _vehicles_to_autoreplace := _vehicles_to_autoreplace w;
     _current_company := _current_company w; _local_company := _local_company w;
     counter := counter w; ext := e |}.

(** [v->field = x] for the vehicle in slot [id]. *)
Definition update (id : VehicleID) (f : Vehicle -> Vehicle) (w : World) : World :=
  set_vehicle id (f (vehicles w id)) w.

(** What a run leaves for the outside to see. *)
Inductive Event :=
| EvTick (v : VehicleID)                         (* v->Tick() *)
| EvSound (v : VehicleID) (e : SoundEvent)       (* PlayVehicleSound *)
| EvAutoreplace (v : VehicleID) (w : World)      (* the command, run in world w *)
| EvCostAnimation (x y z cost : Z)               (* ShowCostOrIncomeAnimation *)
| EvNews (t : AdviceType) (headline : EncodedString) (v : VehicleID)
| EvAIWaitingInDepot (c : CompanyID) (v : VehicleID).

(** The code reached from [vehicle.cpp] that lives elsewhere.  A command
    and a vehicle's own tick may change the whole world; the rest only
    touches what [Ext] stands for. *)
Class Collaborators := {
  Tick : VehicleID -> World -> bool * World;
  (* RunEconomyVehicleDayProc and LoadUnloadStation for every station *)
  before_vehicles : World -> World;
  AgeCargo : VehicleID -> Ext -> Ext;
  engine_renew_money : CompanyID -> Ext -> Z;
  SubtractMoneyFromCompany : Z -> World -> Ext;
  Do_CMD_AUTOREPLACE_VEHICLE : VehicleID -> World -> CommandCost * World;
  Do_CMD_REFIT_VEHICLE : VehicleID -> Z -> World -> CommandCost * Ext;
  (* the switch on the vehicle type at the start of VehicleEnterDepot *)
  enter_depot_by_type : VehicleID -> World -> Ext;
  VehicleServiceInDepot : VehicleID -> World -> Ext;
  TriggerVehicleRandomisation : VehicleID -> World -> Ext;
  (* v->GetOrder(v->cur_real_order_index) *)
  GetRealOrder : VehicleID -> World -> option Order;
  GetStationIndex : Z -> World -> Z;
  (* DeleteUnreachedImplicitOrders, UpdateVehicleTimetable,
     IncrementImplicitOrderIndex *)
  advance_orders : VehicleID -> World -> Ext;
}.

Context `{Collaborators}.

(** The slot capacity of the pool. *)
Variable MAX_SIZE : nat.

(** *** Entering a depot *)

Definition VehicleEnteredDepotThisTick (v : VehicleID) (w : World) : World :=
  (* Vehicle should stop in the depot if it was in 'stopping' state *)
  let w := set_autoreplace
             (<[v := negb (vehstatus (vehicles w v) Stopped)]>
                (_vehicles_to_autoreplace w)) w in
  (* We ALWAYS set the stopped state. *)
  update v (vs_Set Stopped) w.

(** "We are heading for another depot, keep driving." *)
Definition heading_elsewhere (v : VehicleID) (w : World) : bool :=
  let r := vehicles w v in
  part_of_orders (current_order r) &&
  match GetRealOrder v w with
  | Some real_order => negb (nearest_depot real_order)
  | None => false
  end &&
  (if decide (type r = VEH_AIRCRAFT)
   then negb (GetDestination (current_order r) =? GetStationIndex (tile r) w)
   else negb (dest_tile r =? tile r)).

(** The refit requested by the order. *)
Definition refit_in_depot (v : VehicleID) (w : World) : list Event * World :=
  let r := vehicles w v in
  (* Backup<CompanyID> cur_company(_current_company, v->owner) *)
  let saved := _current_company w in
  let w := set_current_company (owner r) w in
  let '(cost, e) := Do_CMD_REFIT_VEHICLE v (GetRefitCargo (current_order r)) w in
  let w := set_ext e w in
  let w := set_current_company saved w in
  if Failed cost then
    let w := set_autoreplace (<[v := false]> (_vehicles_to_autoreplace w)) w in
    (if decide (owner r = _local_company w)
     then [EvNews RefitFailed
             {| es_string := STR_NEWS_ORDER_REFIT_FAILED; es_vehicle := v;
                es_reason := None |} v]
     else [], w)
  else if negb (GetCost cost =? 0) then
    let w := update v (fun r => set_profit_this_year
                                  (profit_this_year r - Z.shiftl (GetCost cost) 8) r) w in
    (if decide (owner r = _local_company w)
     then [EvCostAnimation (x_pos r) (y_pos r) (z_pos r) (GetCost cost)]
     else [], w)
  else ([], w).

(** The order tells the vehicle to stay in the depot. *)
Definition halt_in_depot (v : VehicleID) (w : World) : list Event * World :=
  let r := vehicles w v in
  (* Vehicles are always stopped on entering depots. Do not restart this one. *)
  let w := set_autoreplace (<[v := false]> (_vehicles_to_autoreplace w)) w in
  let w := update v (set_last_loading_station StationID_Invalid) w in
  (* Clear unbunching data. *)
  let w := update v ResetDepotUnbunching w in
  ((if decide (owner r = _local_company w)
    then [EvNews VehicleWaiting
            {| es_string := STR_NEWS_TRAIN_IS_WAITING_plus (type r); es_vehicle := v;
               es_reason := None |} v]
    else []) ++ [EvAIWaitingInDepot (owner r) v], w).

(** "If we've entered our unbunching depot, record the round trip duration." *)
Definition record_round_trip (v : VehicleID) (w : World) : World :=
  let r := vehicles w v in
  if unbunch (current_order r) && (0 <? depot_unbunching_last_departure r) then
    let measured_round_trip :=
      to_int32 (to_uint64 (counter w - depot_unbunching_last_departure r)) in
    if round_trip_time r =? 0 then
      (* This might be our first round trip. *)
      update v (set_round_trip_time measured_round_trip) w
    else
      update v (set_round_trip_time
                  (Clamp measured_round_trip (Z.quot (round_trip_time r) 2)
                     (ClampTo_int32 (to_int32 (round_trip_time r * 2))))) w
  else w.

(** The start of [VehicleEnterDepot], up to the randomisation trigger:
    the vehicle is hidden, halted, serviced and noted in the map. *)
Definition arrive (v : VehicleID) (w : World) : World :=
  let w := set_ext (enter_depot_by_type v w) w in
  let w := update v (vs_Set Hidden) w in
  let w := update v (set_cur_speed 0) w in
  let w := set_ext (VehicleServiceInDepot v w) w in
  (* Store that the vehicle entered a depot this tick *)
  let w := VehicleEnteredDepotThisTick v w in
  set_ext (TriggerVehicleRandomisation v w) w.

(** What is done for a depot order at the depot it names. *)
Definition serve_depot_order (v : VehicleID) (w : World) : list Event * World :=
  let '(tr1, w) :=
    if IsRefit (current_order (vehicles w v)) then refit_in_depot v w
    else ([], w) in
  let w := if part_of_orders (current_order (vehicles w v))
           then set_ext (advance_orders v w) w else w in
  let '(tr2, w) :=
    if halt (current_order (vehicles w v)) then halt_in_depot v w
    else ([], w) in
  let w := record_round_trip v w in
  let w := update v (fun r => set_current_order (MakeDummy (current_order r)) r) w in
  (tr1 ++ tr2, w).

(** [VehicleEnterDepot]; [None] is the failed assertion or [NOT_REACHED]. *)
Definition VehicleEnterDepot (v : VehicleID) (w : World)
  : option (list Event * World) :=
  (* Always work with the front of the vehicle *)
  if negb (bool_decide (first (vehicles w v) = v)) then None
  else if negb (bool_decide (type (vehicles w v) ∈
                  [VEH_TRAIN; VEH_ROAD; VEH_SHIP; VEH_AIRCRAFT])) then None
  else
    let w := arrive v w in
    if bool_decide (order_type (current_order (vehicles w v)) = OT_GOTO_DEPOT) then
      if heading_elsewhere v w then Some ([], w)
      else Some (serve_depot_order v w)
    else Some ([], w).

(** *** One tick of every vehicle *)

(** What follows a successful [Tick] of a train, road vehicle, aircraft or
    ship: cargo ageing and the sounds. *)
Definition after_tick (v : VehicleID) (w : World) : list Event * World :=
  let r := vehicles w v in
  if negb (bool_decide (type r ∈ [VEH_TRAIN; VEH_ROAD; VEH_AIRCRAFT; VEH_SHIP]))
  then ([], w)
  else
    let front := first r in
    let w :=
      if negb (cached_cargo_age_period r =? 0) then
        let c := Z.min (cargo_age_counter r) (cached_cargo_age_period r) in
        let c := to_uint16 (c - 1) in
        if c =? 0 then
          update v (set_cargo_age_counter (cached_cargo_age_period r))
            (set_ext (AgeCargo v (ext w)) w)
        else update v (set_cargo_age_counter c) w
      else w in
    let f := vehicles w front in
    (* Do not play any sound when crashed *)
    if vehstatus f Crashed then ([], w)
    (* Do not play any sound when in depot or tunnel *)
    else if vehstatus (vehicles w v) Hidden then ([], w)
    (* Do not play any sound when stopped *)
    else if vehstatus f Stopped &&
            (negb (bool_decide (type f = VEH_TRAIN)) || (cur_speed f =? 0))
    then ([], w)
    else
      (* Update motion counter for animation purposes. *)
      let w := update v (fun r => set_motion_counter
                                    (to_uint32 (motion_counter r + cur_speed f)) r) w in
      let r := vehicles w v in
      let f := vehicles w front in
      if bool_decide (type r ∈ [VEH_TRAIN; VEH_ROAD; VEH_AIRCRAFT]) && negb (leads r)
      then ([], w)
      else
        ((if GB (motion_counter r) 0 8 <? cur_speed f then [EvSound v VSE_RUNNING] else [])
         ++
         (if GB (tick_counter r) 0 4 =? 0 then
            let running := (0 <? cur_speed f) &&
                           negb (vehstatus f Stopped || vehstatus f TrainSlowing) in
            [EvSound v (if running then VSE_RUNNING_16 else VSE_STOPPED_16)]
          else []), w).



(** *** The autoreplace pass *)

(** The entries of the map in the order of a loop over it. *)
Definition entries (m : gmap VehicleID bool) : list (VehicleID * bool) :=
  merge_sort key_le (map_to_list m).

Definition IsLocalCompany (w : World) : bool :=
  bool_decide (_local_company w = _current_company w).

(** What the player is told about the outcome of the command. *)
Definition report (v : VehicleID) (x y z : Z) (res : CommandCost) : list Event :=
  if Succeeded res then [EvCostAnimation x y z (GetCost res)]
  else
    let error_message := GetErrorMessage res in
    if bool_decide (error_message = STR_ERROR_AUTOREPLACE_NOTHING_TO_DO \/
                    error_message = INVALID_STRING_ID) then []
    else
      let error_message :=
        if decide (error_message = STR_ERROR_NOT_ENOUGH_CASH_REQUIRES_CURRENCY)
        then STR_ERROR_AUTOREPLACE_MONEY_LIMIT else error_message in
      let headline :=
        if decide (error_message = STR_ERROR_TRAIN_TOO_LONG_AFTER_REPLACEMENT)
        then {| es_string := error_message; es_vehicle := v; es_reason := None |}
        else {| es_string := STR_NEWS_VEHICLE_AUTORENEW_FAILED; es_vehicle := v;
                es_reason := Some error_message |} in
      [EvNews AutorenewFailed headline v].

(** The world in which the command for an entry runs. *)
Definition prepare (it : VehicleID * bool) (w : World) : World :=
  (* Autoreplace needs the current company set as the vehicle owner *)
  let w := set_current_company (owner (vehicles w it.1)) w in
  (* Start vehicle if we stopped them in VehicleEnteredDepotThisTick() *)
  let w := if it.2 then update it.1 (vs_Reset Stopped) w else w in
  set_ext (SubtractMoneyFromCompany
             (engine_renew_money (_current_company w) (ext w)) w) w.

(** The body of the loop over [_vehicles_to_autoreplace]. *)
Definition autoreplace_vehicle (it : VehicleID * bool) (w : World)
  : list Event * World :=
  let w0 := prepare it w in
  let r := vehicles w0 it.1 in
  (* Store the position of the effect as the vehicle pointer will become invalid later *)
  let '(x, y, z) := (x_pos r, y_pos r, z_pos r) in
  let c := _current_company w0 in
  let '(res, w) := Do_CMD_AUTOREPLACE_VEHICLE it.1 w0 in
  let w := set_ext (SubtractMoneyFromCompany (- engine_renew_money c (ext w)) w) w in
  (EvAutoreplace it.1 w0 :: (if IsLocalCompany w then report it.1 x y z res else []), w).

Fixpoint autoreplace_loop (its : list (VehicleID * bool)) (w : World)
  : list Event * World :=
  match its with
  | [] => ([], w)
  | it :: its =>
      let '(tr, w) := autoreplace_vehicle it w in
      let '(tr', w) := autoreplace_loop its w in
      (tr ++ tr', w)
  end.

Definition autoreplace_pass (w : World) : list Event * World :=
  (* Backup<CompanyID> cur_company(_current_company) *)
  let saved := _current_company w in
  let '(tr, w) := autoreplace_loop (entries (_vehicles_to_autoreplace w)) w in
  (* cur_company.Restore() *)
  (tr, set_current_company saved w).


(** *** Depot entry: what it leaves *)

Lemma vehicles_update_same id f w : vehicles (update id f w) id = f (vehicles w id).
Proof. unfold update. simpl. apply fn_lookup_insert. Qed.

Lemma vehicles_update_other id f w j :
  j <> id -> vehicles (update id f w) j = vehicles w j.
Proof. intros Hj. unfold update. simpl. by apply fn_lookup_insert_ne. Qed.

(** The vehicle in slot [v] after arriving. *)
Definition arrived (r : Vehicle) : Vehicle :=
  vs_Set Stopped (set_cur_speed 0 (vs_Set Hidden r)).

Lemma arrive_spec v w :
  let w' := arrive v w in
  vehicles w' v = arrived (vehicles w v) /\
  (forall j, j <> v -> vehicles w' j = vehicles w j) /\
  _vehicles_to_autoreplace w'
    = <[v := negb (vehstatus (vehicles w v) Stopped)]> (_vehicles_to_autoreplace w) /\
  _current_company w' = _current_company w /\
  _local_company w' = _local_company w /\
  counter w' = counter w.
Proof.
  unfold arrive, VehicleEnteredDepotThisTick, arrived. cbn -[update].
  repeat split.
  - unfold update. cbn. rewrite !fn_lookup_insert. done.
  - intros j Hj. unfold update. cbn. by rewrite !fn_lookup_insert_ne.
  - unfold update. cbn. rewrite !fn_lookup_insert. cbn.
    rewrite ?fn_lookup_insert_ne by done. done.
Qed.

(** The refit fails: the cost that [Do] returns. *)
Definition refit_cost (v : VehicleID) (w : World) : CommandCost :=
  (Do_CMD_REFIT_VEHICLE v (GetRefitCargo (current_order (vehicles w v)))
     (set_current_company (owner (vehicles w v)) w)).1.

(** The restart noted in the map is cancelled. *)
Definition cancelled (v : VehicleID) (w : World) : bool :=
  let o := current_order (vehicles w v) in
  (IsRefit o && Failed (refit_cost v w)) || halt o.

Lemma refit_in_depot_spec v w :
  let r := vehicles w v in
  let '(tr, w') := refit_in_depot v w in
  (exists p, vehicles w' v = set_profit_this_year p r) /\
  (forall j, j <> v -> vehicles w' j = vehicles w j) /\
  _vehicles_to_autoreplace w'
    = (if Failed (refit_cost v w) then <[v := false]> (_vehicles_to_autoreplace w)
       else _vehicles_to_autoreplace w) /\
  _current_company w' = _current_company w /\
  _local_company w' = _local_company w /\
  counter w' = counter w /\
  (Failed (refit_cost v w) = true ->
     tr = if decide (owner r = _local_company w)
          then [EvNews RefitFailed
                  {| es_string := STR_NEWS_ORDER_REFIT_FAILED; es_vehicle := v;
                     es_reason := None |} v]
          else []).
Proof.
  unfold refit_in_depot, refit_cost.
  destruct (Do_CMD_REFIT_VEHICLE v _ _) as [cost e]. cbn -[update].
  destruct (Failed cost) eqn:Hf; cbn -[update].
  - split. { exists (profit_this_year (vehicles w v)). by destruct (vehicles w v). }
    repeat split; done.
  - destruct (GetCost cost =? 0); cbn -[update].
    + split. { exists (profit_this_year (vehicles w v)). by destruct (vehicles w v). }
      repeat split; done.
    + split. { eexists. by rewrite vehicles_update_same. }
      split. { intros j Hj. by rewrite vehicles_update_other. }
      repeat split; done.
Qed.

Lemma halt_in_depot_spec v w :
  let r := vehicles w v in
  let '(tr, w') := halt_in_depot v w in
  vehicles w' v = ResetDepotUnbunching (set_last_loading_station StationID_Invalid r) /\
  (forall j, j <> v -> vehicles w' j = vehicles w j) /\
  _vehicles_to_autoreplace w' = <[v := false]> (_vehicles_to_autoreplace w) /\
  _current_company w' = _current_company w /\
  _local_company w' = _local_company w /\
  counter w' = counter w.
Proof.
  unfold halt_in_depot. cbn -[update ResetDepotUnbunching].
  split. { by rewrite !vehicles_update_same. }
  split. { intros j Hj. by rewrite !vehicles_update_other. }
  repeat split; done.
Qed.

Lemma record_round_trip_frame v w :
  let w' := record_round_trip v w in
  (exists t, vehicles w' v = set_round_trip_time t (vehicles w v)) /\
  (forall j, j <> v -> vehicles w' j = vehicles w j) /\
  _vehicles_to_autoreplace w' = _vehicles_to_autoreplace w /\
  _current_company w' = _current_company w /\
  _local_company w' = _local_company w /\
  counter w' = counter w.
Proof.
  unfold record_round_trip.
  destruct (unbunch _ && _); [|].
  - destruct (round_trip_time (vehicles w v) =? 0).
    + split. { eexists. by rewrite vehicles_update_same. }
      split. { intros j Hj. by rewrite vehicles_update_other. }
      repeat split; done.
    + split. { eexists. by rewrite vehicles_update_same. }
      split. { intros j Hj. by rewrite vehicles_update_other. }
      repeat split; done.
  - split. { exists (round_trip_time (vehicles w v)). by destruct (vehicles w v). }
    repeat split; done.
Qed.

(** The round trip time that [record_round_trip] leaves, from the tick
    counter and the vehicle as it was. *)
Definition round_trip_after (cnt : Z) (r : Vehicle) : Z :=
  if unbunch (current_order r) && (0 <? depot_unbunching_last_departure r) then
    let measured_round_trip :=
      to_int32 (to_uint64 (cnt - depot_unbunching_last_departure r)) in
    if round_trip_time r =? 0 then measured_round_trip
    else Clamp measured_round_trip (Z.quot (round_trip_time r) 2)
           (ClampTo_int32 (to_int32 (round_trip_time r * 2)))
  else round_trip_time r.

Lemma record_round_trip_value v w :
  round_trip_time (vehicles (record_round_trip v w) v)
  = round_trip_after (counter w) (vehicles w v).
Proof.
  unfold record_round_trip, round_trip_after.
  destruct (unbunch _ && _); [|done].
  destruct (round_trip_time (vehicles w v) =? 0); by rewrite vehicles_update_same.
Qed.

Lemma serve_depot_order_spec v w :
  let r := vehicles w v in
  let '(tr, w') := serve_depot_order v w in
  vehstatus (vehicles w' v) = vehstatus r /\
  _vehicles_to_autoreplace w'
    = (if cancelled v w then <[v := false]> (_vehicles_to_autoreplace w)
       else _vehicles_to_autoreplace w) /\
  _current_company w' = _current_company w /\
  (halt (current_order r) = false ->
     round_trip_time (vehicles w' v) = round_trip_after (counter w) r) /\
  (IsRefit (current_order r) = true -> Failed (refit_cost v w) = true ->
     exists rest, tr = (if decide (owner r = _local_company w)
                        then [EvNews RefitFailed
                                {| es_string := STR_NEWS_ORDER_REFIT_FAILED;
                                   es_vehicle := v; es_reason := None |} v]
                        else []) ++ rest).
Proof.
  intros r. unfold serve_depot_order, cancelled. fold r.
  (* the refit *)
  assert (H1 : exists tr1 w1,
            (if IsRefit (current_order r) then refit_in_depot v w else ([], w))
            = (tr1, w1) /\
            (exists p, vehicles w1 v = set_profit_this_year p r) /\
            _vehicles_to_autoreplace w1
              = (if IsRefit (current_order r) && Failed (refit_cost v w)
                 then <[v := false]> (_vehicles_to_autoreplace w)
                 else _vehicles_to_autoreplace w) /\
            _current_company w1 = _current_company w /\
            counter w1 = counter w /\
            (IsRefit (current_order r) = true -> Failed (refit_cost v w) = true ->
               tr1 = if decide (owner r = _local_company w)
                     then [EvNews RefitFailed
                             {| es_string := STR_NEWS_ORDER_REFIT_FAILED;
                                es_vehicle := v; es_reason := None |} v]
                     else [])).
  { destruct (IsRefit (current_order r)) eqn:Hrefit.
    - pose proof (refit_in_depot_spec v w) as Hspec.
      destruct (refit_in_depot v w) as [tr1 w1].
      destruct Hspec as (Hv & _ & Hm & Hc & _ & Hcnt & Htr).
      exists tr1, w1. repeat split; done.
    - exists [], w. split; [done|].
      split. { exists (profit_this_year r). subst r. by destruct (vehicles w v). }
      repeat split; done. }
  destruct H1 as (tr1 & w1 & -> & [p Hv1] & Hm1 & Hc1 & Hcnt1 & Htr1).
  rewrite Hv1. cbn [current_order set_profit_this_year].
  (* the order list *)
  set (w2 := if part_of_orders (current_order r)
             then set_ext (advance_orders v w1) w1 else w1).
  assert (H2 : vehicles w2 = vehicles w1 /\
               _vehicles_to_autoreplace w2 = _vehicles_to_autoreplace w1 /\
               _current_company w2 = _current_company w1 /\ counter w2 = counter w1).
  { subst w2. by destruct (part_of_orders (current_order r)). }
  destruct H2 as (Hv2 & Hm2 & Hc2 & Hcnt2).
  rewrite Hv2, Hv1. cbn [current_order set_profit_this_year].
  destruct (halt (current_order r)) eqn:Hhalt.
  - (* told to stay *)
    pose proof (halt_in_depot_spec v w2) as Hspec.
    destruct (halt_in_depot v w2) as [tr2 w3].
    destruct Hspec as (Hv3 & _ & Hm3 & Hc3 & _ & Hcnt3).
    pose proof (record_round_trip_frame v w3) as ([t Hv4] & _ & Hm4 & Hc4 & _).
    rewrite vehicles_update_same, Hv4, Hv3, Hv2, Hv1. cbn.
    rewrite Hm4, Hm3, Hm2, Hm1, Hc4, Hc3, Hc2, Hc1.
    split; [done|]. split.
    { rewrite orb_true_r.
      destruct (IsRefit (current_order r) && Failed (refit_cost v w));
        [by rewrite insert_insert_eq|done]. }
    split; [done|]. split; [done|].
    intros Hr Hf. exists tr2. by rewrite (Htr1 Hr Hf).
  - (* free to leave *)
    pose proof (record_round_trip_frame v w2) as ([t Hv4] & _ & Hm4 & Hc4 & _).
    pose proof (record_round_trip_value v w2) as Hval.
    rewrite vehicles_update_same. rewrite Hv4 in Hval |- *.
    rewrite Hv2, Hv1 in Hval |- *. cbn in Hval |- *.
    rewrite Hm4, Hm2, Hm1, Hc4, Hc2, Hc1, orb_false_r.
    split; [done|]. split; [done|]. split; [done|]. split.
    + intros _. rewrite Hval, Hcnt2, Hcnt1. done.
    + intros Hr Hf. exists []. rewrite !app_nil_r. by apply Htr1.
Qed.

(** [VehicleEnterDepot] as a whole. *)
Lemma VehicleEnterDepot_spec v w :
  first (vehicles w v) = v ->
  type (vehicles w v) ∈ [VEH_TRAIN; VEH_ROAD; VEH_SHIP; VEH_AIRCRAFT] ->
  let r := vehicles w v in
  let wa := arrive v w in
  let served := bool_decide (order_type (current_order r) = OT_GOTO_DEPOT) &&
                negb (heading_elsewhere v wa) in
  exists tr w',
    VehicleEnterDepot v w = Some (tr, w') /\
    vehstatus (vehicles w' v) Stopped = true /\
    _vehicles_to_autoreplace w' !! v
      = Some (negb (vehstatus r Stopped) && negb (served && cancelled v wa)) /\
    _current_company w' = _current_company w /\
    round_trip_time (vehicles w' v)
      = (if served then
           if halt (current_order r) then round_trip_time (vehicles w' v)
           else round_trip_after (counter w) r
         else round_trip_time r) /\
    (served = true -> IsRefit (current_order r) = true ->
     Failed (refit_cost v wa) = true ->
       exists rest, tr = (if decide (owner r = _local_company w)
                          then [EvNews RefitFailed
                                  {| es_string := STR_NEWS_ORDER_REFIT_FAILED;
                                     es_vehicle := v; es_reason := None |} v]
                          else []) ++ rest).
Proof.
  intros Hfirst Htype r wa served. unfold VehicleEnterDepot.
  rewrite (bool_decide_eq_true_2 _ Hfirst), (bool_decide_eq_true_2 _ Htype).
  cbn [negb]. fold wa.
  destruct (arrive_spec v w) as (Hva & _ & Hma & Hca & Hla & Hcnta).
  fold wa in Hva, Hma, Hca, Hla, Hcnta. fold r in Hva, Hma.
  assert (Hoa : current_order (vehicles wa v) = current_order r) by (by rewrite Hva).
  assert (Hsa : vehstatus (vehicles wa v) Stopped = true).
  { rewrite Hva. unfold arrived, vs_Set. cbn. apply fn_lookup_insert. }
  assert (Hra : forall cnt, round_trip_after cnt (vehicles wa v) = round_trip_after cnt r).
  { intros cnt. by rewrite Hva. }
  rewrite Hoa. subst served.
  destruct (bool_decide (order_type (current_order r) = OT_GOTO_DEPOT)); cbn [andb].
  2:{ exists [], wa. split; [done|]. split; [done|]. split.
      { rewrite Hma, lookup_insert_eq, andb_true_r. done. }
      split; [done|]. split; [by rewrite Hva|]. done. }
  destruct (heading_elsewhere v wa); cbn [negb andb].
  { exists [], wa. split; [done|]. split; [done|]. split.
    { rewrite Hma, lookup_insert_eq, andb_true_r. done. }
    split; [done|]. split; [by rewrite Hva|]. done. }
  pose proof (serve_depot_order_spec v wa) as Hspec.
  destruct (serve_depot_order v wa) as [tr w'].
  destruct Hspec as (Hvs & Hm & Hc & Hrt & Htr).
  exists tr, w'. split; [done|].
  split. { by rewrite Hvs. }
  split.
  { rewrite Hm. destruct (cancelled v wa).
    - rewrite lookup_insert_eq, andb_false_r. done.
    - rewrite Hma, lookup_insert_eq, andb_true_r. done. }
  split; [by rewrite Hc|]. split.
  { rewrite Hoa in Hrt. destruct (halt (current_order r)); [done|].
    rewrite Hrt by done. rewrite Hra, Hcnta. done. }
  intros _ Hr Hf. rewrite Hoa in Htr. rewrite Hva in Htr.
  destruct (Htr Hr Hf) as [rest ->]. exists rest. rewrite Hla. done.
Qed.

(** *** Reading a trace *)

(** The vehicles ticked, and the commands run with their worlds, in order. *)
Definition ticks (tr : list Event) : list VehicleID :=
  omap (fun e => match e with EvTick v => Some v | _ => None end) tr.
Definition commands (tr : list Event) : list (VehicleID * World) :=
  omap (fun e => match e with EvAutoreplace v w => Some (v, w) | _ => None end) tr.
Definition news (tr : list Event) : list (AdviceType * EncodedString * VehicleID) :=
  omap (fun e => match e with EvNews t h v => Some (t, h, v) | _ => None end) tr.

Arguments ticks : simpl never.
Arguments commands : simpl never.
Arguments news : simpl never.

Lemma ticks_app tr1 tr2 : ticks (tr1 ++ tr2) = ticks tr1 ++ ticks tr2.
Proof. apply omap_app. Qed.
Lemma commands_app tr1 tr2 : commands (tr1 ++ tr2) = commands tr1 ++ commands tr2.
Proof. apply omap_app. Qed.

(** *** The loop over the pool *)









(** *** The autoreplace pass *)

Lemma prepare_spec it w :
  let wc := prepare it w in
  _current_company wc = owner (vehicles wc it.1) /\
  owner (vehicles wc it.1) = owner (vehicles w it.1) /\
  vehstatus (vehicles wc it.1) Stopped
    = vehstatus (vehicles w it.1) Stopped && negb it.2 /\
  (forall s, s <> Stopped ->
     vehstatus (vehicles wc it.1) s = vehstatus (vehicles w it.1) s) /\
  (forall j, j <> it.1 -> vehicles wc j = vehicles w j).
Proof.
  unfold prepare, update. destruct it as [id b]. destruct b; cbn.
  - rewrite !fn_lookup_insert. cbn. rewrite fn_lookup_insert.
    split; [done|]. split; [done|]. split; [by rewrite andb_false_r|].
    split; [intros s Hs; by rewrite fn_lookup_insert_ne|].
    intros j Hj. by rewrite fn_lookup_insert_ne.
  - split; [done|]. split; [done|]. split; [by rewrite andb_true_r|]. done.
Qed.

Lemma report_trace v x y z res :
  ticks (report v x y z res) = [] /\ commands (report v x y z res) = [].
Proof.
  unfold report. destruct (Succeeded res); [done|].
  case_bool_decide; [done|]. done.
Qed.

Lemma autoreplace_vehicle_trace it w :
  ticks (autoreplace_vehicle it w).1 = [] /\
  commands (autoreplace_vehicle it w).1 = [(it.1, prepare it w)].
Proof.
  unfold autoreplace_vehicle.
  destruct (Do_CMD_AUTOREPLACE_VEHICLE it.1 (prepare it w)) as [res w1]. cbn.
  destruct (IsLocalCompany _); [|done].
  destruct (report_trace it.1 (x_pos (vehicles (prepare it w) it.1))
              (y_pos (vehicles (prepare it w) it.1))
              (z_pos (vehicles (prepare it w) it.1)) res) as [Ht Hc].
  change (ticks (EvAutoreplace it.1 (prepare it w) ::
                   report it.1 (x_pos (vehicles (prepare it w) it.1))
                     (y_pos (vehicles (prepare it w) it.1))
                     (z_pos (vehicles (prepare it w) it.1)) res) = [] /\
          commands (EvAutoreplace it.1 (prepare it w) ::
                   report it.1 (x_pos (vehicles (prepare it w) it.1))
                     (y_pos (vehicles (prepare it w) it.1))
                     (z_pos (vehicles (prepare it w) it.1)) res)
          = [(it.1, prepare it w)]).
  unfold ticks, commands in *. cbn [omap list_omap]. by rewrite Ht, Hc.
Qed.

(** Every entry gets its command, whatever the earlier commands returned. *)
Lemma autoreplace_loop_trace its : forall w,
  ticks (autoreplace_loop its w).1 = [] /\
  (commands (autoreplace_loop its w).1).*1 = its.*1 /\
  forall id wc, (id, wc) ∈ commands (autoreplace_loop its w).1 ->
    exists b w0, (id, b) ∈ its /\ wc = prepare (id, b) w0.
Proof.
  induction its as [|it its IH]; intros w; cbn [autoreplace_loop].
  - split; [done|]. split; [done|]. intros id wc H0. inversion H0.
  - pose proof (autoreplace_vehicle_trace it w) as [Ht Hc].
    destruct (autoreplace_vehicle it w) as [tr w1].
    destruct (IH w1) as (Ht' & Hc' & Hin).
    destruct (autoreplace_loop its w1) as [tr' w2]. cbn in *.
    rewrite ticks_app, commands_app, Ht, Ht', Hc. cbn.
    split; [done|]. split; [by rewrite Hc'|].
    intros id wc [Heq|Hrest]%elem_of_cons.
    + injection Heq as -> ->. exists it.2, w. split; [|by destruct it].
      destruct it. left.
    + destruct (Hin id wc Hrest) as (b & w0 & Hb & ->).
      exists b, w0. split; [by right|done].
Qed.

Lemma entries_lookup m id b : (id, b) ∈ entries m <-> m !! id = Some b.
Proof.
  unfold entries. rewrite merge_sort_Permutation. apply elem_of_map_to_list.
Qed.

Lemma entries_NoDup m : NoDup (entries m).*1.
Proof.
  unfold entries. rewrite merge_sort_Permutation. apply NoDup_fst_map_to_list.
Qed.

Lemma autoreplace_pass_spec w :
  let m := _vehicles_to_autoreplace w in
  ticks (autoreplace_pass w).1 = [] /\
  (commands (autoreplace_pass w).1).*1 = (entries m).*1 /\
  (forall id wc, (id, wc) ∈ commands (autoreplace_pass w).1 ->
     exists b w0, m !! id = Some b /\ wc = prepare (id, b) w0) /\
  _current_company (autoreplace_pass w).2 = _current_company w.
Proof.
  intros m. unfold autoreplace_pass. fold m.
  destruct (autoreplace_loop_trace (entries m) w) as (Ht & Hc & Hin).
  destruct (autoreplace_loop (entries m) w) as [tr w1]. cbn in *.
  split; [done|]. split; [done|]. split; [|done].
  intros id wc Hx. destruct (Hin id wc Hx) as (b & w0 & Hb & ->).
  exists b, w0. split; [by apply entries_lookup|done].
Qed.

(** *** The worlds of a run *)



(** The world that the body of the loop over the map leaves when the
    command for [v] runs in [wc]: that of the command, with the money that
    was set aside for it given back. *)
Definition commanded (v : VehicleID) (wc : World) : World :=
  let w := (Do_CMD_AUTOREPLACE_VEHICLE v wc).2 in
  set_ext (SubtractMoneyFromCompany
             (- engine_renew_money (_current_company wc) (ext w)) w) w.

(** The world in which the loop over the map comes to its [i]-th entry,
    when [runs] lists the commands run, in order, each with the world in
    which it ran, and the loop starts in [w]. *)
Fixpoint world_before (runs : list (VehicleID * World)) (w : World) (i : nat) : World :=
  match i, runs with
  | S k, r :: rest => world_before rest (commanded r.1 r.2) k
  | _, _ => w
  end.


Lemma autoreplace_vehicle_world it w :
  (autoreplace_vehicle it w).2 = commanded it.1 (prepare it w).
Proof.
  unfold autoreplace_vehicle, commanded.
  by destruct (Do_CMD_AUTOREPLACE_VEHICLE it.1 (prepare it w)).
Qed.


(** The loop over the map, entry by entry. *)
Lemma autoreplace_loop_run its : forall w,
  let runs := commands (autoreplace_loop its w).1 in
  length runs = length its /\
  (forall i it, its !! i = Some it ->
     runs !! i = Some (it.1, prepare it (world_before runs w i))) /\
  (autoreplace_loop its w).2 = world_before runs w (length runs).
Proof.
  induction its as [|it its IH]; intros w; cbn [autoreplace_loop].
  { split; [done|]. split; [|done]. intros i x Hx. by rewrite lookup_nil in Hx. }
  pose proof (autoreplace_vehicle_trace it w) as [_ Hc].
  pose proof (autoreplace_vehicle_world it w) as Hw.
  destruct (autoreplace_vehicle it w) as [tr w1]. cbn in Hc, Hw. subst w1.
  specialize (IH (commanded it.1 (prepare it w))). cbv zeta in IH.
  destruct (autoreplace_loop its (commanded it.1 (prepare it w))) as [tr' w2].
  cbn [fst snd] in *. destruct IH as (Hlen & Hat & Hend).
  rewrite commands_app, Hc. cbn [app length].
  split; [by rewrite Hlen|].
  split.
  - intros [|i] x Hx.
    + cbn in Hx. injection Hx as <-. done.
    + cbn in Hx. cbn [lookup list_lookup world_before fst snd].
      by apply Hat.
  - cbn [world_before fst snd]. exact Hend.
Qed.

Lemma autoreplace_pass_run w :
  let m := _vehicles_to_autoreplace w in
  let pass := autoreplace_pass w in
  let runs := commands pass.1 in
  ticks pass.1 = [] /\
  runs.*1 = (entries m).*1 /\
  (forall i id wc, runs !! i = Some (id, wc) ->
     exists b, m !! id = Some b /\ wc = prepare (id, b) (world_before runs w i)) /\
  pass.2 = set_current_company (_current_company w) (world_before runs w (length runs)).
Proof.
  intros m pass runs. unfold runs, pass, autoreplace_pass. fold m.
  pose proof (autoreplace_loop_trace (entries m) w) as (Ht & Hk & _).
  pose proof (autoreplace_loop_run (entries m) w) as (Hlen & Hat & Hend).
  cbv zeta in Hlen, Hat, Hend.
  destruct (autoreplace_loop (entries m) w) as [tr w1]. cbn [fst snd] in *.
  split; [done|]. split; [done|]. split; [|by rewrite Hend].
  intros i id wc Hi.
  assert (Hlt : (i < length (entries m))%nat).
  { rewrite <- Hlen. by apply lookup_lt_Some in Hi. }
  destruct (lookup_lt_is_Some_2 _ _ Hlt) as [[id' b] Hit].
  rewrite (Hat i _ Hit) in Hi. cbn in Hi. injection Hi as <- <-.
  exists b. split; [|done]. apply entries_lookup. by eapply list_elem_of_lookup_2.
Qed.

(** When the commands change no vehicle, the pass clears [Stopped] of the
    vehicles whose entry is true and leaves every other flag. *)
Lemma autoreplace_loop_stopped its : forall w,
  (forall id w2, vehicles (Do_CMD_AUTOREPLACE_VEHICLE id w2).2 = vehicles w2) ->
  forall j,
    vehstatus (vehicles (autoreplace_loop its w).2 j) Stopped
      = vehstatus (vehicles w j) Stopped && negb (bool_decide ((j, true) ∈ its)) /\
    forall s, s <> Stopped ->
      vehstatus (vehicles (autoreplace_loop its w).2 j) s = vehstatus (vehicles w j) s.
Proof.
  induction its as [|it its IH]; intros w Hframe j; cbn [autoreplace_loop].
  { rewrite bool_decide_eq_false_2 by apply not_elem_of_nil.
    by rewrite andb_true_r. }
  pose proof (autoreplace_vehicle_world it w) as Hw.
  destruct (autoreplace_vehicle it w) as [tr w1]. cbn in Hw. subst w1.
  destruct (IH (commanded it.1 (prepare it w)) Hframe j) as [Hs Ho].
  destruct (autoreplace_loop its (commanded it.1 (prepare it w))) as [tr' w2].
  cbn [snd] in *.
  assert (Hv : vehicles (commanded it.1 (prepare it w)) = vehicles (prepare it w)).
  { unfold commanded, set_ext. cbn [vehicles]. apply Hframe. }
  rewrite Hv in Hs, Ho.
  destruct (prepare_spec it w) as (_ & _ & Hstop & Hflags & Hothers).
  cbv zeta in Hstop, Hflags, Hothers.
  destruct it as [id b]. cbn [fst snd] in *.
  destruct (decide (j = id)) as [->|Hne].
  - split.
    + rewrite Hs, Hstop, <- andb_assoc. f_equal.
      destruct b.
      * rewrite (bool_decide_eq_true_2 ((id, true) ∈ (id, true) :: its)) by left. done.
      * cbn [negb andb]. f_equal. apply bool_decide_ext.
        rewrite elem_of_cons. split; [tauto|]. intros [[=]|?]; done.
    + intros s Hne. rewrite Ho, Hflags by done. done.
  - rewrite (Hothers j Hne) in Hs, Ho. split; [|done].
    rewrite Hs. do 2 f_equal. apply bool_decide_ext.
    rewrite elem_of_cons. split; [tauto|]. intros [[=]|?]; [congruence|done].
Qed.

(** *** Order, reports and the Stopped flag *)


(** C10: a vehicle for which [VehicleEnterDepot] completes ends with
    [Stopped] set, whatever its order, and [VehicleEnteredDepotThisTick]
    writes "was not Stopped" as its entry in [_vehicles_to_autoreplace]; at
    the end of [VehicleEnterDepot] the entry is that value unless a failed
    refit or a halt order of a served depot order has lowered it to false.
    At the end of the tick every entry of the map gets one command; in the
    world in which the command runs [Stopped] of the vehicle is cleared
    exactly when the value of the entry is true: a false entry leaves the
    flag as it was before the entry was reached, and no other flag and no
    other vehicle is touched.  The pass returns the world that the last
    command left; when the commands change no vehicle, [Stopped] is clear
    after the pass for exactly the vehicles with a true entry, every other
    vehicle keeps it, and every other flag is as before the pass. *)
Theorem Stopped_between_entry_and_autoreplace v w :
  first (vehicles w v) = v ->
  type (vehicles w v) ∈ [VEH_TRAIN; VEH_ROAD; VEH_SHIP; VEH_AIRCRAFT] ->
  let r := vehicles w v in
  let moving := negb (vehstatus r Stopped) in
  let served := bool_decide (order_type (current_order r) = OT_GOTO_DEPOT) &&
                negb (heading_elsewhere v (arrive v w)) in
  (vehstatus (vehicles (VehicleEnteredDepotThisTick v w) v) Stopped = true /\
   _vehicles_to_autoreplace (VehicleEnteredDepotThisTick v w) !! v = Some moving) /\
  (exists tr w',
     VehicleEnterDepot v w = Some (tr, w') /\
     vehstatus (vehicles w' v) Stopped = true /\
     _vehicles_to_autoreplace w' !! v
       = Some (moving && negb (served && cancelled v (arrive v w)))) /\
  (forall w1,
     let m := _vehicles_to_autoreplace w1 in
     let pass := autoreplace_pass w1 in
     let runs := commands pass.1 in
     runs.*1 = (entries m).*1 /\
     NoDup (entries m).*1 /\
     (forall id b, (id, b) ∈ entries m <-> m !! id = Some b) /\
     (forall i id wc, runs !! i = Some (id, wc) ->
        exists b, m !! id = Some b /\
          let wp := world_before runs w1 i in
          vehstatus (vehicles wc id) Stopped
            = vehstatus (vehicles wp id) Stopped && negb b /\
          (forall s, s <> Stopped ->
             vehstatus (vehicles wc id) s = vehstatus (vehicles wp id) s) /\
          (forall j, j <> id -> vehicles wc j = vehicles wp j)) /\
     pass.2 = set_current_company (_current_company w1)
                (world_before runs w1 (length runs)) /\
     ((forall id w2, vehicles (Do_CMD_AUTOREPLACE_VEHICLE id w2).2 = vehicles w2) ->
      forall j,
        vehstatus (vehicles pass.2 j) Stopped
          = vehstatus (vehicles w1 j) Stopped && negb (bool_decide (m !! j = Some true)) /\
        forall s, s <> Stopped ->
          vehstatus (vehicles pass.2 j) s = vehstatus (vehicles w1 j) s)).
Proof.
  intros Hfirst Htype r moving served.
  split.
  { unfold VehicleEnteredDepotThisTick. rewrite vehicles_update_same. cbn.
    rewrite fn_lookup_insert. split; [done|].
    unfold update. cbn. by rewrite lookup_insert_eq. }
  split.
  { destruct (VehicleEnterDepot_spec v w Hfirst Htype)
      as (tr & w' & Hrun & Hstop & Hmap & _).
    exists tr, w'. done. }
  intros w1 m pass runs.
  destruct (autoreplace_pass_run w1) as (_ & Hk & Hin & Hend).
  fold m in Hk, Hin. fold pass in Hk, Hin, Hend. fold runs in Hk, Hin, Hend.
  split; [done|]. split; [apply entries_NoDup|].
  split; [apply entries_lookup|].
  split.
  { intros i id wc Hi. destruct (Hin i id wc Hi) as (b & Hb & ->).
    exists b. split; [done|]. intros wp.
    destruct (prepare_spec (id, b) wp) as (_ & _ & Hs & Ho & Hj). done. }
  split; [done|].
  intros Hframe j.
  destruct (autoreplace_loop_stopped (entries m) w1 Hframe j) as [Hs Ho].
  assert (Hv : vehicles pass.2 = vehicles (autoreplace_loop (entries m) w1).2).
  { unfold pass, autoreplace_pass. fold m.
    by destruct (autoreplace_loop (entries m) w1). }
  rewrite Hv. split; [|done].
  rewrite Hs. do 2 f_equal. apply bool_decide_ext. apply entries_lookup.
Qed.

Lemma Clamp_ordered a lo hi : lo <= hi -> Clamp a lo hi = Z.max lo (Z.min a hi).
Proof.
  intros Hle. unfold Clamp.
  destruct (Z.leb_spec a lo); [lia|]. destruct (Z.leb_spec hi a); lia.
Qed.

Lemma to_int32_small x : - 2 ^ 31 <= x < 2 ^ 31 -> to_int32 x = x.
Proof. intros Hx. unfold to_int32. rewrite Z.mod_small; lia. Qed.

Lemma to_uint64_small x : 0 <= x < 2 ^ 64 -> to_uint64 x = x.
Proof. intros Hx. unfold to_uint64. by rewrite Z.mod_small. Qed.

(** The measurement, smoothed against a previous one that can be doubled. *)
Lemma round_trip_after_smooth cnt r :
  unbunch (current_order r) = true ->
  0 < depot_unbunching_last_departure r ->
  0 <= round_trip_time r <= 2 ^ 30 - 1 ->
  let measured := to_int32 (to_uint64 (cnt - depot_unbunching_last_departure r)) in
  round_trip_after cnt r
  = if round_trip_time r =? 0 then measured
    else Z.max (round_trip_time r / 2) (Z.min measured (round_trip_time r * 2)).
Proof.
  intros Hu Hl Hr measured. unfold round_trip_after. rewrite Hu.
  destruct (Z.ltb_spec 0 (depot_unbunching_last_departure r)); [|lia]. cbn.
  destruct (round_trip_time r =? 0); [done|]. fold measured.
  rewrite to_int32_small by lia.
  unfold ClampTo_int32, ClampTo, INT32_MIN, INT32_MAX.
  rewrite Z.quot_div_nonneg by lia.
  assert (round_trip_time r / 2 <= round_trip_time r * 2).
  { apply Z.div_le_upper_bound; lia. }
  rewrite Clamp_ordered by lia. lia.
Qed.

(** C6, with what the code asks for: a front vehicle whose current order is
    a depot order with the unbunch action and without the halt action, that
    is not heading for another depot, with a recorded departure and a
    previous round trip time that can be doubled in 32 bits.  Then
    [VehicleEnterDepot] leaves the measured ticks as round trip time when
    the previous one was 0, and the measured ticks clamped between half and
    double the previous one otherwise: 100 after a first measurement of 100,
    200 and 50 after measurements of 1000 and 10 against a previous 100. *)
Theorem VehicleEnterDepot_round_trip v w :
  let r := vehicles w v in
  let measured :=
    to_int32 (to_uint64 (counter w - depot_unbunching_last_departure r)) in
  first r = v ->
  type r ∈ [VEH_TRAIN; VEH_ROAD; VEH_SHIP; VEH_AIRCRAFT] ->
  order_type (current_order r) = OT_GOTO_DEPOT ->
  unbunch (current_order r) = true ->
  halt (current_order r) = false ->
  heading_elsewhere v (arrive v w) = false ->
  0 < depot_unbunching_last_departure r ->
  0 <= round_trip_time r <= 2 ^ 30 - 1 ->
  exists tr w',
    VehicleEnterDepot v w = Some (tr, w') /\
    round_trip_time (vehicles w' v)
      = (if round_trip_time r =? 0 then measured
         else Z.max (round_trip_time r / 2) (Z.min measured (round_trip_time r * 2))) /\
    (0 <= counter w - depot_unbunching_last_departure r < 2 ^ 31 ->
       measured = counter w - depot_unbunching_last_departure r) /\
    (round_trip_time r = 0 -> measured = 100 -> round_trip_time (vehicles w' v) = 100) /\
    (round_trip_time r = 100 -> measured = 1000 -> round_trip_time (vehicles w' v) = 200) /\
    (round_trip_time r = 100 -> measured = 10 -> round_trip_time (vehicles w' v) = 50).
Proof.
  intros r measured Hfirst Htype Hgo Hu Hh Hhead Hl Hr.
  destruct (VehicleEnterDepot_spec v w Hfirst Htype)
    as (tr & w' & Hrun & _ & _ & _ & Hrtt & _).
  fold r in Hrtt. rewrite Hhead, Hh in Hrtt.
  rewrite bool_decide_eq_true_2 in Hrtt by done. cbn in Hrtt.
  rewrite round_trip_after_smooth in Hrtt by done. fold measured in Hrtt.
  exists tr, w'. split; [done|]. split; [done|].
  split.
  { intros He. unfold measured. rewrite to_uint64_small by lia.
    apply to_int32_small. lia. }
  rewrite Hrtt.
  split; [intros -> ->; done|]. split; intros -> ->; done.
Qed.

(** C9, with the company that is told: when the refit of a served depot
    order fails, the entry of the vehicle in [_vehicles_to_autoreplace] ends
    as false, and the refit advice is produced exactly when the owner is the
    local company.  A command of the end of the tick reports nothing when
    the current company is not the local one; for the local company a
    failure with "nothing to do" or the invalid string is ignored, the
    not-enough-cash error is told as the autoreplace money limit, and every
    other error is told in an autorenew advice.  Whatever the commands
    return, every entry of the map gets its command. *)
Theorem failures_are_reported_and_pass_continues v w :
  let r := vehicles w v in
  first r = v ->
  type r ∈ [VEH_TRAIN; VEH_ROAD; VEH_SHIP; VEH_AIRCRAFT] ->
  order_type (current_order r) = OT_GOTO_DEPOT ->
  heading_elsewhere v (arrive v w) = false ->
  IsRefit (current_order r) = true ->
  Failed (refit_cost v (arrive v w)) = true ->
  (exists tr w' rest,
     VehicleEnterDepot v w = Some (tr, w') /\
     _vehicles_to_autoreplace w' !! v = Some false /\
     tr = (if decide (owner r = _local_company w)
           then [EvNews RefitFailed
                   {| es_string := STR_NEWS_ORDER_REFIT_FAILED; es_vehicle := v;
                      es_reason := None |} v]
           else []) ++ rest) /\
  (forall it w1,
     let wc := prepare it w1 in
     let res := (Do_CMD_AUTOREPLACE_VEHICLE it.1 wc).1 in
     let msg := GetErrorMessage res in
     let run := autoreplace_vehicle it w1 in
     exists out,
       run.1 = EvAutoreplace it.1 wc :: out /\
       (IsLocalCompany run.2 = false -> out = []) /\
       (IsLocalCompany run.2 = true -> Succeeded res = false ->
          (msg = STR_ERROR_AUTOREPLACE_NOTHING_TO_DO \/ msg = INVALID_STRING_ID ->
             out = []) /\
          (msg = STR_ERROR_NOT_ENOUGH_CASH_REQUIRES_CURRENCY ->
             out = [EvNews AutorenewFailed
                      {| es_string := STR_NEWS_VEHICLE_AUTORENEW_FAILED;
                         es_vehicle := it.1;
                         es_reason := Some STR_ERROR_AUTOREPLACE_MONEY_LIMIT |} it.1]) /\
          (msg <> STR_ERROR_AUTOREPLACE_NOTHING_TO_DO -> msg <> INVALID_STRING_ID ->
           msg <> STR_ERROR_NOT_ENOUGH_CASH_REQUIRES_CURRENCY ->
             exists headline,
               out = [EvNews AutorenewFailed headline it.1] /\
               (es_string headline = msg \/ es_reason headline = Some msg)))) /\
  (forall its w1, (commands (autoreplace_loop its w1).1).*1 = its.*1) /\
  (forall w1, (commands (autoreplace_pass w1).1).*1
              = (entries (_vehicles_to_autoreplace w1)).*1).
Proof.
  intros r Hfirst Htype Hgo Hhead Hrefit Hfail.
  split.
  { destruct (VehicleEnterDepot_spec v w Hfirst Htype)
      as (tr & w' & Hrun & _ & Hmap & _ & _ & Hnews).
    fold r in Hmap, Hnews. rewrite Hhead in Hmap, Hnews.
    rewrite bool_decide_eq_true_2 in Hmap, Hnews by done.
    destruct (Hnews eq_refl Hrefit Hfail) as [rest Hrest].
    exists tr, w', rest. split; [done|]. split; [|done].
    rewrite Hmap. unfold cancelled.
    destruct (arrive_spec v w) as (Harr & _). rewrite Harr.
    change (current_order (arrived (vehicles w v))) with (current_order r).
    rewrite Hrefit, Hfail. cbn. by rewrite andb_false_r. }
  split.
  { intros it w1 wc res msg run. unfold run, autoreplace_vehicle. fold wc.
    unfold msg, res.
    destruct (Do_CMD_AUTOREPLACE_VEHICLE it.1 wc) as [res' w2]. cbn.
    eexists. split; [reflexivity|].
    split; [by intros ->|]. intros -> Hres.
    unfold report. rewrite Hres.
    split.
    { intros Hm. by rewrite bool_decide_eq_true_2. }
    split.
    { intros ->. rewrite bool_decide_eq_false_2 by (intros [?|?]; done). done. }
    intros H1 H2 H3. rewrite bool_decide_eq_false_2 by tauto.
    destruct (decide (GetErrorMessage res' = _)) as [?|_]; [done|].
    destruct (decide _) as [He|He]; eexists; (split; [reflexivity|]); cbn; auto. }
  split.
  { intros its w1. apply autoreplace_loop_trace. }
  intros w1. apply autoreplace_pass_spec.
Qed.

(** *** After the tick of a vehicle: the age of the cargo and the sounds *)

(** The world after the cargo ageing step of [after_tick]. *)
Definition cargo_step (v : VehicleID) (w : World) : World :=
  let r := vehicles w v in
  if negb (cached_cargo_age_period r =? 0) then
    let c := to_uint16 (Z.min (cargo_age_counter r) (cached_cargo_age_period r) - 1) in
    if c =? 0 then
      update v (set_cargo_age_counter (cached_cargo_age_period r))
        (set_ext (AgeCargo v (ext w)) w)
    else update v (set_cargo_age_counter c) w
  else w.

Lemma cargo_step_spec v w :
  let r := vehicles w v in
  let w1 := cargo_step v w in
  (exists c, vehicles w1 v = set_cargo_age_counter c r) /\
  (forall j, j <> v -> vehicles w1 j = vehicles w j).
Proof.
  intros r w1. unfold w1, cargo_step. fold r.
  destruct (negb (cached_cargo_age_period r =? 0)).
  - cbv zeta. destruct (to_uint16 _ =? 0).
    + split; [eexists; by rewrite vehicles_update_same|].
      intros j Hj. by rewrite vehicles_update_other.
    + split; [eexists; by rewrite vehicles_update_same|].
      intros j Hj. by rewrite vehicles_update_other.
  - split; [|done]. exists (cargo_age_counter r). unfold r. by destruct (vehicles w v).
Qed.

(** The world that [after_tick] leaves is that of the ageing step, with the
    motion counter of the vehicle moved on or not. *)
Lemma after_tick_world v w :
  type (vehicles w v) ∈ [VEH_TRAIN; VEH_ROAD; VEH_AIRCRAFT; VEH_SHIP] ->
  (after_tick v w).2 = cargo_step v w \/
  exists m, (after_tick v w).2 = update v (set_motion_counter m) (cargo_step v w).
Proof.
  intros Hty. unfold after_tick.
  rewrite (bool_decide_eq_true_2 _ Hty). cbn [negb].
  change (if negb (cached_cargo_age_period (vehicles w v) =? 0) then _ else w)
    with (cargo_step v w).
  repeat (match goal with
          | |- context [if ?c then _ else _] => destruct c
          end; cbn [snd]; try (by left); try (right; eexists; reflexivity)).
Qed.

(** X12: when the vehicle has a cargo ageing period the counter of the
    vehicle goes down by one at its tick, from at most the period, and the
    cargo ages exactly at the tick that takes the counter to 0, which sets
    it to the period again; so a counter that is at least 1 stays between 1
    and the period.  A counter of 0 wraps around to 65535.  Without a period
    neither the counter nor the cargo changes.  The sounds have no
    influence on any of it, and no other vehicle is touched. *)
Theorem after_tick_cargo_age (v : VehicleID) (w : World) :
  let r := vehicles w v in
  let p := cached_cargo_age_period r in
  let c := cargo_age_counter r in
  type r ∈ [VEH_TRAIN; VEH_ROAD; VEH_AIRCRAFT; VEH_SHIP] ->
  0 <= c < 2 ^ 16 -> 0 <= p < 2 ^ 16 ->
  let w' := (after_tick v w).2 in
  let c' := cargo_age_counter (vehicles w' v) in
  (p = 0 -> c' = c /\ ext w' = ext w) /\
  (0 < p ->
     c' = (if decide (Z.min c p = 1) then p
           else if decide (c = 0) then 65535 else Z.min c p - 1) /\
     ext w' = (if decide (Z.min c p = 1) then AgeCargo v (ext w) else ext w) /\
     (1 <= c -> 1 <= c' <= p)) /\
  (forall j, j <> v -> vehicles w' j = vehicles w j).
Proof.
  intros r p c Hty Hc Hp w' c'.
  assert (Hstep : cargo_age_counter (vehicles w' v)
                  = cargo_age_counter (vehicles (cargo_step v w) v) /\
                  ext w' = ext (cargo_step v w) /\
                  forall j, j <> v -> vehicles w' j = vehicles (cargo_step v w) j).
  { unfold w'. destruct (after_tick_world v w Hty) as [->|[m ->]]; [done|].
    rewrite vehicles_update_same. split; [done|]. split; [done|].
    intros j Hj. by rewrite vehicles_update_other. }
  destruct Hstep as (Hcs & Hes & Hos).
  unfold c'. rewrite Hcs, Hes.
  destruct (cargo_step_spec v w) as [_ Hother].
  split; [|split].
  - intros Hp0. unfold cargo_step. fold r. fold p. rewrite Hp0. done.
  - intros Hpos. unfold cargo_step. fold r. fold p. fold c.
    destruct (Z.eqb_spec p 0) as [|_]; [lia|]. cbn [negb].
    assert (Hwrap : to_uint16 (Z.min c p - 1)
                    = if decide (c = 0) then 65535 else Z.min c p - 1).
    { unfold to_uint16. destruct (decide (c = 0)) as [->|Hc0].
      - rewrite Z.min_l by lia. done.
      - apply Z.mod_small. lia. }
    rewrite Hwrap.
    destruct (decide (Z.min c p = 1)) as [H1|H1].
    + rewrite (decide_False (P := c = 0)) by lia.
      destruct (Z.eqb_spec (Z.min c p - 1) 0) as [_|]; [|lia].
      rewrite vehicles_update_same. cbn. split; [done|].
      split; [done|]. lia.
    + destruct (decide (c = 0)) as [Hc0|Hc0].
      * change (65535 =? 0) with false. cbv iota.
        rewrite vehicles_update_same. cbn. split; [done|]. split; [done|]. lia.
      * destruct (Z.eqb_spec (Z.min c p - 1) 0) as [|_]; [lia|].
        rewrite vehicles_update_same. cbn. split; [done|]. split; [done|]. lia.
  - intros j Hj. rewrite Hos by done. by apply Hother.
Qed.

(** X13: after the tick of a vehicle only sounds of that vehicle are played,
    two at most.  None is played, and the motion counter stands still, when
    the front of the consist is crashed, when the vehicle is hidden in a
    depot or tunnel, or when the front is stopped and is no train or has
    come to a halt; and nothing at all happens for a vehicle that is no
    train, road vehicle, aircraft or ship. *)
Theorem after_tick_sounds (v : VehicleID) (w : World) :
  let r := vehicles w v in
  let f := vehicles w (first r) in
  let '(tr, w') := after_tick v w in
  (forall e, e ∈ tr -> exists snd, e = EvSound v snd) /\
  (length tr <= 2)%nat /\
  (type r ∉ [VEH_TRAIN; VEH_ROAD; VEH_AIRCRAFT; VEH_SHIP] -> tr = [] /\ w' = w) /\
  (type r ∈ [VEH_TRAIN; VEH_ROAD; VEH_AIRCRAFT; VEH_SHIP] ->
   vehstatus f Crashed = true \/ vehstatus r Hidden = true \/
   (vehstatus f Stopped = true /\ (type f <> VEH_TRAIN \/ cur_speed f = 0)) ->
     tr = [] /\ motion_counter (vehicles w' v) = motion_counter r).
Proof.
  intros r f. unfold after_tick. fold r.
  destruct (decide (type r ∈ [VEH_TRAIN; VEH_ROAD; VEH_AIRCRAFT; VEH_SHIP]))
    as [Hty|Hty].
  2:{ rewrite (bool_decide_eq_false_2 _ Hty). cbn [negb].
      split; [by intros e ?%not_elem_of_nil|]. split; [simpl; lia|].
      split; [done|]. done. }
  rewrite (bool_decide_eq_true_2 _ Hty). cbn [negb].
  change (if negb (cached_cargo_age_period r =? 0) then _ else w)
    with (cargo_step v w).
  destruct (cargo_step_spec v w) as [[c Hv1] Ho1]. fold r in Hv1.
  assert (Hf1 : vehstatus (vehicles (cargo_step v w) (first r)) = vehstatus f /\
                type (vehicles (cargo_step v w) (first r)) = type f /\
                cur_speed (vehicles (cargo_step v w) (first r)) = cur_speed f).
  { destruct (decide (first r = v)) as [Hfv|Hfv].
    - unfold f. rewrite Hfv, Hv1. done.
    - by rewrite Ho1. }
  destruct Hf1 as (Hfs & Hft & Hfc). rewrite Hfs, Hft, Hfc, Hv1.
  cbn [vehstatus set_cargo_age_counter motion_counter].
  assert (Hnil : forall w0 : World,
            (forall e, e ∈ @nil Event -> exists snd, e = EvSound v snd) /\
            (length (@nil Event) <= 2)%nat /\
            (type r ∉ [VEH_TRAIN; VEH_ROAD; VEH_AIRCRAFT; VEH_SHIP] ->
               @nil Event = [] /\ w0 = w)).
  { intros w0. split; [by intros e ?%not_elem_of_nil|]. split; [simpl; lia|done]. }
  destruct (vehstatus f Crashed) eqn:Hcr.
  { destruct (Hnil (cargo_step v w)) as (? & ? & ?).
    do 3 (split; [done|]). intros _ _. split; [done|]. by rewrite Hv1. }
  destruct (vehstatus r Hidden) eqn:Hhid.
  { destruct (Hnil (cargo_step v w)) as (? & ? & ?).
    do 3 (split; [done|]). intros _ _. split; [done|]. by rewrite Hv1. }
  destruct (vehstatus f Stopped &&
            (negb (bool_decide (type f = VEH_TRAIN)) || (cur_speed f =? 0))) eqn:Hst.
  { destruct (Hnil (cargo_step v w)) as (? & ? & ?).
    do 3 (split; [done|]). intros _ _. split; [done|]. by rewrite Hv1. }
  assert (Hloud : ~ (false = true \/ false = true \/
            (vehstatus f Stopped = true /\ (type f <> VEH_TRAIN \/ cur_speed f = 0)))).
  { intros [?|[?|[Hs Hq]]]; [done..|]. rewrite Hs in Hst. cbn in Hst.
    apply orb_false_iff in Hst as [Ht Hz]. apply negb_false_iff in Ht.
    apply bool_decide_eq_true_1 in Ht. apply Z.eqb_neq in Hz. tauto. }
  destruct (_ && negb (leads _)).
  { destruct (Hnil (update v (fun r0 => set_motion_counter
        (to_uint32 (motion_counter r0 + cur_speed f)) r0) (cargo_step v w)))
      as (? & ? & ?).
    do 3 (split; [done|]). intros _ Hq. by destruct (Hloud Hq). }
  split.
  { intros e He. apply elem_of_app in He as [He|He].
    all: match type of He with context [if ?c then _ else _] => destruct c end.
    all: try (by apply not_elem_of_nil in He).
    all: apply list_elem_of_singleton in He as ->; eauto. }
  split.
  { rewrite length_app.
    repeat match goal with |- context [if ?c then _ else _] => destruct c end.
    all: simpl; lia. }
  split; [done|]. intros _ Hq. by destruct (Hloud Hq).
Qed.

End World.

(** ** A yard with one train *)

(** A command that fails with an error of its own. *)
Definition refused : CommandCost :=
  {| Succeeded := false; GetCost := 0; GetErrorMessage := STR_other 1 |}.

(** Collaborators that leave the world alone and refuse every command. *)
#[local] Instance idle : Collaborators unit := {|
  Tick := fun _ w => (true, w);
  before_vehicles := fun w => w;
  AgeCargo := fun _ e => e;
  engine_renew_money := fun _ _ => 0;
  SubtractMoneyFromCompany := fun _ _ => tt;
  Do_CMD_AUTOREPLACE_VEHICLE := fun _ w => (refused, w);
  Do_CMD_REFIT_VEHICLE := fun _ _ _ => (refused, tt);
  enter_depot_by_type := fun _ _ => tt;
  VehicleServiceInDepot := fun _ _ => tt;
  TriggerVehicleRandomisation := fun _ _ => tt;
  GetRealOrder := fun v w => Some (current_order (vehicles unit w v));
  GetStationIndex := fun _ _ => 0;
  advance_orders := fun _ _ => tt |}.

(** An order of the order list to go to a depot and unbunch there. *)
Definition depot_order (refit : bool) : Order :=
  {| order_type := OT_GOTO_DEPOT; part_of_orders := true; halt := false;
     nearest_depot := false; unbunch := true; IsRefit := refit;
     GetRefitCargo := 0; GetDestination := 0 |}.

(** A moving train on tile 5 that left its depot at tick 100. *)
Definition train (o : Order) (previous dest : Z) (company : CompanyID) : Vehicle :=
  {| type := VEH_TRAIN; owner := company; vehstatus := fun _ => false;
     cur_speed := 10; tile := 5; dest_tile := dest;
     x_pos := 0; y_pos := 0; z_pos := 0; first := 0%nat; current_order := o;
     last_loading_station := 0; depot_unbunching_last_departure := 100;
     depot_unbunching_next_departure := 0; round_trip_time := previous;
     profit_this_year := 0; cargo_age_counter := 0; cached_cargo_age_period := 0;
     motion_counter := 0; tick_counter := 0; leads := true |}.

(** The train in slot 0 of a pool of one; company 0 plays. *)
Definition yard (r : Vehicle) (m : gmap VehicleID bool) (now : Z) : World unit :=
  {| vehicles := fun _ => r; valid := fun j => bool_decide (j = 0%nat);
     pool_size := 1; _vehicles_to_autoreplace := m;
     _current_company := 0; _local_company := 0; counter := now; ext := tt |}.






Lemma Stopped_between_entry_and_autoreplace_witness :
  exists tr w',
    VehicleEnterDepot unit 0%nat (yard (train (depot_order false) 0 5 0) ∅ 200)
    = Some (tr, w') /\
    vehstatus (vehicles unit w' 0%nat) Stopped = true /\
    _vehicles_to_autoreplace unit w' !! 0%nat = Some true /\
    vehstatus (vehicles unit (autoreplace_pass unit w').2 0%nat) Stopped = false.
Proof.
  pose proof (Stopped_between_entry_and_autoreplace unit 0%nat
                (yard (train (depot_order false) 0 5 0) ∅ 200)) as Hthm.
  cbv zeta in Hthm.
  destruct Hthm as (_ & (tr & w' & Hrun & Hstop & Hmap) & Hpass).
  - reflexivity.
  - left.
  - assert (Hmoving : _vehicles_to_autoreplace unit w' !! 0%nat = Some true).
    { etrans; [exact Hmap|]. vm_compute. reflexivity. }
    destruct (Hpass w') as (_ & _ & _ & _ & _ & Hclear).
    destruct (Hclear (fun _ _ => eq_refl) 0%nat) as [Hflag _].
    exists tr, w'. split; [exact Hrun|]. split; [exact Hstop|].
    split; [exact Hmoving|].
    rewrite Hflag, Hstop, (bool_decide_eq_true_2 _ Hmoving). reflexivity.
Defined.

(** C6 as the specification has it fails for a train that enters a depot on
    its way to another one: its order is a depot order with the unbunch
    action, it left at tick 100 and enters at tick 200 with no round trip
    recorded yet, and [VehicleEnterDepot] returns with the round trip time
    still 0 and not the 100 ticks measured. *)
Lemma VehicleEnterDepot_round_trip_counterexample :
  let r := train (depot_order false) 0 6 0 in
  let w := yard r ∅ 200 in
  order_type (current_order r) = OT_GOTO_DEPOT /\
  unbunch (current_order r) = true /\
  0 < depot_unbunching_last_departure r /\
  round_trip_time r = 0 /\
  counter unit w - depot_unbunching_last_departure r = 100 /\
  (fun x => round_trip_time (vehicles unit x.2 0%nat)) <$> VehicleEnterDepot unit 0%nat w
  = Some 0.
Proof. vm_compute. repeat split. Qed.

Lemma VehicleEnterDepot_round_trip_witness :
  exists tr w',
    VehicleEnterDepot unit 0%nat (yard (train (depot_order false) 100 5 0) ∅ 1100)
    = Some (tr, w') /\
    round_trip_time (vehicles unit w' 0%nat) = 200.
Proof.
  pose proof (VehicleEnterDepot_round_trip unit 0%nat
                (yard (train (depot_order false) 100 5 0) ∅ 1100)) as Hthm.
  cbv zeta in Hthm.
  destruct Hthm as (tr & w' & Hrun & Hrtt & _).
  - reflexivity.
  - left.
  - reflexivity.
  - reflexivity.
  - reflexivity.
  - vm_compute. reflexivity.
  - reflexivity.
  - vm_compute. split; intros Habs; discriminate Habs.
  - exists tr, w'. split; [exact Hrun|]. etrans; [exact Hrtt|]. vm_compute. reflexivity.
Defined.

(** C9 as the specification has it fails for a vehicle of another company:
    the train of company 1 is queued, company 0 is the local one, the
    command fails with an error that is neither "nothing to do", the invalid
    string nor not-enough-cash, and the pass produces no news item. *)
Lemma failures_are_reported_counterexample :
  let w := yard (train (depot_order false) 0 5 1) {[0%nat := true]} 200 in
  let res := (Do_CMD_AUTOREPLACE_VEHICLE unit 0%nat (prepare unit (0%nat, true) w)).1 in
  Failed res = true /\
  GetErrorMessage res = STR_other 1 /\
  (commands unit (autoreplace_pass unit w).1).*1 = [0%nat] /\
  news unit (autoreplace_pass unit w).1 = [].
Proof. vm_compute. repeat split. Qed.

Lemma failures_are_reported_and_pass_continues_witness :
  exists tr w',
    VehicleEnterDepot unit 0%nat (yard (train (depot_order true) 0 5 0) ∅ 200)
    = Some (tr, w') /\
    _vehicles_to_autoreplace unit w' !! 0%nat = Some false.
Proof.
  pose proof (failures_are_reported_and_pass_continues unit 0%nat
                (yard (train (depot_order true) 0 5 0) ∅ 200)) as Hthm.
  cbv zeta in Hthm.
  destruct Hthm as ((tr & w' & rest & Hrun & Hmap & _) & _).
  - reflexivity.
  - left.
  - reflexivity.
  - vm_compute. reflexivity.
  - reflexivity.
  - vm_compute. reflexivity.
  - exists tr, w'. split; [exact Hrun|exact Hmap].
Defined.

(** A train whose cargo ages every [period] ticks. *)
Definition freight_train (age period : Z) : Vehicle :=
  {| type := VEH_TRAIN; owner := 0; vehstatus := fun _ => false;
     cur_speed := 10; tile := 5; dest_tile := 5;
     x_pos := 0; y_pos := 0; z_pos := 0; first := 0%nat;
     current_order := depot_order false;
     last_loading_station := 0; depot_unbunching_last_departure := 100;
     depot_unbunching_next_departure := 0; round_trip_time := 0;
     profit_this_year := 0; cargo_age_counter := age;
     cached_cargo_age_period := period;
     motion_counter := 0; tick_counter := 0; leads := true |}.

Lemma after_tick_cargo_age_witness :
  cargo_age_counter
    (vehicles unit (after_tick unit 0%nat (yard (freight_train 1 185) ∅ 200)).2 0%nat)
  = 185.
Proof.
  pose proof (after_tick_cargo_age unit 0%nat (yard (freight_train 1 185) ∅ 200)) as Hthm.
  cbv zeta in Hthm.
  destruct Hthm as (_ & Hage & _).
  - vm_compute. left.
  - vm_compute. split; [intros Habs; discriminate Habs|reflexivity].
  - vm_compute. split; [intros Habs; discriminate Habs|reflexivity].
  - destruct Hage as (Hc & _); [vm_compute; reflexivity|].
    etrans; [exact Hc|]. vm_compute. reflexivity.
Defined.

End Scheduler.

(** ** The calendar day of the vehicles: [RunVehicleCalendarDayProc] *)

Module DayProc.

Local Open Scope nat_scope.

Abbreviation GameMode := Breakdown.GameMode.
Abbreviation GM_NORMAL := Breakdown.GM_NORMAL.

Section Day.

(** The state of the game, the pool of vehicles in it, and the handler of a
    new calendar day of a vehicle, which is a virtual method of [Vehicle]. *)
Context {Game : Type}.
Variable DAY_TICKS : nat.
Variable GetPoolSize : Game -> nat.
Variable Get : Game -> nat -> bool.
Variable OnNewCalendarDay : nat -> Game -> Game.

(** The loop of [RunVehicleCalendarDayProc] from slot [i] on; the vehicles
    whose handler ran are listed in the order of the calls. *)
Fixpoint calendar_loop (fuel i : nat) (g : Game) : list nat * Game :=
  match fuel with
  | O => ([], g)
  | S fuel =>
      if bool_decide (i < GetPoolSize g) then
        if Get g i then
          let '(tr, g') := calendar_loop fuel (i + DAY_TICKS) (OnNewCalendarDay i g) in
          (i :: tr, g')
        else calendar_loop fuel (i + DAY_TICKS) g
      else ([], g)
  end.

Definition RunVehicleCalendarDayProc (_game_mode : GameMode) (date_fract : nat)
    (g : Game) : list nat * Game :=
  if decide (_game_mode <> GM_NORMAL) then ([], g)
  else calendar_loop (GetPoolSize g) date_fract g.

(** The handlers neither create nor delete a vehicle. *)
Definition keeps_pool : Prop :=
  forall v g, Get g v = true ->
    GetPoolSize (OnNewCalendarDay v g) = GetPoolSize g /\
    forall j, Get (OnNewCalendarDay v g) j = Get g j.

Lemma next_slot i j :
  0 < DAY_TICKS -> i <= j -> j `mod` DAY_TICKS = i `mod` DAY_TICKS -> j <> i ->
  i + DAY_TICKS <= j.
Proof.
  intros HD Hij Hmod Hne.
  pose proof (Nat.div_mod i DAY_TICKS ltac:(lia)) as Hi.
  pose proof (Nat.div_mod j DAY_TICKS ltac:(lia)) as Hj.
  rewrite Hmod in Hj.
  assert (i `div` DAY_TICKS < j `div` DAY_TICKS) by nia.
  nia.
Qed.

Lemma add_slot i : 0 < DAY_TICKS -> (i + DAY_TICKS) `mod` DAY_TICKS = i `mod` DAY_TICKS.
Proof.
  intros HD. replace (i + DAY_TICKS) with (i + 1 * DAY_TICKS) by lia.
  apply Nat.Div0.mod_add.
Qed.

Lemma calendar_loop_spec fuel : forall i g,
  0 < DAY_TICKS -> keeps_pool ->
  GetPoolSize g - i <= fuel ->
  let '(tr, g') := calendar_loop fuel i g in
  (forall j, j ∈ tr <->
     i <= j < GetPoolSize g /\ Get g j = true /\
     j `mod` DAY_TICKS = i `mod` DAY_TICKS) /\
  StronglySorted lt tr /\
  g' = foldl (fun a v => OnNewCalendarDay v a) g tr /\
  GetPoolSize g' = GetPoolSize g /\
  (forall j, Get g' j = Get g j).
Proof.
  induction fuel as [|fuel IH]; intros i g HD Hkeep Hfuel; simpl.
  { split; [|repeat split; constructor].
    intros j. split; [by intros ?%not_elem_of_nil|]. lia. }
  destruct (decide (i < GetPoolSize g)) as [Hlt|Hge].
  2:{ rewrite bool_decide_eq_false_2 by done.
      split; [|repeat split; constructor].
      intros j. split; [by intros ?%not_elem_of_nil|]. lia. }
  rewrite bool_decide_eq_true_2 by done.
  destruct (Get g i) eqn:Hget.
  - destruct (Hkeep i g Hget) as [Hsize Hsame].
    specialize (IH (i + DAY_TICKS) (OnNewCalendarDay i g) HD Hkeep ltac:(lia)).
    destruct (calendar_loop fuel (i + DAY_TICKS) (OnNewCalendarDay i g)) as [tr g'].
    destruct IH as (Hmem & Hsort & Hfold & Hsz & Hget').
    assert (Hin : forall j, j ∈ i :: tr <->
              i <= j < GetPoolSize g /\ Get g j = true /\
              j `mod` DAY_TICKS = i `mod` DAY_TICKS).
    { intros j. rewrite elem_of_cons, Hmem, Hsize, Hsame, add_slot by done.
      split.
      - intros [->|(? & ? & ?)]; [done|]. split; [lia|done].
      - intros (Hr & Hg & Hm). destruct (decide (j = i)) as [|Hne]; [by left|].
        right. pose proof (next_slot i j HD ltac:(lia) Hm Hne). split; [lia|done]. }
    split; [exact Hin|]. split.
    { constructor; [done|]. apply Forall_forall. intros j Hj.
      apply Hmem in Hj. lia. }
    split; [done|]. split; [lia|]. intros j. by rewrite Hget', Hsame.
  - specialize (IH (i + DAY_TICKS) g HD Hkeep ltac:(lia)).
    destruct (calendar_loop fuel (i + DAY_TICKS) g) as [tr g'].
    destruct IH as (Hmem & Hsort & Hfold & Hsz & Hget').
    split; [|done].
    intros j. rewrite Hmem, add_slot by done. split.
    + intros (? & ? & ?). split; [lia|done].
    + intros (Hr & Hg & Hm). destruct (decide (j = i)) as [->|Hne]; [congruence|].
      pose proof (next_slot i j HD ltac:(lia) Hm Hne). split; [lia|done].
Qed.

(** X14: in the normal game mode the calendar day handler runs, in rising
    order of the slots and once each, for exactly the vehicles of the pool
    whose slot is [date_fract] modulo [DAY_TICKS]; so over the [DAY_TICKS]
    ticks of a day every vehicle has its handler called in exactly one tick,
    the one whose number is its slot modulo [DAY_TICKS].  In any other game
    mode no handler runs. *)
Theorem RunVehicleCalendarDayProc_once_a_day (mode : GameMode) (date_fract : nat)
    (g : Game) :
  0 < DAY_TICKS -> date_fract < DAY_TICKS -> keeps_pool ->
  let '(tr, g') := RunVehicleCalendarDayProc mode date_fract g in
  (mode <> GM_NORMAL -> tr = [] /\ g' = g) /\
  (mode = GM_NORMAL ->
     forall j, j ∈ tr <->
       j < GetPoolSize g /\ Get g j = true /\ j `mod` DAY_TICKS = date_fract) /\
  StronglySorted lt tr /\
  g' = foldl (fun a v => OnNewCalendarDay v a) g tr /\
  GetPoolSize g' = GetPoolSize g /\
  (forall j, Get g' j = Get g j).
Proof.
  intros HD Hdf Hkeep. unfold RunVehicleCalendarDayProc.
  destruct (decide (mode <> GM_NORMAL)) as [Hm|Hm].
  { split; [done|]. split; [done|]. repeat split; constructor. }
  pose proof (calendar_loop_spec (GetPoolSize g) date_fract g HD Hkeep ltac:(lia)) as H.
  destruct (calendar_loop (GetPoolSize g) date_fract g) as [tr g'].
  destruct H as (Hmem & Hrest).
  split; [done|]. split; [|exact Hrest].
  intros _ j. rewrite Hmem, (Nat.mod_small date_fract) by done.
  split.
  - intros ((_ & ?) & ? & ?). done.
  - intros (? & ? & Hj). split; [|done]. split; [|done].
    rewrite <- Hj. apply Nat.Div0.mod_le.
Qed.

End Day.

(** A pool of five slots of which slot 3 is empty, with a day of two ticks;
    the game counts the calls of the handler. *)
Lemma RunVehicleCalendarDayProc_once_a_day_witness :
  1 ∈ (RunVehicleCalendarDayProc 2 (fun _ => 5) (fun _ j => bool_decide (j <> 3))
         (fun _ (calls : nat) => S calls) GM_NORMAL 1 0).1.
Proof.
  pose proof (RunVehicleCalendarDayProc_once_a_day 2 (fun _ => 5)
                (fun _ j => bool_decide (j <> 3)) (fun _ (calls : nat) => S calls)
                GM_NORMAL 1 0) as Hthm.
  destruct (RunVehicleCalendarDayProc 2 (fun _ => 5) (fun _ j => bool_decide (j <> 3))
              (fun _ (calls : nat) => S calls) GM_NORMAL 1 0) as [tr g'].
  destruct Hthm as (_ & Hmem & _).
  - lia.
  - lia.
  - intros v g _. split; reflexivity.
  - apply (Hmem eq_refl). vm_compute. repeat split. lia.
Defined.

End DayProc.

(** ** Who is on a tile: [EnsureNoVehicleOnGround], [TunnelBridgeIsFree] *)

Module Ground.
Import Core.
Import TileHash.

Abbreviation VehicleType := Scheduler.VehicleType.
Abbreviation VEH_TRAIN := Scheduler.VEH_TRAIN.
Abbreviation VEH_ROAD := Scheduler.VEH_ROAD.
Abbreviation VEH_SHIP := Scheduler.VEH_SHIP.
Abbreviation VEH_AIRCRAFT := Scheduler.VEH_AIRCRAFT.
Abbreviation VEH_DISASTER := Scheduler.VEH_DISASTER.

(** [CommandCost()] and [CommandCost(STR_ERROR_TRAIN_IN_THE_WAY + type)]. *)
Inductive CommandCost :=
| NoError
| STR_ERROR_TRAIN_IN_THE_WAY_plus (t : VehicleType).

Definition Succeeded (c : CommandCost) : bool :=
  match c with NoError => true | _ => false end.

Section Tiles.

Variable TileX TileY : Z -> Z.

(** The vehicles that a loop over a tile sees are the linked vehicles on
    that tile. *)
Lemma on_tile_spec s L t :
  Rep s L -> consistent TileX TileY s ->
  let l := filter (fun x => tile (vehicles s x) = t) (L (tile_bucket TileX TileY t)) in
  forall v, v ∈ l <-> (exists b, in_bucket s b v) /\ tile (vehicles s v) = t.
Proof.
  intros HR Hcons l v. unfold l. rewrite list_elem_of_filter. split.
  - intros [Ht Hin]. split; [|done]. exists (tile_bucket TileX TileY t).
    by apply (in_bucket_rep _ _ _ _ _ HR).
  - intros [[b Hb] Ht]. split; [done|].
    apply (in_bucket_rep _ _ _ _ _ HR) in Hb.
    pose proof (Rep_member _ _ _ _ HR Hb) as Hc.
    apply Hcons in Hc. rewrite Ht in Hc. by subst b.
Qed.

Section OnGround.

(** The fields of the vehicles that the check reads; the hash writes none
    of them. *)
Variable type : VehicleID -> VehicleType.
Variable is_shadow : VehicleID -> bool. (* subtype == AIR_SHADOW *)
Variable z_pos : VehicleID -> Z.
Variable GetTileMaxPixelZ : Z -> Z.

(** The body of the loop of [EnsureNoVehicleOnGround] over the vehicles that
    the range gives. *)
Fixpoint on_ground (z : Z) (l : list VehicleID) : CommandCost :=
  match l with
  | [] => NoError
  | v :: l =>
      if bool_decide (type v = VEH_DISASTER) ||
         (bool_decide (type v = VEH_AIRCRAFT) && is_shadow v)
      then on_ground z l
      else if z <? z_pos v then on_ground z l
      else STR_ERROR_TRAIN_IN_THE_WAY_plus (type v)
  end.

Definition EnsureNoVehicleOnGround (fuel : nat) (s : State) (tile : Z)
  : option CommandCost :=
  let z := GetTileMaxPixelZ tile in
  l ← VehiclesOnTile TileX TileY fuel s tile;
  Some (on_ground z l).

(** A vehicle that stands on the ground of a tile whose top is at [z]. *)
Definition grounded (z : Z) (v : VehicleID) : Prop :=
  type v <> VEH_DISASTER /\ ~ (type v = VEH_AIRCRAFT /\ is_shadow v = true) /\
  z_pos v <= z.

Lemma on_ground_spec z l :
  (on_ground z l = NoError <-> forall v, v ∈ l -> ~ grounded z v) /\
  (forall t, on_ground z l = STR_ERROR_TRAIN_IN_THE_WAY_plus t ->
     exists l1 v l2, l = l1 ++ v :: l2 /\ type v = t /\ grounded z v /\
       forall w, w ∈ l1 -> ~ grounded z w).
Proof.
  induction l as [|v l [IH1 IH2]]; cbn [on_ground].
  - split; [|done]. split; [|done]. intros _ v Hv. by apply not_elem_of_nil in Hv.
  - assert (Hskip : forall c, (c = true <-> ~ grounded z v) ->
      c = true -> (on_ground z l = NoError <-> forall w, w ∈ v :: l -> ~ grounded z w) /\
        (forall t, on_ground z l = STR_ERROR_TRAIN_IN_THE_WAY_plus t ->
           exists l1 v' l2, v :: l = l1 ++ v' :: l2 /\ type v' = t /\ grounded z v' /\
             forall w, w ∈ l1 -> ~ grounded z w)).
    { intros c Hc Htrue. split.
      - rewrite IH1. split.
        + intros Hall w [->|Hw]%elem_of_cons; [by apply Hc|by apply Hall].
        + intros Hall w Hw. apply Hall. by right.
      - intros t Ht. destruct (IH2 t Ht) as (l1 & v' & l2 & -> & Hty & Hg & Hbefore).
        exists (v :: l1), v', l2. split; [done|]. split; [done|]. split; [done|].
        intros w [->|Hw]%elem_of_cons; [by apply Hc|by apply Hbefore]. }
    destruct (bool_decide (type v = VEH_DISASTER) ||
              (bool_decide (type v = VEH_AIRCRAFT) && is_shadow v)) eqn:Hexempt.
    { apply (Hskip true); [|done]. split; [|done]. intros _ (Hd & Ha & _).
      apply orb_true_iff in Hexempt as [Hx|Hx].
      - by apply bool_decide_eq_true_1 in Hx.
      - apply andb_true_iff in Hx as [Hx1 Hx2]. apply bool_decide_eq_true_1 in Hx1.
        by apply Ha. }
    destruct (Z.ltb_spec z (z_pos v)) as [Hz|Hz].
    { apply (Hskip true); [|done]. split; [|done]. intros _ (_ & _ & Hle). lia. }
    assert (Hg : grounded z v).
    { apply orb_false_iff in Hexempt as [Hx1 Hx2].
      apply bool_decide_eq_false_1 in Hx1. split; [done|]. split; [|done].
      intros [Ha Hs]. rewrite bool_decide_eq_true_2, Hs in Hx2 by done. done. }
    split.
    + split; [done|]. intros Hall. exfalso. apply (Hall v); [left|done].
    + intros t [= <-]. exists [], v, l. split; [done|]. split; [done|].
      split; [done|]. intros w Hw. by apply not_elem_of_nil in Hw.
Qed.

(** X15: on a well formed hash in which every linked vehicle is in the bucket
    of its tile, [EnsureNoVehicleOnGround] returns, and succeeds exactly when
    no linked vehicle on the tile stands at or below the top of the tile,
    disaster vehicles and aircraft shadows not counted; when it fails, the
    error names the type of such a vehicle. *)
Theorem EnsureNoVehicleOnGround_free (s : State) (t : Z) :
  well_formed s -> consistent TileX TileY s ->
  let z := GetTileMaxPixelZ t in
  let stands v := (exists b, in_bucket s b v) /\ tile (vehicles s v) = t /\ grounded z v in
  exists k r,
    (forall fuel, (k <= fuel)%nat -> EnsureNoVehicleOnGround fuel s t = Some r) /\
    (Succeeded r = true <-> forall v, ~ stands v) /\
    (forall ty, r = STR_ERROR_TRAIN_IN_THE_WAY_plus ty ->
       exists v, stands v /\ type v = ty).
Proof.
  intros [L HR] Hcons z stands.
  set (l := filter (fun x => tile (vehicles s x) = t) (L (tile_bucket TileX TileY t))).
  pose proof (on_tile_spec s L t HR Hcons) as Hl. cbv zeta in Hl. fold l in Hl.
  destruct (on_ground_spec z l) as [Hok Herr].
  exists (length (L (tile_bucket TileX TileY t))), (on_ground z l).
  split.
  { intros fuel Hf. unfold EnsureNoVehicleOnGround.
    rewrite (VehiclesOnTile_spec TileX TileY s L t fuel HR Hf). done. }
  split.
  { assert (Hs : Succeeded (on_ground z l) = true <-> on_ground z l = NoError)
      by (destruct (on_ground z l); simpl; split; done).
    rewrite Hs, Hok. split.
    - intros Hall v (Hb & Ht & Hg). apply (Hall v); [|done]. by apply Hl.
    - intros Hall v Hv Hg. apply Hl in Hv as [Hb Ht]. by apply (Hall v). }
  intros ty Hr. destruct (Herr ty Hr) as (l1 & v & l2 & Heq & Hty & Hg & _).
  exists v. split; [|done].
  assert (Hv : v ∈ l) by (rewrite Heq, elem_of_app; right; left).
  apply Hl in Hv as [Hb Ht]. done.
Qed.

End OnGround.

Section TunnelBridge.

Variable type : VehicleID -> VehicleType.

(** The body of the inner loop of [TunnelBridgeIsFree]; [None] is a loop
    that ran to its end. *)
Fixpoint in_the_way (ignore : option VehicleID) (l : list VehicleID)
  : option CommandCost :=
  match l with
  | [] => None
  | v :: l =>
      if negb (bool_decide (type v = VEH_TRAIN)) &&
         negb (bool_decide (type v = VEH_ROAD)) &&
         negb (bool_decide (type v = VEH_SHIP))
      then in_the_way ignore l
      else if bool_decide (Some v = ignore) then in_the_way ignore l
      else Some (STR_ERROR_TRAIN_IN_THE_WAY_plus (type v))
  end.

Definition TunnelBridgeIsFree (fuel : nat) (s : State) (tile endtile : Z)
    (ignore : option VehicleID) : option CommandCost :=
  l1 ← VehiclesOnTile TileX TileY fuel s tile;
  match in_the_way ignore l1 with
  | Some err => Some err
  | None =>
      l2 ← VehiclesOnTile TileX TileY fuel s endtile;
      match in_the_way ignore l2 with
      | Some err => Some err
      | None => Some NoError
      end
  end.

(** A vehicle that can be inside a tunnel or on a bridge. *)
Definition travels (ignore : option VehicleID) (v : VehicleID) : Prop :=
  (type v = VEH_TRAIN \/ type v = VEH_ROAD \/ type v = VEH_SHIP) /\ Some v <> ignore.

Lemma in_the_way_spec ignore l :
  (in_the_way ignore l = None <-> forall v, v ∈ l -> ~ travels ignore v) /\
  (forall c, in_the_way ignore l = Some c ->
     exists l1 v l2, l = l1 ++ v :: l2 /\
       c = STR_ERROR_TRAIN_IN_THE_WAY_plus (type v) /\ travels ignore v /\
       forall w, w ∈ l1 -> ~ travels ignore w).
Proof.
  induction l as [|v l [IH1 IH2]]; cbn [in_the_way].
  - split; [|done]. split; [|done]. intros _ v Hv. by apply not_elem_of_nil in Hv.
  - assert (Hskip : ~ travels ignore v ->
      (in_the_way ignore l = None <-> forall w, w ∈ v :: l -> ~ travels ignore w) /\
      (forall c, in_the_way ignore l = Some c ->
         exists l1 v' l2, v :: l = l1 ++ v' :: l2 /\
           c = STR_ERROR_TRAIN_IN_THE_WAY_plus (type v') /\ travels ignore v' /\
           forall w, w ∈ l1 -> ~ travels ignore w)).
    { intros Hv. split.
      - rewrite IH1. split.
        + intros Hall w [->|Hw]%elem_of_cons; [done|by apply Hall].
        + intros Hall w Hw. apply Hall. by right.
      - intros c Hc. destruct (IH2 c Hc) as (l1 & v' & l2 & -> & Hty & Hg & Hbefore).
        exists (v :: l1), v', l2. split; [done|]. split; [done|]. split; [done|].
        intros w [->|Hw]%elem_of_cons; [done|by apply Hbefore]. }
    destruct (negb (bool_decide (type v = VEH_TRAIN)) &&
              negb (bool_decide (type v = VEH_ROAD)) &&
              negb (bool_decide (type v = VEH_SHIP))) eqn:Hother.
    { apply Hskip. intros [Hty _].
      apply andb_true_iff in Hother as [Hx H3]. apply andb_true_iff in Hx as [H1 H2].
      apply negb_true_iff, bool_decide_eq_false_1 in H1, H2, H3. tauto. }
    destruct (decide (Some v = ignore)) as [Hig|Hig].
    { rewrite bool_decide_eq_true_2 by done. apply Hskip. intros [_ Hne]. done. }
    rewrite (bool_decide_eq_false_2 (Some v = ignore)) by done.
    assert (Hg : travels ignore v).
    { split; [|done].
      destruct (decide (type v = VEH_TRAIN)) as [|H1]; [tauto|].
      destruct (decide (type v = VEH_ROAD)) as [|H2]; [tauto|].
      destruct (decide (type v = VEH_SHIP)) as [|H3]; [tauto|].
      rewrite !bool_decide_eq_false_2 in Hother by done. done. }
    split.
    + split; [done|]. intros Hall. exfalso. apply (Hall v); [left|done].
    + intros c [= <-]. exists [], v, l. split; [done|]. split; [done|].
      split; [done|]. intros w Hw. by apply not_elem_of_nil in Hw.
Qed.

(** X16: on a well formed hash in which every linked vehicle is in the bucket
    of its tile, [TunnelBridgeIsFree] returns, and succeeds exactly
    when no linked train, road vehicle or ship other than [ignore] is on
    either end; when it fails, the error names the type of such a vehicle,
    one of the first end when there is one. *)
Theorem TunnelBridgeIsFree_free (s : State) (t e : Z) (ignore : option VehicleID) :
  well_formed s -> consistent TileX TileY s ->
  let uses x v := (exists b, in_bucket s b v) /\ tile (vehicles s v) = x /\
                  travels ignore v in
  exists k r,
    (forall fuel, (k <= fuel)%nat -> TunnelBridgeIsFree fuel s t e ignore = Some r) /\
    (Succeeded r = true <-> forall v, ~ uses t v /\ ~ uses e v) /\
    (forall ty, r = STR_ERROR_TRAIN_IN_THE_WAY_plus ty ->
       exists v, type v = ty /\
         (uses t v \/ ((forall w, ~ uses t w) /\ uses e v))).
Proof.
  intros [L HR] Hcons uses.
  set (l1 := filter (fun x => tile (vehicles s x) = t) (L (tile_bucket TileX TileY t))).
  set (l2 := filter (fun x => tile (vehicles s x) = e) (L (tile_bucket TileX TileY e))).
  pose proof (on_tile_spec s L t HR Hcons) as Hl1. cbv zeta in Hl1. fold l1 in Hl1.
  pose proof (on_tile_spec s L e HR Hcons) as Hl2. cbv zeta in Hl2. fold l2 in Hl2.
  destruct (in_the_way_spec ignore l1) as [Hok1 Herr1].
  destruct (in_the_way_spec ignore l2) as [Hok2 Herr2].
  assert (Hfree : forall x (l : list VehicleID), (forall v, v ∈ l <-> (exists b, in_bucket s b v) /\
                                   tile (vehicles s v) = x) ->
            (forall v, v ∈ l -> ~ travels ignore v) <-> forall v, ~ uses x v).
  { intros x l Hl. split.
    - intros Hall v (Hb & Ht & Hg). apply (Hall v); [|done]. by apply Hl.
    - intros Hall v Hv Hg. apply Hl in Hv as [Hb Ht]. by apply (Hall v). }
  exists (Nat.max (length (L (tile_bucket TileX TileY t)))
                  (length (L (tile_bucket TileX TileY e)))).
  exists (match in_the_way ignore l1 with
          | Some err => err
          | None => match in_the_way ignore l2 with
                    | Some err => err
                    | None => NoError
                    end
          end).
  split.
  { intros fuel Hf. unfold TunnelBridgeIsFree.
    rewrite (VehiclesOnTile_spec TileX TileY s L t fuel HR) by lia. cbn. fold l1.
    destruct (in_the_way ignore l1); [done|].
    rewrite (VehiclesOnTile_spec TileX TileY s L e fuel HR) by lia. cbn. fold l2.
    by destruct (in_the_way ignore l2). }
  destruct (in_the_way ignore l1) as [c1|] eqn:H1.
  { destruct (Herr1 c1 eq_refl) as (la & v & lb & Heq & -> & Hg & _).
    assert (Hv : v ∈ l1) by (rewrite Heq, elem_of_app; right; left).
    apply Hl1 in Hv as [Hb Ht]. split.
    - split; [done|]. intros Hall. exfalso. apply (proj1 (Hall v)). done.
    - intros ty [= <-]. exists v. split; [done|]. left. done. }
  pose proof (proj1 (Hfree t l1 Hl1) (proj1 Hok1 eq_refl)) as Hfree1.
  destruct (in_the_way ignore l2) as [c2|] eqn:H2.
  { destruct (Herr2 c2 eq_refl) as (la & v & lb & Heq & -> & Hg & _).
    assert (Hv : v ∈ l2) by (rewrite Heq, elem_of_app; right; left).
    apply Hl2 in Hv as [Hb Ht]. split.
    - split; [done|]. intros Hall. exfalso. apply (proj2 (Hall v)). done.
    - intros ty [= <-]. exists v. split; [done|]. right. done. }
  pose proof (proj1 (Hfree e l2 Hl2) (proj1 Hok2 eq_refl)) as Hfree2.
  split; [|done]. split; [|done]. intros _ v. split; [apply Hfree1|apply Hfree2].
Qed.

End TunnelBridge.

End Tiles.

Lemma EnsureNoVehicleOnGround_free_witness :
  EnsureNoVehicleOnGround map_TileX map_TileY (fun _ => VEH_TRAIN) (fun _ => false)
    (fun _ => 0) (fun _ => 0) 1 one_vehicle 5
  = Some (STR_ERROR_TRAIN_IN_THE_WAY_plus VEH_TRAIN).
Proof.
  destruct (EnsureNoVehicleOnGround_free map_TileX map_TileY (fun _ => VEH_TRAIN)
              (fun _ => false) (fun _ => 0) (fun _ => 0) one_vehicle 5
              one_vehicle_well_formed one_vehicle_consistent) as (k & r & _).
  reflexivity.
Defined.

Lemma TunnelBridgeIsFree_free_witness :
  TunnelBridgeIsFree map_TileX map_TileY (fun _ => VEH_TRAIN) 1 one_vehicle 5 6
    (Some 0%nat)
  = Some NoError.
Proof.
  destruct (TunnelBridgeIsFree_free map_TileX map_TileY (fun _ => VEH_TRAIN)
              one_vehicle 5 6 (Some 0%nat)
              one_vehicle_well_formed one_vehicle_consistent) as (k & r & _).
  reflexivity.
Defined.

End Ground.

(** ** Unbunching and lost vehicles: [LeaveUnbunchingDepot],
    [IsWaitingForUnbunching], [HandlePathfindingResult] *)

Module Unbunching.
Import Core.

Definition VehicleID := nat.
Definition OrderRef := nat.

Abbreviation Stopped := Scheduler.Stopped.
Abbreviation Crashed := Scheduler.Crashed.
Abbreviation OT_GOTO_DEPOT := Scheduler.OT_GOTO_DEPOT.

(** The fields of a vehicle that unbunching and the pathfinder result read
    and write.  The round trip time and the lateness are
    [TimerGameTick::Ticks], 32 bits with a sign; the departures are
    [TimerGameTick::TickCounter], 64 bits without.  [PathfinderLost] is the
    flag [VehicleFlag::PathfinderLost] of [vehicle_flags]. *)
Record Vehicle := {
  owner : Z;
  vehstatus : Scheduler.VehState -> bool;
  PathfinderLost : bool;
  cur_implicit_order_index : Z;
  round_trip_time : Z;
  lateness_counter : Z;
  depot_unbunching_last_departure : Z;
  depot_unbunching_next_departure : Z;
}.

Definition set_lateness_counter (x : Z) (v : Vehicle) : Vehicle :=
  {| owner := owner v; vehstatus := vehstatus v; PathfinderLost := PathfinderLost v;
     cur_implicit_order_index := cur_implicit_order_index v;
     round_trip_time := round_trip_time v;
     lateness_counter := x;
     depot_unbunching_last_departure := depot_unbunching_last_departure v;
     depot_unbunching_next_departure := depot_unbunching_next_departure v |}.

Definition set_depot_unbunching_last_departure (x : Z) (v : Vehicle) : Vehicle :=
  {| owner := owner v; vehstatus := vehstatus v; PathfinderLost := PathfinderLost v;
     cur_implicit_order_index := cur_implicit_order_index v;
     round_trip_time := round_trip_time v;
     lateness_counter := lateness_counter v;
     depot_unbunching_last_departure := x;
     depot_unbunching_next_departure := depot_unbunching_next_departure v |}.

Definition set_depot_unbunching_next_departure (x : Z) (v : Vehicle) : Vehicle :=
  {| owner := owner v; vehstatus := vehstatus v; PathfinderLost := PathfinderLost v;
     cur_implicit_order_index := cur_implicit_order_index v;
     round_trip_time := round_trip_time v;
     lateness_counter := lateness_counter v;
     depot_unbunching_last_departure := depot_unbunching_last_departure v;
     depot_unbunching_next_departure := x |}.

Definition set_round_trip_time (x : Z) (v : Vehicle) : Vehicle :=
  {| owner := owner v; vehstatus := vehstatus v; PathfinderLost := PathfinderLost v;
     cur_implicit_order_index := cur_implicit_order_index v;
     round_trip_time := x;
     lateness_counter := lateness_counter v;
     depot_unbunching_last_departure := depot_unbunching_last_departure v;
     depot_unbunching_next_departure := depot_unbunching_next_departure v |}.

Definition set_PathfinderLost (x : bool) (v : Vehicle) : Vehicle :=
  {| owner := owner v; vehstatus := vehstatus v; PathfinderLost := x;
     cur_implicit_order_index := cur_implicit_order_index v;
     round_trip_time := round_trip_time v;
     lateness_counter := lateness_counter v;
     depot_unbunching_last_departure := depot_unbunching_last_departure v;
     depot_unbunching_next_departure := depot_unbunching_next_departure v |}.

(** Modelled from the spec: [Vehicle::ResetDepotUnbunching] (vehicle_base.h)
    clears the unbunching data: the recorded departure, the departure
    allowed next and the smoothed round trip. *)
Definition ResetDepotUnbunching (v : Vehicle) : Vehicle :=
  set_round_trip_time 0
    (set_depot_unbunching_next_departure 0
       (set_depot_unbunching_last_departure 0 v)).

(** The vehicles and [TimerGameTick::counter]. *)
Record State := {
  vehicles : VehicleID -> Vehicle;
  counter : Z;
}.

Definition update (id : VehicleID) (f : Vehicle -> Vehicle) (s : State) : State :=
  {| vehicles := <[id := f (vehicles s id)]> (vehicles s); counter := counter s |}.

Definition set_counter (now : Z) (s : State) : State :=
  {| vehicles := vehicles s; counter := now |}.

Definition to_int32 : Z -> Z := Scheduler.to_int32.
Definition to_uint64 : Z -> Z := Scheduler.to_uint64.

Section Orders.

(** The order list of a vehicle, as the accessors of [Vehicle] show it: the
    order at an index, the first and the last order (none when there is no
    such order), the number of orders, whether the list is shared, and the
    vehicles that share it, in the order in which [FirstShared] and
    [NextShared] run through them.  [IsInDepot] is a virtual method. *)
Variable GetOrder : VehicleID -> Z -> option OrderRef.
Variable GetFirstOrder : VehicleID -> option OrderRef.
Variable GetLastOrder : VehicleID -> option OrderRef.
Variable order_at : OrderRef -> Scheduler.Order.
Variable GetNumOrders : VehicleID -> Z.
Variable IsOrderListShared : VehicleID -> bool.
Variable shared : VehicleID -> list VehicleID.
Variable IsInDepot : VehicleID -> bool.

Definition PreviousOrderIsUnbunching (v : VehicleID) (s : State) : bool :=
  let r := vehicles s v in
  let is_first_order :=
    bool_decide (GetOrder v (cur_implicit_order_index r) = GetFirstOrder v) in
  let previous_order :=
    if is_first_order then GetLastOrder v
    else GetOrder v (cur_implicit_order_index r - 1) in
  match previous_order with
  | None => false
  | Some o =>
      if negb (bool_decide (Scheduler.order_type (order_at o) = OT_GOTO_DEPOT))
      then false
      else Scheduler.unbunch (order_at o)
  end.

(** [u->vehstatus.Any({VehState::Stopped, VehState::Crashed})] *)
Definition halted (r : Vehicle) : bool := vehstatus r Stopped || vehstatus r Crashed.

(** The first loop: the number of vehicles and their total travel time. *)
Definition tally (s : State) (l : list VehicleID) : Z * Z :=
  foldl (fun '(num_vehicles, total_travel_time) u =>
           if halted (vehicles s u) then (num_vehicles, total_travel_time)
           else (to_int32 (num_vehicles + 1),
                 to_int32 (total_travel_time + round_trip_time (vehicles s u))))
        (0, 0) l.

(** The second loop: the next departure of the vehicles. *)
Definition announce (next_departure : Z) (l : list VehicleID) (s : State) : State :=
  foldl (fun s u =>
           if halted (vehicles s u) then s
           else update u (set_depot_unbunching_next_departure next_departure) s)
        s l.

(** The windows that are marked dirty have no part in the state. *)
Definition LeaveUnbunchingDepot (this : VehicleID) (s : State) : State :=
  if negb (PreviousOrderIsUnbunching this s) then s
  else
    let s1 := update this (set_depot_unbunching_last_departure (counter s)) s in
    let s2 := update this (set_lateness_counter 0) s1 in
    let '(num_vehicles, total_travel_time) := tally s2 (shared this) in
    let num_vehicles := Z.max num_vehicles 1 in
    let separation :=
      Z.max (to_int32 (to_int32 (total_travel_time ÷ num_vehicles) ÷ num_vehicles)) 1 in
    let next_departure := to_uint64 (counter s2 + separation) in
    announce next_departure (shared this) s2.

(** [None] is the failure of the assertion that the vehicle is in a depot. *)
Definition IsWaitingForUnbunching (this : VehicleID) (s : State) : option bool :=
  if negb (IsInDepot this) then None
  else if negb (IsOrderListShared this) then Some false
  else if GetNumOrders this <=? 1 then Some false
  else if negb (PreviousOrderIsUnbunching this s) then Some false
  else Some (counter s <? depot_unbunching_next_departure (vehicles s this)).

(** The vehicles of a list that take part, and their round trip times. *)
Definition takers (s : State) (l : list VehicleID) : list VehicleID :=
  filter (fun u => halted (vehicles s u) = false) l.

Definition travel (s : State) (l : list VehicleID) : Z :=
  foldr (fun u t => round_trip_time (vehicles s u) + t) 0 (takers s l).

Lemma to_int32_id x : - 2 ^ 31 <= x < 2 ^ 31 -> to_int32 x = x.
Proof.
  intros Hx. unfold to_int32, Scheduler.to_int32.
  rewrite Z.mod_small by lia. lia.
Qed.

Lemma travel_nonneg s l :
  (forall u, u ∈ l -> 0 <= round_trip_time (vehicles s u)) -> 0 <= travel s l.
Proof.
  intros Hpos. unfold travel, takers.
  induction l as [|u l IH]; [done|].
  rewrite filter_cons. destruct (decide _) as [Hh|Hh].
  - simpl. pose proof (Hpos u ltac:(left)).
    assert (0 <= foldr (fun u t => round_trip_time (vehicles s u) + t) 0
                   (filter (fun u => halted (vehicles s u) = false) l)).
    { apply IH. intros ? ?. apply Hpos. by right. }
    lia.
  - apply IH. intros ? ?. apply Hpos. by right.
Qed.

Lemma travel_app s l1 l2 : travel s (l1 ++ l2) = travel s l1 + travel s l2.
Proof.
  unfold travel, takers. rewrite filter_app.
  induction (filter _ l1) as [|u l IH]; simpl; lia.
Qed.

Lemma takers_app s l1 l2 : takers s (l1 ++ l2) = takers s l1 ++ takers s l2.
Proof. unfold takers. by rewrite filter_app. Qed.

Lemma takers_single s u :
  (halted (vehicles s u) = true /\ takers s [u] = [] /\ travel s [u] = 0) \/
  (halted (vehicles s u) = false /\ takers s [u] = [u] /\
   travel s [u] = round_trip_time (vehicles s u)).
Proof.
  unfold travel, takers. rewrite filter_cons, filter_nil.
  destruct (halted (vehicles s u)) eqn:Hh.
  - left. rewrite decide_False by done. done.
  - right. rewrite decide_True by done. simpl. split; [done|]. split; [done|lia].
Qed.

(** Without overflow the first loop counts the takers and adds up their
    round trip times. *)
Lemma tally_spec s l :
  (forall u, u ∈ l -> 0 <= round_trip_time (vehicles s u)) ->
  Z.of_nat (length l) < 2 ^ 31 -> travel s l < 2 ^ 31 ->
  tally s l = (Z.of_nat (length (takers s l)), travel s l).
Proof.
  unfold tally. induction l as [|u l IH] using rev_ind; intros Hpos Hlen Htot.
  { done. }
  rewrite length_app in Hlen. simpl in Hlen.
  rewrite travel_app in Htot.
  assert (Hposl : forall u, u ∈ l -> 0 <= round_trip_time (vehicles s u)).
  { intros ? ?. apply Hpos, elem_of_app. by left. }
  pose proof (travel_nonneg s l Hposl) as Hl0.
  assert (Hu0 : 0 <= travel s [u]).
  { apply travel_nonneg. intros ? ->%list_elem_of_singleton.
    apply Hpos, elem_of_app. right. by left. }
  rewrite foldl_app. simpl. rewrite IH by (done || lia).
  rewrite takers_app, travel_app, length_app.
  pose proof (length_filter (fun u => halted (vehicles s u) = false) l) as Hfl.
  fold (takers s l) in Hfl.
  destruct (takers_single s u) as [(Hh & -> & Hone)|(Hh & -> & Hone)];
    rewrite Hone in *; rewrite Hh; simpl.
  - f_equal; lia.
  - rewrite !to_int32_id by lia. f_equal; lia.
Qed.

Lemma unbunch_update_same u f s : vehicles (update u f s) u = f (vehicles s u).
Proof. unfold update. simpl. by rewrite fn_lookup_insert. Qed.

Lemma unbunch_update_other u j f s :
  j <> u -> vehicles (update u f s) j = vehicles s j.
Proof. intros Hj. unfold update. simpl. by rewrite fn_lookup_insert_ne. Qed.

(** The second loop gives the departure to the takers of the list and
    changes nothing else. *)
Lemma announce_spec d l : forall s,
  let s' := announce d l s in
  counter s' = counter s /\
  forall j,
    vehicles s' j =
      if bool_decide (j ∈ l) && negb (halted (vehicles s j))
      then set_depot_unbunching_next_departure d (vehicles s j)
      else vehicles s j.
Proof.
  induction l as [|u l IH] using rev_ind; intros s.
  { split; [done|]. intros j. rewrite bool_decide_eq_false_2 by apply not_elem_of_nil.
    done. }
  unfold announce. rewrite foldl_app. fold (announce d l s). simpl.
  destruct (IH s) as [Hc Hv]. clear IH.
  set (s1 := announce d l s) in *.
  assert (Hhalt : halted (vehicles s1 u) = halted (vehicles s u)).
  { rewrite Hv. by destruct (_ && _). }
  rewrite Hhalt.
  destruct (halted (vehicles s u)) eqn:Hh.
  - split; [done|]. intros j. rewrite Hv.
    destruct (decide (j = u)) as [->|Hne].
    + rewrite Hh. cbn [negb]. by rewrite !andb_false_r.
    + assert (Hiff : j ∈ l ++ [u] <-> j ∈ l).
      { rewrite elem_of_app, list_elem_of_singleton. tauto. }
      by rewrite (bool_decide_ext _ _ Hiff).
  - split; [done|]. intros j.
    destruct (decide (j = u)) as [->|Hne].
    + rewrite unbunch_update_same, Hv, Hh. cbn [negb].
      rewrite (bool_decide_eq_true_2 (u ∈ l ++ [u]))
        by (apply elem_of_app; right; by left).
      rewrite andb_true_r. cbn [andb]. by destruct (bool_decide (u ∈ l)).
    + rewrite unbunch_update_other, Hv by done.
      assert (Hiff : j ∈ l ++ [u] <-> j ∈ l).
      { rewrite elem_of_app, list_elem_of_singleton. tauto. }
      by rewrite (bool_decide_ext _ _ Hiff).
Qed.

(** X17: a vehicle that leaves the depot of its unbunching order starts its
    round trip now and is on time again; every vehicle that shares its
    orders and is neither stopped nor crashed gets the same next departure,
    which lies [separation] ticks ahead, where [separation] is the mean
    round trip time of these vehicles divided by their number, and 1 tick at
    least; stopped and crashed vehicles and vehicles of other order lists
    keep theirs.  Such a vehicle that stands in a depot after its own
    unbunching order then waits exactly until that tick. *)
Theorem LeaveUnbunchingDepot_separation (this : VehicleID) (s : State) :
  let l := shared this in
  let n := Z.max (Z.of_nat (length (takers s l))) 1 in
  let separation := Z.max ((travel s l `div` n) `div` n) 1 in
  PreviousOrderIsUnbunching this s = true ->
  (forall u, u ∈ l -> 0 <= round_trip_time (vehicles s u)) ->
  Z.of_nat (length l) < 2 ^ 31 -> travel s l < 2 ^ 31 ->
  0 <= counter s < 2 ^ 64 - 2 ^ 31 ->
  let s' := LeaveUnbunchingDepot this s in
  counter s' = counter s /\
  depot_unbunching_last_departure (vehicles s' this) = counter s /\
  lateness_counter (vehicles s' this) = 0 /\
  (forall u, u ∈ l -> halted (vehicles s u) = false ->
     depot_unbunching_next_departure (vehicles s' u) = counter s + separation) /\
  (forall u, u ∉ l \/ halted (vehicles s u) = true ->
     depot_unbunching_next_departure (vehicles s' u)
     = depot_unbunching_next_departure (vehicles s u)) /\
  (forall u, u <> this -> u ∉ l \/ halted (vehicles s u) = true ->
     vehicles s' u = vehicles s u) /\
  (forall u now,
     u ∈ l -> halted (vehicles s u) = false ->
     IsInDepot u = true -> IsOrderListShared u = true -> 1 < GetNumOrders u ->
     PreviousOrderIsUnbunching u s = true ->
     IsWaitingForUnbunching u (set_counter now s')
     = Some (bool_decide (now < counter s + separation))).
Proof.
  intros l n separation Hprev Hpos Hlen Htot Hnow s'.
  set (s1 := update this (set_depot_unbunching_last_departure (counter s)) s).
  set (s2 := update this (set_lateness_counter 0) s1).
  assert (Hs2 : forall j,
            vehstatus (vehicles s2 j) = vehstatus (vehicles s j) /\
            round_trip_time (vehicles s2 j) = round_trip_time (vehicles s j) /\
            cur_implicit_order_index (vehicles s2 j)
            = cur_implicit_order_index (vehicles s j) /\
            depot_unbunching_next_departure (vehicles s2 j)
            = depot_unbunching_next_departure (vehicles s j) /\
            (j <> this -> vehicles s2 j = vehicles s j)).
  { intros j. unfold s2, s1. destruct (decide (j = this)) as [->|Hne].
    - rewrite !unbunch_update_same. done.
    - rewrite !unbunch_update_other by done. done. }
  assert (Hhalt2 : forall j, halted (vehicles s2 j) = halted (vehicles s j)).
  { intros j. unfold halted. destruct (Hs2 j) as (-> & _). done. }
  assert (Htk : takers s2 l = takers s l).
  { unfold takers. apply list_filter_iff. intros u. by rewrite Hhalt2. }
  assert (Htr : travel s2 l = travel s l).
  { unfold travel. rewrite Htk. apply foldr_ext; [|done..].
    intros u t. destruct (Hs2 u) as (_ & -> & _). done. }
  assert (Htally : tally s2 l = (Z.of_nat (length (takers s l)), travel s l)).
  { rewrite tally_spec, Htk, Htr; [done|..].
    - intros u Hu. destruct (Hs2 u) as (_ & -> & _). by apply Hpos.
    - done.
    - by rewrite Htr. }
  pose proof (travel_nonneg s l Hpos) as Ht0.
  pose proof (length_filter (fun u => halted (vehicles s u) = false) l) as Hfl.
  fold (takers s l) in Hfl.
  assert (Hn : 1 <= n < 2 ^ 31) by (unfold n; lia).
  assert (Hq1 : 0 <= travel s l `div` n <= travel s l).
  { split; [apply Z.div_pos; lia|]. apply Z.div_le_upper_bound; nia. }
  assert (Hq2 : 0 <= (travel s l `div` n) `div` n <= travel s l `div` n).
  { split; [apply Z.div_pos; lia|]. apply Z.div_le_upper_bound; nia. }
  assert (Hsep : Z.max (to_int32 (to_int32 (travel s l ÷ n) ÷ n)) 1 = separation).
  { unfold separation. rewrite (Z.quot_div_nonneg (travel s l) n) by lia.
    rewrite (to_int32_id (travel s l `div` n)) by lia.
    rewrite Z.quot_div_nonneg by lia.
    rewrite to_int32_id by lia. done. }
  assert (Hseprange : 1 <= separation < 2 ^ 31) by (unfold separation; lia).
  assert (Hrun : s' = announce (counter s + separation) l s2).
  { unfold s', LeaveUnbunchingDepot. rewrite Hprev. cbn [negb].
    fold s1. fold s2. fold l. rewrite Htally. fold n. rewrite Hsep.
    unfold to_uint64, Scheduler.to_uint64.
    change (counter s2) with (counter s). rewrite Z.mod_small by lia. done. }
  destruct (announce_spec (counter s + separation) l s2) as [Hc Hv].
  rewrite <- Hrun in Hc, Hv.
  split; [exact Hc|].
  assert (Hthis : depot_unbunching_last_departure (vehicles s2 this) = counter s /\
                  lateness_counter (vehicles s2 this) = 0).
  { unfold s2, s1. by rewrite !unbunch_update_same. }
  destruct Hthis as [Hlast Hlate].
  split.
  { rewrite Hv. by destruct (_ && _). }
  split.
  { rewrite Hv. by destruct (_ && _). }
  assert (Hnext : forall u, u ∈ l -> halted (vehicles s u) = false ->
            depot_unbunching_next_departure (vehicles s' u) = counter s + separation).
  { intros u Hu Hh. rewrite Hv, Hhalt2, Hh, bool_decide_eq_true_2 by done. done. }
  split; [exact Hnext|].
  split.
  { intros u Hu. rewrite Hv, Hhalt2.
    destruct Hu as [Hu|Hu].
    - rewrite bool_decide_eq_false_2 by done. cbn [andb].
      by destruct (Hs2 u) as (_ & _ & _ & ? & _).
    - rewrite Hu, andb_false_r. by destruct (Hs2 u) as (_ & _ & _ & ? & _). }
  split.
  { intros u Hne Hu. rewrite Hv, Hhalt2.
    destruct (Hs2 u) as (_ & _ & _ & _ & Hsame).
    destruct Hu as [Hu|Hu].
    - rewrite bool_decide_eq_false_2 by done. cbn [andb]. by apply Hsame.
    - rewrite Hu, andb_false_r. by apply Hsame. }
  intros u now Hu Hh Hdepot Hshared Hnum Hpu.
  unfold IsWaitingForUnbunching. rewrite Hdepot, Hshared. cbn [negb].
  destruct (Z.leb_spec (GetNumOrders u) 1) as [|_]; [lia|].
  assert (Hprev' : PreviousOrderIsUnbunching u (set_counter now s') = true).
  { rewrite <- Hpu. unfold PreviousOrderIsUnbunching. cbn [vehicles set_counter].
    rewrite Hv. destruct (Hs2 u) as (_ & _ & Hidx & _).
    destruct (_ && _); cbn [cur_implicit_order_index set_depot_unbunching_next_departure];
      by rewrite Hidx. }
  rewrite Hprev'. cbn [negb set_counter counter vehicles].
  rewrite (Hnext u Hu Hh). f_equal.
  destruct (Z.ltb_spec now (counter s + separation)).
  - by rewrite bool_decide_eq_true_2.
  - rewrite bool_decide_eq_false_2; [done|lia].
Qed.

(** *** The result of the pathfinder *)

Inductive Event :=
| EvSetWindowWidgetDirty (v : VehicleID)
| EvInvalidateWindowClassesData (v : VehicleID)
| EvDeleteVehicleNews (v : VehicleID)
| EvAIVehicleLost (company : Z) (v : VehicleID)
| EvNewsVehicleLost (v : VehicleID).

(** [_settings_client.gui.lost_vehicle_warn] and the local company. *)
Variable lost_vehicle_warn : bool.
Variable _local_company : Z.

Definition HandlePathfindingResult (this : VehicleID) (path_found : bool)
    (s : State) : list Event * State :=
  let r := vehicles s this in
  if path_found then
    if negb (PathfinderLost r) then ([], s)
    else
      ([EvSetWindowWidgetDirty this; EvInvalidateWindowClassesData this;
        EvDeleteVehicleNews this],
       update this (set_PathfinderLost false) s)
  else
    if PathfinderLost r then ([], s)
    else
      let s1 := update this (set_PathfinderLost true) s in
      let s2 := update this ResetDepotUnbunching s1 in
      ([EvSetWindowWidgetDirty this; EvInvalidateWindowClassesData this;
        EvAIVehicleLost (owner r) this] ++
       (if lost_vehicle_warn && bool_decide (owner r = _local_company)
        then [EvNewsVehicleLost this] else []),
       s2).

(** The results of the pathfinder for one vehicle, one call after the other. *)
Fixpoint pathfinding (this : VehicleID) (results : list bool) (s : State)
    : list Event * State :=
  match results with
  | [] => ([], s)
  | path_found :: rest =>
      let '(tr1, s1) := HandlePathfindingResult this path_found s in
      let '(tr2, s2) := pathfinding this rest s1 in
      (tr1 ++ tr2, s2)
  end.

(** What the script and the news hear of: [true] for the event that the
    vehicle is lost, [false] for the removal of the news about it. *)
Definition mark (e : Event) : option bool :=
  match e with
  | EvAIVehicleLost _ _ => Some true
  | EvDeleteVehicleNews _ => Some false
  | _ => None
  end.

Definition is_news (e : Event) : bool :=
  match e with EvNewsVehicleLost _ => true | _ => false end.

Fixpoint alternates (l : list bool) : bool :=
  match l with
  | x :: t => match t with
              | y :: _ => negb (Bool.eqb x y) && alternates t
              | [] => true
              end
  | [] => true
  end.

Definition count {A} (f : A -> bool) (l : list A) : nat := length (filter (fun x => f x = true) l).

Lemma count_app {A} (f : A -> bool) l1 l2 : count f (l1 ++ l2) = (count f l1 + count f l2)%nat.
Proof. unfold count. by rewrite filter_app, length_app. Qed.

Lemma HandlePathfindingResult_step this path_found s :
  let lost := PathfinderLost (vehicles s this) in
  let '(tr, s') := HandlePathfindingResult this path_found s in
  PathfinderLost (vehicles s' this) = negb path_found /\
  omap mark tr = (if Bool.eqb lost (negb path_found) then [] else [negb path_found]) /\
  (count is_news tr <= count id (omap mark tr))%nat /\
  (lost_vehicle_warn = false \/ owner (vehicles s this) <> _local_company ->
   count is_news tr = 0%nat) /\
  owner (vehicles s' this) = owner (vehicles s this) /\
  (forall j, j <> this -> vehicles s' j = vehicles s j) /\
  counter s' = counter s.
Proof.
  intros lost. unfold HandlePathfindingResult. fold lost.
  destruct path_found, lost eqn:Hlost; cbn [negb Bool.eqb].
  - rewrite unbunch_update_same.
    repeat split; try done; try (vm_compute; lia);
      try (intros j Hj; by rewrite unbunch_update_other).
  - repeat split; try done; by rewrite <- Hlost.
  - repeat split; try done; by rewrite <- Hlost.
  - rewrite !unbunch_update_same.
    split; [done|]. split.
    { by destruct (_ && _). }
    split.
    { destruct (_ && _); vm_compute; lia. }
    split.
    { intros [->|Hne]; [done|].
      rewrite (bool_decide_eq_false_2 _ Hne), andb_false_r. done. }
    split; [done|]. split; [|done].
    intros j Hj. by rewrite !unbunch_update_other.
Qed.

Lemma alternates_cons x l :
  alternates (x :: l) = true ->
  alternates (negb x :: x :: l) = true.
Proof.
  intros H. change (negb (Bool.eqb (negb x) x) && alternates (x :: l) = true).
  rewrite H. by destruct x.
Qed.

(** X18: over any sequence of results of the pathfinder for a vehicle, the
    event that the vehicle is lost and the removal of the news about it take
    turns, beginning with the one that changes the state the vehicle is in:
    a vehicle that stays lost is reported once, and the news is removed once
    when it finds its way again.  The flag ends as the last result says:
    set when no path was found.  There are never more news items than
    events, and none for a vehicle of another company or when the warning is
    switched off; no other vehicle is touched. *)
Theorem HandlePathfindingResult_takes_turns (this : VehicleID)
    (results : list bool) (s : State) :
  let lost := PathfinderLost (vehicles s this) in
  let '(tr, s') := pathfinding this results s in
  let changes := omap mark tr in
  alternates (lost :: changes) = true /\
  last (lost :: changes) = Some (PathfinderLost (vehicles s' this)) /\
  PathfinderLost (vehicles s' this) = from_option negb lost (last results) /\
  (count is_news tr <= count id changes)%nat /\
  (lost_vehicle_warn = false \/ owner (vehicles s this) <> _local_company ->
   count is_news tr = 0%nat) /\
  (forall j, j <> this -> vehicles s' j = vehicles s j) /\
  counter s' = counter s.
Proof.
  revert s. induction results as [|b rest IH]; intros s lost.
  { cbn. unfold lost. repeat split; try done. }
  cbn [pathfinding].
  pose proof (HandlePathfindingResult_step this b s) as Hstep. cbv zeta in Hstep.
  destruct (HandlePathfindingResult this b s) as [tr1 s1].
  destruct Hstep as (Hflag & Hmark & Hnews & Hquiet & Hown & Hother & Hcnt).
  specialize (IH s1). cbv zeta in IH.
  destruct (pathfinding this rest s1) as [tr2 s2].
  destruct IH as (Halt & Hlast & Hend & Hnews2 & Hquiet2 & Hother2 & Hcnt2).
  cbv zeta. rewrite omap_app, Hmark, !count_app.
  fold lost in Hmark |- *. rewrite Hflag in Halt, Hlast.
  split.
  { destruct (Bool.eqb lost (negb b)) eqn:He.
    - apply Bool.eqb_prop in He. rewrite He. exact Halt.
    - cbn [app]. replace lost with (negb (negb b)).
      + by apply alternates_cons.
      + destruct lost, b; done. }
  split.
  { destruct (Bool.eqb lost (negb b)) eqn:He.
    - apply Bool.eqb_prop in He. rewrite He. exact Hlast.
    - cbn [app]. rewrite <- Hlast. done. }
  split.
  { rewrite Hend, Hflag. destruct rest as [|b' rest']; [done|].
    change (last (b :: b' :: rest')) with (last (b' :: rest')).
    destruct (last (b' :: rest')) eqn:Hl; [done|]. by apply last_None in Hl. }
  split.
  { rewrite Hmark in Hnews. lia. }
  split.
  { intros Hq. rewrite Hquiet by done. rewrite Hquiet2; [done|].
    rewrite Hown. exact Hq. }
  split; [|congruence].
  intros j Hj. rewrite Hother2, Hother by done. done.
Qed.

End Orders.

(** Three vehicles share two orders, of which the second is the unbunching
    order of the depot; vehicle 2 is stopped.  Vehicle 0 leaves the depot at
    tick 1000, the round trips of the other two take 400 and 600 ticks. *)
Definition unbunch_order : Scheduler.Order :=
  {| Scheduler.order_type := OT_GOTO_DEPOT; Scheduler.part_of_orders := true;
     Scheduler.halt := false; Scheduler.nearest_depot := false;
     Scheduler.unbunch := true; Scheduler.IsRefit := false;
     Scheduler.GetRefitCargo := 0; Scheduler.GetDestination := 0 |}.

Definition sharing (stopped : bool) (round_trip : Z) : Vehicle :=
  {| owner := 0; vehstatus := fun f => if decide (f = Stopped) then stopped else false;
     PathfinderLost := false; cur_implicit_order_index := 0; round_trip_time := round_trip;
     lateness_counter := 7; depot_unbunching_last_departure := 0;
     depot_unbunching_next_departure := 0 |}.

Definition line : State :=
  {| vehicles := fun u => match u with
                          | O => sharing false 400
                          | S O => sharing false 600
                          | _ => sharing true 5000
                          end;
     counter := 1000 |}.

Definition line_GetOrder (v : VehicleID) (i : Z) : option OrderRef :=
  if bool_decide (i = 0) then Some 0%nat
  else if bool_decide (i = 1) then Some 1%nat else None.

Lemma LeaveUnbunchingDepot_separation_witness :
  depot_unbunching_next_departure
    (vehicles
       (LeaveUnbunchingDepot line_GetOrder (fun _ => Some 0%nat) (fun _ => Some 1%nat)
          (fun _ => unbunch_order) (fun _ => [0; 1; 2]%nat) 0%nat line) 1%nat)
  = 1250.
Proof.
  pose proof (LeaveUnbunchingDepot_separation line_GetOrder (fun _ => Some 0%nat)
                (fun _ => Some 1%nat) (fun _ => unbunch_order) (fun _ => 2)
                (fun _ => true) (fun _ => [0; 1; 2]%nat) (fun _ => true)
                0%nat line) as Hthm.
  cbv zeta in Hthm.
  destruct Hthm as (_ & _ & _ & Hnext & _).
  - vm_compute. reflexivity.
  - intros u Hu. destruct u as [|[|u]]; vm_compute; intros Habs; discriminate Habs.
  - vm_compute. reflexivity.
  - vm_compute. reflexivity.
  - vm_compute. split; [intros Habs; discriminate Habs|reflexivity].
  - etrans; [apply (Hnext 1%nat)|].
    + right. left.
    + vm_compute. reflexivity.
    + vm_compute. reflexivity.
Defined.

End Unbunching.

(** ** The bounds of a sprite sequence: [VehicleSpriteSeq::GetBounds] *)

Module SpriteBounds.
Import Core.

Abbreviation Rect := NearTile.Rect.
Abbreviation rect_left := NearTile.rect_left.
Abbreviation rect_top := NearTile.rect_top.
Abbreviation rect_right := NearTile.rect_right.
Abbreviation rect_bottom := NearTile.rect_bottom.
Abbreviation to_int := NearTile.to_int.

Definition SpriteID := nat.

(** The header of a sprite: sizes of 16 bits without a sign, offsets of 16
    bits with one. *)
Record Sprite := {
  height : Z;
  width : Z;
  x_offs : Z;
  y_offs : Z;
}.

Definition in_range (spr : Sprite) : Prop :=
  0 <= height spr < 2 ^ 16 /\ 0 <= width spr < 2 ^ 16 /\
  - 2 ^ 15 <= x_offs spr < 2 ^ 15 /\ - 2 ^ 15 <= y_offs spr < 2 ^ 15.

Section Sprites.

(** [GetSprite(sprite, SpriteType::Normal)] *)
Variable GetSprite : SpriteID -> Sprite.

(** The body of the loop for the sprite at index [i]. *)
Definition include (i : nat) (spr : Sprite) (bounds : Rect) : Rect :=
  if decide (i = 0%nat) then
    {| NearTile.rect_left := x_offs spr;
       NearTile.rect_top := y_offs spr;
       NearTile.rect_right := to_int (width spr + x_offs spr - 1);
       NearTile.rect_bottom := to_int (height spr + y_offs spr - 1) |}
  else
    let right := to_int (width spr + x_offs spr - 1) in
    let bottom := to_int (height spr + y_offs spr - 1) in
    {| NearTile.rect_left :=
         if x_offs spr <? rect_left bounds then x_offs spr else rect_left bounds;
       NearTile.rect_top :=
         if y_offs spr <? rect_top bounds then y_offs spr else rect_top bounds;
       NearTile.rect_right :=
         if rect_right bounds <? right then right else rect_right bounds;
       NearTile.rect_bottom :=
         if rect_bottom bounds <? bottom then bottom else rect_bottom bounds |}.

Fixpoint bounds_loop (i : nat) (seq : list SpriteID) (bounds : Rect) : Rect :=
  match seq with
  | [] => bounds
  | e :: seq => bounds_loop (S i) seq (include i (GetSprite e) bounds)
  end.

(** [seq] holds the first [count] entries of the sequence. *)
Definition GetBounds (seq : list SpriteID) : Rect :=
  bounds_loop 0 seq
    {| NearTile.rect_left := 0; NearTile.rect_top := 0;
       NearTile.rect_right := 0; NearTile.rect_bottom := 0 |}.

(** The edges of a sprite. *)
Definition right_of (spr : Sprite) : Z := width spr + x_offs spr - 1.
Definition bottom_of (spr : Sprite) : Z := height spr + y_offs spr - 1.

(** [r] holds the sprites [l] and each of its edges is the edge of one. *)
Definition hull (l : list Sprite) (r : Rect) : Prop :=
  (forall spr, spr ∈ l ->
     rect_left r <= x_offs spr /\ rect_top r <= y_offs spr /\
     right_of spr <= rect_right r /\ bottom_of spr <= rect_bottom r) /\
  (exists spr, spr ∈ l /\ rect_left r = x_offs spr) /\
  (exists spr, spr ∈ l /\ rect_top r = y_offs spr) /\
  (exists spr, spr ∈ l /\ rect_right r = right_of spr) /\
  (exists spr, spr ∈ l /\ rect_bottom r = bottom_of spr).

Lemma to_int_edge a b :
  0 <= a < 2 ^ 16 -> - 2 ^ 15 <= b < 2 ^ 15 -> to_int (a + b - 1) = a + b - 1.
Proof.
  intros Ha Hb. unfold NearTile.to_int. rewrite Z.mod_small by lia. lia.
Qed.

Lemma include_first spr bounds :
  in_range spr -> hull [spr] (include 0 spr bounds).
Proof.
  intros (Hh & Hw & Hx & Hy). unfold include. rewrite decide_True by done.
  rewrite !to_int_edge by done.
  split.
  { intros ? ->%list_elem_of_singleton. cbn. unfold right_of, bottom_of. lia. }
  repeat split; exists spr; (split; [by left|done]).
Qed.

Lemma include_next i spr seen bounds :
  in_range spr -> hull seen bounds ->
  hull (seen ++ [spr]) (include (S i) spr bounds).
Proof.
  intros (Hh & Hw & Hx & Hy) (Hin & (sl & Hsl & Hl) & (st & Hst & Ht)
                              & (sr & Hsr & Hr) & (sb & Hsb & Hb)).
  unfold include. rewrite decide_False by done. cbv zeta.
  rewrite !to_int_edge by done.
  fold (right_of spr). fold (bottom_of spr).
  split.
  { intros x Hx'. apply elem_of_app in Hx' as [Hx'|Hx']; cbn.
    - destruct (Hin x Hx') as (? & ? & ? & ?).
      repeat case_match; lia.
    - apply list_elem_of_singleton in Hx' as ->.
      destruct (Hin sl Hsl) as (? & _), (Hin sr Hsr) as (_ & _ & ? & _).
      repeat case_match; lia. }
  cbn.
  split.
  { destruct (Z.ltb_spec (x_offs spr) (rect_left bounds)).
    - exists spr. split; [|done]. apply elem_of_app. right. by left.
    - exists sl. split; [|done]. apply elem_of_app. by left. }
  split.
  { destruct (Z.ltb_spec (y_offs spr) (rect_top bounds)).
    - exists spr. split; [|done]. apply elem_of_app. right. by left.
    - exists st. split; [|done]. apply elem_of_app. by left. }
  split.
  { destruct (Z.ltb_spec (rect_right bounds) (right_of spr)).
    - exists spr. split; [|done]. apply elem_of_app. right. by left.
    - exists sr. split; [|done]. apply elem_of_app. by left. }
  destruct (Z.ltb_spec (rect_bottom bounds) (bottom_of spr)).
  - exists spr. split; [|done]. apply elem_of_app. right. by left.
  - exists sb. split; [|done]. apply elem_of_app. by left.
Qed.

Lemma bounds_loop_hull seq : forall i seen bounds,
  Forall (fun e => in_range (GetSprite e)) seq ->
  hull seen bounds ->
  hull (seen ++ (GetSprite <$> seq)) (bounds_loop (S i) seq bounds).
Proof.
  induction seq as [|e seq IH]; intros i seen bounds Hr Hh.
  { cbn. by rewrite app_nil_r. }
  apply Forall_cons in Hr as [He Hr].
  cbn [bounds_loop fmap list_fmap].
  replace (seen ++ GetSprite e :: (GetSprite <$> seq))
    with ((seen ++ [GetSprite e]) ++ (GetSprite <$> seq))
    by (by rewrite <- app_assoc).
  apply IH; [done|]. by apply include_next.
Qed.

Lemma GetBounds_is_hull e seq :
  Forall (fun e => in_range (GetSprite e)) (e :: seq) ->
  hull (GetSprite <$> e :: seq) (GetBounds (e :: seq)).
Proof.
  intros [He Hr]%Forall_cons. unfold GetBounds. cbn [bounds_loop].
  change (GetSprite <$> e :: seq) with ([GetSprite e] ++ (GetSprite <$> seq)).
  apply bounds_loop_hull; [done|]. by apply include_first.
Qed.

(** Two rectangles that are the hull of the same sprites are the same. *)
Lemma hull_unique l l' r r' :
  (forall spr, spr ∈ l <-> spr ∈ l') -> hull l r -> hull l' r' -> r = r'.
Proof.
  intros Hsame (Hin & (sl & Hsl & Hl) & (st & Hst & Ht)
                & (sr & Hsr & Hr) & (sb & Hsb & Hb))
         (Hin' & (sl' & Hsl' & Hl') & (st' & Hst' & Ht')
                & (sr' & Hsr' & Hr') & (sb' & Hsb' & Hb')).
  destruct r as [a b c d], r' as [a' b' c' d']. cbn in *.
  pose proof (Hin sl' (proj2 (Hsame _) Hsl')) as (? & _).
  pose proof (Hin' sl (proj1 (Hsame _) Hsl)) as (? & _).
  pose proof (Hin st' (proj2 (Hsame _) Hst')) as (_ & ? & _).
  pose proof (Hin' st (proj1 (Hsame _) Hst)) as (_ & ? & _).
  pose proof (Hin sr' (proj2 (Hsame _) Hsr')) as (_ & _ & ? & _).
  pose proof (Hin' sr (proj1 (Hsame _) Hsr)) as (_ & _ & ? & _).
  pose proof (Hin sb' (proj2 (Hsame _) Hsb')) as (_ & _ & _ & ?).
  pose proof (Hin' sb (proj1 (Hsame _) Hsb)) as (_ & _ & _ & ?).
  f_equal; lia.
Qed.

(** X19: the bounds of a sequence of sprites are the smallest rectangle that
    holds every sprite of it: no sprite reaches beyond an edge, and every
    edge is the edge of one of the sprites.  For the empty sequence all four
    are 0. *)
Theorem GetBounds_smallest_rectangle (seq : list SpriteID) :
  Forall (fun e => in_range (GetSprite e)) seq ->
  let bounds := GetBounds seq in
  (seq = [] ->
   rect_left bounds = 0 /\ rect_top bounds = 0 /\
   rect_right bounds = 0 /\ rect_bottom bounds = 0) /\
  (seq <> [] ->
   (forall e, e ∈ seq ->
      let spr := GetSprite e in
      rect_left bounds <= x_offs spr /\ rect_top bounds <= y_offs spr /\
      width spr + x_offs spr - 1 <= rect_right bounds /\
      height spr + y_offs spr - 1 <= rect_bottom bounds) /\
   (exists e, e ∈ seq /\ rect_left bounds = x_offs (GetSprite e)) /\
   (exists e, e ∈ seq /\ rect_top bounds = y_offs (GetSprite e)) /\
   (exists e, e ∈ seq /\
      rect_right bounds = width (GetSprite e) + x_offs (GetSprite e) - 1) /\
   (exists e, e ∈ seq /\
      rect_bottom bounds = height (GetSprite e) + y_offs (GetSprite e) - 1)).
Proof.
  intros Hr bounds. split; [by intros ->|]. intros Hne.
  destruct seq as [|e seq]; [done|].
  destruct (GetBounds_is_hull e seq Hr)
    as (Hin & (sl & Hsl & Hl) & (st & Hst & Ht) & (sr & Hsr & Hrr) & (sb & Hsb & Hb)).
  fold bounds in Hin, Hl, Ht, Hrr, Hb.
  split.
  { intros x Hx spr. apply (Hin spr). by apply list_elem_of_fmap_2. }
  apply list_elem_of_fmap in Hsl as (el & -> & ?).
  apply list_elem_of_fmap in Hst as (et & -> & ?).
  apply list_elem_of_fmap in Hsr as (er & -> & ?).
  apply list_elem_of_fmap in Hsb as (eb & -> & ?).
  repeat split; eauto.
Qed.

(** X20: the bounds do not depend on the order of the sprites nor on how often
    one is listed, although the first sprite is treated apart. *)
Theorem GetBounds_any_order (seq seq' : list SpriteID) :
  Forall (fun e => in_range (GetSprite e)) seq ->
  (forall e, e ∈ seq <-> e ∈ seq') ->
  GetBounds seq = GetBounds seq'.
Proof.
  intros Hr Hsame.
  assert (Hr' : Forall (fun e => in_range (GetSprite e)) seq').
  { rewrite Forall_forall in Hr |- *. intros e He. by apply Hr, Hsame. }
  destruct seq as [|e seq], seq' as [|e' seq'].
  - done.
  - exfalso. apply (not_elem_of_nil e'), Hsame. by left.
  - exfalso. apply (not_elem_of_nil e), Hsame. by left.
  - apply (hull_unique (GetSprite <$> e :: seq) (GetSprite <$> e' :: seq')).
    + intros spr. rewrite !list_elem_of_fmap. split.
      * intros (x & -> & Hx). exists x. split; [done|]. by apply Hsame.
      * intros (x & -> & Hx). exists x. split; [done|]. by apply Hsame.
    + by apply GetBounds_is_hull.
    + by apply GetBounds_is_hull.
Qed.

End Sprites.

(** Two sprites: one of 10 by 4 at (-5, -2), one of 2 by 8 at (0, -6). *)
Definition two_sprites (e : SpriteID) : Sprite :=
  match e with
  | O => {| height := 4; width := 10; x_offs := -5; y_offs := -2 |}
  | _ => {| height := 8; width := 2; x_offs := 0; y_offs := -6 |}
  end.

Lemma two_sprites_in_range l : Forall (fun e => in_range (two_sprites e)) l.
Proof.
  apply Forall_forall. intros [|e] _; unfold in_range; cbn; lia.
Qed.

Lemma GetBounds_smallest_rectangle_witness :
  exists e, e ∈ [0; 1]%nat /\
    rect_top (GetBounds two_sprites [0; 1]%nat) = y_offs (two_sprites e).
Proof.
  pose proof (GetBounds_smallest_rectangle two_sprites [0; 1]%nat
                (two_sprites_in_range _)) as Hthm.
  cbv zeta in Hthm. destruct Hthm as (_ & Hhull).
  destruct (Hhull ltac:(done)) as (_ & _ & Htop & _). exact Htop.
Defined.

Lemma GetBounds_any_order_witness :
  GetBounds two_sprites [0; 1]%nat = GetBounds two_sprites [1; 0; 1]%nat.
Proof.
  apply GetBounds_any_order.
  - apply two_sprites_in_range.
  - intros e. rewrite !elem_of_cons. pose proof (not_elem_of_nil e). tauto.
Defined.

End SpriteBounds.

(** ** The value of a vehicle: [DecreaseVehicleValue] *)

Module Depreciation.

(** [v->value -= v->value >> 8] on the 64 bits of [Money]; the shift keeps
    the sign.  The window of the vehicle that is marked dirty is left out. *)
Definition DecreaseVehicleValue (value : Z) : Z := value - Z.shiftr value 8.

Lemma shift_is_div value : Z.shiftr value 8 = value `div` 256.
Proof. by rewrite Z.shiftr_div_pow2. Qed.

Lemma decrease_range value :
  0 <= value ->
  Z.min value 255 <= DecreaseVehicleValue value <= value /\
  (DecreaseVehicleValue value = value <-> value < 256).
Proof.
  intros Hv. unfold DecreaseVehicleValue. rewrite shift_is_div.
  pose proof (Z.div_mod value 256 ltac:(lia)) as Hdm.
  pose proof (Z.mod_pos_bound value 256 ltac:(lia)) as Hm.
  assert (0 <= value `div` 256) by (apply Z.div_pos; lia).
  split; [lia|]. split.
  - intros He. assert (value `div` 256 = 0) by lia. lia.
  - intros Hlt. rewrite Z.div_small by lia. lia.
Qed.

Lemma decrease_lands value (n : nat) :
  0 <= value -> value - 255 <= Z.of_nat n ->
  Nat.iter n DecreaseVehicleValue value = Z.min value 255.
Proof.
  revert value. induction n as [|n IH]; intros value Hv Hn.
  { cbn. lia. }
  rewrite Nat.iter_succ_r.
  destruct (decrease_range value Hv) as [Hr Hfix].
  destruct (decide (value < 256)) as [Hlt|Hge].
  - rewrite (proj2 Hfix Hlt). apply IH; lia.
  - assert (DecreaseVehicleValue value < value).
    { assert (DecreaseVehicleValue value <> value) by (rewrite Hfix; lia). lia. }
    rewrite IH by lia. lia.
Qed.

(** X21: a value that is not negative never rises and never becomes negative;
    it falls by a 256th, rounded down, so that a value below 256 stays as it
    is for ever and a value of 255 or more never falls below 255 and comes to
    rest at exactly 255.  The result always fits the 64 bits of the value. *)
Theorem DecreaseVehicleValue_rests_at_255 (value : Z) :
  0 <= value < 2 ^ 63 ->
  let value' := DecreaseVehicleValue value in
  0 <= value' <= value /\
  value - value' = value `div` 256 /\
  (value' = value <-> value < 256) /\
  (255 <= value -> 255 <= value') /\
  (forall n, Nat.iter n DecreaseVehicleValue value = value <-> n = 0%nat \/ value < 256) /\
  (255 <= value -> exists n, forall m, (n <= m)%nat ->
     Nat.iter m DecreaseVehicleValue value = 255).
Proof.
  intros [Hv _] value'.
  destruct (decrease_range value Hv) as [Hr Hfix]. fold value' in Hr, Hfix.
  split; [lia|].
  split. { unfold value', DecreaseVehicleValue. rewrite shift_is_div. lia. }
  split; [exact Hfix|].
  split; [lia|].
  split.
  { intros n. split.
    - intros Hn. destruct n as [|n]; [by left|]. right.
      destruct (decide (value < 256)) as [|Hge]; [done|]. exfalso.
      assert (Hdown : forall k x, 0 <= x ->
                0 <= Nat.iter k DecreaseVehicleValue x <= x).
      { induction k as [|k IHk]; intros x Hx; [cbn; lia|].
        rewrite Nat.iter_succ_r.
        destruct (decrease_range x Hx) as [? _].
        specialize (IHk (DecreaseVehicleValue x) ltac:(lia)). lia. }
      rewrite Nat.iter_succ_r in Hn.
      assert (value' < value).
      { assert (value' <> value) by (rewrite Hfix; lia). lia. }
      pose proof (Hdown n value' ltac:(lia)). unfold value' in *. lia.
    - intros [->|Hlt]; [done|].
      induction n as [|n IHn]; [done|].
      rewrite Nat.iter_succ_r. unfold value' in Hfix. rewrite (proj2 Hfix Hlt).
      exact IHn. }
  intros H255. exists (Z.to_nat (value - 255)). intros m Hm.
  rewrite decrease_lands by lia. lia.
Qed.

Lemma DecreaseVehicleValue_rests_at_255_witness :
  DecreaseVehicleValue 100000 = 99610.
Proof.
  pose proof (DecreaseVehicleValue_rests_at_255 100000) as Hthm.
  cbv zeta in Hthm. destruct Hthm as (_ & Hdiff & _).
  - vm_compute. split; [intros Habs; discriminate Habs|reflexivity].
  - change (100000 `div` 256) with 390 in Hdiff. lia.
Defined.

End Depreciation.

(** ** Two chains with the same engines: [VehiclesHaveSameEngineList] *)

Module EngineList.

Definition VehicleID := nat.

Section Engines.

(** [GetEngine] gives the engine of a vehicle, compared as a pointer, and
    [GetNextVehicle] the next vehicle of the chain that is no articulated
    part and no rear half of a multiheaded engine. *)
Context {Engine : Type} `{EqDecision Engine}.
Variable GetEngine : VehicleID -> Engine.
Variable GetNextVehicle : VehicleID -> option VehicleID.

Fixpoint VehiclesHaveSameEngineList (fuel : nat) (v1 v2 : option VehicleID)
    : option bool :=
  match fuel with
  | O => None
  | S fuel =>
      match v1, v2 with
      | None, None => Some true
      | None, Some _ | Some _, None => Some false
      | Some a, Some b =>
          if decide (GetEngine a <> GetEngine b) then Some false
          else VehiclesHaveSameEngineList fuel (GetNextVehicle a) (GetNextVehicle b)
      end
  end.

(** The vehicles that [GetNextVehicle] passes from a vehicle on. *)
Inductive vehicles_from : option VehicleID -> list VehicleID -> Prop :=
| from_null : vehicles_from None []
| from_vehicle v l :
    vehicles_from (GetNextVehicle v) l -> vehicles_from (Some v) (v :: l).

Lemma same_engines_spec l1 : forall v1 v2 l2 fuel,
  vehicles_from v1 l1 -> vehicles_from v2 l2 ->
  (Nat.min (length l1) (length l2) < fuel)%nat ->
  VehiclesHaveSameEngineList fuel v1 v2
  = Some (bool_decide (GetEngine <$> l1 = GetEngine <$> l2)).
Proof.
  induction l1 as [|a l1 IH]; intros v1 v2 l2 fuel H1 H2 Hfuel.
  - inversion H1; subst. destruct fuel as [|fuel]; [simpl in Hfuel; lia|].
    inversion H2; subst; by simpl.
  - inversion H1; subst.
    inversion H2 as [|b l2' Hb]; subst.
    + destruct fuel as [|fuel]; [simpl in Hfuel; lia|]. by simpl.
    + destruct fuel as [|fuel]; [simpl in Hfuel; lia|]. cbn [VehiclesHaveSameEngineList].
      simpl in Hfuel.
      destruct (decide (GetEngine a <> GetEngine b)) as [Hne|Heq].
      * rewrite bool_decide_eq_false_2; [done|]. cbn. intros [= ? ?]. done.
      * apply dec_stable in Heq.
        rewrite (IH _ _ l2' fuel) by (done || lia).
        f_equal. apply bool_decide_ext. cbn. rewrite Heq. split.
        -- by intros ->.
        -- by intros [= ?].
Qed.

(** X25: for two chains that end, [VehiclesHaveSameEngineList] returns after
    one step more than the shorter chain has vehicles, and answers true
    exactly when both chains have the same number of vehicles and the same
    engines, vehicle by vehicle.  So it does not matter which chain is given
    first, and every chain has the same engines as itself. *)
Theorem VehiclesHaveSameEngineList_compares (v1 v2 : option VehicleID)
    (l1 l2 : list VehicleID) (fuel : nat) :
  vehicles_from v1 l1 -> vehicles_from v2 l2 ->
  (Nat.min (length l1) (length l2) < fuel)%nat ->
  let same := VehiclesHaveSameEngineList fuel v1 v2 in
  (same = Some true \/ same = Some false) /\
  (same = Some true <->
     length l1 = length l2 /\
     forall i a b, l1 !! i = Some a -> l2 !! i = Some b -> GetEngine a = GetEngine b) /\
  VehiclesHaveSameEngineList fuel v2 v1 = same /\
  VehiclesHaveSameEngineList (S (length l1)) v1 v1 = Some true.
Proof.
  intros H1 H2 Hfuel same. unfold same.
  rewrite (same_engines_spec l1 v1 v2 l2 fuel H1 H2 Hfuel).
  rewrite (same_engines_spec l2 v2 v1 l1 fuel H2 H1) by lia.
  rewrite (same_engines_spec l1 v1 v1 l1 _ H1 H1) by lia.
  split; [destruct (bool_decide _); auto|].
  split.
  - split.
    + intros [= Heq%bool_decide_eq_true_1]. split.
      * apply (f_equal length) in Heq. by rewrite !length_fmap in Heq.
      * intros i a b Ha Hb.
        assert (Hi : (GetEngine <$> l1) !! i = Some (GetEngine a))
          by (by rewrite list_lookup_fmap, Ha).
        rewrite Heq, list_lookup_fmap, Hb in Hi. by injection Hi.
    + intros [Hlen Hsame]. f_equal. apply bool_decide_eq_true_2.
      apply list_eq. intros i. rewrite !list_lookup_fmap.
      destruct (l1 !! i) as [a|] eqn:Ha, (l2 !! i) as [b|] eqn:Hb; cbn.
      * f_equal. by apply (Hsame i).
      * apply lookup_lt_Some in Ha. apply lookup_ge_None in Hb. lia.
      * apply lookup_lt_Some in Hb. apply lookup_ge_None in Ha. lia.
      * done.
  - split.
    + f_equal. apply bool_decide_ext. split; by intros ->.
    + by rewrite bool_decide_eq_true_2.
Qed.

End Engines.

(** Two trains of two vehicles each, 0 before 1 and 2 before 3; the engine
    of a vehicle is its number modulo 2. *)
Definition two_trains (v : VehicleID) : option VehicleID :=
  match v with
  | 0%nat => Some 1%nat
  | 2%nat => Some 3%nat
  | _ => None
  end.

Lemma VehiclesHaveSameEngineList_compares_witness :
  VehiclesHaveSameEngineList (fun v => (v `mod` 2)%nat) two_trains 3
    (Some 2%nat) (Some 0%nat)
  = VehiclesHaveSameEngineList (fun v => (v `mod` 2)%nat) two_trains 3
      (Some 0%nat) (Some 2%nat).
Proof.
  pose proof (VehiclesHaveSameEngineList_compares (fun v => (v `mod` 2)%nat) two_trains
                (Some 0%nat) (Some 2%nat) [0; 1]%nat [2; 3]%nat 3) as Hthm.
  cbv zeta in Hthm. destruct Hthm as (_ & _ & Hsym & _).
  - apply from_vehicle; simpl; apply from_vehicle; simpl; apply from_null.
  - apply from_vehicle; simpl; apply from_vehicle; simpl; apply from_null.
  - simpl. lia.
  - exact Hsym.
Defined.

End EngineList.

(** ** How full a consist is: [CalcPercentVehicleFilled] *)

Module Filling.
Import Core.

(** Conversions between the C++ integer types involved. *)
Definition to_int (x : Z) : Z := (x + 2 ^ 31) `mod` 2 ^ 32 - 2 ^ 31.
Definition to_uint (x : Z) : Z := x `mod` 2 ^ 32.
Definition to_uint8 (x : Z) : Z := x `mod` 2 ^ 8.

Inductive StringID :=
| STR_PERCENT_UP | STR_PERCENT_NONE | STR_PERCENT_DOWN | STR_PERCENT_UP_DOWN.

(** The fields of a [Vehicle] read by the loop. *)
Record Vehicle := {
  StoredCount : Z;        (* cargo.StoredCount() *)
  cargo_cap : Z;
  cargo_type : Z;
  CargoUnloading : bool;  (* vehicle_flags.Test(VehicleFlag::CargoUnloading) *)
}.

(** What is read of the front vehicle: its current order, two of its
    flags and the station last visited ([HasRating] per cargo type, when the
    station is valid). *)
Record Front := {
  is_loading : bool;       (* current_order.IsType(OT_LOADING) *)
  load_no_load : bool;     (* GetLoadType() & OLFB_NO_LOAD *)
  load_full_load : bool;   (* GetLoadType() & OLFB_FULL_LOAD *)
  LoadingFinished : bool;
  StopLoading : bool;
  st : option (Z -> bool);
}.

Record Counters := {
  count : Z; max : Z; cars : Z; unloading : Z; loading : bool;
}.

(** One iteration of the loop over the consist; [colour] tells whether the
    [colour] pointer is non-null. *)
Definition count_vehicle (front : Front) (colour : bool) (c : Counters) (v : Vehicle)
  : Counters :=
  let order_no_load := is_loading front && load_no_load front in
  let order_full_load := is_loading front && load_full_load front in
  let count' := to_int (c.(count) + StoredCount v) in
  let max' := to_int (c.(max) + cargo_cap v) in
  if negb (cargo_cap v =? 0) && colour then
    {| count := count'; max := max';
       cars := to_int (c.(cars) + 1);
       unloading := to_int (c.(unloading) + (if CargoUnloading v then 1 else 0));
       loading := c.(loading) ||
         (negb order_no_load &&
          (order_full_load ||
           match st front with Some goods => goods (cargo_type v) | None => false end) &&
          negb (LoadingFinished front) && negb (StopLoading front)) |}
  else
    {| count := count'; max := max'; cars := c.(cars);
       unloading := c.(unloading); loading := c.(loading) |}.

Definition colour_of (c : Counters) : StringID :=
  if (c.(unloading) =? 0) && c.(loading) then STR_PERCENT_UP
  else if (c.(unloading) =? 0) && negb c.(loading) then STR_PERCENT_NONE
  else if (c.(cars) =? c.(unloading)) || negb c.(loading) then STR_PERCENT_DOWN
  else STR_PERCENT_UP_DOWN.

Definition percentage (c : Counters) : Z :=
  if c.(max) =? 0 then 100
  else if to_int (c.(count) * 2) <? c.(max) then
    to_uint8 (CeilDiv (to_uint (to_int (c.(count) * 100))) (to_uint c.(max)))
  else
    to_uint8 (Z.quot (to_int (c.(count) * 100)) c.(max)).

(** [CalcPercentVehicleFilled(front, colour)] on the consist that [Next()]
    walks from [front].  The result is the percentage and the string written
    through [colour]; [None] is the failed assertion. *)
Definition CalcPercentVehicleFilled (front : Front) (consist : list Vehicle)
    (colour : bool) : option (Z * option StringID) :=
  if colour && negb (bool_decide (is_Some (st front)) && is_loading front) then None
  else
    let c := foldl (count_vehicle front colour)
                   {| count := 0; max := 0; cars := 0; unloading := 0; loading := false |}
                   consist in
    Some (percentage c, if colour then Some (colour_of c) else None).

(** Total cargo on board and total capacity of a consist. *)
Definition total_stored (consist : list Vehicle) : Z :=
  foldr (fun v a => StoredCount v + a) 0 consist.
Definition total_cap (consist : list Vehicle) : Z :=
  foldr (fun v a => cargo_cap v + a) 0 consist.

(** Every vehicle carries between nothing and its capacity. *)
Definition within_capacity (consist : list Vehicle) : Prop :=
  Forall (fun v => 0 <= StoredCount v <= cargo_cap v) consist.

Lemma to_int_small x : - 2 ^ 31 <= x < 2 ^ 31 -> to_int x = x.
Proof. intros Hx. unfold to_int. rewrite Z.mod_small; lia. Qed.

Lemma to_uint_small x : 0 <= x < 2 ^ 32 -> to_uint x = x.
Proof. intros Hx. unfold to_uint. apply Z.mod_small. lia. Qed.

Lemma within_capacity_totals consist :
  within_capacity consist -> 0 <= total_stored consist <= total_cap consist.
Proof.
  induction 1 as [|v l Hv _ IH]; simpl; lia.
Qed.

Lemma count_vehicle_totals front colour consist : forall c,
  within_capacity consist ->
  0 <= c.(count) -> 0 <= c.(max) ->
  c.(max) + total_cap consist < 2 ^ 31 ->
  c.(count) <= c.(max) ->
  let c' := foldl (count_vehicle front colour) c consist in
  c'.(count) = c.(count) + total_stored consist /\
  c'.(max) = c.(max) + total_cap consist.
Proof.
  induction consist as [|v l IH]; intros c Hwc Hc0 Hm0 Hfit Hle; simpl.
  - split; lia.
  - inversion Hwc as [|? ? Hv Hl]; subst. simpl in Hfit.
    pose proof (within_capacity_totals l Hl) as Htot.
    assert (Hcnt : (count_vehicle front colour c v).(count) = c.(count) + StoredCount v).
    { unfold count_vehicle. destruct (negb (cargo_cap v =? 0) && colour); simpl;
        apply to_int_small; lia. }
    assert (Hmax : (count_vehicle front colour c v).(max) = c.(max) + cargo_cap v).
    { unfold count_vehicle. destruct (negb (cargo_cap v =? 0) && colour); simpl;
        apply to_int_small; lia. }
    destruct (IH (count_vehicle front colour c v) Hl) as [H1 H2]; [lia..|].
    rewrite H1, H2, Hcnt, Hmax. split; lia.
Qed.

Lemma percentage_value cnt mx rest1 rest2 rest3 :
  0 <= cnt <= mx -> mx * 100 < 2 ^ 31 ->
  percentage {| count := cnt; max := mx; cars := rest1; unloading := rest2;
                loading := rest3 |} =
  if mx =? 0 then 100
  else if cnt * 2 <? mx then CeilDiv (cnt * 100) mx
  else (cnt * 100) `div` mx.
Proof.
  intros Hc Hm. unfold percentage. simpl.
  destruct (Z.eqb_spec mx 0) as [|Hmx]; [done|].
  rewrite (to_int_small (cnt * 2)) by lia.
  rewrite (to_int_small (cnt * 100)) by lia.
  rewrite (to_uint_small (cnt * 100)) by lia.
  rewrite (to_uint_small mx) by lia.
  assert (Hq : 0 <= (cnt * 100) `div` mx <= 100).
  { split; [apply Z.div_pos; lia|].
    apply Z.div_le_upper_bound; lia. }
  destruct (Z.ltb_spec (cnt * 2) mx) as [Hlt|Hge].
  - unfold CeilDiv, to_uint8. apply Z.mod_small.
    split; [apply Z.div_pos; lia|].
    apply Z.div_lt_upper_bound; lia.
  - rewrite Z.quot_div_nonneg by lia. unfold to_uint8. apply Z.mod_small. lia.
Qed.

(** C7: the percentage is 100 for a consist without capacity, the quotient
    rounded up below one half and rounded down from one half on; 0 is
    returned only for an empty consist and 100 only for a full one; 1 of 4
    gives 25, 2 of 4 gives 50, and 0 of 0 gives 100. *)
Theorem CalcPercentVehicleFilled_rounding (front : Front) (consist : list Vehicle)
    (colour : bool) :
  (colour = true -> is_Some (st front) /\ is_loading front = true) ->
  within_capacity consist ->
  total_cap consist * 100 < 2 ^ 31 ->
  let cnt := total_stored consist in
  let mx := total_cap consist in
  exists pct,
    fst <$> CalcPercentVehicleFilled front consist colour = Some pct /\
    (mx = 0 -> pct = 100) /\
    (mx <> 0 -> cnt * 2 < mx -> pct = CeilDiv (cnt * 100) mx) /\
    (mx <> 0 -> mx <= cnt * 2 -> pct = (cnt * 100) `div` mx) /\
    (pct = 0 <-> cnt = 0 /\ mx <> 0) /\
    (pct = 100 <-> cnt = mx) /\
    (cnt = 1 -> mx = 4 -> pct = 25) /\
    (cnt = 2 -> mx = 4 -> pct = 50) /\
    (cnt = 0 -> mx = 0 -> pct = 100).
Proof.
  intros Hassert Hwc Hfit cnt mx.
  pose proof (within_capacity_totals consist Hwc) as Htot. fold cnt mx in Htot.
  unfold CalcPercentVehicleFilled.
  assert (Hok : colour && negb (bool_decide (is_Some (st front)) && is_loading front)
                = false).
  { destruct colour; [|done]. destruct Hassert as [Hst ->]; [done|].
    rewrite bool_decide_eq_true_2 by done. done. }
  rewrite Hok. simpl.
  set (c0 := {| count := 0; max := 0; cars := 0; unloading := 0; loading := false |}).
  destruct (count_vehicle_totals front colour consist c0 Hwc) as [Hc Hm];
    simpl; try lia.
  fold cnt mx in Hc, Hm. simpl in Hc, Hm.
  set (c := foldl (count_vehicle front colour) c0 consist) in *.
  assert (Hp : percentage c =
               if mx =? 0 then 100
               else if cnt * 2 <? mx then CeilDiv (cnt * 100) mx
               else (cnt * 100) `div` mx).
  { destruct c as [a b c1 c2 c3]. simpl in Hc, Hm. subst a b.
    apply percentage_value; lia. }
  exists (percentage c). split; [done|]. rewrite Hp. clear Hp.
  destruct (Z.eqb_spec mx 0) as [Hmx|Hmx].
  { repeat split; try lia. }
  destruct (Z.ltb_spec (cnt * 2) mx) as [Hlt|Hge].
  - assert (Hup : cnt = 0 \/ 1 <= CeilDiv (cnt * 100) mx <= 50).
    { destruct (decide (cnt = 0)) as [|Hne]; [by left|right].
      unfold CeilDiv. split.
      - apply Z.div_le_lower_bound; lia.
      - assert ((cnt * 100 + mx - 1) `div` mx < 51); [|lia].
        apply Z.div_lt_upper_bound; lia. }
    assert (Hz : cnt = 0 -> CeilDiv (cnt * 100) mx = 0).
    { intros ->. unfold CeilDiv. apply Z.div_small. lia. }
    repeat split; try lia.
    + intros ->. subst mx. intros ->. done.
  - assert (Hdn : 50 <= (cnt * 100) `div` mx <= 100).
    { split; [apply Z.div_le_lower_bound; lia|apply Z.div_le_upper_bound; lia]. }
    assert (Hfull : (cnt * 100) `div` mx = 100 <-> cnt = mx).
    { split.
      - intros H100. destruct (decide (cnt = mx)) as [|Hne]; [done|].
        assert ((cnt * 100) `div` mx < 100); [|lia].
        apply Z.div_lt_upper_bound; lia.
      - intros ->. replace (mx * 100) with (100 * mx) by lia.
        apply Z.div_mul. lia. }
    repeat split; try lia.
    + intros ->. subst mx. intros ->. done.
Qed.

(** The theorem on one wagon carrying 1 of 4. *)
Lemma CalcPercentVehicleFilled_rounding_witness :
  let wagon := {| StoredCount := 1; cargo_cap := 4; cargo_type := 0;
                  CargoUnloading := false |} in
  let front := {| is_loading := false; load_no_load := false; load_full_load := false;
                  LoadingFinished := false; StopLoading := false; st := None |} in
  within_capacity [wagon] /\ total_cap [wagon] * 100 < 2 ^ 31 /\
  fst <$> CalcPercentVehicleFilled front [wagon] false = Some 25.
Proof.
  intros wagon front.
  assert (Hwc : within_capacity [wagon]).
  { constructor; [simpl; lia|constructor]. }
  assert (Hfit : total_cap [wagon] * 100 < 2 ^ 31) by (simpl; lia).
  split; [exact Hwc|]. split; [exact Hfit|].
  destruct (CalcPercentVehicleFilled_rounding front [wagon] false
              ltac:(intros [=]) Hwc Hfit)
    as (pct & Hrun & _ & _ & _ & _ & _ & H25 & _).
  vm_compute in Hrun. injection Hrun as <-. reflexivity.
Defined.

End Filling.

(** ** Unit numbers: [FreeUnitIDGenerator] *)

Module UnitNumbers.
Import Core.

Definition UINT16_MAX : Z := 65535.

(** [static_cast<UnitID>]: [UnitID] is a 16-bit unsigned integer. *)
Definition to_UnitID (x : Z) : Z := x `mod` 2 ^ 16.

Section Generator.

(** [BITMAP_SIZE], the number of bits of one [BitmapStorage] word; its
    declaration is not part of [vehicle.cpp]. *)
Variable BITMAP_SIZE : Z.

(** [~w] on a [BitmapStorage] word. *)
Definition complement (w : Z) : Z := Z.land (Z.lnot w) (Z.ones BITMAP_SIZE).

(** The loop of [FreeUnitIDGenerator::NextID]; [i] is the distance of the
    iterator from the start of [used_bitmap]. *)
Fixpoint NextID_loop (i : Z) (words : list Z) : Z :=
  match words with
  | [] => i * BITMAP_SIZE + 1
  | w :: rest =>
      let available := complement w in
      if available =? 0 then NextID_loop (i + 1) rest
      else i * BITMAP_SIZE + FindFirstBit available + 1
  end.

Definition NextID (used_bitmap : list Z) : Z :=
  to_UnitID (NextID_loop 0 used_bitmap).

(** [FreeUnitIDGenerator::UseID]: the unit number used and the new bitmap. *)
Definition UseID (used_bitmap : list Z) (index : Z) : Z * list Z :=
  if bool_decide (index = 0 \/ index = UINT16_MAX) then (index, used_bitmap)
  else
    let index := index - 1 in
    let slot := Z.to_nat (index `div` BITMAP_SIZE) in
    let used_bitmap :=
      if bool_decide (length used_bitmap <= slot)%nat
      then resize (S slot) 0 used_bitmap else used_bitmap in
    (index + 1,
     alter (fun w => SetBit w (index `mod` BITMAP_SIZE)) slot used_bitmap).

(** [FreeUnitIDGenerator::ReleaseID]; [None] is the failed assertion. *)
Definition ReleaseID (used_bitmap : list Z) (index : Z) : option (list Z) :=
  if bool_decide (index = 0 \/ index = UINT16_MAX) then Some used_bitmap
  else
    let index := index - 1 in
    let slot := Z.to_nat (index `div` BITMAP_SIZE) in
    if bool_decide (slot < length used_bitmap)%nat
    then Some (alter (fun w => ClrBit w (index `mod` BITMAP_SIZE)) slot used_bitmap)
    else None.

(** Unit number [id] is marked used: bit [id - 1] of the bitmap is set.  A
    number beyond the end of the bitmap is not marked. *)
Definition is_used (used_bitmap : list Z) (id : Z) : bool :=
  bool_decide (1 <= id) &&
  Z.testbit (default 0 (used_bitmap !! Z.to_nat ((id - 1) `div` BITMAP_SIZE)))
            ((id - 1) `mod` BITMAP_SIZE).

Hypothesis BITMAP_SIZE_pos : 0 < BITMAP_SIZE.

Lemma slot_bit q r :
  0 <= r < BITMAP_SIZE ->
  (q * BITMAP_SIZE + r) `div` BITMAP_SIZE = q /\
  (q * BITMAP_SIZE + r) `mod` BITMAP_SIZE = r.
Proof.
  intros Hr. split.
  - symmetry. apply (Z.div_unique _ _ q r); lia.
  - symmetry. apply (Z.mod_unique _ _ q r); lia.
Qed.

Lemma slot_bit_of k :
  exists q r, k = q * BITMAP_SIZE + r /\ 0 <= r < BITMAP_SIZE /\
    k `div` BITMAP_SIZE = q /\ k `mod` BITMAP_SIZE = r.
Proof.
  exists (k `div` BITMAP_SIZE), (k `mod` BITMAP_SIZE).
  pose proof (Z.div_mod k BITMAP_SIZE ltac:(lia)).
  pose proof (Z.mod_pos_bound k BITMAP_SIZE ltac:(lia)).
  repeat split; lia.
Qed.

Lemma complement_testbit w j :
  0 <= j < BITMAP_SIZE ->
  Z.testbit (complement w) j = negb (Z.testbit w j).
Proof.
  intros Hj. unfold complement.
  rewrite Z.land_spec, Z.lnot_spec, Z.ones_spec_low by lia.
  apply andb_true_r.
Qed.

Lemma complement_high w j : BITMAP_SIZE <= j -> Z.testbit (complement w) j = false.
Proof.
  intros Hj. unfold complement.
  rewrite Z.land_spec, Z.ones_spec_high by lia. apply andb_false_r.
Qed.

Lemma complement_nonneg w : 0 <= complement w.
Proof.
  unfold complement. apply Z.land_nonneg. right. rewrite Z.ones_equiv.
  pose proof (Z.pow_pos_nonneg 2 BITMAP_SIZE). lia.
Qed.

Lemma complement_zero w j :
  complement w = 0 -> 0 <= j < BITMAP_SIZE -> Z.testbit w j = true.
Proof.
  intros H0 Hj. pose proof (complement_testbit w j Hj) as H.
  rewrite H0, Z.bits_0 in H. destruct (Z.testbit w j); done.
Qed.

(** The lowest clear bit of a word that is not full. *)
Lemma complement_first w :
  complement w <> 0 ->
  let j := FindFirstBit (complement w) in
  0 <= j < BITMAP_SIZE /\ Z.testbit w j = false /\
  forall i, 0 <= i < j -> Z.testbit w i = true.
Proof.
  intros Hne j. pose proof (complement_nonneg w) as Hnn.
  destruct (FindFirstBit_spec (complement w)) as (Hj0 & Hset & Hlow); [lia|].
  fold j in Hj0, Hset, Hlow.
  assert (Hlt : j < BITMAP_SIZE).
  { destruct (decide (j < BITMAP_SIZE)) as [|Hge]; [done|].
    rewrite complement_high in Hset by lia. done. }
  split; [lia|]. split.
  - rewrite complement_testbit in Hset by lia.
    destruct (Z.testbit w j); done.
  - intros i Hi. specialize (Hlow i Hi).
    rewrite complement_testbit in Hlow by lia.
    destruct (Z.testbit w i); done.
Qed.

Lemma is_used_at pre w rest q r :
  q = Z.of_nat (length pre) -> 0 <= r < BITMAP_SIZE ->
  is_used (pre ++ w :: rest) (q * BITMAP_SIZE + r + 1) = Z.testbit w r.
Proof.
  intros -> Hr. unfold is_used.
  replace (Z.of_nat (length pre) * BITMAP_SIZE + r + 1 - 1)
    with (Z.of_nat (length pre) * BITMAP_SIZE + r) by lia.
  destruct (slot_bit (Z.of_nat (length pre)) r Hr) as [-> ->].
  rewrite Nat2Z.id, list_lookup_middle by done. simpl.
  rewrite bool_decide_eq_true_2; [done|nia].
Qed.

Lemma is_used_beyond bm id :
  Z.of_nat (length bm) * BITMAP_SIZE < id -> is_used bm id = false.
Proof.
  intros Hid. unfold is_used.
  destruct (slot_bit_of (id - 1)) as (q & r & Hk & Hr & -> & ->).
  rewrite lookup_ge_None_2; [apply andb_false_iff; right; apply Z.bits_0|].
  assert (Z.of_nat (length bm) <= q) by nia. lia.
Qed.

(** The loop returns the first unmarked number at or after the word it
    starts from. *)
Lemma NextID_loop_spec words : forall pre,
  let n := NextID_loop (Z.of_nat (length pre)) words in
  Z.of_nat (length pre) * BITMAP_SIZE + 1 <= n
    <= (Z.of_nat (length pre) + Z.of_nat (length words)) * BITMAP_SIZE + 1 /\
  is_used (pre ++ words) n = false /\
  forall k, Z.of_nat (length pre) * BITMAP_SIZE + 1 <= k < n ->
    is_used (pre ++ words) k = true.
Proof.
  induction words as [|w rest IH]; intros pre n; subst n; simpl.
  - rewrite app_nil_r. split; [lia|]. split; [|intros k Hk; lia].
    apply is_used_beyond. lia.
  - destruct (Z.eqb_spec (complement w) 0) as [Hfull|Hfree].
    + specialize (IH (pre ++ [w])). simpl in IH.
      rewrite <- app_assoc, length_app in IH. simpl in IH.
      replace (Z.of_nat (length pre + 1)) with (Z.of_nat (length pre) + 1) in IH by lia.
      destruct IH as (Hb & Hn & Hlow). split; [nia|].
      split; [done|]. intros k Hk.
      destruct (decide (k <= (Z.of_nat (length pre) + 1) * BITMAP_SIZE)) as [Hin|Hout];
        [|apply Hlow; lia].
      replace k with (Z.of_nat (length pre) * BITMAP_SIZE
                      + (k - 1 - Z.of_nat (length pre) * BITMAP_SIZE) + 1) by lia.
      rewrite is_used_at by (done || lia).
      apply complement_zero; [done|lia].
    + destruct (complement_first w Hfree) as (Hj & Hclr & Hset).
      set (j := FindFirstBit (complement w)) in *.
      split; [nia|].
      split. { rewrite is_used_at by done. done. }
      intros k Hk.
      replace k with (Z.of_nat (length pre) * BITMAP_SIZE
                      + (k - 1 - Z.of_nat (length pre) * BITMAP_SIZE) + 1) by lia.
      rewrite is_used_at by (done || lia). apply Hset. lia.
Qed.

(** The number found is the least unmarked positive one. *)
Lemma NextID_loop_least bm :
  let n := NextID_loop 0 bm in
  1 <= n <= Z.of_nat (length bm) * BITMAP_SIZE + 1 /\
  is_used bm n = false /\
  forall k, 1 <= k < n -> is_used bm k = true.
Proof.
  pose proof (NextID_loop_spec bm []) as H. simpl in H.
  change (Z.of_nat 0) with 0 in H.
  destruct H as (Hb & Hn & Hlow). intros n. subst n.
  split; [lia|]. split; [done|]. intros k Hk. apply Hlow. lia.
Qed.

Lemma least_unique bm n m :
  1 <= n -> is_used bm n = false -> (forall k, 1 <= k < n -> is_used bm k = true) ->
  1 <= m -> is_used bm m = false -> (forall k, 1 <= k < m -> is_used bm k = true) ->
  n = m.
Proof.
  intros Hn Hnu Hnl Hm Hmu Hml.
  destruct (Z.lt_trichotomy n m) as [Hlt|[Heq|Hgt]]; [|done|].
  - rewrite Hml in Hnu by lia. done.
  - rewrite Hnl in Hmu by lia. done.
Qed.

Lemma is_used_UseID bm id k :
  1 <= id < UINT16_MAX ->
  is_used (UseID bm id).2 k = bool_decide (k = id) || is_used bm k.
Proof.
  intros Hid. unfold UseID.
  rewrite bool_decide_eq_false_2 by (unfold UINT16_MAX in *; lia). simpl.
  unfold is_used.
  destruct (decide (1 <= k)) as [Hk|Hk]; cycle 1.
  { rewrite !(bool_decide_eq_false_2 (1 <= k)) by done.
    rewrite (bool_decide_eq_false_2 (k = id)) by lia. done. }
  rewrite !(bool_decide_eq_true_2 (1 <= k)) by done. simpl.
  destruct (slot_bit_of (id - 1)) as (q & r & Hi & Hr & Hq' & Hr').
  destruct (slot_bit_of (k - 1)) as (q2 & r2 & Hk2 & Hr2 & Hq2' & Hr2').
  rewrite Hq', Hr', Hq2', Hr2'.
  assert (Hq0 : 0 <= q) by nia. assert (Hq20 : 0 <= q2) by nia.
  set (bm' := if bool_decide (length bm <= Z.to_nat q)%nat
              then resize (S (Z.to_nat q)) 0 bm else bm).
  assert (Hlen : (Z.to_nat q < length bm')%nat).
  { subst bm'. case_bool_decide; [rewrite length_resize|]; lia. }
  assert (Hsame : forall i, default 0 (bm' !! i) = default 0 (bm !! i)).
  { intros i. subst bm'. case_bool_decide as Hc; [|done].
    destruct (decide (i < length bm)%nat) as [Hi1|Hi1].
    - rewrite lookup_resize by lia. done.
    - rewrite (lookup_ge_None_2 bm) by lia.
      destruct (decide (i < S (Z.to_nat q))%nat).
      + rewrite lookup_resize_new by lia. done.
      + rewrite lookup_resize_old by lia. done. }
  rewrite list_lookup_alter.
  destruct (decide (Z.to_nat q = Z.to_nat q2)) as [Heq|Hneq].
  - assert (Hqq : q2 = q) by lia. rewrite Hqq in *. clear Hqq.
    destruct (lookup_lt_is_Some_2 bm' (Z.to_nat q) Hlen) as [w Hw].
    rewrite Hw. simpl. unfold SetBit. rewrite Z.setbit_eqb by lia.
    specialize (Hsame (Z.to_nat q)). rewrite Hw in Hsame. simpl in Hsame.
    rewrite <- Hsame.
    destruct (Z.eqb_spec r r2) as [Hrr|Hrr].
    + rewrite bool_decide_eq_true_2 by lia. done.
    + rewrite bool_decide_eq_false_2 by lia. done.
  - rewrite Hsame. rewrite bool_decide_eq_false_2; [done|].
    intros ->. apply Hneq. congruence.
Qed.

Lemma is_used_ReleaseID bm id bm' k :
  1 <= id < UINT16_MAX -> ReleaseID bm id = Some bm' ->
  is_used bm' k = negb (bool_decide (k = id)) && is_used bm k.
Proof.
  intros Hid. unfold ReleaseID.
  rewrite bool_decide_eq_false_2 by (unfold UINT16_MAX in *; lia). simpl.
  case_bool_decide as Hlen; [|done]. intros [= <-].
  unfold is_used.
  destruct (decide (1 <= k)) as [Hk|Hk]; cycle 1.
  { rewrite !(bool_decide_eq_false_2 (1 <= k)) by done. simpl.
    apply eq_sym, andb_false_r. }
  rewrite !(bool_decide_eq_true_2 (1 <= k)) by done. simpl.
  destruct (slot_bit_of (id - 1)) as (q & r & Hi & Hr & Hq' & Hr').
  destruct (slot_bit_of (k - 1)) as (q2 & r2 & Hk2 & Hr2 & Hq2' & Hr2').
  rewrite Hq' in Hlen. rewrite Hq', Hr', Hq2', Hr2'.
  assert (Hq0 : 0 <= q) by nia. assert (Hq20 : 0 <= q2) by nia.
  rewrite list_lookup_alter.
  destruct (decide (Z.to_nat q = Z.to_nat q2)) as [Heq|Hneq].
  - assert (Hqq : q2 = q) by lia. rewrite Hqq in *. clear Hqq.
    destruct (lookup_lt_is_Some_2 bm (Z.to_nat q) Hlen) as [w Hw].
    rewrite Hw. simpl. unfold ClrBit. rewrite Z.clearbit_eqb.
    destruct (Z.eqb_spec r r2) as [Hrr|Hrr].
    + rewrite bool_decide_eq_true_2 by lia. simpl. apply andb_false_r.
    + rewrite bool_decide_eq_false_2 by lia. simpl. apply andb_true_r.
  - rewrite bool_decide_eq_false_2; [done|].
    intros ->. apply Hneq. congruence.
Qed.

Lemma UseID_length bm id : (length bm <= length (UseID bm id).2)%nat.
Proof.
  unfold UseID. case_bool_decide; simpl; [done|].
  rewrite length_alter. case_bool_decide; [rewrite length_resize|]; lia.
Qed.

Lemma UseID_slot_length bm id :
  1 <= id < UINT16_MAX ->
  (Z.to_nat ((id - 1) `div` BITMAP_SIZE) < length (UseID bm id).2)%nat.
Proof.
  intros Hid. unfold UseID.
  rewrite bool_decide_eq_false_2 by (unfold UINT16_MAX in *; lia). simpl.
  rewrite length_alter. case_bool_decide; [rewrite length_resize|]; lia.
Qed.

(** Nothing beyond what [UseID] accepts is ever marked. *)
Definition tracked (bm : list Z) : Prop :=
  forall k, is_used bm k = true -> k < UINT16_MAX.

Lemma NextID_exact bm : tracked bm -> NextID bm = NextID_loop 0 bm.
Proof.
  intros Htr. destruct (NextID_loop_least bm) as (Hb & Hn & Hlow).
  unfold NextID, to_UnitID. apply Z.mod_small.
  split; [lia|].
  destruct (decide (NextID_loop 0 bm <= 1)) as [|Hbig]; [lia|].
  pose proof (Htr (NextID_loop 0 bm - 1) (Hlow (NextID_loop 0 bm - 1) ltac:(lia))).
  unfold UINT16_MAX in *. lia.
Qed.

(** The bitmap after marking each number of [ids] in turn. *)
Definition UseIDs (bm : list Z) (ids : list Z) : list Z :=
  foldl (fun b i => (UseID b i).2) bm ids.

(** C8: [NextID] returns the smallest positive unit number that is not marked
    used, which is at most one past the end of the bitmap and exactly that
    when every tracked bit is set; after marking 1 to 5 and releasing 3 it
    returns 3, and once 3 is marked again it returns 6. *)
Theorem NextID_smallest_unused (bm : list Z) :
  tracked bm ->
  (1 <= NextID bm <= Z.of_nat (length bm) * BITMAP_SIZE + 1 /\
   is_used bm (NextID bm) = false /\
   (forall k, 1 <= k < NextID bm -> is_used bm k = true) /\
   ((forall k, 1 <= k <= Z.of_nat (length bm) * BITMAP_SIZE -> is_used bm k = true) ->
    NextID bm = Z.of_nat (length bm) * BITMAP_SIZE + 1)) /\
  exists released,
    ReleaseID (UseIDs [] [1; 2; 3; 4; 5]) 3 = Some released /\
    NextID released = 3 /\
    NextID (UseID released 3).2 = 6.
Proof.
  intros Htr. split.
  - rewrite (NextID_exact bm Htr).
    destruct (NextID_loop_least bm) as (Hb & Hn & Hlow).
    split; [done|]. split; [done|]. split; [done|].
    intros Hall.
    destruct (decide (NextID_loop 0 bm = Z.of_nat (length bm) * BITMAP_SIZE + 1))
      as [|Hne]; [done|].
    rewrite Hall in Hn by lia. done.
  - set (b5 := UseIDs [] [1; 2; 3; 4; 5]).
    assert (Hid : forall i, 1 <= i <= 6 -> 1 <= i < UINT16_MAX)
      by (unfold UINT16_MAX; lia).
    assert (Hb5 : forall k, is_used b5 k = bool_decide (1 <= k <= 5)).
    { intros k. unfold b5, UseIDs. cbn [foldl].
      rewrite !is_used_UseID by (apply Hid; lia).
      assert (Hnil : is_used [] k = false).
      { unfold is_used. rewrite lookup_nil. simpl. rewrite Z.bits_0.
        apply andb_false_r. }
      rewrite Hnil. repeat case_bool_decide; simpl; try done; lia. }
    assert (Hlen : (Z.to_nat ((3 - 1) `div` BITMAP_SIZE) < length b5)%nat).
    { unfold b5, UseIDs. cbn [foldl].
      set (b2 := (UseID (UseID [] 1).2 2).2).
      pose proof (UseID_slot_length b2 3 (Hid 3 ltac:(lia))) as H3.
      pose proof (UseID_length (UseID b2 3).2 4) as H4.
      pose proof (UseID_length (UseID (UseID b2 3).2 4).2 5) as H5. lia. }
    assert (Hrel : exists released, ReleaseID b5 3 = Some released).
    { unfold ReleaseID. rewrite bool_decide_eq_false_2 by (unfold UINT16_MAX; lia).
      cbv zeta. rewrite bool_decide_eq_true_2 by done. eauto. }
    destruct Hrel as [released Hrel]. exists released. split; [done|].
    assert (Hr : forall k, is_used released k
                           = bool_decide (1 <= k <= 5 /\ k <> 3)).
    { intros k. rewrite (is_used_ReleaseID b5 3 released k) by (done || apply Hid; lia).
      rewrite Hb5. repeat case_bool_decide; simpl; try done; lia. }
    assert (Hr3 : forall k, is_used (UseID released 3).2 k
                            = bool_decide (1 <= k <= 5)).
    { intros k. rewrite is_used_UseID by (apply Hid; lia).
      rewrite Hr. repeat case_bool_decide; simpl; try done; lia. }
    split.
    + rewrite NextID_exact.
      * destruct (NextID_loop_least released) as (Hb & Hn & Hlow).
        apply (least_unique released _ 3 (proj1 Hb) Hn Hlow ltac:(lia)).
        -- rewrite Hr. apply bool_decide_eq_false_2. lia.
        -- intros k Hk. rewrite Hr. apply bool_decide_eq_true_2. lia.
      * intros k Hk. rewrite Hr in Hk. apply bool_decide_eq_true_1 in Hk.
        unfold UINT16_MAX. lia.
    + rewrite NextID_exact.
      * destruct (NextID_loop_least (UseID released 3).2) as (Hb & Hn & Hlow).
        apply (least_unique (UseID released 3).2 _ 6 (proj1 Hb) Hn Hlow ltac:(lia)).
        -- rewrite Hr3. apply bool_decide_eq_false_2. lia.
        -- intros k Hk. rewrite Hr3. apply bool_decide_eq_true_2. lia.
      * intros k Hk. rewrite Hr3 in Hk. apply bool_decide_eq_true_1 in Hk.
        unfold UINT16_MAX. lia.
Qed.

(** *** Using and releasing numbers *)

Lemma is_used_nil k : is_used [] k = false.
Proof.
  unfold is_used. rewrite lookup_nil. simpl. rewrite Z.bits_0. apply andb_false_r.
Qed.

Lemma least_is_NextID bm n :
  tracked bm -> 1 <= n -> is_used bm n = false ->
  (forall k, 1 <= k < n -> is_used bm k = true) -> NextID bm = n.
Proof.
  intros Htr Hn Hnu Hlow. rewrite (NextID_exact bm Htr).
  destruct (NextID_loop_least bm) as (Hb & Hu & Hl).
  by apply (least_unique bm _ n (proj1 Hb) Hu Hl Hn).
Qed.

(** "Get a number and use it", [n] times over; the numbers handed out and
    the bitmap left. *)
Fixpoint allocate (n : nat) (bm : list Z) : list Z * list Z :=
  match n with
  | O => ([], bm)
  | S n =>
      let '(id, bm) := UseID bm (NextID bm) in
      let '(ids, bm) := allocate n bm in
      (id :: ids, bm)
  end.

Lemma allocate_from m n : forall bm,
  0 <= m -> m + Z.of_nat n < UINT16_MAX ->
  (forall k, is_used bm k = bool_decide (1 <= k <= m)) ->
  (allocate n bm).1 = (fun i => m + 1 + Z.of_nat i) <$> seq 0 n /\
  forall k, is_used (allocate n bm).2 k = bool_decide (1 <= k <= m + Z.of_nat n).
Proof.
  revert m. induction n as [|n IH]; intros m bm Hm Hmax Hbm; cbn [allocate].
  - split; [done|]. intros k. rewrite Hbm. f_equal. 
    apply bool_decide_ext. lia.
  - assert (Htr : tracked bm).
    { intros k Hk. rewrite Hbm in Hk. apply bool_decide_eq_true_1 in Hk. lia. }
    assert (Hnext : NextID bm = m + 1).
    { apply least_is_NextID; [done|lia| |].
      - rewrite Hbm. apply bool_decide_eq_false_2. lia.
      - intros k Hk. rewrite Hbm. apply bool_decide_eq_true_2. lia. }
    rewrite Hnext.
    assert (Hid : 1 <= m + 1 < UINT16_MAX) by lia.
    assert (Hret : (UseID bm (m + 1)).1 = m + 1).
    { unfold UseID. rewrite bool_decide_eq_false_2 by (unfold UINT16_MAX in *; lia).
      simpl. lia. }
    destruct (UseID bm (m + 1)) as [id bm1] eqn:Huse. simpl in Hret. subst id.
    destruct (IH (m + 1) bm1) as [Hids Hused]; [lia|lia| |].
    { intros k. replace bm1 with (UseID bm (m + 1)).2 by (by rewrite Huse).
      rewrite (is_used_UseID bm (m + 1) k Hid), Hbm.
      destruct (decide (k = m + 1)) as [->|Hk].
      - rewrite bool_decide_eq_true_2 by done. simpl. symmetry.
        apply bool_decide_eq_true_2. lia.
      - rewrite (bool_decide_eq_false_2 (k = m + 1)) by done. simpl.
        apply bool_decide_ext. lia. }
    destruct (allocate n bm1) as [ids bm2]. simpl in *. split.
    + f_equal; [lia|]. rewrite Hids. rewrite <- (fmap_S_seq 0 n), <- list_fmap_compose.
      apply list_fmap_ext. intros i x _. simpl. lia.
    + intros k. rewrite Hused. apply bool_decide_ext. lia.
Qed.

(** X22: [UseID] of a valid number returns it and marks it and no other
    number; [ReleaseID] of it then succeeds and leaves marked what was
    marked before without that number.  The numbers 0 and [UINT16_MAX] are
    ignored by both.  [ReleaseID] trips its assertion exactly for a valid
    number whose word lies beyond the end of the bitmap. *)
Theorem UseID_then_ReleaseID (bm : list Z) (id : Z) :
  1 <= id < UINT16_MAX ->
  (UseID bm id).1 = id /\
  (forall k, is_used (UseID bm id).2 k = bool_decide (k = id) || is_used bm k) /\
  (exists bm', ReleaseID (UseID bm id).2 id = Some bm' /\
     forall k, is_used bm' k = negb (bool_decide (k = id)) && is_used bm k) /\
  (ReleaseID bm id = None <->
     Z.of_nat (length bm) <= (id - 1) `div` BITMAP_SIZE) /\
  UseID bm 0 = (0, bm) /\ UseID bm UINT16_MAX = (UINT16_MAX, bm) /\
  ReleaseID bm 0 = Some bm /\ ReleaseID bm UINT16_MAX = Some bm.
Proof.
  intros Hid.
  assert (Hvalid : bool_decide (id = 0 \/ id = UINT16_MAX) = false).
  { apply bool_decide_eq_false_2. unfold UINT16_MAX in *. lia. }
  split.
  { unfold UseID. rewrite Hvalid. simpl. lia. }
  split; [intros k; by apply is_used_UseID|].
  split.
  { pose proof (UseID_slot_length bm id Hid) as Hlen.
    assert (Hrel : exists bm', ReleaseID (UseID bm id).2 id = Some bm').
    { unfold ReleaseID. rewrite Hvalid. cbv zeta.
      rewrite bool_decide_eq_true_2 by done. eauto. }
    destruct Hrel as [bm' Hrel]. exists bm'. split; [done|]. intros k.
    rewrite (is_used_ReleaseID _ id bm' k Hid Hrel), (is_used_UseID bm id k Hid).
    destruct (bool_decide (k = id)); simpl; done. }
  split.
  { unfold ReleaseID. rewrite Hvalid. cbv zeta.
    assert (0 <= (id - 1) `div` BITMAP_SIZE) by (apply Z.div_pos; lia).
    destruct (decide (Z.to_nat ((id - 1) `div` BITMAP_SIZE) < length bm)%nat)
      as [Hlen|Hlen].
    - rewrite bool_decide_eq_true_2 by done. split; [done|lia].
    - rewrite bool_decide_eq_false_2 by done. split; [lia|done]. }
  unfold UseID, ReleaseID.
  rewrite !(bool_decide_eq_true_2 (0 = 0 \/ _)) by (by left).
  rewrite !(bool_decide_eq_true_2 (UINT16_MAX = 0 \/ _)) by (by right).
  done.
Qed.

(** X23: on a bitmap that marks no number from [UINT16_MAX] on, [NextID]
    gives a free number from 1 to [UINT16_MAX], and [UseID] returns it.
    While it is below [UINT16_MAX], using it marks that number and no other,
    and the next number given is larger.  It is [UINT16_MAX] exactly when
    every number below [UINT16_MAX] is marked; [UseID] then ignores it, the
    bitmap stays as it is and [NextID] gives [UINT16_MAX] again. *)
Theorem NextID_then_UseID (bm : list Z) :
  tracked bm ->
  let bm' := (UseID bm (NextID bm)).2 in
  1 <= NextID bm <= UINT16_MAX /\
  (UseID bm (NextID bm)).1 = NextID bm /\
  is_used bm (NextID bm) = false /\
  tracked bm' /\
  (NextID bm < UINT16_MAX ->
     (forall k, is_used bm' k = bool_decide (k = NextID bm) || is_used bm k) /\
     NextID bm < NextID bm') /\
  (NextID bm = UINT16_MAX <->
     forall k, 1 <= k < UINT16_MAX -> is_used bm k = true) /\
  (NextID bm = UINT16_MAX -> bm' = bm /\ NextID bm' = UINT16_MAX).
Proof.
  intros Htr bm'.
  destruct (NextID_loop_least bm) as (Hb & Hu & Hl).
  rewrite <- (NextID_exact bm Htr) in Hb, Hu, Hl.
  assert (Htop : NextID bm <= UINT16_MAX).
  { unfold NextID, to_UnitID, UINT16_MAX.
    pose proof (Z.mod_pos_bound (NextID_loop 0 bm) (2 ^ 16) ltac:(lia)). lia. }
  assert (Hlast : NextID bm = UINT16_MAX -> UseID bm (NextID bm) = (UINT16_MAX, bm)).
  { intros ->. unfold UseID. by rewrite bool_decide_eq_true_2 by (by right). }
  assert (Hused : NextID bm < UINT16_MAX ->
            forall k, is_used bm' k = bool_decide (k = NextID bm) || is_used bm k).
  { intros Hmax k. apply is_used_UseID. lia. }
  assert (Htr' : tracked bm').
  { destruct (decide (NextID bm = UINT16_MAX)) as [Heq|Hne].
    - unfold bm'. by rewrite (Hlast Heq).
    - intros k. rewrite Hused by lia. intros [Hk|Hk]%orb_true_iff.
      + apply bool_decide_eq_true_1 in Hk. lia.
      + by apply Htr. }
  split; [lia|].
  split.
  { destruct (decide (NextID bm = UINT16_MAX)) as [Heq|Hne].
    - by rewrite (Hlast Heq), Heq.
    - unfold UseID. rewrite bool_decide_eq_false_2 by (unfold UINT16_MAX in *; lia).
      simpl. lia. }
  split; [done|]. split; [done|].
  split.
  { intros Hmax. split; [by apply Hused|].
    destruct (NextID_loop_least bm') as (Hb' & Hu' & Hl').
    rewrite <- (NextID_exact bm' Htr') in Hb', Hu', Hl'.
    destruct (decide (NextID bm < NextID bm')) as [|Hle]; [done|].
    exfalso. rewrite Hused in Hu' by done. apply orb_false_iff in Hu' as [Hne Hfree].
    apply bool_decide_eq_false_1 in Hne.
    rewrite Hl in Hfree by lia. done. }
  split.
  { split.
    - intros Heq k Hk. apply Hl. lia.
    - intros Hall. destruct (decide (NextID bm = UINT16_MAX)) as [|Hne]; [done|].
      rewrite Hall in Hu by lia. done. }
  intros Heq. unfold bm'. rewrite (Hlast Heq). cbn [snd]. done.
Qed.

(** X24: a generator that starts empty hands out the numbers 1, 2, 3 and so
    on, in this order, when each number got from [NextID] is used; after [n]
    of them exactly the numbers from 1 to [n] are marked. *)
Theorem allocate_from_empty (n : nat) :
  Z.of_nat n < UINT16_MAX ->
  (allocate n []).1 = (fun i => Z.of_nat (S i)) <$> seq 0 n /\
  forall k, is_used (allocate n []).2 k = bool_decide (1 <= k <= Z.of_nat n).
Proof.
  intros Hn.
  destruct (allocate_from 0 n [] ltac:(lia) ltac:(lia)) as [Hids Hused].
  { intros k. rewrite is_used_nil. symmetry. apply bool_decide_eq_false_2. lia. }
  split.
  - rewrite Hids. apply list_fmap_ext. intros i x _. lia.
  - intros k. rewrite Hused. apply bool_decide_ext. lia.
Qed.

End Generator.

(** The theorem at 64-bit words and a fresh generator. *)
Lemma NextID_smallest_unused_witness :
  0 < 64 /\ tracked 64 [] /\ NextID 64 [] = 1.
Proof.
  assert (Htr : tracked 64 []).
  { intros k Hk. unfold is_used in Hk. rewrite lookup_nil in Hk. simpl in Hk.
    rewrite Z.bits_0, andb_false_r in Hk. done. }
  split; [lia|]. split; [exact Htr|].
  pose proof (NextID_smallest_unused 64 ltac:(lia) [] Htr) as [(Hb & _) _].
  simpl in Hb. lia.
Defined.

Lemma UseID_then_ReleaseID_witness :
  exists bm', ReleaseID 64 (UseID 64 [] 70).2 70 = Some bm' /\
    is_used 64 bm' 70 = false.
Proof.
  destruct (UseID_then_ReleaseID 64 ltac:(lia) [] 70 ltac:(unfold UINT16_MAX; lia))
    as (_ & _ & (bm' & Hrel & Hused) & _).
  exists bm'. split; [exact Hrel|]. rewrite Hused. reflexivity.
Defined.

Lemma NextID_then_UseID_witness :
  NextID 64 [] < NextID 64 (UseID 64 [] (NextID 64 [])).2.
Proof.
  assert (Htr : tracked 64 []).
  { intros k Hk. unfold is_used in Hk. rewrite lookup_nil in Hk. simpl in Hk.
    rewrite Z.bits_0, andb_false_r in Hk. discriminate Hk. }
  destruct (NextID_then_UseID 64 ltac:(lia) [] Htr) as (_ & _ & _ & _ & Hnext & _).
  destruct Hnext as [_ Hlt]; [reflexivity|exact Hlt].
Defined.

Lemma allocate_from_empty_witness :
  (allocate 64 3 []).1 = [1; 2; 3].
Proof.
  destruct (allocate_from_empty 64 ltac:(lia) 3) as [Hids _].
  - reflexivity.
  - exact Hids.
Defined.

End UnitNumbers.
